(** * Slicer panel: the offline audio analysis pipeline

    A shallow embedding of [lib/fft.js] (the transform engine) and of
    [workers/precompute-worker.js] (the pipeline orchestrator and its
    stages), followed by the properties of the specification that concern
    them.

    Numbers.  JavaScript numbers that the code uses as integers (lengths,
    indices, frame counts, sizes) are [Z]; the operators [&], [^], [>>] and
    [<<] go through the 32-bit conversion [ToInt32], which is written out.
    Sample values, magnitudes and every other fractional quantity are real
    numbers [R]: the embedding is the program over ideal arithmetic, a
    [Float32Array] is a [list R] and the rounding of a store into it is not
    modelled.  A [Uint8Array] or [Uint32Array] is a [list Z].

    Limits.  The limits that the language sets are modelled: the 32-bit
    operators, the store into a [Uint8Array] or [Uint32Array], the
    [RangeError] of [new Array(length)] from 2^32 on and the one of a typed
    array whose length is negative or 2^53 and more.  The memory of the
    engine is not: an allocation within those limits succeeds.  Nor is the
    growth of an array by [push] (the onsets, the faults, the transferable
    buffers), which fails when the array has 2^32 - 1 entries: the
    properties that say that a run returns are stated for tracks of fewer
    than 2^30 samples, which cannot make an array that long.

    Requests.  The fields [hopSize], [numBands] and [numSamples] of a
    request are modelled where they are integers, or missing or no number;
    a value with a fractional part, or an infinite one, is outside the
    embedding. *)

From Stdlib Require Import Reals ZArith List Sorted String Bool Lia Lra Psatz.
From Stdlib Require Import FunctionalExtensionality.
Import ListNotations.
Open Scope string_scope.
Open Scope Z_scope.

(** ** JavaScript base operations *)

Module JS.

(** [ToInt32]: the signed 32-bit wrap-around applied by the bit operators. *)
Definition ToInt32 (z : Z) : Z := (z + 2 ^ 31) mod 2 ^ 32 - 2 ^ 31.

(** [a & b] *)
Definition and32 (a b : Z) : Z := Z.land (ToInt32 a) (ToInt32 b).

(** [a ^ b] *)
Definition xor32 (a b : Z) : Z := Z.lxor (ToInt32 a) (ToInt32 b).

(** [a >> n] (sign-propagating) *)
Definition shr32 (a n : Z) : Z := Z.shiftr (ToInt32 a) (n mod 32).

(** [a << n] *)
Definition shl32 (a n : Z) : Z := ToInt32 (Z.shiftl (ToInt32 a) (n mod 32)).

(** Stores into a [Uint8Array] and a [Uint32Array] keep the low bits. *)
Definition ToUint8 (z : Z) : Z := z mod 2 ^ 8.
Definition ToUint32 (z : Z) : Z := z mod 2 ^ 32.

(** How a call completes: normally, by a thrown [Error], or not at all. *)
Inductive outcome (A : Type) : Type :=
| Returns (a : A)
| Throws (message : string)
| Diverges.
Arguments Returns {A} a.
Arguments Throws {A} message.
Arguments Diverges {A}.

(** *** Arrays *)

(** [a[i]] for a typed array: an index that is out of range reads
    [undefined], for which [d] stands. *)
Definition rd {A : Type} (d : A) (a : list A) (i : Z) : A :=
  if i <? 0 then d else nth (Z.to_nat i) a d.

Fixpoint upd {A : Type} (a : list A) (n : nat) (v : A) : list A :=
  match a, n with
  | [], _ => []
  | _ :: t, O => v :: t
  | x :: t, S m => x :: upd t m v
  end.

(** [a[i]] where the code tells [undefined] apart. *)
Definition rd_opt {A : Type} (a : list A) (i : Z) : option A :=
  if i <? 0 then None else nth_error a (Z.to_nat i).

(** [a[i] = v] for a typed array: a store out of range is ignored. *)
Definition wr {A : Type} (a : list A) (i : Z) (v : A) : list A :=
  if i <? 0 then a else upd a (Z.to_nat i) v.

(** [a.length] *)
Definition len {A : Type} (a : list A) : Z := Z.of_nat (List.length a).

(** [new Float32Array(n)], [new Uint8Array(n)]: [n] zeros. *)
Definition alloc {A : Type} (zero : A) (n : Z) : list A := repeat zero (Z.to_nat n).

(** The indices [lo, lo+1, ..., hi-1]. *)
Definition range (lo hi : Z) : list Z :=
  map (fun k => lo + Z.of_nat k) (seq 0 (Z.to_nat (hi - lo))).

(** An array of [n] cells whose cell [i] is assigned [f i] by a loop
    [for (let i = 0; i < n; i += 1) a[i] = f(i)]. *)
Definition tabulate {A : Type} (n : Z) (f : Z -> A) : list A := map f (range 0 n).

(** [for (let i = lo; i < hi; i += 1) body]: the loop state is threaded
    through the iterations. *)
Fixpoint for_count {S : Type} (n : nat) (i : Z) (body : Z -> S -> S) (s : S) : S :=
  match n with
  | O => s
  | Datatypes.S m => for_count m (i + 1) body (body i s)
  end.

Definition for_range {S : Type} (lo hi : Z) (body : Z -> S -> S) (s : S) : S :=
  for_count (Z.to_nat (hi - lo)) lo body s.

(** The same loop with a body that may fail to terminate. *)
Fixpoint for_count_opt {S : Type} (n : nat) (i : Z) (body : Z -> S -> option S) (s : S)
  : option S :=
  match n with
  | O => Some s
  | Datatypes.S m =>
      match body i s with
      | None => None
      | Some s' => for_count_opt m (i + 1) body s'
      end
  end.

Definition for_range_opt {S : Type} (lo hi : Z) (body : Z -> S -> option S) (s : S)
  : option S :=
  for_count_opt (Z.to_nat (hi - lo)) lo body s.

(** [a.fill(v, start, end)] with the relative indices of the language. *)
Definition fill_bound {A : Type} (a : list A) (k : Z) : Z :=
  if k <? 0 then Z.max (len a + k) 0 else Z.min k (len a).

Definition fill {A : Type} (a : list A) (v : A) (start stop : Z) : list A :=
  for_range (fill_bound a start) (fill_bound a stop) (fun i a => wr a i v) a.

(** [a.slice(0, n)] for [0 <= n]. *)
Definition slice0 {A : Type} (a : list A) (n : Z) : list A := firstn (Z.to_nat n) a.

(** [a.sort((x, y) => x - y)] on numbers: the ascending arrangement. *)
Fixpoint insertSorted (x : R) (l : list R) : list R :=
  match l with
  | [] => [x]
  | y :: t => if Rle_dec x y then x :: l else y :: insertSorted x t
  end.

Definition sortNumeric (l : list R) : list R := fold_right insertSorted [] l.

(** Comparisons of numbers as conditions. *)
Definition Rleb (x y : R) : bool := if Rle_dec x y then true else false.
Definition Rltb (x y : R) : bool := if Rlt_dec x y then true else false.

(** *** Math *)

Definition Math_floor (x : R) : Z := Zfloor x.
Definition Math_ceil (x : R) : Z := Zceil x.
(** [Math.round]: the nearest integer, a tie going up. *)
Definition Math_round (x : R) : Z := Zfloor (x + / 2).
Definition Math_hypot (x y : R) : R := sqrt (x * x + y * y).
Definition Math_log10 (x : R) : R := (ln x / ln 10)%R.
(** [Math.pow] on a positive base. *)
Definition Math_pow (b e : R) : R := Rpower b e.

End JS.
Import JS.

(** ** The transform engine ([lib/fft.js]) *)

Module FFT.

Record arrays : Type := { re : list R; im : list R }.

Record twiddles : Type := { cos_table : list R; sin_table : list R }.

Definition isPowerOfTwo (value : Z) : bool :=
  (1 <? value) && (and32 value (value - 1) =? 0).

Definition buildTwiddles (size : Z) (inverse : bool) : twiddles :=
  let half := shr32 size 1 in
  let sign := if inverse then 1%R else (-1)%R in
  {| cos_table := tabulate half (fun i => cos (2 * PI * IZR i / IZR size));
     sin_table := tabulate half (fun i => (sign * sin (2 * PI * IZR i / IZR size))%R) |}.

(** [twiddleCache] memoises [buildTwiddles] per key; the tables are never
    written to after they are built, so a cache hit returns what a rebuild
    would return. *)
Definition getTwiddles (size : Z) (inverse : bool) : twiddles :=
  buildTwiddles size inverse.

(** [while (j & bit) { j ^= bit; bit >>= 1; }]; the fuel covers the 32 bits
    of [bit]. *)
Fixpoint carryLoop (fuel : nat) (j bit : Z) : option (Z * Z) :=
  match fuel with
  | O => None
  | S fuel' =>
      if and32 j bit =? 0 then Some (j, bit)
      else carryLoop fuel' (xor32 j bit) (shr32 bit 1)
  end.

Definition swap (a : list R) (i j : Z) : list R :=
  let tmp := rd 0%R a i in
  wr (wr a i (rd 0%R a j)) j tmp.

(** One iteration of the bit-reversal loop, on the state [(j, re, im)]. *)
Definition bitReversalStep (size i : Z) (s : Z * arrays) : option (Z * arrays) :=
  let '(j, a) := s in
  match carryLoop 33 j (shr32 size 1) with
  | None => None
  | Some (j, bit) =>
      let j := xor32 j bit in
      if i <? j
      then Some (j, {| re := swap (re a) i j; im := swap (im a) i j |})
      else Some (j, a)
  end.

Definition bitReversal (size : Z) (a : arrays) : option arrays :=
  option_map snd (for_range_opt 1 size (bitReversalStep size) (0, a)).

(** The body of the innermost butterfly loop. *)
Definition butterfly (t : twiddles) (stride halfStep block i : Z) (a : arrays) : arrays :=
  let tw := i * stride in
  let wr_ := rd 0%R (cos_table t) tw in
  let wi := rd 0%R (sin_table t) tw in
  let even := block + i in
  let odd := even + halfStep in
  let tr := (wr_ * rd 0%R (re a) odd - wi * rd 0%R (im a) odd)%R in
  let ti := (wr_ * rd 0%R (im a) odd + wi * rd 0%R (re a) odd)%R in
  let re1 := wr (re a) odd (rd 0%R (re a) even - tr)%R in
  let im1 := wr (im a) odd (rd 0%R (im a) even - ti)%R in
  let re2 := wr re1 even (rd 0%R re1 even + tr)%R in
  let im2 := wr im1 even (rd 0%R im1 even + ti)%R in
  {| re := re2; im := im2 |}.

(** [for (let block = 0; block < size; block += step)]: with a positive
    [step] at most [size] iterations run; [None] when the fuel is used up.
    [size / step] is the quotient of the integers: whenever the innermost
    loop runs, [step] is a power of two that divides [size]. *)
Fixpoint blockLoop (fuel : nat) (t : twiddles) (size step block : Z) (a : arrays)
  : option arrays :=
  if block <? size then
    match fuel with
    | O => None
    | S fuel' =>
        let halfStep := shr32 step 1 in
        let stride := size / step in
        blockLoop fuel' t size step (block + step)
          (for_range 0 halfStep (butterfly t stride halfStep block) a)
    end
  else Some a.

(** [for (let step = 2; step <= size; step <<= 1)]: [step] runs through at
    most 32 values before the shift wraps it to zero. *)
Fixpoint stepLoop (fuel : nat) (t : twiddles) (size step : Z) (a : arrays) : option arrays :=
  if step <=? size then
    match fuel with
    | O => None
    | S fuel' =>
        match blockLoop (Z.to_nat size) t size step 0 a with
        | None => None
        | Some a' => stepLoop fuel' t size (shl32 step 1) a'
        end
    end
  else Some a.

Definition scaleStep (scale : R) (i : Z) (a : arrays) : arrays :=
  {| re := wr (re a) i (rd 0%R (re a) i * scale)%R;
     im := wr (im a) i (rd 0%R (im a) i * scale)%R |}.

(** [fft(re, im, inverse)]: the completion and the arrays as the call leaves
    them. *)
Definition fft (a : arrays) (inverse : bool) : outcome unit * arrays :=
  let size := len (re a) in
  if negb (size =? len (im a)) then
    (Throws "FFT arrays must have matching lengths.", a)
  else if negb (isPowerOfTwo size) then
    (Throws "FFT length must be a power of two.", a)
  else
    match bitReversal size a with
    | None => (Diverges, a)
    | Some a1 =>
        match stepLoop 32 (getTwiddles size inverse) size 2 a1 with
        | None => (Diverges, a1)
        | Some a2 =>
            if inverse
            then (Returns tt, for_range 0 size (scaleStep (1 / IZR size)) a2)
            else (Returns tt, a2)
        end
    end.

End FFT.

(** ** The precompute worker ([workers/precompute-worker.js]) *)

Module Worker.

Definition DEFAULT_FFT_SIZE : Z := 2048.
Definition DEFAULT_HOP_SIZE : Z := 512.
Definition DEFAULT_NUM_BANDS : Z := 40.
Definition WAVEFORM_SCALES : list Z := [64; 256; 1024; 4096].
Definition TILE_SIZE : Z := 1000.
Definition EPSILON : R := 1e-12.
Definition SPECTROGRAM_MIN_DB : R := -100.

(** *** Messages and the values of a payload *)

Record progress : Type := { percent : Z; stage : string }.

(** A computation of the worker: the progress notifications it posts, in
    order, and how it completes. *)
Definition M (A : Type) : Type := (list progress * outcome A)%type.

Definition ret {A : Type} (a : A) : M A := ([], Returns a).

Definition throw {A : Type} (message : string) : M A := ([], Throws message).

Definition bind {A B : Type} (m : M A) (k : A -> M B) : M B :=
  match m with
  | (log, Returns a) => let (log', r) := k a in ((log ++ log')%list, r)
  | (log, Throws message) => (log, Throws message)
  | (log, Diverges) => (log, Diverges)
  end.

Notation "x <- m ;; k" := (bind m (fun x => k))
  (at level 61, m at next level, right associativity).
Notation "m ;;; k" := (bind m (fun _ => k))
  (at level 61, right associativity).

(** [new Array(length)] raises a [RangeError] unless [length] is an array
    length, an integer from 0 to 2^32 - 1, and [new Uint8Array(length)]
    raises one unless [length] is an integer from 0 to 2^53 - 1.  The texts
    stand for the message of the engine.  What the cells hold is given by the
    function that fills the array; the two steps model whether the allocation
    succeeds, where the length derives from the sizes of the request. *)
Definition newArray (length : Z) : M unit :=
  if (0 <=? length) && (length <? 2 ^ 32) then ret tt
  else throw "Invalid array length".

Definition newTypedArray (length : Z) : M unit :=
  if (0 <=? length) && (length <? 2 ^ 53) then ret tt
  else throw "Invalid typed array length".

(** What a field of the payload that should hold a channel can be. *)
Inductive jsvalue : Type :=
| Float32Array (a : list R)
| ArrayBuffer (a : list R) (trailingBytes : Z)
    (** the floats of the buffer and its byte length modulo 4 *)
| Other (truthy : bool).

(** [Number(value)] of a configuration field such as [fftSize]. *)
Inductive jsnumber : Type :=
| NaN
| NonInteger
| Integer (z : Z).

(** A request.  [None] in a numeric field stands for a missing value or
    one that [Number] turns into [NaN]; [hopSize], [numBands] and
    [numSamples], when numbers, are integers. *)
Record Payload : Type := {
  payload_left : jsvalue;
  payload_right : jsvalue;
  payload_sampleRate : option R;
  payload_fftSize : jsnumber;
  payload_hopSize : option Z;
  payload_numBands : option Z;
  payload_numSamples : option Z
}.

Definition dquote : string := String (Ascii.ascii_of_nat 34) EmptyString.

Definition truthy (value : jsvalue) : bool :=
  match value with
  | Other b => b
  | _ => true
  end.

(** [Number(v) || fallback] *)
Definition orZ (v : option Z) (fallback : Z) : Z :=
  match v with
  | Some z => if z =? 0 then fallback else z
  | None => fallback
  end.

Definition orR (v : option R) (fallback : R) : R :=
  match v with
  | Some x => if Req_dec_T x 0 then fallback else x
  | None => fallback
  end.

Definition postProgress (percent : R) (stage : string) : M unit :=
  let value := Z.max 0 (Z.min 100 (Math_round percent)) in
  ([ {| percent := value; stage := stage |} ], Returns tt).

Definition toFloat32Array (value : jsvalue) (name : string) : M (list R) :=
  match value with
  | Float32Array a => ret a
  | ArrayBuffer a trailingBytes =>
      if trailingBytes =? 0 then ret a
      else throw "byte length of Float32Array should be a multiple of 4"
  | Other _ => throw ("Expected Float32Array for " ++ dquote ++ name ++ dquote ++ ".")
  end.

Definition sanitizePowerOfTwo (value : jsnumber) (fallback : Z) : Z :=
  match value with
  | Integer parsed =>
      if parsed <? 2 then fallback
      else if negb (and32 parsed (parsed - 1) =? 0) then fallback
      else parsed
  | _ => fallback
  end.

Definition clampInt (value min max : Z) : Z := Z.max min (Z.min max value).

(** *** Waveform levels of detail and envelopes *)

(** The running [min] and [max] of a bucket; [None] is the initial
    [Infinity] or [-Infinity]. *)
Definition bucketStep (samples : list R) (i : Z) (s : option R * option R)
  : option R * option R :=
  let sample := rd 0%R samples i in
  let '(min, max) := s in
  (match min with
   | None => Some sample
   | Some m => if Rlt_dec sample m then Some sample else Some m
   end,
   match max with
   | None => Some sample
   | Some m => if Rgt_dec sample m then Some sample else Some m
   end).

Definition finiteOr0 (v : option R) : R :=
  match v with
  | Some x => x
  | None => 0%R
  end.

(** The bucket loop of one scale: bucket [k] starts at [k * scale] and is
    written at [writeIndex = 2 * k]. *)
Definition lodStep (samples : list R) (scale k : Z) (lod : list R) : list R :=
  let start := k * scale in
  let end_ := Z.min (len samples) (start + scale) in
  let '(min, max) := for_range start end_ (bucketStep samples) (None, None) in
  wr (wr lod (2 * k) (finiteOr0 min)) (2 * k + 1) (finiteOr0 max).

Definition computeWaveformLODs (samples : list R) (scales : list Z) : list (list R) :=
  map (fun scale =>
         let chunkCount := Math_ceil (IZR (len samples) / IZR scale) in
         for_range 0 chunkCount (lodStep samples scale) (alloc 0%R (chunkCount * 2)))
      scales.

Definition computeRmsEnvelope (samples : list R) (numFrames hopSize : Z) : list R :=
  tabulate numFrames (fun frame =>
    let start := frame * hopSize in
    if len samples <=? start then 0%R
    else
      let end_ := Z.min (len samples) (start + hopSize) in
      let sumSquares :=
        for_range start end_
          (fun i s => let value := rd 0%R samples i in (s + value * value)%R) 0%R in
      sqrt (sumSquares / IZR (Z.max 1 (end_ - start)))).

Definition createHannWindow (size : Z) : list R :=
  let denominator := size - 1 in
  tabulate size (fun i => (0.5 * (1 - cos (2 * PI * IZR i / IZR denominator)))%R).

Definition fillWindowedSignal (target samples : list R) (start fftSize : Z) (window : list R)
  : list R :=
  for_range 0 fftSize
    (fun i target =>
       let index := start + i in
       wr target i
          (if index <? len samples
           then (rd 0%R samples index * rd 0%R window i)%R else 0%R))
    target.

(** [fillMagnitudes] writes [out] and returns the peak.  The peak is the
    largest of the magnitudes as they are computed; what the code reads
    back from [out] is the magnitude rounded to single precision. *)
Definition fillMagnitudes (re im out : list R) : list R * R :=
  for_range 0 (len out)
    (fun i s =>
       let '(out, peak) := s in
       let magnitude := Math_hypot (rd 0%R re i) (rd 0%R im i) in
       (wr out i magnitude, if Rgt_dec magnitude peak then magnitude else peak))
    (out, 0%R).

(** *** The logarithmic band mapper *)

Record band : Type := { low : R; high : R }.
Record binRange : Type := { lowBin : Z; highBin : Z }.

(** [computeBandFrequencies]: the array of band edges that the loop fills.
    Its allocation [new Array(numBands)], which raises a [RangeError] for
    2^32 bands and more, is the step [newArray numBands] of [runStages],
    where the function is called. *)
Definition computeBandFrequencies (numBands : Z) (sampleRate : R) : list band :=
  let minFreq := 20%R in
  let nyquist := Rmax 20 (sampleRate / 2) in
  let maxFreq := Rmax minFreq (Rmin 20000 nyquist) in
  tabulate numBands (fun i =>
    {| low := (minFreq * Math_pow (maxFreq / minFreq) (IZR i / IZR numBands))%R;
       high := (minFreq * Math_pow (maxFreq / minFreq) (IZR (i + 1) / IZR numBands))%R |}).

Definition computeBandBinRanges (bandFrequencies : list band) (sampleRate : R)
    (fftSize numBins : Z) : list binRange :=
  let binWidth := (sampleRate / IZR fftSize)%R in
  map (fun band =>
         let lowBin := clampInt (Math_floor (low band / binWidth)) 0 (numBins - 1) in
         let highBin := clampInt (Math_floor (high band / binWidth)) lowBin (numBins - 1) in
         {| lowBin := lowBin; highBin := highBin |})
      bandFrequencies.

(** *** Band energies and spectrogram tiles *)

Definition bandStep (offset : Z) (magnitudes : list R) (peak : R) (bandRanges : list binRange)
    (bandIndex : Z) (destination : list Z) : list Z :=
  let range := rd {| lowBin := 0; highBin := 0 |} bandRanges bandIndex in
  let sum :=
    for_range (lowBin range) (highBin range + 1)
      (fun bin sum => (sum + rd 0%R magnitudes bin)%R) 0%R in
  let count := highBin range - lowBin range + 1 in
  let average := (sum / IZR count)%R in
  let normalized := Rmin 1 (average / peak) in
  wr destination (offset + bandIndex)
     (ToUint8 (clampInt (Math_round (sqrt normalized * 255)) 0 255)).

Definition writeBandFrame (destination : list Z) (frameIndex : Z) (magnitudes : list R)
    (peak : R) (bandRanges : list binRange) : list Z :=
  let offset := frameIndex * len bandRanges in
  if Rleb peak EPSILON then fill destination 0 offset (offset + len bandRanges)
  else for_range 0 (len bandRanges) (bandStep offset magnitudes peak bandRanges) destination.

(** [createSpectrogramTiles]: the tiles that the loop allocates.  The
    allocation [new Array(tileCount)] of the array of tiles, and the limit on
    the length of a tile, are steps of [runStages], where the function is
    called. *)
Definition createSpectrogramTiles (numFrames numBins tileSize : Z) : list (list Z) :=
  let tileCount := Z.max 1 (Math_ceil (IZR numFrames / IZR tileSize)) in
  tabulate tileCount (fun tile =>
    let framesInTile := Z.min tileSize (numFrames - tile * tileSize) in
    alloc 0 (framesInTile * numBins)).

Definition cellStep (rowOffset : Z) (magnitudes : list R) (peak : R) (bin : Z) (tile : list Z)
  : list Z :=
  let ratio := (rd 0%R magnitudes bin / peak)%R in
  let db := (20 * Math_log10 (Rmax ratio EPSILON))%R in
  let normalized := ((db - SPECTROGRAM_MIN_DB) / - SPECTROGRAM_MIN_DB)%R in
  wr tile (rowOffset + bin) (ToUint8 (clampInt (Math_round (normalized * 255)) 0 255)).

(** The tile is an element of [tiles] and is written in place. *)
Definition writeSpectrogramFrame (tiles : list (list Z)) (frameIndex : Z) (magnitudes : list R)
    (peak : R) (numBins tileSize : Z) : list (list Z) :=
  let tileIndex := Math_floor (IZR frameIndex / IZR tileSize) in
  let frameInTile := Z.rem frameIndex tileSize in
  let rowOffset := frameInTile * numBins in
  match rd_opt tiles tileIndex with
  | None => tiles
  | Some tile =>
      if Rleb peak EPSILON
      then wr tiles tileIndex (fill tile 0 rowOffset (rowOffset + numBins))
      else wr tiles tileIndex
             (for_range 0 numBins (cellStep rowOffset magnitudes peak) tile)
  end.

(** *** Flux medians and onsets *)

Definition computeRunningMedian (values : list R) (radius : Z) : list R :=
  tabulate (len values) (fun i =>
    let start := Z.max 0 (i - radius) in
    let end_ := Z.min (len values - 1) (i + radius) in
    let window := for_range start (end_ + 1)
                    (fun j window => (window ++ [rd 0%R values j])%list) [] in
    let window := sortNumeric window in
    match rd_opt window (Math_floor (IZR (len window) / 2)) with
    | Some m => m
    | None => 0%R
    end).

(** [value > 4 * Math.max(medians[index], 1e-6)]; a median that is missing
    makes the threshold [NaN], which no value exceeds and which every value
    fails to be [<=]. *)
Definition threshold (medians : list R) (i : Z) : option R :=
  match rd_opt medians i with
  | Some m => Some (4 * Rmax m 1e-6)%R
  | None => None
  end.

Definition onsetStep (flux medians : list R) (i : Z) (indexes : list Z) : list Z :=
  if match threshold medians i with
     | Some t => Rleb (rd 0%R flux i) t
     | None => false
     end
  then indexes
  else
    let prev := match rd_opt flux (i - 1) with Some v => v | None => 0%R end in
    let next := match rd_opt flux (i + 1) with Some v => v | None => 0%R end in
    if Rleb prev (rd 0%R flux i) && Rleb next (rd 0%R flux i)
    then (indexes ++ [i])%list
    else indexes.

Definition detectOnsets (flux medians : list R) : list Z :=
  let indexes := for_range 1 (len flux) (onsetStep flux medians) [] in
  map ToUint32 indexes.

Definition computePhaseCorrelation (left right : list R) (numFrames hopSize : Z) : list R :=
  tabulate numFrames (fun frame =>
    let start := frame * hopSize in
    if len left <=? start then 0%R
    else
      let end_ := Z.min (len left) (start + hopSize) in
      let '(sumProduct, sumLeftSquares, sumRightSquares) :=
        for_range start end_
          (fun i s =>
             let '(sp, sl, sr) := s in
             let l := rd 0%R left i in
             let r := rd 0%R right i in
             (sp + l * r, sl + l * l, sr + r * r)%R)
          (0, 0, 0)%R in
      let denominator := sqrt (sumLeftSquares * sumRightSquares) in
      if Rleb denominator EPSILON then 0%R
      else Rmax (-1) (Rmin 1 (sumProduct / denominator))).

(** *** Fault rules (the text of [message] is left out) *)

Inductive faultType : Type :=
| clipping | silence | dc_offset | spectral_anomaly
| phase_inversion | dynamic_range | mono_segment.

Inductive faultSeverity : Type := CRIT | WARN | INFO.

Record fault : Type := {
  type : faultType;
  severity : faultSeverity;
  frameStart : Z;
  frameEnd : Z;
  crestFactorDb : option R
}.

Definition collectStep (values : list R) (predicate : R -> Z -> bool) (minLength : Z)
    (i : Z) (s : list (Z * Z) * Z) : list (Z * Z) * Z :=
  let '(runs, start) := s in
  if predicate (rd 0%R values i) i then
    (runs, if start <? 0 then i else start)
  else if 0 <=? start then
    (if minLength <=? i - start then (runs ++ [(start, i - 1)])%list else runs, -1)
  else (runs, start).

Definition collectRuns (values : list R) (predicate : R -> Z -> bool) (minLength : Z)
  : list (Z * Z) :=
  let '(runs, start) :=
    for_range 0 (len values) (collectStep values predicate minLength) ([], -1) in
  if (0 <=? start) && (minLength <=? len values - start)
  then (runs ++ [(start, len values - 1)])%list
  else runs.

Definition runFaults (t : faultType) (s : faultSeverity) (runs : list (Z * Z)) : list fault :=
  map (fun run => {| type := t; severity := s; frameStart := fst run;
                     frameEnd := snd run; crestFactorDb := None |}) runs.

Definition clippingFault (runStart last hopSize : Z) : fault :=
  {| type := clipping; severity := CRIT;
     frameStart := Math_floor (IZR runStart / IZR hopSize);
     frameEnd := Math_floor (IZR last / IZR hopSize);
     crestFactorDb := None |}.

Definition clippingStep (left right : list R) (hopSize i : Z) (s : list fault * Z)
  : list fault * Z :=
  let threshold := 0.99%R in
  let '(faults, runStart) := s in
  let clipped := Rleb threshold (Rabs (rd 0%R left i)) || Rleb threshold (Rabs (rd 0%R right i)) in
  if clipped then (faults, if runStart <? 0 then i else runStart)
  else if 0 <=? runStart then
    let runLength := i - runStart in
    (if 2 <=? runLength
     then (faults ++ [clippingFault runStart (i - 1) hopSize])%list else faults, -1)
  else (faults, runStart).

Definition detectClippingFaults (faults : list fault) (left right : list R)
    (sampleRate : R) (hopSize : Z) : list fault :=
  let '(faults, runStart) :=
    for_range 0 (len left) (clippingStep left right hopSize) (faults, -1) in
  if 0 <=? runStart then
    let runLength := len left - runStart in
    if 2 <=? runLength
    then (faults ++ [clippingFault runStart (len left - 1) hopSize])%list
    else faults
  else faults.

Definition detectSilenceFaults (faults : list fault) (rmsLeft rmsRight : list R)
    (sampleRate : R) (hopSize : Z) : list fault :=
  let silenceThreshold := 0.001%R in
  let minFrames := Z.max 1 (Math_ceil (0.5 * sampleRate / IZR hopSize)) in
  let combined :=
    tabulate (len rmsLeft) (fun i => (0.5 * (rd 0%R rmsLeft i + rd 0%R rmsRight i))%R) in
  let runs := collectRuns combined (fun value _ => Rltb value silenceThreshold) minFrames in
  (faults ++ runFaults silence WARN runs)%list.

Definition detectDcOffsetFault (faults : list fault) (left right : list R) (numFrames : Z)
  : list fault :=
  let sum :=
    for_range 0 (len left)
      (fun i sum => (sum + 0.5 * (rd 0%R left i + rd 0%R right i))%R) 0%R in
  let mean := (sum / IZR (len left))%R in
  if Rltb 0.01 (Rabs mean)
  then (faults ++ [{| type := dc_offset; severity := INFO; frameStart := 0;
                      frameEnd := Z.max 0 (numFrames - 1); crestFactorDb := None |}])%list
  else faults.

Definition detectSpectralAnomalies (faults : list fault) (flux medians : list R) : list fault :=
  let runs :=
    collectRuns flux
      (fun value index =>
         match threshold medians index with
         | Some t => Rltb t value
         | None => false
         end) 1 in
  (faults ++ runFaults spectral_anomaly WARN runs)%list.

Definition detectPhaseInversionFaults (faults : list fault) (phaseCorrelation : list R)
    (sampleRate : R) (hopSize : Z) : list fault :=
  let threshold := (-0.5)%R in
  let minFrames := Z.max 1 (Math_ceil (0.2 * sampleRate / IZR hopSize)) in
  let runs := collectRuns phaseCorrelation (fun value _ => Rltb value threshold) minFrames in
  (faults ++ runFaults phase_inversion WARN runs)%list.

(** The peak is a maximum of absolute values of samples, which the code
    computes without rounding; the sum of the squares, the root and the
    logarithm are rounded in the code and ideal here. *)
Definition detectDynamicRangeFault (faults : list fault) (left right : list R)
    (numSamples numFrames : Z) : list fault :=
  let '(peak, sumSquares) :=
    for_range 0 numSamples
      (fun i s =>
         let '(peak, sumSquares) := s in
         let l := rd 0%R left i in
         let r := rd 0%R right i in
         (Rmax peak (Rmax (Rabs l) (Rabs r)), sumSquares + 0.5 * (l * l + r * r))%R)
      (0, 0)%R in
  let rms := sqrt (sumSquares / IZR (Z.max 1 numSamples)) in
  let crestFactor :=
    if Rleb peak EPSILON then 0%R
    else (20 * Math_log10 (peak / Rmax rms EPSILON))%R in
  (faults ++ [{| type := dynamic_range; severity := INFO; frameStart := 0;
                 frameEnd := Z.max 0 (numFrames - 1);
                 crestFactorDb := Some crestFactor |}])%list.

Definition detectMonoSegmentFaults (faults : list fault) (left right : list R)
    (numFrames : Z) (sampleRate : R) (hopSize : Z) : list fault :=
  let diffRmsByFrame :=
    tabulate numFrames (fun frame =>
      let start := frame * hopSize in
      if len left <=? start then 0%R
      else
        let end_ := Z.min (len left) (start + hopSize) in
        let sumSquares :=
          for_range start end_
            (fun i s => let diff := (rd 0%R left i - rd 0%R right i)%R in (s + diff * diff)%R)
            0%R in
        sqrt (sumSquares / IZR (Z.max 1 (end_ - start)))) in
  let minFrames := Z.max 1 (Math_ceil (2 * sampleRate / IZR hopSize)) in
  let runs := collectRuns diffRmsByFrame (fun value _ => Rltb value 0.0001) minFrames in
  (faults ++ runFaults mono_segment INFO runs)%list.

Definition detectFaults (left right : list R) (numSamples numFrames : Z) (sampleRate : R)
    (hopSize : Z) (rmsLeft rmsRight spectralFlux fluxMedians phaseCorrelation : list R)
  : list fault :=
  let faults := [] in
  let faults := detectClippingFaults faults left right sampleRate hopSize in
  let faults := detectSilenceFaults faults rmsLeft rmsRight sampleRate hopSize in
  let faults := detectDcOffsetFault faults left right numFrames in
  let faults := detectSpectralAnomalies faults spectralFlux fluxMedians in
  let faults := detectPhaseInversionFaults faults phaseCorrelation sampleRate hopSize in
  let faults := detectDynamicRangeFault faults left right numSamples numFrames in
  let faults := detectMonoSegmentFaults faults left right numFrames sampleRate hopSize in
  faults.

(** *** The orchestrator *)

(** [fft(re, im, false)] as a step of the worker: the two arrays are updated
    in place and an [Error] of the engine ends the run. *)
Definition callFft (re im : list R) (inverse : bool) : M (list R * list R) :=
  match FFT.fft {| FFT.re := re; FFT.im := im |} inverse with
  | (Returns _, a) => ret (FFT.re a, FFT.im a)
  | (Throws message, _) => throw message
  | (Diverges, _) => ([], Diverges)
  end.

Fixpoint for_count_M {S : Type} (n : nat) (i : Z) (body : Z -> S -> M S) (s : S) : M S :=
  match n with
  | O => ret s
  | Datatypes.S m => s' <- body i s ;; for_count_M m (i + 1) body s'
  end.

Definition for_range_M {S : Type} (lo hi : Z) (body : Z -> S -> M S) (s : S) : M S :=
  for_count_M (Z.to_nat (hi - lo)) lo body s.

(** The arrays that the frame loop of [runPrecompute] reads and writes. *)
Record stft : Type := {
  st_bandsLeft : list Z;
  st_bandsRight : list Z;
  st_spectralFlux : list R;
  st_spectrogramTilesLeft : list (list Z);
  st_spectrogramTilesRight : list (list Z);
  st_reLeft : list R;
  st_imLeft : list R;
  st_reRight : list R;
  st_imRight : list R;
  st_magnitudesLeft : list R;
  st_magnitudesRight : list R;
  st_prevMixedMagnitudes : list R;
  st_currMixedMagnitudes : list R
}.

Definition fluxStep (frame : Z) (magnitudesLeft magnitudesRight prevMixedMagnitudes : list R)
    (bin : Z) (s : list R * R) : list R * R :=
  let '(currMixedMagnitudes, flux) := s in
  let mixedMagnitude := (0.5 * (rd 0 magnitudesLeft bin + rd 0 magnitudesRight bin))%R in
  let currMixedMagnitudes := wr currMixedMagnitudes bin mixedMagnitude in
  if 0 <? frame then
    let delta := (mixedMagnitude - rd 0 prevMixedMagnitudes bin)%R in
    if Rltb 0 delta then (currMixedMagnitudes, (flux + delta)%R)
    else (currMixedMagnitudes, flux)
  else (currMixedMagnitudes, flux).

Definition frameStep (left right : list R) (fftSize hopSize numFrames numBins : Z)
    (hannWindow : list R) (bandBinRanges : list binRange) (frame : Z) (s : stft) : M stft :=
  let frameStart := frame * hopSize in
  let reLeft := fillWindowedSignal (st_reLeft s) left frameStart fftSize hannWindow in
  let imLeft := fill (st_imLeft s) 0%R 0 (len (st_imLeft s)) in
  l <- callFft reLeft imLeft false ;;
  let '(reLeft, imLeft) := l in
  let '(magnitudesLeft, peakLeft) := fillMagnitudes reLeft imLeft (st_magnitudesLeft s) in
  let reRight := fillWindowedSignal (st_reRight s) right frameStart fftSize hannWindow in
  let imRight := fill (st_imRight s) 0%R 0 (len (st_imRight s)) in
  r <- callFft reRight imRight false ;;
  let '(reRight, imRight) := r in
  let '(magnitudesRight, peakRight) := fillMagnitudes reRight imRight (st_magnitudesRight s) in
  let bandsLeft := writeBandFrame (st_bandsLeft s) frame magnitudesLeft peakLeft bandBinRanges in
  let bandsRight :=
    writeBandFrame (st_bandsRight s) frame magnitudesRight peakRight bandBinRanges in
  let tilesLeft :=
    writeSpectrogramFrame (st_spectrogramTilesLeft s) frame magnitudesLeft peakLeft
      numBins TILE_SIZE in
  let tilesRight :=
    writeSpectrogramFrame (st_spectrogramTilesRight s) frame magnitudesRight peakRight
      numBins TILE_SIZE in
  let '(currMixedMagnitudes, flux) :=
    for_range 0 numBins
      (fluxStep frame magnitudesLeft magnitudesRight (st_prevMixedMagnitudes s))
      (st_currMixedMagnitudes s, 0%R) in
  let spectralFlux := wr (st_spectralFlux s) frame (flux / IZR numBins)%R in
  let s' := {|
    st_bandsLeft := bandsLeft;
    st_bandsRight := bandsRight;
    st_spectralFlux := spectralFlux;
    st_spectrogramTilesLeft := tilesLeft;
    st_spectrogramTilesRight := tilesRight;
    st_reLeft := reLeft;
    st_imLeft := imLeft;
    st_reRight := reRight;
    st_imRight := imRight;
    st_magnitudesLeft := magnitudesLeft;
    st_magnitudesRight := magnitudesRight;
    st_prevMixedMagnitudes := currMixedMagnitudes;
    st_currMixedMagnitudes := st_prevMixedMagnitudes s
  |} in
  if (and32 frame 31 =? 0) || (frame =? numFrames - 1) then
    let progress := (20 + (IZR (frame + 1) / IZR numFrames) * 50)%R in
    postProgress progress "Running STFT" ;;; ret s'
  else ret s'.

Record waveforms : Type := {
  lods_left : list (list R);
  lods_right : list (list R);
  scales : list Z
}.

Record Bundle : Type := {
  sampleRate : R;
  numSamples : Z;
  numFrames : Z;
  duration : R;
  fftSize : Z;
  hopSize : Z;
  numBands : Z;
  waveformLODs : waveforms;
  rmsLeft : list R;
  rmsRight : list R;
  bandsLeft : list Z;
  bandsRight : list Z;
  spectralFlux : list R;
  onsets : list Z;
  phaseCorrelation : list R;
  spectrogramTilesLeft : list (list Z);
  spectrogramTilesRight : list (list Z);
  tileSize : Z;
  faults : list fault;
  bandFrequencies : list band
}.

(** [runPrecompute] from the derived sizes on (the statements after the
    two calls of [slice]), for the validated configuration and the channels
    cut to [numSamples].  The allocations that can fail are steps of their
    own: the array of [computeBandFrequencies], the two band arrays of
    [numFrames * numBands] bytes (one step for both, the lengths being the
    same), and for [createSpectrogramTiles] the array of tiles and the first
    tile, of [min (TILE_SIZE, numFrames) * numBins] bytes (no other tile is
    longer, and none has a length of another sign). *)
Definition runStages (sampleRate : R) (fftSize hopSize numBands numSamples : Z)
    (left right : list R) : M Bundle :=
  let duration := (IZR numSamples / sampleRate)%R in
  let numFrames :=
    Z.max 1 (Math_floor (IZR (numSamples - fftSize) / IZR hopSize) + 1) in
  let numBins := shr32 fftSize 1 in
  newArray numBands ;;;
  let bandFrequencies := computeBandFrequencies numBands sampleRate in
  let bandBinRanges := computeBandBinRanges bandFrequencies sampleRate fftSize numBins in
  postProgress 2 "Initializing precompute" ;;;
  let waveformLODsLeft := computeWaveformLODs left WAVEFORM_SCALES in
  let waveformLODsRight := computeWaveformLODs right WAVEFORM_SCALES in
  postProgress 10 "Downsampled waveform LODs" ;;;
  let rmsLeft := computeRmsEnvelope left numFrames hopSize in
  let rmsRight := computeRmsEnvelope right numFrames hopSize in
  postProgress 20 "Computed RMS envelope" ;;;
  let hannWindow := createHannWindow fftSize in
  newTypedArray (numFrames * numBands) ;;;
  newArray (Z.max 1 (Math_ceil (IZR numFrames / IZR TILE_SIZE))) ;;;
  newTypedArray (Z.min TILE_SIZE numFrames * numBins) ;;;
  let s0 := {|
    st_bandsLeft := alloc 0 (numFrames * numBands);
    st_bandsRight := alloc 0 (numFrames * numBands);
    st_spectralFlux := alloc 0%R numFrames;
    st_spectrogramTilesLeft := createSpectrogramTiles numFrames numBins TILE_SIZE;
    st_spectrogramTilesRight := createSpectrogramTiles numFrames numBins TILE_SIZE;
    st_reLeft := alloc 0%R fftSize;
    st_imLeft := alloc 0%R fftSize;
    st_reRight := alloc 0%R fftSize;
    st_imRight := alloc 0%R fftSize;
    st_magnitudesLeft := alloc 0%R numBins;
    st_magnitudesRight := alloc 0%R numBins;
    st_prevMixedMagnitudes := alloc 0%R numBins;
    st_currMixedMagnitudes := alloc 0%R numBins
  |} in
  postProgress 21 "Running STFT" ;;;
  s <- for_range_M 0 numFrames
         (frameStep left right fftSize hopSize numFrames numBins hannWindow bandBinRanges)
         s0 ;;
  postProgress 75 "Computed logarithmic bands" ;;;
  let fluxMedians := computeRunningMedian (st_spectralFlux s) 10 in
  let onsets := detectOnsets (st_spectralFlux s) fluxMedians in
  postProgress 80 "Computed spectral flux and onsets" ;;;
  let phaseCorrelation := computePhaseCorrelation left right numFrames hopSize in
  postProgress 85 "Computed phase correlation" ;;;
  let faults :=
    detectFaults left right numSamples numFrames sampleRate hopSize rmsLeft rmsRight
      (st_spectralFlux s) fluxMedians phaseCorrelation in
  postProgress 95 "Detected signal faults" ;;;
  postProgress 100 "Precompute complete" ;;;
  ret {|
    sampleRate := sampleRate;
    numSamples := numSamples;
    numFrames := numFrames;
    duration := duration;
    fftSize := fftSize;
    hopSize := hopSize;
    numBands := numBands;
    waveformLODs := {| lods_left := waveformLODsLeft;
                       lods_right := waveformLODsRight;
                       scales := WAVEFORM_SCALES |};
    rmsLeft := rmsLeft;
    rmsRight := rmsRight;
    bandsLeft := st_bandsLeft s;
    bandsRight := st_bandsRight s;
    spectralFlux := st_spectralFlux s;
    onsets := onsets;
    phaseCorrelation := phaseCorrelation;
    spectrogramTilesLeft := st_spectrogramTilesLeft s;
    spectrogramTilesRight := st_spectrogramTilesRight s;
    tileSize := TILE_SIZE;
    faults := faults;
    bandFrequencies := bandFrequencies
  |}.

(** [runPrecompute]: the inputs are resolved and checked, then the stages
    run. *)
Definition runPrecompute (payload : Payload) : M Bundle :=
  left <- toFloat32Array (payload_left payload) "left" ;;
  right <- (if truthy (payload_right payload)
            then toFloat32Array (payload_right payload) "right"
            else ret left) ;;
  let sampleRate := orR (payload_sampleRate payload) 44100 in
  let fftSize := sanitizePowerOfTwo (payload_fftSize payload) DEFAULT_FFT_SIZE in
  let hopSize := Z.max 1 (orZ (payload_hopSize payload) DEFAULT_HOP_SIZE) in
  let numBands := Z.max 1 (orZ (payload_numBands payload) DEFAULT_NUM_BANDS) in
  let numSamples :=
    match payload_numSamples payload with
    | Some n => if n <=? 0 then Z.min (len left) (len right) else n
    | None => Z.min (len left) (len right)
    end in
  let numSamples := Z.min numSamples (Z.min (len left) (len right)) in
  if numSamples <? 1 then throw "Audio payload has no samples."
  else
    let left := if negb (len left =? numSamples) then slice0 left numSamples else left in
    let right := if negb (len right =? numSamples) then slice0 right numSamples else right in
    runStages sampleRate fftSize hopSize numBands numSamples left right.

(** What the worker posts for one request: the progress notifications of
    the run, then its terminal message. *)
Inductive message : Type :=
| progressMessage (percent : Z) (stage : string)
| resultMessage (data : Bundle)
| errorMessage (text : string).

Definition onmessage (payload : Payload) : list message :=
  let '(log, completion) := runPrecompute payload in
  (map (fun p => progressMessage (percent p) (stage p)) log
   ++ match completion with
      | Returns result => [resultMessage result]
      | Throws text => [errorMessage text]
      | Diverges => []
      end)%list.

End Worker.

(** ** Notions used to state the properties *)

Module Notions.
Import FFT Worker.

(** *** Onsets *)

(** Frame [i] passes the threshold test of [detectOnsets]. *)
Definition exceedsThreshold (flux medians : list R) (i : Z) : Prop :=
  match threshold medians i with
  | Some t => (t < rd 0 flux i)%R
  | None => True
  end.

(** Frame [i] is at least as large as its neighbours, a missing neighbour
    counting as 0. *)
Definition localPeak (flux : list R) (i : Z) : Prop :=
  (match rd_opt flux (i - 1) with Some v => v | None => 0 end <= rd 0 flux i)%R /\
  (match rd_opt flux (i + 1) with Some v => v | None => 0 end <= rd 0 flux i)%R.

Definition rawOnsets (flux medians : list R) : list Z :=
  for_range 1 (len flux) (onsetStep flux medians) [].

(** *** Bands *)

(** The bin range of band [i], as [computeBandBinRanges] derives it from
    the frequencies of [computeBandFrequencies]. *)
Definition bandBins (numBands : Z) (sampleRate : R) (fftSize : Z) : list binRange :=
  computeBandBinRanges (computeBandFrequencies numBands sampleRate) sampleRate fftSize
    (shr32 fftSize 1).


Definition noRange : binRange := {| lowBin := 0; highBin := 0 |}.

Definition bandBin (numBands : Z) (sampleRate : R) (fftSize : Z) (i : Z) : binRange :=
  let numBins := shr32 fftSize 1 in
  let minFreq := 20%R in
  let maxFreq := Rmax minFreq (Rmin 20000 (Rmax 20 (sampleRate / 2))) in
  let binWidth := (sampleRate / IZR fftSize)%R in
  let low := (minFreq * Math_pow (maxFreq / minFreq) (IZR i / IZR numBands))%R in
  let high := (minFreq * Math_pow (maxFreq / minFreq) (IZR (i + 1) / IZR numBands))%R in
  let lowBin := clampInt (Math_floor (low / binWidth)) 0 (numBins - 1) in
  {| lowBin := lowBin;
     highBin := clampInt (Math_floor (high / binWidth)) lowBin (numBins - 1) |}.

(** *** Runs of the worker *)

(** The notification that the frame loop posts for [frame], if any. *)
Definition frameProgress (numFrames frame : Z) : list progress :=
  if (and32 frame 31 =? 0) || (frame =? numFrames - 1)
  then [ {| percent :=
              Z.max 0 (Z.min 100
                (Math_round (20 + (IZR (frame + 1) / IZR numFrames) * 50)));
            stage := "Running STFT" |} ]
  else [].

(** The scratch arrays of the transform have the length [fftSize]. *)
Definition scratch (fftSize : Z) (s : stft) : Prop :=
  len (st_reLeft s) = fftSize /\ len (st_imLeft s) = fftSize /\
  len (st_reRight s) = fftSize /\ len (st_imRight s) = fftSize.

(** The number of frames of a run. *)
Definition frameCount (numSamples fftSize hopSize : Z) : Z :=
  Z.max 1 (Math_floor (IZR (numSamples - fftSize) / IZR hopSize) + 1).

(** The number of spectrogram tiles of a run. *)
Definition tileCount (numFrames : Z) : Z :=
  Z.max 1 (Math_ceil (IZR numFrames / IZR TILE_SIZE)).

(** The arrays of a run of [numFrames] frames and [numBands] bands can be
    allocated: there are fewer than 2^32 bands and fewer than 2^32 tiles, and
    a band array has fewer than 2^53 bytes. *)
Definition allocatable (numBands numFrames : Z) : Prop :=
  numBands < 2 ^ 32 /\ numFrames * numBands < 2 ^ 53 /\ tileCount numFrames < 2 ^ 32.

Definition note (percent : Z) (stage : string) : progress :=
  {| percent := percent; stage := stage |}.

(** The percent of a notification lies between 0 and 100. *)
Definition inRange (p : progress) : Prop := 0 <= percent p <= 100.

(** The notifications of a run that completes, in order. *)
Definition stagesLog (numFrames : Z) : list progress :=
  ([note 2 "Initializing precompute"; note 10 "Downsampled waveform LODs";
    note 20 "Computed RMS envelope"; note 21 "Running STFT"]
   ++ flat_map (frameProgress numFrames) (range 0 numFrames)
   ++ [note 75 "Computed logarithmic bands"; note 80 "Computed spectral flux and onsets";
       note 85 "Computed phase correlation"; note 95 "Detected signal faults";
       note 100 "Precompute complete"])%list.

(** The samples of a value that [toFloat32Array] accepts. *)
Definition channel (value : jsvalue) : option (list R) :=
  match value with
  | Float32Array a => Some a
  | ArrayBuffer a trailingBytes => if trailingBytes =? 0 then Some a else None
  | Other _ => None
  end.

(** The right channel that a run works on: the one supplied, or the left
    one when the field is missing. *)
Definition rightChannel (payload : Payload) (left : list R) : option (list R) :=
  if truthy (payload_right payload) then channel (payload_right payload) else Some left.

(** The validated configuration of a run. *)
Definition run_sampleRate (payload : Payload) : R := orR (payload_sampleRate payload) 44100.

Definition run_fftSize (payload : Payload) : Z :=
  sanitizePowerOfTwo (payload_fftSize payload) DEFAULT_FFT_SIZE.

Definition run_hopSize (payload : Payload) : Z :=
  Z.max 1 (orZ (payload_hopSize payload) DEFAULT_HOP_SIZE).

Definition run_numBands (payload : Payload) : Z :=
  Z.max 1 (orZ (payload_numBands payload) DEFAULT_NUM_BANDS).

Definition run_numSamples (payload : Payload) (left right : list R) : Z :=
  Z.min (match payload_numSamples payload with
         | Some n => if n <=? 0 then Z.min (len left) (len right) else n
         | None => Z.min (len left) (len right)
         end)
        (Z.min (len left) (len right)).

Definition cut (a : list R) (numSamples : Z) : list R :=
  if negb (len a =? numSamples) then slice0 a numSamples else a.

(** The number of frames of the run of a request. *)
Definition run_numFrames (payload : Payload) (left right : list R) : Z :=
  frameCount (run_numSamples payload left right) (run_fftSize payload)
    (run_hopSize payload).

(** The sizes of the run of a request are within the limits of the
    language: the transform size is below 2^30, where the 32-bit shift of
    the pass loop does not wrap; there are fewer than 2^30 samples, so that
    no array that grows by [push] comes to 2^32 entries; and the arrays
    that are allocated at once can be allocated. *)
Definition withinLimits (payload : Payload) (left right : list R) : Prop :=
  run_fftSize payload < 2 ^ 30 /\
  run_numSamples payload left right < 2 ^ 30 /\
  allocatable (run_numBands payload) (run_numFrames payload left right).

(** [value] is an integer power of two that is at least 2. *)
Definition powerOfTwoFrom2 (value : jsnumber) : Prop :=
  exists k, 1 <= k /\ value = Integer (2 ^ k).

(** [value], if an integer, is below 2^32. *)
Definition below32 (value : jsnumber) : Prop :=
  forall z, value = Integer z -> z < 2 ^ 32.

Definition with_fftSize (payload : Payload) (value : jsnumber) : Payload :=
  {| payload_left := payload_left payload;
     payload_right := payload_right payload;
     payload_sampleRate := payload_sampleRate payload;
     payload_fftSize := value;
     payload_hopSize := payload_hopSize payload;
     payload_numBands := payload_numBands payload;
     payload_numSamples := payload_numSamples payload |}.

Definition with_channels (payload : Payload) (left right : jsvalue) : Payload :=
  {| payload_left := left;
     payload_right := right;
     payload_sampleRate := payload_sampleRate payload;
     payload_fftSize := payload_fftSize payload;
     payload_hopSize := payload_hopSize payload;
     payload_numBands := payload_numBands payload;
     payload_numSamples := payload_numSamples payload |}.

(** A request of one silent sample per channel with [fftSize] 1000. *)
Definition payload1000 : Payload :=
  {| payload_left := Float32Array [0%R];
     payload_right := Float32Array [0%R];
     payload_sampleRate := Some 44100%R;
     payload_fftSize := Integer 1000;
     payload_hopSize := Some 512;
     payload_numBands := Some 40;
     payload_numSamples := Some 1 |}.

(** A request with two samples on the left and one on the right. *)
Definition payload21 : Payload :=
  {| payload_left := Float32Array [0%R; 0%R];
     payload_right := Float32Array [0%R];
     payload_sampleRate := Some 44100%R;
     payload_fftSize := Integer 2048;
     payload_hopSize := Some 512;
     payload_numBands := Some 40;
     payload_numSamples := None |}.

(** A mono request: 4 samples on the left, no right channel. *)
Definition payloadMono : Payload :=
  {| payload_left := Float32Array [0%R; 1%R; 0%R; (-1)%R];
     payload_right := Other false;
     payload_sampleRate := Some 44100%R;
     payload_fftSize := Integer 4;
     payload_hopSize := Some 2;
     payload_numBands := Some 40;
     payload_numSamples := Some 4 |}.

(** A mono request without a sample. *)
Definition payloadEmpty : Payload :=
  {| payload_left := Float32Array [];
     payload_right := Other false;
     payload_sampleRate := Some 44100%R;
     payload_fftSize := Integer 2048;
     payload_hopSize := Some 512;
     payload_numBands := Some 40;
     payload_numSamples := None |}.

(** An ordinary request: 53248 silent samples per channel (1.2 s at
    44100 Hz) with the default sizes, which makes 101 frames. *)
Definition payloadLong : Payload :=
  {| payload_left := Float32Array (alloc 0%R 53248);
     payload_right := Float32Array (alloc 0%R 53248);
     payload_sampleRate := Some 44100%R;
     payload_fftSize := Integer 2048;
     payload_hopSize := Some 512;
     payload_numBands := Some 40;
     payload_numSamples := Some 53248 |}.

(** *** The transform as a recursion *)

Definition sized (n : Z) (a : arrays) : Prop := len (re a) = n /\ len (im a) = n.

(** A complex number as the pair of its real and imaginary part. *)
Definition C : Type := (R * R)%type.

Definition Cadd (a b : C) : C := (fst a + fst b, snd a + snd b)%R.

Definition Csub (a b : C) : C := (fst a - fst b, snd a - snd b)%R.

Definition Cmul (a b : C) : C :=
  (fst a * fst b - snd a * snd b, fst a * snd b + snd a * fst b)%R.

Definition Cscale (c : R) (a : C) : C := (c * fst a, c * snd a)%R.

(** The twiddle factor of index [i] for blocks of [s] cells; [sign] is -1
    for the forward and 1 for the inverse transform. *)
Definition omega (sign : R) (s i : Z) : C :=
  (cos (2 * PI * IZR i / IZR s), sign * sin (2 * PI * IZR i / IZR s))%R.

(** The transform of the [2^k] values [x 0 .. x (2^k - 1)] by decimation in
    time: the transforms of the even and of the odd half are combined by one
    butterfly per pair of outputs. *)
Fixpoint dit (sign : R) (k : nat) (x : Z -> C) (i : Z) : C :=
  match k with
  | O => x i
  | S k' =>
      let h := 2 ^ Z.of_nat k' in
      let even := dit sign k' (fun m => x (2 * m)) in
      let odd := dit sign k' (fun m => x (2 * m + 1)) in
      if i <? h
      then Cadd (even i) (Cmul (omega sign (2 * h) i) (odd i))
      else Csub (even (i - h)) (Cmul (omega sign (2 * h) (i - h)) (odd (i - h)))
  end.

(** The complex value that the two arrays hold at an index. *)
Definition val (a : arrays) (i : Z) : C := (rd 0%R (re a) i, rd 0%R (im a) i).

(** The [k]-bit number whose bits are those of [i] in the opposite order. *)
Fixpoint rev (k : nat) (i : Z) : Z :=
  match k with
  | O => 0
  | S k' => (i mod 2) * 2 ^ Z.of_nat k' + rev k' (i / 2)
  end.

(** The twiddle factor that the butterfly of index [i] reads. *)
Definition tw (t : twiddles) (stride i : Z) : C :=
  (rd 0%R (cos_table t) (i * stride), rd 0%R (sin_table t) (i * stride)).

(** One pass over index functions: within each block of [2 * h] cells the
    lower half receives the sums, the upper half the differences. *)
Definition pass (W : Z -> C) (h : Z) (f : Z -> C) (idx : Z) : C :=
  let i := idx mod (2 * h) in
  if i <? h
  then Cadd (f idx) (Cmul (W i) (f (idx + h)))
  else Csub (f (idx - h)) (Cmul (W (i - h)) (f idx)).

(** After the passes up to blocks of [2^lv] cells, block [b] holds the
    transform of the [2^lv] inputs whose index is the reversal of [b] modulo
    [2^d]. *)
Definition staged (sign : R) (x : Z -> C) (lv d : nat) (a : arrays) : Prop :=
  forall b j, 0 <= b < 2 ^ Z.of_nat d -> 0 <= j < 2 ^ Z.of_nat lv ->
    val a (b * 2 ^ Z.of_nat lv + j)
    = dit sign lv (fun m => x (rev d b + m * 2 ^ Z.of_nat d)) j.

End Notions.

(** ** Further notions: sums, runs, envelopes and silence *)

Module Reference.
Import FFT Worker Notions.

(** The sum of the complex numbers [f 0], ..., [f (n - 1)]. *)
Fixpoint Csum (n : nat) (f : Z -> C) : C :=
  match n with
  | O => (0, 0)%R
  | S m => Cadd (Csum m f) (f (Z.of_nat m))
  end.

(** The discrete Fourier transform of [x 0], ..., [x (n - 1)] at the output
    index [j]: the sum of the inputs, input [m] turned by [j * m] steps of
    the [n]-th root of unity. *)
Definition dft (sign : R) (n : Z) (x : Z -> C) (j : Z) : C :=
  Csum (Z.to_nat n) (fun m => Cmul (omega sign n (j * m)) (x m)).

(** [n] is a power of two that is at least 2. *)
Definition powerOfTwo (n : Z) : Prop := exists k, 1 <= k /\ n = 2 ^ k.

(** What a read outside an array of bands or of bin ranges stands for. *)
Definition noBand : band := {| low := 0; high := 0 |}.

(** The upper edge of the last band: the Nyquist frequency, kept between
    20 Hz and 20 kHz. *)
Definition topFrequency (sampleRate : R) : R :=
  Rmax 20 (Rmin 20000 (Rmax 20 (sampleRate / 2))).

(** The running minimum and maximum after the cells [start .. j - 1]. *)
Definition bucketSeen (samples : list R) (start j : Z) (s : option R * option R) : Prop :=
  if j <=? start then s = (None, None)
  else exists mn mx,
         s = (Some mn, Some mx) /\
         (forall i, start <= i < j -> (mn <= rd 0%R samples i <= mx)%R) /\
         (exists i, start <= i < j /\ mn = rd 0%R samples i) /\
         (exists i, start <= i < j /\ mx = rd 0%R samples i).

(** The pair of cells [2 * k] and [2 * k + 1] of a level of detail is the
    least and the greatest sample of bucket [k], the samples
    [k * scale .. min (length, k * scale + scale) - 1]. *)
Definition bucketEnvelope (samples : list R) (scale : Z) (lod : list R) (k : Z) : Prop :=
  let start := k * scale in
  let stop := Z.min (len samples) (start + scale) in
  (forall i, start <= i < stop ->
     (rd 0%R lod (2 * k) <= rd 0%R samples i <= rd 0%R lod (2 * k + 1))%R) /\
  (exists i, start <= i < stop /\ rd 0%R lod (2 * k) = rd 0%R samples i) /\
  (exists i, start <= i < stop /\ rd 0%R lod (2 * k + 1) = rd 0%R samples i).

(** The values [values[lo]], ..., [values[hi]] that a median is taken of. *)
Definition windowOf (values : list R) (lo hi : Z) : list R :=
  map (rd 0%R values) (range lo (hi + 1)).

(** How many cells of [l] are below, and how many are above, [m]. *)
Definition countBelow (m : R) (l : list R) : Z := len (filter (fun x => Rltb x m) l).
Definition countAbove (m : R) (l : list R) : Z := len (filter (fun x => Rltb m x) l).

(** The energy of the samples [lo .. hi - 1]: the sum of their squares. *)
Definition energy (samples : list R) (lo hi : Z) : R :=
  for_range lo hi (fun i s => (s + rd 0%R samples i * rd 0%R samples i)%R) 0%R.

(** [s .. e] is a maximal run of [p]: a stretch of the indices
    [0 .. n - 1] on which [p] holds and that cannot be extended at either
    end. *)
Definition maximalRun (p : Z -> bool) (n s e : Z) : Prop :=
  0 <= s <= e /\ e < n /\
  (forall i, s <= i <= e -> p i = true) /\
  (s = 0 \/ p (s - 1) = false) /\
  (e = n - 1 \/ p (e + 1) = false).

(** Run [r1] ends before run [r2] starts, with an index between them. *)
Definition apart (r1 r2 : Z * Z) : Prop := snd r1 + 1 < fst r2.

(** The state of the loop of [collectRuns] before index [j]. *)
Definition runsSeen (p : Z -> bool) (minLength j : Z) (s : list (Z * Z) * Z) : Prop :=
  let '(runs, start) := s in
  (start = -1 \/ 0 <= start < j) /\
  (0 <= start ->
   (forall i, start <= i < j -> p i = true) /\ (start = 0 \/ p (start - 1) = false)) /\
  (start = -1 -> 0 < j -> p (j - 1) = false) /\
  (forall a b, In (a, b) runs <->
     (maximalRun p j a b /\ b + 1 < j) /\ minLength <= b - a + 1) /\
  StronglySorted apart runs.

(** Sample [i] reaches the clipping threshold in one of the channels. *)
Definition clipped (left right : list R) (i : Z) : bool :=
  Rleb 0.99 (Rabs (rd 0%R left i)) || Rleb 0.99 (Rabs (rd 0%R right i)).

(** The severity that each rule gives to its faults. *)
Definition severityOf (t : faultType) : faultSeverity :=
  match t with
  | clipping => CRIT
  | silence | spectral_anomaly | phase_inversion => WARN
  | dc_offset | dynamic_range | mono_segment => INFO
  end.

(** A fault spans frames in order, from frame 0 on, has the severity of its
    rule, and carries a crest factor exactly when it is the dynamic-range
    fault. *)
Definition wellFormed (f : fault) : Prop :=
  0 <= frameStart f <= frameEnd f /\
  severity f = severityOf (type f) /\
  (crestFactorDb f <> None <-> type f = dynamic_range).

(** [peak] is the largest absolute value among the first [n] samples of
    the two channels, 0 when there is none. *)
Definition peakOf (left right : list R) (n : Z) (peak : R) : Prop :=
  (forall i, 0 <= i < n ->
     (Rabs (rd 0%R left i) <= peak)%R /\ (Rabs (rd 0%R right i) <= peak)%R) /\
  (peak = 0%R \/
   exists i, 0 <= i < n /\ (peak = Rabs (rd 0%R left i) \/ peak = Rabs (rd 0%R right i))).

(** The root of the mean, over the first [n] samples, of half the sum of
    the squares of the two channels. *)
Definition rmsOf (left right : list R) (n : Z) : R :=
  sqrt (0.5 * (energy left 0 n + energy right 0 n) / IZR (Z.max 1 n)).

(** The crest factor in dB of a track with that peak. *)
Definition crestOf (left right : list R) (n : Z) (peak : R) : R :=
  if Rleb peak EPSILON then 0%R
  else (20 * Math_log10 (peak / Rmax (rmsOf left right n) EPSILON))%R.

(** Arrays of zeros. *)
Definition allZeroR (a : list R) : Prop := Forall (fun x => x = 0%R) a.
Definition allZeroZ (a : list Z) : Prop := Forall (fun x => x = 0) a.

(** The arrays of the frame loop in a run over silence: the scratch arrays
    have the transform size, and everything that the loop has written is
    0. *)
Definition silentState (fftSize : Z) (t : stft) : Prop :=
  scratch fftSize t /\
  allZeroZ (st_bandsLeft t) /\ allZeroZ (st_bandsRight t) /\
  allZeroR (st_spectralFlux t) /\
  Forall allZeroZ (st_spectrogramTilesLeft t) /\
  Forall allZeroZ (st_spectrogramTilesRight t) /\
  allZeroR (st_magnitudesLeft t) /\ allZeroR (st_magnitudesRight t) /\
  allZeroR (st_prevMixedMagnitudes t) /\ allZeroR (st_currMixedMagnitudes t).

(** *** Pulses *)




(** The windowed samples of a frame of ones, their transform, the
    magnitude of its bins and the spectral flux of a frame of ones that
    follows a silent frame. *)
Definition pulseFrame : list R :=
  tabulate 4 (fun i => (1 * rd 0%R (createHannWindow 4) i)%R).

Definition pulseSpectrum : arrays :=
  snd (fft {| re := pulseFrame; im := alloc 0%R 4 |} false).

Definition pulseMagnitude (bin : Z) : R :=
  Math_hypot (rd 0%R (re pulseSpectrum) bin) (rd 0%R (im pulseSpectrum) bin).


(** The magnitude of a bin, and the spectral flux, of frame [f] of a pulse
    train. *)
Definition magnitudeOf (pulse : Z -> bool) (f bin : Z) : R :=
  if pulse f then pulseMagnitude bin else 0%R.


(** The percent that the frame loop posts after [frame]. *)
Definition framePercent (numFrames frame : Z) : Z :=
  Z.max 0 (Z.min 100 (Math_round (20 + (IZR (frame + 1) / IZR numFrames) * 50))).


End Reference.

(** * Properties *)

(** ** Arrays and loops *)

Module JSFacts.

Lemma len_nonneg {A : Type} (a : list A) : 0 <= len a.
Proof. unfold len. lia. Qed.

Lemma upd_length {A : Type} (a : list A) (n : nat) (v : A) :
  List.length (upd a n v) = List.length a.
Proof.
  revert n. induction a as [|x t IH]; intros [|n]; simpl; auto.
Qed.

Lemma wr_length {A : Type} (a : list A) (i : Z) (v : A) :
  List.length (wr a i v) = List.length a.
Proof. unfold wr. destruct (i <? 0); auto using upd_length. Qed.

Lemma len_wr {A : Type} (a : list A) (i : Z) (v : A) : len (wr a i v) = len a.
Proof. unfold len. now rewrite wr_length. Qed.

Lemma len_app {A : Type} (a b : list A) : len (a ++ b) = len a + len b.
Proof. unfold len. rewrite length_app. lia. Qed.

Lemma rd_opt_in {A : Type} (d : A) (a : list A) (i : Z) :
  0 <= i < len a -> rd_opt a i = Some (rd d a i).
Proof.
  intros H. unfold rd_opt, rd, len in *.
  destruct (i <? 0) eqn:E; [apply Z.ltb_lt in E; lia|].
  apply nth_error_nth'. lia.
Qed.

Lemma rd_opt_out {A : Type} (a : list A) (i : Z) :
  len a <= i -> rd_opt a i = None.
Proof.
  intros H. unfold rd_opt, len in *.
  destruct (i <? 0) eqn:E; [reflexivity|].
  apply nth_error_None. lia.
Qed.

Lemma nth_upd_same {A : Type} (d : A) (a : list A) (n : nat) (v : A) :
  (n < List.length a)%nat -> nth n (upd a n v) d = v.
Proof.
  revert n. induction a as [|x t IH]; intros [|n] H; simpl in *; try lia; auto.
  apply IH. lia.
Qed.

Lemma nth_upd_other {A : Type} (d : A) (a : list A) (n m : nat) (v : A) :
  n <> m -> nth m (upd a n v) d = nth m a d.
Proof.
  revert n m. induction a as [|x t IH]; intros [|n] [|m] H; simpl; auto; try lia.
Qed.

Lemma rd_wr_same {A : Type} (d : A) (a : list A) (i : Z) (v : A) :
  0 <= i < len a -> rd d (wr a i v) i = v.
Proof.
  intros H. unfold rd, wr, len in *.
  destruct (i <? 0) eqn:E; [apply Z.ltb_lt in E; lia|].
  apply nth_upd_same. lia.
Qed.

Lemma rd_wr_other {A : Type} (d : A) (a : list A) (i k : Z) (v : A) :
  i <> k -> rd d (wr a i v) k = rd d a k.
Proof.
  intros H. unfold rd, wr.
  destruct (i <? 0) eqn:Ei; [reflexivity|].
  destruct (k <? 0) eqn:Ek; [reflexivity|].
  apply Z.ltb_ge in Ei, Ek. apply nth_upd_other. lia.
Qed.

Lemma rd_opt_wr_same {A : Type} (a : list A) (i : Z) (v : A) :
  0 <= i < len a -> rd_opt (wr a i v) i = Some v.
Proof.
  intros H. rewrite (rd_opt_in v) by (rewrite len_wr; exact H).
  now rewrite rd_wr_same.
Qed.

Lemma rd_opt_Some_range {A : Type} (a : list A) (i : Z) (v : A) :
  rd_opt a i = Some v -> 0 <= i < len a.
Proof.
  unfold rd_opt, len. destruct (i <? 0) eqn:E; [discriminate|].
  intros H. apply Z.ltb_ge in E.
  assert (Hn : nth_error a (Z.to_nat i) <> None) by (rewrite H; discriminate).
  apply nth_error_Some in Hn. lia.
Qed.

(** The invariant rule of a counted loop. *)
Lemma for_count_ind {S : Type} (P : Z -> S -> Prop) (body : Z -> S -> S) :
  forall (n : nat) (i : Z) (s : S),
    P i s ->
    (forall j t, i <= j < i + Z.of_nat n -> P j t -> P (j + 1) (body j t)) ->
    P (i + Z.of_nat n) (for_count n i body s).
Proof.
  induction n as [|n IH]; intros i s H0 Hstep.
  - simpl. now replace (i + 0) with i by lia.
  - cbn [for_count].
    replace (i + Z.of_nat (Datatypes.S n)) with ((i + 1) + Z.of_nat n) by lia.
    apply IH.
    + apply Hstep; [lia | exact H0].
    + intros j t Hj. apply Hstep. lia.
Qed.

Lemma for_range_ind {S : Type} (P : Z -> S -> Prop) (body : Z -> S -> S)
    (lo hi : Z) (s : S) :
  lo <= hi ->
  P lo s ->
  (forall j t, lo <= j < hi -> P j t -> P (j + 1) (body j t)) ->
  P hi (for_range lo hi body s).
Proof.
  intros Hle H0 Hstep. unfold for_range.
  replace hi with (lo + Z.of_nat (Z.to_nat (hi - lo))) at 1 by lia.
  apply for_count_ind; [exact H0|].
  intros j t Hj. apply Hstep. lia.
Qed.

Lemma for_range_empty {S : Type} (body : Z -> S -> S) (lo hi : Z) (s : S) :
  hi <= lo -> for_range lo hi body s = s.
Proof.
  intros H. unfold for_range. replace (Z.to_nat (hi - lo)) with O by lia. reflexivity.
Qed.

(** A property of the state that every iteration keeps. *)
Lemma for_range_preserves {S : Type} (P : S -> Prop) (body : Z -> S -> S)
    (lo hi : Z) (s : S) :
  P s -> (forall j t, P t -> P (body j t)) -> P (for_range lo hi body s).
Proof.
  intros H0 Hstep. unfold for_range.
  generalize (Z.to_nat (hi - lo)) as n. intros n. revert lo s H0.
  induction n as [|n IH]; intros lo s H0; simpl; auto.
Qed.

Lemma range_nil (lo hi : Z) : hi <= lo -> range lo hi = [].
Proof. intros H. unfold range. replace (Z.to_nat (hi - lo)) with O by lia. reflexivity. Qed.

Lemma range_cons (lo hi : Z) : lo < hi -> range lo hi = lo :: range (lo + 1) hi.
Proof.
  intros H. unfold range.
  replace (Z.to_nat (hi - lo)) with (S (Z.to_nat (hi - (lo + 1)))) by lia.
  cbn [seq map]. f_equal; [lia|].
  rewrite <- seq_shift, map_map. apply map_ext. intros k. lia.
Qed.

Lemma range_length (lo hi : Z) : lo <= hi -> len (range lo hi) = hi - lo.
Proof. intros H. unfold range, len. rewrite length_map, length_seq. lia. Qed.

Lemma in_range (lo hi x : Z) : In x (range lo hi) <-> lo <= x < hi.
Proof.
  unfold range. rewrite in_map_iff. split.
  - intros [k [<- Hk]]. apply in_seq in Hk. lia.
  - intros H. exists (Z.to_nat (x - lo)). split; [lia|]. apply in_seq. lia.
Qed.

Lemma rd_range (d lo hi i : Z) : 0 <= i < hi - lo -> rd d (range lo hi) i = lo + i.
Proof.
  intros H. unfold rd, range.
  destruct (i <? 0) eqn:E; [apply Z.ltb_lt in E; lia|].
  rewrite nth_indep with (d' := lo + Z.of_nat 0) by (rewrite length_map, length_seq; lia).
  rewrite (map_nth (fun k => lo + Z.of_nat k)), seq_nth by lia. lia.
Qed.

Lemma len_tabulate {A : Type} (n : Z) (f : Z -> A) : 0 <= n -> len (tabulate n f) = n.
Proof.
  intros H. unfold tabulate, len. rewrite length_map.
  pose proof (range_length 0 n H) as Hr. unfold len in Hr. lia.
Qed.

Lemma rd_tabulate {A : Type} (d : A) (n : Z) (f : Z -> A) (i : Z) :
  0 <= i < n -> rd d (tabulate n f) i = f i.
Proof.
  intros H. unfold tabulate, rd.
  destruct (i <? 0) eqn:E; [apply Z.ltb_lt in E; lia|].
  rewrite nth_indep with (d' := f 0)
    by (rewrite length_map; pose proof (range_length 0 n); unfold len in *; lia).
  rewrite map_nth. f_equal.
  pose proof (rd_range 0 0 n i) as Hr. unfold rd in Hr. rewrite E in Hr.
  rewrite Hr; lia.
Qed.

Lemma rd_map {A B : Type} (d : A) (e : B) (f : A -> B) (a : list A) (i : Z) :
  0 <= i < len a -> rd e (map f a) i = f (rd d a i).
Proof.
  intros H. unfold rd, len in *.
  destruct (i <? 0) eqn:E; [apply Z.ltb_lt in E; lia|].
  rewrite nth_indep with (d' := f d) by (rewrite length_map; lia).
  apply map_nth.
Qed.

(** [a.fill(v, start, stop)] within the bounds of [a]. *)
Lemma fill_spec {A : Type} (d : A) (a : list A) (v : A) (start stop : Z) :
  0 <= start <= stop -> stop <= len a ->
  len (fill a v start stop) = len a /\
  forall i, rd d (fill a v start stop) i
            = if (start <=? i) && (i <? stop) then v else rd d a i.
Proof.
  intros Hs He. unfold fill, fill_bound.
  destruct (start <? 0) eqn:E1; [apply Z.ltb_lt in E1; lia|].
  destruct (stop <? 0) eqn:E2; [apply Z.ltb_lt in E2; lia|].
  rewrite !Z.min_l by lia.
  pose (P := fun (j : Z) (t : list A) =>
     len t = len a /\
     forall i, rd d t i = if (start <=? i) && (i <? j) then v else rd d a i).
  assert (H : P stop (for_range start stop (fun i t => wr t i v) a)).
  { apply for_range_ind; [lia| |].
    - split; [reflexivity|]. intros i.
      destruct (start <=? i) eqn:Ea; destruct (i <? start) eqn:Eb; simpl; auto.
      apply Z.leb_le in Ea. apply Z.ltb_lt in Eb. lia.
    - intros j t Hj [Hl Hr]. split; [now rewrite len_wr|].
      intros i. destruct (Z.eq_dec j i) as [->|Hne].
      + rewrite rd_wr_same by lia.
        replace (start <=? i) with true by (symmetry; apply Z.leb_le; lia).
        replace (i <? i + 1) with true by (symmetry; apply Z.ltb_lt; lia).
        reflexivity.
      + rewrite rd_wr_other by exact Hne. rewrite Hr.
        replace (i <? j + 1) with (i <? j); [reflexivity|].
        destruct (i <? j) eqn:Ea; symmetry;
          [apply Z.ltb_lt in Ea; apply Z.ltb_lt | apply Z.ltb_ge in Ea; apply Z.ltb_ge];
          lia. }
  exact H.
Qed.

(** The rule of a counted loop whose body may not terminate: a body that
    terminates and keeps [P] makes the loop terminate and keep [P]. *)
Lemma for_range_opt_total {S : Type} (P : S -> Prop) (body : Z -> S -> option S)
    (lo hi : Z) (s : S) :
  P s ->
  (forall j t, lo <= j < hi -> P t -> exists t', body j t = Some t' /\ P t') ->
  exists s', for_range_opt lo hi body s = Some s' /\ P s'.
Proof.
  unfold for_range_opt. intros H0 Hstep.
  assert (G : forall n i t, lo <= i -> i + Z.of_nat n <= Z.max lo hi -> P t ->
            exists s', for_count_opt n i body t = Some s' /\ P s').
  { induction n as [|n IH]; intros i t Hi Hn Ht.
    - exists t. split; [reflexivity|exact Ht].
    - cbn [for_count_opt].
      destruct (Hstep i t) as [t' [-> Ht']]; [lia|exact Ht|].
      apply IH; [lia|lia|exact Ht']. }
  apply G; [lia|lia|exact H0].
Qed.

(** *** The 32-bit operators on small numbers *)

Lemma ToInt32_small (z : Z) : - 2 ^ 31 <= z < 2 ^ 31 -> ToInt32 z = z.
Proof.
  intros H. unfold ToInt32. rewrite Z.mod_small by lia. lia.
Qed.

Lemma shr32_1 (z : Z) : 0 <= z < 2 ^ 31 -> shr32 z 1 = z / 2.
Proof.
  intros H. unfold shr32. rewrite ToInt32_small by lia.
  change (1 mod 32) with 1. now rewrite Z.shiftr_div_pow2 by lia.
Qed.

Lemma shl32_1 (z : Z) : 0 <= z < 2 ^ 30 -> shl32 z 1 = 2 * z.
Proof.
  intros H. unfold shl32. rewrite (ToInt32_small z) by lia.
  change (1 mod 32) with 1. rewrite Z.shiftl_mul_pow2 by lia.
  rewrite ToInt32_small by lia. lia.
Qed.

Lemma and32_0_r (z : Z) : and32 z 0 = 0.
Proof. unfold and32. change (ToInt32 0) with 0. apply Z.land_0_r. Qed.

Lemma Zfloor_div (a b : Z) : 0 < b -> Zfloor (IZR a / IZR b) = a / b.
Proof.
  intros Hb. apply Zfloor_eq.
  assert (HB : (0 < IZR b)%R) by (apply IZR_lt; lia).
  assert (Ha : IZR a = (IZR b * IZR (a / b) + IZR (a mod b))%R).
  { rewrite <- mult_IZR, <- plus_IZR. f_equal. apply Z.div_mod. lia. }
  assert (Hr : (0 <= IZR (a mod b) < IZR b)%R).
  { pose proof (Z.mod_pos_bound a b Hb). split; [apply IZR_le|apply IZR_lt]; lia. }
  assert (Hx : (IZR b * (IZR a / IZR b) = IZR a)%R) by (field; lra).
  split.
  - apply Rmult_le_reg_l with (IZR b); [exact HB|]. rewrite Hx. lra.
  - apply Rmult_lt_reg_l with (IZR b); [exact HB|]. rewrite Hx. lra.
Qed.

End JSFacts.

(** ** The transform engine *)

Module FFTFacts.
Import FFT JSFacts Notions.

(** C9. When the real and the imaginary array differ in length, [fft]
    throws before the bit-reversal permutation and before any butterfly
    pass: the call completes with the error and both arrays are as they
    were. *)
Theorem fft_length_mismatch (a : arrays) (inverse : bool) :
  List.length (re a) <> List.length (im a) ->
  fft a inverse = (Throws "FFT arrays must have matching lengths.", a).
Proof.
  intros H. unfold fft.
  destruct (len (re a) =? len (im a)) eqn:E; [|reflexivity].
  apply Z.eqb_eq in E. unfold len in E. lia.
Qed.

Lemma fft_length_mismatch_witness :
  fft {| re := [1%R; 2%R]; im := [0%R] |} true
  = (Throws "FFT arrays must have matching lengths.", {| re := [1%R; 2%R]; im := [0%R] |}).
Proof. apply fft_length_mismatch. simpl. lia. Defined.

(** *** Termination of the transform on arrays of fewer than 2^30 cells *)

Lemma carryLoop_terminates (fuel : nat) (j bit : Z) :
  0 <= bit < 2 ^ 31 -> bit < 2 ^ Z.of_nat fuel ->
  exists r, carryLoop (S fuel) j bit = Some r.
Proof.
  revert j bit. induction fuel as [|fuel IH]; intros j bit Hb Hf.
  - assert (bit = 0) by (change (2 ^ Z.of_nat 0) with 1 in Hf; lia). subst bit.
    cbn [carryLoop]. rewrite and32_0_r. simpl. eauto.
  - assert (Hpow : 2 ^ Z.of_nat (S fuel) = 2 * 2 ^ Z.of_nat fuel)
      by (rewrite Nat2Z.inj_succ, Z.pow_succ_r; lia).
    rewrite Hpow in Hf. clear Hpow.
    remember (S fuel) as f eqn:Ef. cbn [carryLoop].
    destruct (and32 j bit =? 0); [eauto|]. subst f.
    rewrite shr32_1 by exact Hb. apply IH.
    + split; [apply Z.div_pos; lia|]. apply Z.div_lt_upper_bound; lia.
    + apply Z.div_lt_upper_bound; [lia|].
      exact Hf.
Qed.

Lemma swap_length (a : list R) (i j : Z) : len (swap a i j) = len a.
Proof. unfold swap. now rewrite !len_wr. Qed.

Lemma bitReversal_terminates (size : Z) (a : arrays) :
  0 <= size < 2 ^ 31 -> sized size a ->
  exists a', bitReversal size a = Some a' /\ sized size a'.
Proof.
  intros Hs Ha. unfold bitReversal.
  destruct (for_range_opt_total (fun s : Z * arrays => sized size (snd s))
              (bitReversalStep size) 1 size (0, a)) as [[j a'] [-> Hsz]].
  - exact Ha.
  - intros i [j t] _ Ht. unfold bitReversalStep.
    destruct (carryLoop_terminates 32 j (shr32 size 1)) as [[j' bit] ->].
    + rewrite shr32_1 by lia. split; [apply Z.div_pos; lia|].
      apply Z.div_lt_upper_bound; lia.
    + rewrite shr32_1 by lia. apply Z.div_lt_upper_bound; [lia|].
      change (2 ^ Z.of_nat 32) with (2 ^ 32). lia.
    + destruct (i <? xor32 j' bit).
      * eexists. split; [reflexivity|]. destruct Ht as [Hr Hi].
        split; cbn [snd re im]; now rewrite swap_length.
      * eexists. split; [reflexivity|exact Ht].
  - exists a'. split; [reflexivity|exact Hsz].
Qed.

Lemma butterfly_sized (t : twiddles) (stride halfStep block i n : Z) (a : arrays) :
  sized n a -> sized n (butterfly t stride halfStep block i a).
Proof.
  intros [Hr Hi]. unfold butterfly, sized. cbn [re im]. now rewrite !len_wr.
Qed.

Lemma blockLoop_terminates (t : twiddles) (size step n : Z) :
  0 < step ->
  forall (fuel : nat) (block : Z) (a : arrays),
    size - block <= Z.of_nat fuel -> sized n a ->
    exists a', blockLoop fuel t size step block a = Some a' /\ sized n a'.
Proof.
  intros Hstep. induction fuel as [|fuel IH]; intros block a Hf Ha.
  - cbn [blockLoop]. replace (block <? size) with false by (symmetry; apply Z.ltb_ge; lia).
    eauto.
  - cbn [blockLoop]. destruct (block <? size); [|eauto].
    apply IH; [lia|].
    apply for_range_preserves; [exact Ha|]. intros j u. apply butterfly_sized.
Qed.

Lemma stepLoop_terminates (t : twiddles) (size n : Z) :
  0 <= size < 2 ^ 30 ->
  forall (fuel : nat) (k : Z) (a : arrays),
    1 <= k -> 32 <= Z.of_nat fuel + k -> sized n a ->
    exists a', stepLoop fuel t size (2 ^ k) a = Some a' /\ sized n a'.
Proof.
  intros Hs. induction fuel as [|fuel IH]; intros k a Hk Hf Ha.
  - cbn [stepLoop].
    destruct (2 ^ k <=? size) eqn:E; [|eauto].
    apply Z.leb_le in E.
    assert (2 ^ 30 <= 2 ^ k) by (apply Z.pow_le_mono_r; lia). lia.
  - cbn [stepLoop]. destruct (2 ^ k <=? size) eqn:E; [|eauto].
    apply Z.leb_le in E.
    assert (Hk30 : k < 30).
    { destruct (Z_lt_ge_dec k 30) as [Hlt|Hge]; [exact Hlt|].
      assert (2 ^ 30 <= 2 ^ k) by (apply Z.pow_le_mono_r; lia). lia. }
    assert (Hpos : 0 < 2 ^ k) by (apply Z.pow_pos_nonneg; lia).
    destruct (blockLoop_terminates t size (2 ^ k) n Hpos (Z.to_nat size) 0 a)
      as [a1 [-> Ha1]]; [lia|exact Ha|].
    assert (2 ^ k < 2 ^ 30) by lia.
    rewrite shl32_1 by lia.
    replace (2 * 2 ^ k) with (2 ^ (k + 1)) by (rewrite Z.pow_add_r; lia).
    apply IH; [lia|lia|exact Ha1].
Qed.

Lemma scaleStep_sized (scale : R) (i n : Z) (a : arrays) :
  sized n a -> sized n (scaleStep scale i a).
Proof.
  intros [Hr Hi]. unfold scaleStep, sized. cbn [re im]. now rewrite !len_wr.
Qed.

(** On two arrays of the same length, accepted by [isPowerOfTwo] and below
    2^30, [fft] returns, and the arrays keep their length. *)
Lemma fft_returns (a : arrays) (inverse : bool) :
  len (re a) < 2 ^ 30 -> len (im a) = len (re a) -> isPowerOfTwo (len (re a)) = true ->
  exists a', fft a inverse = (Returns tt, a') /\ sized (len (re a)) a'.
Proof.
  intros Hs Hi Hp. unfold fft. rewrite Hi, Z.eqb_refl, Hp. cbn [negb].
  pose proof (len_nonneg (re a)) as H0.
  destruct (bitReversal_terminates (len (re a)) a) as [a1 [-> Ha1]];
    [lia | split; [reflexivity|exact Hi] |].
  destruct (stepLoop_terminates (getTwiddles (len (re a)) inverse) (len (re a))
              (len (re a)) ltac:(lia) 32 1 a1) as [a2 [H2 Ha2]];
    [lia | simpl; lia | exact Ha1 |].
  change (2 ^ 1) with 2 in H2. rewrite H2.
  destruct inverse.
  - eexists. split; [reflexivity|].
    apply for_range_preserves; [exact Ha2|]. intros j u. apply scaleStep_sized.
  - eexists. split; [reflexivity|exact Ha2].
Qed.

End FFTFacts.

(** ** Onsets *)

Module OnsetFacts.
Import Worker JSFacts Notions.

Lemma Rleb_true (x y : R) : Rleb x y = true <-> (x <= y)%R.
Proof. unfold Rleb. destruct (Rle_dec x y); split; intros; auto; discriminate. Qed.

Lemma Rleb_false (x y : R) : Rleb x y = false <-> (y < x)%R.
Proof.
  unfold Rleb. destruct (Rle_dec x y); split; intros; auto; try discriminate; lra.
Qed.

Lemma Rltb_true (x y : R) : Rltb x y = true <-> (x < y)%R.
Proof. unfold Rltb. destruct (Rlt_dec x y); split; intros; auto; discriminate. Qed.

Lemma onsetStep_spec (flux medians : list R) (i : Z) (indexes : list Z) :
  (exceedsThreshold flux medians i /\ localPeak flux i /\
   onsetStep flux medians i indexes = (indexes ++ [i])%list) \/
  (~ (exceedsThreshold flux medians i /\ localPeak flux i) /\
   onsetStep flux medians i indexes = indexes).
Proof.
  unfold onsetStep, exceedsThreshold, localPeak.
  set (prev := match rd_opt flux (i - 1) with Some v => v | None => 0%R end).
  set (next := match rd_opt flux (i + 1) with Some v => v | None => 0%R end).
  assert (Hpeak : forall P : Prop, P ->
    (P /\ (prev <= rd 0 flux i)%R /\ (next <= rd 0 flux i)%R /\
     (if Rleb prev (rd 0%R flux i) && Rleb next (rd 0%R flux i)
      then (indexes ++ [i])%list else indexes) = (indexes ++ [i])%list) \/
    (~ (P /\ (prev <= rd 0 flux i)%R /\ (next <= rd 0 flux i)%R) /\
     (if Rleb prev (rd 0%R flux i) && Rleb next (rd 0%R flux i)
      then (indexes ++ [i])%list else indexes) = indexes)).
  { intros P HP.
    destruct (Rleb prev (rd 0%R flux i)) eqn:E1; simpl.
    - destruct (Rleb next (rd 0%R flux i)) eqn:E2.
      + left. apply Rleb_true in E1, E2. tauto.
      + right. apply Rleb_false in E2. split; [|reflexivity]. intros [_ [_ H]]. lra.
    - right. apply Rleb_false in E1. split; [|reflexivity]. intros [_ [H _]]. lra. }
  destruct (threshold medians i) as [t|].
  - destruct (Rleb (rd 0%R flux i) t) eqn:E.
    + right. apply Rleb_true in E. split; [|reflexivity]. intros [H _]. lra.
    + apply Rleb_false in E. destruct (Hpeak _ E) as [H|H]; [left|right]; tauto.
  - destruct (Hpeak _ I) as [H|H]; [left|right]; tauto.
Qed.

Lemma sorted_snoc (l : list Z) (i : Z) :
  StronglySorted Z.lt l -> Forall (fun x => x < i) l -> StronglySorted Z.lt (l ++ [i]).
Proof.
  induction l as [|x t IH]; intros Hs Hb; simpl.
  - constructor; constructor.
  - inversion Hs; subst. inversion Hb; subst. constructor; auto.
    apply Forall_app. split; auto.
Qed.

(** The index list as the loop leaves it: ascending, and holding exactly
    the frames from 1 on that pass both tests. *)
Lemma rawOnsets_spec (flux medians : list R) :
  StronglySorted Z.lt (rawOnsets flux medians) /\
  forall x, In x (rawOnsets flux medians) <->
            1 <= x < len flux /\ exceedsThreshold flux medians x /\ localPeak flux x.
Proof.
  unfold rawOnsets.
  destruct (Z_le_gt_dec 1 (len flux)) as [Hn|Hn].
  - pose (P := fun (j : Z) (acc : list Z) =>
        StronglySorted Z.lt acc /\
        forall x, In x acc <->
                  1 <= x < j /\ exceedsThreshold flux medians x /\ localPeak flux x).
    assert (H : P (len flux) (for_range 1 (len flux) (onsetStep flux medians) [])).
    { apply for_range_ind; [exact Hn| |].
      - split; [constructor|]. intros x; simpl; split; [tauto|lia].
      - intros j t Hj [Hs Hin].
        destruct (onsetStep_spec flux medians j t) as [[He [Hp ->]]|[Hno ->]].
        + split.
          * apply sorted_snoc; auto. apply Forall_forall. intros y Hy.
            apply Hin in Hy. lia.
          * intros x. rewrite in_app_iff, Hin. simpl. split.
            -- intros [[Hx Hc]|[<-|[]]]; [split; [lia|tauto]|]. split; [lia|tauto].
            -- intros [Hx Hc]. destruct (Z.eq_dec x j) as [->|Hne]; [tauto|].
               left. split; [lia|tauto].
        + split; auto. intros x. rewrite Hin. split.
          * intros [Hx Hc]. split; [lia|tauto].
          * intros [Hx Hc]. destruct (Z.eq_dec x j) as [->|Hne]; [tauto|].
            split; [lia|tauto]. }
    exact H.
  - rewrite for_range_empty by lia. split; [constructor|].
    intros x; simpl; split; [tauto|lia].
Qed.

Lemma ToUint32_small (z : Z) : 0 <= z < 2 ^ 32 -> ToUint32 z = z.
Proof. intros H. unfold ToUint32. now apply Z.mod_small. Qed.

(** Stored in a [Uint32Array], the indices are unchanged as long as there
    are at most 2^32 frames. *)
Lemma detectOnsets_raw (flux medians : list R) :
  len flux <= 2 ^ 32 -> detectOnsets flux medians = rawOnsets flux medians.
Proof.
  intros Hn. unfold detectOnsets. fold (rawOnsets flux medians).
  destruct (rawOnsets_spec flux medians) as [_ Hin].
  rewrite <- (map_id (rawOnsets flux medians)) at 2.
  apply map_ext_in. intros x Hx. apply Hin in Hx. apply ToUint32_small. lia.
Qed.

Lemma sort_001 : sortNumeric [0; 0; 1]%R = [0; 0; 1]%R.
Proof.
  unfold sortNumeric. simpl.
  repeat (destruct (Rle_dec _ _); try lra; simpl). reflexivity.
Qed.

Lemma floor_3_2 : Math_floor (IZR 3 / 2) = 1.
Proof. apply Zfloor_eq. lra. Qed.

(** The running median of the flux [0, 0, 1] is 0 at every frame. *)
Lemma median_001 : computeRunningMedian [0; 0; 1]%R 10 = [0; 0; 0]%R.
Proof.
  unfold computeRunningMedian, tabulate.
  change (range 0 (len [0; 0; 1]%R)) with [0; 1; 2].
  cbn [map].
  change (for_range (Z.max 0 (0 - 10)) (Z.min (len [0%R; 0%R; 1%R] - 1) (0 + 10) + 1)
            (fun j window => (window ++ [rd 0%R [0%R; 0%R; 1%R] j])%list) [])
    with [0; 0; 1]%R.
  change (for_range (Z.max 0 (1 - 10)) (Z.min (len [0%R; 0%R; 1%R] - 1) (1 + 10) + 1)
            (fun j window => (window ++ [rd 0%R [0%R; 0%R; 1%R] j])%list) [])
    with [0; 0; 1]%R.
  change (for_range (Z.max 0 (2 - 10)) (Z.min (len [0%R; 0%R; 1%R] - 1) (2 + 10) + 1)
            (fun j window => (window ++ [rd 0%R [0%R; 0%R; 1%R] j])%list) [])
    with [0; 0; 1]%R.
  rewrite sort_001. change (len [0; 0; 1]%R) with 3. rewrite floor_3_2. reflexivity.
Qed.

(** C6, as the claim states it, fails: with the flux [0, 0, 1] and its
    running median, the last frame (index 2) is reported as an onset. *)
Lemma last_frame_onset :
  let flux := [0; 0; 1]%R in
  In (len flux - 1) (detectOnsets flux (computeRunningMedian flux 10)).
Proof.
  cbv zeta. rewrite median_001.
  rewrite detectOnsets_raw by (unfold len; simpl; lia).
  apply rawOnsets_spec. change (len [0; 0; 1]%R - 1) with 2.
  split; [unfold len; simpl; lia|]. split.
  - unfold exceedsThreshold.
    change (threshold [0; 0; 0]%R 2) with (Some (4 * Rmax 0 1e-6)%R).
    change (rd 0%R [0; 0; 1]%R 2) with 1%R.
    unfold Rmax. destruct (Rle_dec 0 1e-6); lra.
  - unfold localPeak.
    change (rd_opt [0; 0; 1]%R (2 - 1)) with (Some 0%R).
    change (rd_opt [0; 0; 1]%R (2 + 1)) with (@None R).
    change (rd 0%R [0; 0; 1]%R 2) with 1%R. lra.
Qed.

(** C6, amended.  [detectOnsets] never reports frame 0.  The last frame is
    not excluded: its missing right neighbour counts as 0, so it is reported
    exactly when there are at least two frames, it passes the threshold
    test, it is at least as large as the frame before it, and it is not
    negative. *)
Theorem detectOnsets_boundary_frames (flux medians : list R) :
  len flux <= 2 ^ 32 ->
  ~ In 0 (detectOnsets flux medians) /\
  (In (len flux - 1) (detectOnsets flux medians) <->
   2 <= len flux /\
   exceedsThreshold flux medians (len flux - 1) /\
   (rd 0 flux (len flux - 2) <= rd 0 flux (len flux - 1))%R /\
   (0 <= rd 0 flux (len flux - 1))%R).
Proof.
  intros Hn. rewrite detectOnsets_raw by exact Hn.
  destruct (rawOnsets_spec flux medians) as [_ Hin]. split.
  - intros H0. apply Hin in H0. lia.
  - rewrite Hin. unfold localPeak.
    replace (len flux - 1 + 1) with (len flux) by lia.
    rewrite (rd_opt_out flux (len flux)) by lia.
    replace (len flux - 1 - 1) with (len flux - 2) by lia.
    split.
    + intros [Hr [He [Hp Hq]]].
      rewrite (rd_opt_in 0%R) in Hp by lia. repeat split; try lia; assumption.
    + intros [Hr [He [Hp Hq]]].
      rewrite (rd_opt_in 0%R) by lia. repeat split; try lia; assumption.
Qed.

Lemma detectOnsets_boundary_frames_witness :
  ~ In 0 (detectOnsets [0; 0; 1]%R [0; 0; 0]%R) /\
  (In (len [0; 0; 1]%R - 1) (detectOnsets [0; 0; 1]%R [0; 0; 0]%R) <->
   2 <= len [0; 0; 1]%R /\
   exceedsThreshold [0; 0; 1]%R [0; 0; 0]%R (len [0; 0; 1]%R - 1) /\
   (rd 0 [0; 0; 1] (len [0; 0; 1]%R - 2) <= rd 0 [0; 0; 1] (len [0; 0; 1]%R - 1))%R /\
   (0 <= rd 0 [0; 0; 1] (len [0; 0; 1]%R - 1))%R).
Proof.
  apply (detectOnsets_boundary_frames [0; 0; 1]%R [0; 0; 0]%R).
  unfold len. simpl. lia.
Defined.

End OnsetFacts.

(** ** Silent frames *)

Module SilenceFacts.
Import Worker JSFacts OnsetFacts Notions.



End SilenceFacts.

(** ** The band mapper *)

Module BandFacts.
Import Worker JSFacts Notions.


Lemma bandBins_eq (numBands : Z) (sampleRate : R) (fftSize : Z) :
  bandBins numBands sampleRate fftSize
  = map (bandBin numBands sampleRate fftSize) (range 0 numBands).
Proof.
  unfold bandBins, computeBandBinRanges, computeBandFrequencies, tabulate.
  rewrite map_map. reflexivity.
Qed.















End BandFacts.

(** ** The orchestrator *)

Module PipelineFacts.
Import Worker JSFacts FFTFacts OnsetFacts Notions.

Lemma bind_ret_l {A B : Type} (a : A) (k : A -> M B) : bind (ret a) k = k a.
Proof. unfold bind, ret. destruct (k a). reflexivity. Qed.

Lemma bind_returns {A B : Type} (m : M A) (k : A -> M B) (log : list progress) (b : B) :
  bind m k = (log, Returns b) ->
  exists log1 a log2,
    m = (log1, Returns a) /\ k a = (log2, Returns b) /\ log = (log1 ++ log2)%list.
Proof.
  unfold bind. destruct m as [log1 [a|e|]]; try discriminate.
  destruct (k a) as [log2 r] eqn:E. intros H. injection H as <- ->.
  exists log1, a, log2. auto.
Qed.

Lemma bind_post {B : Type} (x : R) (stage : string) (k : unit -> M B) :
  bind (postProgress x stage) k
  = ({| percent := Z.max 0 (Z.min 100 (Math_round x)); stage := stage |} :: fst (k tt),
     snd (k tt)).
Proof. unfold bind, postProgress. destruct (k tt). reflexivity. Qed.

(** *** Allocations *)

Lemma newArray_cases (n : Z) :
  (0 <= n < 2 ^ 32 /\ newArray n = ret tt) \/ newArray n = throw "Invalid array length".
Proof.
  unfold newArray. destruct ((0 <=? n) && (n <? 2 ^ 32)) eqn:E; [left|right; reflexivity].
  apply andb_true_iff in E. destruct E as [E1 E2].
  apply Z.leb_le in E1. apply Z.ltb_lt in E2. split; [lia|reflexivity].
Qed.

Lemma newTypedArray_cases (n : Z) :
  (0 <= n < 2 ^ 53 /\ newTypedArray n = ret tt)
  \/ newTypedArray n = throw "Invalid typed array length".
Proof.
  unfold newTypedArray.
  destruct ((0 <=? n) && (n <? 2 ^ 53)) eqn:E; [left|right; reflexivity].
  apply andb_true_iff in E. destruct E as [E1 E2].
  apply Z.leb_le in E1. apply Z.ltb_lt in E2. split; [lia|reflexivity].
Qed.

Lemma newArray_ok (n : Z) : 0 <= n < 2 ^ 32 -> newArray n = ret tt.
Proof.
  intros H. destruct (newArray_cases n) as [[_ E]|E]; [exact E|].
  unfold newArray in E.
  replace ((0 <=? n) && (n <? 2 ^ 32)) with true in E; [discriminate|].
  symmetry. apply andb_true_iff. split; [apply Z.leb_le|apply Z.ltb_lt]; lia.
Qed.

Lemma newTypedArray_ok (n : Z) : 0 <= n < 2 ^ 53 -> newTypedArray n = ret tt.
Proof.
  intros H. destruct (newTypedArray_cases n) as [[_ E]|E]; [exact E|].
  unfold newTypedArray in E.
  replace ((0 <=? n) && (n <? 2 ^ 53)) with true in E; [discriminate|].
  symmetry. apply andb_true_iff. split; [apply Z.leb_le|apply Z.ltb_lt]; lia.
Qed.

(** The allocation [g] is a step of the run [H] that returns: it succeeded,
    which is recorded as [G]. *)
Ltac allocated H G g :=
  let E := fresh "E" in
  lazymatch g with
  | newArray ?n => destruct (newArray_cases n) as [[G E]|E]
  | newTypedArray ?n => destruct (newTypedArray_cases n) as [[G E]|E]
  end;
  rewrite E in H;
  [rewrite bind_ret_l in H | cbn [bind throw fst snd] in H; discriminate H].

(** *** The engine inside the frame loop *)

Lemma callFft_log (re im : list R) (inverse : bool) : fst (callFft re im inverse) = [].
Proof.
  unfold callFft. destruct (FFT.fft _ inverse) as [[u|e|] a]; reflexivity.
Qed.

Lemma callFft_returns (re im : list R) (inverse : bool) (n : Z) :
  len re = n -> len im = n -> n < 2 ^ 30 -> FFT.isPowerOfTwo n = true ->
  exists re' im', callFft re im inverse = ret (re', im') /\ len re' = n /\ len im' = n.
Proof.
  intros Hr Hi Hn Hp. unfold callFft.
  destruct (fft_returns {| FFT.re := re; FFT.im := im |} inverse) as [a' [-> [Hr' Hi']]];
    cbn [FFT.re FFT.im]; try congruence; try lia.
  exists (FFT.re a'), (FFT.im a'). cbn [FFT.re FFT.im] in *. repeat split; congruence.
Qed.

Lemma fill_length {A : Type} (a : list A) (v : A) (start stop : Z) :
  len (fill a v start stop) = len a.
Proof.
  unfold fill. apply (for_range_preserves (fun t => len t = len a)); [reflexivity|].
  intros j t Ht. now rewrite len_wr.
Qed.

Lemma fillWindowedSignal_length (target samples : list R) (start fftSize : Z)
    (window : list R) :
  len (fillWindowedSignal target samples start fftSize window) = len target.
Proof.
  unfold fillWindowedSignal.
  apply (for_range_preserves (fun t => len t = len target)); [reflexivity|].
  intros j t Ht. now rewrite len_wr.
Qed.

Lemma frameStep_returns (left right : list R) (fftSize hopSize numFrames numBins : Z)
    (hannWindow : list R) (bandBinRanges : list binRange) (frame : Z) (s : stft) :
  fftSize < 2 ^ 30 -> FFT.isPowerOfTwo fftSize = true -> scratch fftSize s ->
  exists s',
    frameStep left right fftSize hopSize numFrames numBins hannWindow bandBinRanges frame s
    = (frameProgress numFrames frame, Returns s') /\
    scratch fftSize s' /\
    len (st_spectralFlux s') = len (st_spectralFlux s).
Proof.
  intros Hn Hp [H1 [H2 [H3 H4]]]. unfold frameStep.
  destruct (callFft_returns
              (fillWindowedSignal (st_reLeft s) left (frame * hopSize) fftSize hannWindow)
              (fill (st_imLeft s) 0%R 0 (len (st_imLeft s))) false fftSize)
    as [reL [imL [-> [HrL HiL]]]];
    [now rewrite fillWindowedSignal_length | now rewrite fill_length | exact Hn | exact Hp |].
  rewrite bind_ret_l.
  destruct (fillMagnitudes reL imL (st_magnitudesLeft s)) as [magL peakL].
  destruct (callFft_returns
              (fillWindowedSignal (st_reRight s) right (frame * hopSize) fftSize hannWindow)
              (fill (st_imRight s) 0%R 0 (len (st_imRight s))) false fftSize)
    as [reR [imR [-> [HrR HiR]]]];
    [now rewrite fillWindowedSignal_length | now rewrite fill_length | exact Hn | exact Hp |].
  rewrite bind_ret_l.
  destruct (fillMagnitudes reR imR (st_magnitudesRight s)) as [magR peakR].
  destruct (for_range 0 numBins _ _) as [curr flux].
  unfold frameProgress.
  destruct ((and32 frame 31 =? 0) || (frame =? numFrames - 1)).
  - rewrite bind_post. cbn [fst snd ret].
    eexists. split; [reflexivity|]. unfold scratch. cbn.
    rewrite len_wr. tauto.
  - eexists. split; [reflexivity|]. unfold scratch. cbn.
    rewrite len_wr. tauto.
Qed.


(** *** The frame loop *)

Lemma for_range_M_returns {St : Type} (P : St -> Prop) (body : Z -> St -> M St)
    (logf : Z -> list progress) (lo hi : Z) (s : St) :
  P s ->
  (forall j t, P t -> exists t', body j t = (logf j, Returns t') /\ P t') ->
  exists s', for_range_M lo hi body s = (flat_map logf (range lo hi), Returns s') /\ P s'.
Proof.
  intros H0 Hstep. unfold for_range_M, range.
  generalize (Z.to_nat (hi - lo)) as n. intros n. revert lo s H0.
  induction n as [|n IH]; intros lo s H0.
  - exists s. split; [reflexivity|exact H0].
  - cbn [for_count_M seq map flat_map].
    destruct (Hstep lo s H0) as [t [Ht HP]]. rewrite Ht.
    destruct (IH (lo + 1) t HP) as [s' [Hs' HP']].
    exists s'. split; [|exact HP'].
    unfold bind. rewrite Hs'.
    replace (lo + Z.of_nat 0) with lo by lia.
    rewrite <- seq_shift, map_map.
    rewrite (map_ext (fun k => lo + Z.of_nat (S k)) (fun k => lo + 1 + Z.of_nat k))
      by (intros; lia).
    reflexivity.
Qed.

Lemma for_range_M_inv {S : Type} (P : S -> Prop) (body : Z -> S -> M S)
    (lo hi : Z) (s s' : S) (log : list progress) :
  for_range_M lo hi body s = (log, Returns s') ->
  P s ->
  (forall j t l t', P t -> body j t = (l, Returns t') -> P t') ->
  P s'.
Proof.
  unfold for_range_M. generalize (Z.to_nat (hi - lo)) as n. intros n.
  revert lo s log. induction n as [|n IH]; intros lo s log H H0 Hstep.
  - cbn in H. injection H as _ <-. exact H0.
  - cbn [for_count_M] in H. apply bind_returns in H.
    destruct H as [l1 [t [l2 [Hb [Hr _]]]]].
    eapply IH; [exact Hr| |exact Hstep]. eapply Hstep; eassumption.
Qed.

Lemma Math_round_IZR (z : Z) : Math_round (IZR z) = z.
Proof. unfold Math_round. apply Zfloor_eq. lra. Qed.

Lemma len_alloc {A : Type} (zero : A) (n : Z) : 0 <= n -> len (alloc zero n) = n.
Proof. intros H. unfold len, alloc. rewrite repeat_length. lia. Qed.

(** The tiles that a run allocates hold, for every frame, the row of
    [numBins] cells that [writeSpectrogramFrame] fills. *)
Lemma createSpectrogramTiles_row (numFrames numBins tileSize frame : Z) :
  0 < tileSize -> 0 <= numBins -> 0 <= frame < numFrames ->
  exists tile,
    rd_opt (createSpectrogramTiles numFrames numBins tileSize) (frame / tileSize)
    = Some tile /\
    (frame mod tileSize + 1) * numBins <= len tile.
Proof.
  intros Ht Hb Hf. unfold createSpectrogramTiles, Math_ceil.
  set (tileCount := Z.max 1 (Zceil (IZR numFrames / IZR tileSize))).
  pose proof (Z.div_mod frame tileSize ltac:(lia)) as Hdm.
  pose proof (Z.mod_pos_bound frame tileSize Ht) as Hm.
  assert (Hq0 : 0 <= frame / tileSize) by (apply Z.div_pos; lia).
  assert (Hq : frame / tileSize < tileCount).
  { apply Z.lt_le_trans with (Zceil (IZR numFrames / IZR tileSize));
      [|subst tileCount; lia].
    apply lt_IZR.
    pose proof (Zceil_bound (IZR numFrames / IZR tileSize)) as [_ Hc].
    eapply Rlt_le_trans; [|exact Hc].
    assert (HT : (0 < IZR tileSize)%R) by (apply IZR_lt; exact Ht).
    apply Rmult_lt_reg_r with (IZR tileSize); [exact HT|].
    unfold Rdiv. rewrite Rmult_assoc, Rinv_l, Rmult_1_r by lra.
    rewrite <- mult_IZR. apply IZR_lt. nia. }
  eexists. split.
  - rewrite (rd_opt_in (alloc 0 0)) by (rewrite len_tabulate; lia).
    rewrite rd_tabulate by lia. reflexivity.
  - rewrite len_alloc by nia. nia.
Qed.

(** The band array that a run allocates holds a row of [numBands] bytes for
    every frame. *)
Lemma bands_row (numFrames numBands frame : Z) :
  0 <= numBands -> 0 <= frame < numFrames ->
  (frame + 1) * numBands <= len (alloc 0 (numFrames * numBands)).
Proof. intros Hb Hf. rewrite len_alloc by nia. nia. Qed.

Lemma post_constant (z : Z) (stage : string) :
  0 <= z <= 100 ->
  {| percent := Z.max 0 (Z.min 100 (Math_round (IZR z))); stage := stage |} = note z stage.
Proof. intros H. rewrite Math_round_IZR. unfold note. f_equal. lia. Qed.

Lemma frameCount_eval (numSamples fftSize hopSize : Z) :
  0 < hopSize ->
  frameCount numSamples fftSize hopSize = Z.max 1 ((numSamples - fftSize) / hopSize + 1).
Proof.
  intros H. unfold frameCount, Math_floor. rewrite Zfloor_div by exact H. reflexivity.
Qed.

Lemma tileCount_le (numFrames : Z) :
  1 <= numFrames -> 1 <= tileCount numFrames <= numFrames.
Proof.
  intros H. unfold tileCount, Math_ceil. split; [lia|].
  apply Z.max_lub; [exact H|].
  pose proof (Zceil_bound (IZR numFrames / IZR TILE_SIZE)) as [Hc _].
  assert (Hn : (1 <= IZR numFrames)%R) by (apply IZR_le; exact H).
  assert (Hlt : (IZR (Zceil (IZR numFrames / IZR TILE_SIZE)) < IZR (numFrames + 1))%R).
  { rewrite plus_IZR. change (IZR TILE_SIZE) with 1000%R in *. lra. }
  apply lt_IZR in Hlt. lia.
Qed.

(** A run of fewer than 2^21 frames with fewer than 2^32 bands can be
    allocated. *)
Lemma allocatable_frames (numBands numFrames : Z) :
  0 <= numBands < 2 ^ 32 -> 1 <= numFrames < 2 ^ 21 -> allocatable numBands numFrames.
Proof.
  intros Hb Hf. pose proof (tileCount_le numFrames ltac:(lia)) as Ht.
  unfold allocatable. split; [lia|]. split; [|lia].
  apply Z.le_lt_trans with (2 ^ 21 * numBands); [nia|].
  change (2 ^ 53) with (2 ^ 21 * 2 ^ 32). nia.
Qed.

(** The allocations of a request of a few frames. *)
Ltac small_run :=
  apply allocatable_frames;
  [ vm_compute; split; [discriminate|reflexivity]
  | unfold run_numFrames; rewrite frameCount_eval by (vm_compute; reflexivity);
    vm_compute; split; [discriminate|reflexivity] ].

(** With a transform size that the engine accepts and that is below 2^30,
    and arrays that can be allocated, the stages run to the end and return
    the bundle. *)
Lemma runStages_returns (sampleRate : R) (fftSize hopSize numBands numSamples : Z)
    (left right : list R) :
  fftSize < 2 ^ 30 -> FFT.isPowerOfTwo fftSize = true ->
  0 <= numBands -> allocatable numBands (frameCount numSamples fftSize hopSize) ->
  exists b,
    runStages sampleRate fftSize hopSize numBands numSamples left right
    = (stagesLog (frameCount numSamples fftSize hopSize), Returns b) /\
    Worker.numSamples b = numSamples /\
    Worker.fftSize b = fftSize /\
    Worker.numFrames b = frameCount numSamples fftSize hopSize.
Proof.
  intros Hn Hp Hb [Ha1 [Ha2 Ha3]].
  assert (H0 : 0 <= fftSize).
  { unfold FFT.isPowerOfTwo in Hp. apply andb_true_iff in Hp.
    destruct Hp as [Hp _]. apply Z.ltb_lt in Hp. lia. }
  unfold runStages. cbv zeta. fold (frameCount numSamples fftSize hopSize).
  fold (tileCount (frameCount numSamples fftSize hopSize)).
  set (numFrames := frameCount numSamples fftSize hopSize) in *.
  assert (Hnf : 1 <= numFrames) by (unfold numFrames, frameCount; lia).
  assert (Hbins : 0 <= shr32 fftSize 1 < 2 ^ 29).
  { rewrite shr32_1 by lia. split; [apply Z.div_pos; lia|].
    apply Z.div_lt_upper_bound; lia. }
  rewrite (newArray_ok numBands) by lia. rewrite bind_ret_l.
  rewrite (newTypedArray_ok (numFrames * numBands)) by nia.
  rewrite (newArray_ok (tileCount numFrames)) by (unfold tileCount in *; lia).
  rewrite (newTypedArray_ok (Z.min TILE_SIZE numFrames * shr32 fftSize 1))
    by (unfold TILE_SIZE; nia).
  match goal with
  | |- context [for_range_M 0 numFrames ?body ?s0] =>
      destruct (for_range_M_returns (scratch fftSize) body (frameProgress numFrames)
                  0 numFrames s0) as [s [Hloop _]]
  end.
  - unfold scratch. cbn. rewrite !len_alloc by lia. tauto.
  - intros j t Ht.
    destruct (frameStep_returns left right fftSize hopSize numFrames (shr32 fftSize 1)
                (createHannWindow fftSize)
                (computeBandBinRanges (computeBandFrequencies numBands sampleRate)
                   sampleRate fftSize (shr32 fftSize 1)) j t Hn Hp Ht)
      as [t' [Ht' [Hs' _]]].
    exists t'. split; assumption.
  - repeat (rewrite bind_post; cbv beta). rewrite !bind_ret_l.
    repeat (rewrite bind_post; cbv beta).
    rewrite Hloop. unfold bind at 1.
    repeat (rewrite bind_post; cbv beta). cbn [fst snd ret].
    rewrite !post_constant by lia.
    eexists. split; [unfold stagesLog; cbn [app]; reflexivity|].
    cbn. auto.
Qed.


(** *** Inputs *)

Lemma toFloat32Array_channel (value : jsvalue) (name : string) (a : list R) :
  channel value = Some a -> toFloat32Array value name = ret a.
Proof.
  destruct value as [x|x t|x]; cbn; try discriminate.
  - now intros [= ->].
  - destruct (t =? 0); [now intros [= ->]|discriminate].
Qed.

Lemma toFloat32Array_returns (value : jsvalue) (name : string) (a : list R)
    (log : list progress) :
  toFloat32Array value name = (log, Returns a) -> channel value = Some a /\ log = [].
Proof.
  destruct value as [x|x t|x]; cbn; try discriminate.
  - now intros [= <- <-].
  - destruct (t =? 0); [now intros [= <- <-]|discriminate].
Qed.

Lemma runPrecompute_channels (payload : Payload) (left right : list R) :
  channel (payload_left payload) = Some left ->
  rightChannel payload left = Some right ->
  runPrecompute payload
  = if run_numSamples payload left right <? 1
    then throw "Audio payload has no samples."
    else runStages (run_sampleRate payload) (run_fftSize payload) (run_hopSize payload)
           (run_numBands payload) (run_numSamples payload left right)
           (cut left (run_numSamples payload left right))
           (cut right (run_numSamples payload left right)).
Proof.
  intros Hl Hr. unfold runPrecompute.
  rewrite (toFloat32Array_channel _ _ _ Hl), bind_ret_l.
  unfold rightChannel in Hr.
  destruct (truthy (payload_right payload)).
  - rewrite (toFloat32Array_channel _ _ _ Hr), bind_ret_l. reflexivity.
  - injection Hr as <-. rewrite bind_ret_l. reflexivity.
Qed.

Lemma runPrecompute_inv (payload : Payload) (log : list progress) (b : Bundle) :
  runPrecompute payload = (log, Returns b) ->
  exists left right,
    channel (payload_left payload) = Some left /\
    rightChannel payload left = Some right /\
    1 <= run_numSamples payload left right /\
    runStages (run_sampleRate payload) (run_fftSize payload) (run_hopSize payload)
      (run_numBands payload) (run_numSamples payload left right)
      (cut left (run_numSamples payload left right))
      (cut right (run_numSamples payload left right)) = (log, Returns b).
Proof.
  intros H. pose proof H as H'. unfold runPrecompute in H.
  apply bind_returns in H. destruct H as [l1 [left [l2 [Hl [H ->]]]]].
  apply toFloat32Array_returns in Hl. destruct Hl as [Hl ->].
  apply bind_returns in H. destruct H as [l3 [right [l4 [Hr [H ->]]]]].
  assert (Hr' : rightChannel payload left = Some right).
  { unfold rightChannel. destruct (truthy (payload_right payload)).
    - apply toFloat32Array_returns in Hr. tauto.
    - injection Hr as _ <-. reflexivity. }
  exists left, right. split; [exact Hl|]. split; [exact Hr'|].
  rewrite (runPrecompute_channels payload left right Hl Hr') in H'.
  destruct (run_numSamples payload left right <? 1) eqn:E; [discriminate|].
  apply Z.ltb_ge in E. split; [lia|exact H'].
Qed.

Lemma sanitize_accepted (value : jsnumber) :
  FFT.isPowerOfTwo (sanitizePowerOfTwo value DEFAULT_FFT_SIZE) = true.
Proof.
  unfold sanitizePowerOfTwo. destruct value as [| |parsed]; try reflexivity.
  destruct (parsed <? 2) eqn:E; [reflexivity|].
  destruct (and32 parsed (parsed - 1) =? 0) eqn:E'; [|reflexivity].
  cbn [negb]. unfold FFT.isPowerOfTwo. rewrite E'.
  apply Z.ltb_ge in E. replace (1 <? parsed) with true by (symmetry; apply Z.ltb_lt; lia).
  reflexivity.
Qed.

(** A payload with two channels of at least one common sample, a
    transform size below 2^30 and arrays that can be allocated is analysed
    to the end. *)
Lemma runPrecompute_returns (payload : Payload) (left right : list R) :
  channel (payload_left payload) = Some left ->
  rightChannel payload left = Some right ->
  1 <= run_numSamples payload left right ->
  run_fftSize payload < 2 ^ 30 ->
  allocatable (run_numBands payload) (run_numFrames payload left right) ->
  exists b,
    runPrecompute payload
    = (stagesLog (frameCount (run_numSamples payload left right)
                    (run_fftSize payload) (run_hopSize payload)), Returns b) /\
    numSamples b = run_numSamples payload left right /\
    fftSize b = run_fftSize payload /\
    numFrames b = frameCount (run_numSamples payload left right)
                    (run_fftSize payload) (run_hopSize payload).
Proof.
  intros Hl Hr Hn Hf Ha. rewrite (runPrecompute_channels payload left right Hl Hr).
  replace (run_numSamples payload left right <? 1) with false
    by (symmetry; apply Z.ltb_ge; lia).
  apply runStages_returns;
    [exact Hf | apply sanitize_accepted | unfold run_numBands; lia | exact Ha].
Qed.

(** The allocations of a run that returns have succeeded. *)
Lemma runStages_allocated (sampleRate : R) (fftSize hopSize numBands numSamples : Z)
    (left right : list R) (log : list progress) (b : Bundle) :
  runStages sampleRate fftSize hopSize numBands numSamples left right = (log, Returns b) ->
  allocatable numBands (frameCount numSamples fftSize hopSize).
Proof.
  unfold runStages. cbv zeta. fold (frameCount numSamples fftSize hopSize).
  set (numFrames := frameCount numSamples fftSize hopSize).
  intros H.
  allocated H G1 (newArray numBands).
  repeat (rewrite bind_post in H; cbv beta in H).
  allocated H G2 (newTypedArray (numFrames * numBands)).
  allocated H G3 (newArray (Z.max 1 (Math_ceil (IZR numFrames / IZR TILE_SIZE)))).
  unfold allocatable, tileCount. lia.
Qed.

Lemma runPrecompute_allocated (payload : Payload) (left right : list R)
    (log : list progress) (b : Bundle) :
  channel (payload_left payload) = Some left ->
  rightChannel payload left = Some right ->
  runPrecompute payload = (log, Returns b) ->
  allocatable (run_numBands payload) (run_numFrames payload left right).
Proof.
  intros Hl Hr H. rewrite (runPrecompute_channels payload left right Hl Hr) in H.
  destruct (run_numSamples payload left right <? 1); [discriminate|].
  exact (runStages_allocated _ _ _ _ _ _ _ _ _ H).
Qed.

Lemma payload1000_allocatable :
  allocatable (run_numBands payload1000) (run_numFrames payload1000 [0%R] [0%R]).
Proof. small_run. Qed.

Lemma payload21_allocatable :
  allocatable (run_numBands payload21) (run_numFrames payload21 [0%R; 0%R] [0%R]).
Proof. small_run. Qed.

Lemma payloadMono_allocatable :
  allocatable (run_numBands payloadMono)
    (run_numFrames payloadMono [0; 1; 0; -1]%R [0; 1; 0; -1]%R).
Proof. small_run. Qed.

(** *** The transform size of a payload *)

Lemma land_pred_pow2 (z : Z) : 0 < z -> Z.land z (z - 1) = 0 -> z = 2 ^ Z.log2 z.
Proof.
  intros Hz Hl.
  destruct (Z.log2_spec z Hz) as [Hlo Hhi].
  destruct (Z.eq_dec z (2 ^ Z.log2 z)) as [He|Hne]; [exact He|exfalso].
  assert (Hk : Z.log2 (z - 1) = Z.log2 z).
  { apply Z.log2_unique; [apply Z.log2_nonneg|]. lia. }
  assert (H1 : Z.testbit z (Z.log2 z) = true) by (apply Z.bit_log2; lia).
  assert (H2 : Z.testbit (z - 1) (Z.log2 z) = true).
  { rewrite <- Hk. apply Z.bit_log2.
    assert (0 < 2 ^ Z.log2 z) by (apply Z.pow_pos_nonneg; [lia|apply Z.log2_nonneg]).
    lia. }
  assert (H3 : Z.testbit (Z.land z (z - 1)) (Z.log2 z) = true)
    by (rewrite Z.land_spec, H1, H2; reflexivity).
  rewrite Hl, Z.bits_0 in H3. discriminate.
Qed.

Lemma ToInt32_high (z : Z) : 2 ^ 31 <= z < 2 ^ 32 -> ToInt32 z = z - 2 ^ 32.
Proof.
  intros H. unfold ToInt32.
  replace (z + 2 ^ 31) with ((z - 2 ^ 31) + 1 * 2 ^ 32) by lia.
  rewrite Z.mod_add by lia. rewrite Z.mod_small by lia. lia.
Qed.

(** Below 2^32 the bit test of the code accepts exactly the powers of two. *)
Lemma and32_pred_pow2 (z : Z) :
  2 <= z < 2 ^ 32 -> and32 z (z - 1) = 0 -> exists k, 1 <= k /\ z = 2 ^ k.
Proof.
  intros Hz H. unfold and32 in H.
  destruct (Z_lt_ge_dec z (2 ^ 31)) as [Hlo|Hhi].
  - rewrite !ToInt32_small in H by lia.
    exists (Z.log2 z). split; [|apply land_pred_pow2; [lia|exact H]].
    assert (Z.log2 2 <= Z.log2 z) by (apply Z.log2_le_mono; lia).
    change (Z.log2 2) with 1 in *. lia.
  - destruct (Z.eq_dec z (2 ^ 31)) as [->|Hne]; [exists 31; split; [lia|reflexivity]|].
    rewrite !ToInt32_high in H by lia.
    assert (Hneg : Z.land (z - 2 ^ 32) (z - 1 - 2 ^ 32) < 0) by (apply Z.land_neg; lia).
    lia.
Qed.

Lemma sanitize_rejects (value : jsnumber) (fallback : Z) :
  ~ powerOfTwoFrom2 value -> below32 value -> sanitizePowerOfTwo value fallback = fallback.
Proof.
  intros Hn Hb. unfold sanitizePowerOfTwo. destruct value as [| |parsed]; try reflexivity.
  destruct (parsed <? 2) eqn:E; [reflexivity|]. apply Z.ltb_ge in E.
  destruct (and32 parsed (parsed - 1) =? 0) eqn:E'; [|reflexivity].
  exfalso. apply Hn. apply Z.eqb_eq in E'.
  destruct (and32_pred_pow2 parsed) as [k [Hk ->]];
    [split; [lia|apply Hb; reflexivity] | exact E' |].
  exists k. auto.
Qed.

Lemma not_pow2_1000 : ~ powerOfTwoFrom2 (Integer 1000).
Proof.
  intros [k [Hk H]]. injection H as H.
  destruct (Z_le_gt_dec k 9) as [Hle|Hgt].
  - assert (2 ^ k <= 2 ^ 9) by (apply Z.pow_le_mono_r; lia).
    change (2 ^ 9) with 512 in *. lia.
  - assert (2 ^ 10 <= 2 ^ k) by (apply Z.pow_le_mono_r; lia).
    change (2 ^ 10) with 1024 in *. lia.
Qed.

(** C1, as the claim states it, fails: a payload whose [fftSize] is 1000,
    which is not a power of two, is analysed to the end and a result bundle
    is returned. *)
Lemma fftSize_1000_runs :
  ~ powerOfTwoFrom2 (payload_fftSize payload1000) /\
  exists log b, runPrecompute payload1000 = (log, Returns b).
Proof.
  split; [exact not_pow2_1000|].
  assert (Hn : 1 <= run_numSamples payload1000 [0%R] [0%R]) by (vm_compute; discriminate).
  assert (Hf : run_fftSize payload1000 < 2 ^ 30) by (vm_compute; reflexivity).
  destruct (runPrecompute_returns payload1000 [0%R] [0%R] eq_refl eq_refl Hn Hf
              payload1000_allocatable)
    as [b [H _]].
  eauto.
Qed.

(** C1, amended.  A payload whose [fftSize] is not a power-of-two integer
    >= 2 (a missing or non-numeric value, a non-integer, an integer below 2,
    or another integer, here below 2^32) does not make the run fail: the
    default 2048 takes its place, and the run returns the bundle that the
    same payload with [fftSize] 2048 returns.  This is for a payload that
    is otherwise good: usable channels with a sample in common, and sizes
    within the limits of the language (fewer than 2^30 samples, fewer than
    2^32 bands, fewer than 2^32 tiles, band arrays of fewer than 2^53
    bytes). *)
Theorem invalid_fftSize_defaults (payload : Payload) (left right : list R) :
  channel (payload_left payload) = Some left ->
  rightChannel payload left = Some right ->
  1 <= run_numSamples payload left right ->
  withinLimits payload left right ->
  ~ powerOfTwoFrom2 (payload_fftSize payload) ->
  below32 (payload_fftSize payload) ->
  exists log b,
    runPrecompute payload = (log, Returns b) /\
    fftSize b = DEFAULT_FFT_SIZE /\
    runPrecompute (with_fftSize payload (Integer DEFAULT_FFT_SIZE)) = (log, Returns b).
Proof.
  intros Hl Hr Hn [_ [_ Ha]] Hp Hb.
  assert (Hf : run_fftSize payload = DEFAULT_FFT_SIZE)
    by (apply sanitize_rejects; assumption).
  destruct (runPrecompute_returns payload left right Hl Hr Hn) as [b [H [_ [Hfb _]]]];
    [rewrite Hf; reflexivity|exact Ha|].
  exists (stagesLog (frameCount (run_numSamples payload left right)
                       (run_fftSize payload) (run_hopSize payload))), b.
  split; [exact H|]. split; [congruence|].
  rewrite <- H.
  rewrite (runPrecompute_channels payload left right Hl Hr).
  rewrite (runPrecompute_channels (with_fftSize payload (Integer DEFAULT_FFT_SIZE))
             left right Hl Hr).
  rewrite Hf. reflexivity.
Qed.

Lemma invalid_fftSize_defaults_witness :
  exists log b,
    runPrecompute payload1000 = (log, Returns b) /\
    fftSize b = DEFAULT_FFT_SIZE /\
    runPrecompute (with_fftSize payload1000 (Integer DEFAULT_FFT_SIZE)) = (log, Returns b).
Proof.
  apply (invalid_fftSize_defaults payload1000 [0%R] [0%R]).
  - reflexivity.
  - reflexivity.
  - vm_compute. discriminate.
  - split; [vm_compute; reflexivity|split; [vm_compute; reflexivity|small_run]].
  - exact not_pow2_1000.
  - intros z H. injection H as <-. reflexivity.
Defined.

(** *** Channels of different lengths *)

Lemma len_slice0 (a : list R) (n : Z) : 0 <= n <= len a -> len (slice0 a n) = n.
Proof. intros H. unfold slice0, len in *. rewrite length_firstn. lia. Qed.

Lemma cut_slice0 (a : list R) (n : Z) : 0 <= n <= len a -> cut a n = slice0 a n.
Proof.
  intros H. unfold cut. destruct (len a =? n) eqn:E; [|reflexivity].
  apply Z.eqb_eq in E. cbn [negb]. unfold slice0, len in *.
  symmetry. apply firstn_all2. lia.
Qed.

Lemma cut_same (a : list R) (n : Z) : len a = n -> cut a n = a.
Proof. intros H. unfold cut. rewrite H, Z.eqb_refl. reflexivity. Qed.

Lemma run_numSamples_le (payload : Payload) (left right : list R) :
  run_numSamples payload left right <= len left /\
  run_numSamples payload left right <= len right.
Proof.
  unfold run_numSamples.
  destruct (payload_numSamples payload) as [m|]; [destruct (m <=? 0)|]; lia.
Qed.

Lemma run_numSamples_cut (payload : Payload) (left right : list R) (l r : jsvalue) :
  let n := run_numSamples payload left right in
  1 <= n ->
  run_numSamples (with_channels payload l r) (slice0 left n) (slice0 right n) = n.
Proof.
  intros n Hn. pose proof (run_numSamples_le payload left right) as [Hl Hr].
  fold n in Hl, Hr. unfold run_numSamples at 1. cbn [payload_numSamples with_channels].
  rewrite !len_slice0 by lia.
  subst n. unfold run_numSamples in *.
  destruct (payload_numSamples payload) as [m|]; [destruct (m <=? 0) eqn:E|]; lia.
Qed.

(** C2, as the claim states it, fails: a payload whose channels have the
    lengths 2 and 1 is analysed to the end; the bundle it returns covers the
    one sample the channels have in common. *)
Lemma mismatched_channels_run :
  exists left right log b,
    payload_left payload21 = Float32Array left /\
    payload_right payload21 = Float32Array right /\
    List.length left <> List.length right /\
    runPrecompute payload21 = (log, Returns b) /\ numSamples b = 1.
Proof.
  assert (Hn : 1 <= run_numSamples payload21 [0%R; 0%R] [0%R]) by (vm_compute; discriminate).
  assert (Hf : run_fftSize payload21 < 2 ^ 30) by (vm_compute; reflexivity).
  destruct (runPrecompute_returns payload21 [0%R; 0%R] [0%R] eq_refl eq_refl Hn Hf
              payload21_allocatable)
    as [b [H [Hs _]]].
  exists [0%R; 0%R], [0%R]. eexists. exists b.
  split; [reflexivity|]. split; [reflexivity|]. split; [simpl; lia|].
  split; [exact H|]. rewrite Hs. reflexivity.
Qed.

(** C2, amended.  A payload whose channels differ in length but have at
    least one sample each is not rejected: both channels are cut to the
    common length (or to the requested [numSamples], when that is smaller),
    and the run returns the bundle that the two cut channels return.  This
    is for a run within the limits of the language: a transform size below
    2^30, fewer than 2^30 samples and arrays that can be allocated (fewer
    than 2^32 bands, fewer than 2^32 tiles, band arrays of fewer than 2^53
    bytes). *)
Theorem mismatched_channels_truncated (payload : Payload) (left right : list R) :
  channel (payload_left payload) = Some left ->
  channel (payload_right payload) = Some right ->
  List.length left <> List.length right ->
  1 <= run_numSamples payload left right ->
  withinLimits payload left right ->
  let n := run_numSamples payload left right in
  exists log b,
    runPrecompute payload = (log, Returns b) /\
    numSamples b = n /\
    n <= Z.min (len left) (len right) /\
    runPrecompute (with_channels payload (Float32Array (slice0 left n))
                     (Float32Array (slice0 right n)))
    = (log, Returns b).
Proof.
  intros Hl Hr Hne Hn [Hf [_ Ha]] n.
  assert (Hr' : rightChannel payload left = Some right).
  { unfold rightChannel. destruct (payload_right payload); cbn in *; congruence. }
  destruct (runPrecompute_returns payload left right Hl Hr' Hn Hf Ha) as [b [H [Hs _]]].
  pose proof (run_numSamples_le payload left right) as [Hnl Hnr]. fold n in Hnl, Hnr, Hn.
  eexists. exists b. split; [exact H|]. split; [exact Hs|]. split; [lia|].
  rewrite <- H.
  rewrite (runPrecompute_channels payload left right Hl Hr').
  rewrite (runPrecompute_channels
             (with_channels payload (Float32Array (slice0 left n))
                (Float32Array (slice0 right n)))
             (slice0 left n) (slice0 right n) eq_refl eq_refl).
  pose proof (run_numSamples_cut payload left right (Float32Array (slice0 left n))
                (Float32Array (slice0 right n)) Hn) as Hcut.
  cbv zeta in Hcut. fold n in Hcut. fold n. rewrite Hcut.
  rewrite (cut_slice0 left n), (cut_slice0 right n) by lia.
  rewrite (cut_same (slice0 left n) n), (cut_same (slice0 right n) n)
    by (apply len_slice0; lia).
  reflexivity.
Qed.

Lemma mismatched_channels_truncated_witness :
  let n := run_numSamples payload21 [0%R; 0%R] [0%R] in
  exists log b,
    runPrecompute payload21 = (log, Returns b) /\
    numSamples b = n /\
    n <= Z.min (len [0%R; 0%R]) (len [0%R]) /\
    runPrecompute (with_channels payload21 (Float32Array (slice0 [0%R; 0%R] n))
                     (Float32Array (slice0 [0%R] n)))
    = (log, Returns b).
Proof.
  apply (mismatched_channels_truncated payload21 [0%R; 0%R] [0%R]).
  - reflexivity.
  - reflexivity.
  - simpl. lia.
  - vm_compute. discriminate.
  - split; [vm_compute; reflexivity|split; [vm_compute; reflexivity|small_run]].
Defined.

(** *** A missing right channel *)

(** C10, as the claim states it, fails: a payload that supplies a left
    channel without a sample and no right channel is rejected; the worker
    posts the error and no bundle. *)
Lemma missing_right_empty_left_fails :
  channel (payload_left payloadEmpty) = Some [] /\
  truthy (payload_right payloadEmpty) = false /\
  runPrecompute payloadEmpty = ([], Throws "Audio payload has no samples.") /\
  onmessage payloadEmpty = [errorMessage "Audio payload has no samples."].
Proof. repeat split. Qed.

(** C10, amended.  A payload that supplies a left channel and no right
    channel runs exactly as the same payload does with a copy of the left
    channel as its right channel: the notifications and the completion are
    the same.  The missing channel does not make the run fail: with at least
    one sample on the left, and sizes within the limits of the language (a
    transform size below 2^30, fewer than 2^30 samples, fewer than 2^32
    bands, fewer than 2^32 tiles, band arrays of fewer than 2^53 bytes), the
    run returns a bundle. *)
Theorem missing_right_is_dual_mono (payload : Payload) (left : list R) :
  channel (payload_left payload) = Some left ->
  truthy (payload_right payload) = false ->
  runPrecompute payload
  = runPrecompute (with_channels payload (payload_left payload) (Float32Array left)) /\
  (1 <= len left -> withinLimits payload left left ->
   exists log b, runPrecompute payload = (log, Returns b)).
Proof.
  intros Hl Ht.
  assert (Hr : rightChannel payload left = Some left)
    by (unfold rightChannel; now rewrite Ht).
  split.
  - rewrite (runPrecompute_channels payload left left Hl Hr).
    rewrite (runPrecompute_channels
               (with_channels payload (payload_left payload) (Float32Array left))
               left left Hl eq_refl).
    reflexivity.
  - intros Hn [Hf [_ Ha]].
    assert (Hs : 1 <= run_numSamples payload left left).
    { unfold run_numSamples.
      destruct (payload_numSamples payload) as [m|]; [destruct (m <=? 0) eqn:E|]; lia. }
    destruct (runPrecompute_returns payload left left Hl Hr Hs Hf Ha) as [b [H _]].
    eexists. exists b. exact H.
Qed.

Lemma missing_right_is_dual_mono_witness :
  runPrecompute payloadMono
  = runPrecompute (with_channels payloadMono (payload_left payloadMono)
                     (Float32Array [0%R; 1%R; 0%R; (-1)%R])) /\
  exists log b, runPrecompute payloadMono = (log, Returns b).
Proof.
  destruct (missing_right_is_dual_mono payloadMono [0%R; 1%R; 0%R; (-1)%R]
              eq_refl eq_refl) as [Hsame Hruns].
  split; [exact Hsame|]. apply Hruns.
  - vm_compute. discriminate.
  - split; [vm_compute; reflexivity|split; [vm_compute; reflexivity|small_run]].
Defined.

(** *** Onsets of a run *)


(** *** Progress notifications *)

Lemma bind_inRange {A B : Type} (m : M A) (k : A -> M B) :
  Forall inRange (fst m) -> (forall a, Forall inRange (fst (k a))) ->
  Forall inRange (fst (bind m k)).
Proof.
  intros Hm Hk. unfold bind. destruct m as [log [a|e|]]; cbn [fst] in *; auto.
  specialize (Hk a). destruct (k a) as [log' r]. cbn [fst] in *.
  apply Forall_app. split; assumption.
Qed.

Lemma postProgress_inRange (x : R) (stage : string) :
  Forall inRange (fst (postProgress x stage)).
Proof.
  unfold postProgress. cbn [fst]. constructor; [|constructor].
  unfold inRange. cbn [percent]. lia.
Qed.

Lemma ret_inRange {A : Type} (a : A) : Forall inRange (fst (ret a)).
Proof. constructor. Qed.

Lemma throw_inRange {A : Type} (text : string) : Forall inRange (fst (@throw A text)).
Proof. constructor. Qed.

Lemma newArray_inRange (n : Z) : Forall inRange (fst (newArray n)).
Proof. unfold newArray. destruct (_ && _); constructor. Qed.

Lemma newTypedArray_inRange (n : Z) : Forall inRange (fst (newTypedArray n)).
Proof. unfold newTypedArray. destruct (_ && _); constructor. Qed.

Lemma for_count_M_inRange {St : Type} (body : Z -> St -> M St) (n : nat) :
  (forall i s, Forall inRange (fst (body i s))) ->
  forall i s, Forall inRange (fst (for_count_M n i body s)).
Proof.
  intros Hbody. induction n as [|n IH]; intros i s; cbn [for_count_M].
  - apply ret_inRange.
  - apply bind_inRange; [apply Hbody|]. intros s'. apply IH.
Qed.

Lemma frameStep_inRange (left right : list R) (fftSize hopSize numFrames numBins : Z)
    (hannWindow : list R) (bandBinRanges : list binRange) (frame : Z) (s : stft) :
  Forall inRange
    (fst (frameStep left right fftSize hopSize numFrames numBins hannWindow bandBinRanges
            frame s)).
Proof.
  unfold frameStep.
  apply bind_inRange; [rewrite callFft_log; constructor|]. intros [reL imL].
  destruct (fillMagnitudes reL imL (st_magnitudesLeft s)) as [mL pL].
  apply bind_inRange; [rewrite callFft_log; constructor|]. intros [reR imR].
  destruct (fillMagnitudes reR imR (st_magnitudesRight s)) as [mR pR].
  destruct (for_range 0 numBins _ _) as [curr flux].
  destruct (_ || _).
  - apply bind_inRange; [apply postProgress_inRange|]. intros _. apply ret_inRange.
  - apply ret_inRange.
Qed.

Lemma runStages_inRange (sampleRate : R) (fftSize hopSize numBands numSamples : Z)
    (left right : list R) :
  Forall inRange
    (fst (runStages sampleRate fftSize hopSize numBands numSamples left right)).
Proof.
  unfold runStages.
  repeat first
    [ apply ret_inRange
    | apply postProgress_inRange
    | apply newArray_inRange
    | apply newTypedArray_inRange
    | apply for_count_M_inRange; intros; apply frameStep_inRange
    | apply bind_inRange; [|intros ?] ].
Qed.

(** Every notification of a run carries a percent between 0 and 100,
    whatever the payload and however the run ends. *)
Lemma progress_percent_in_range (payload : Payload) :
  Forall inRange (fst (runPrecompute payload)).
Proof.
  unfold runPrecompute.
  apply bind_inRange.
  { unfold toFloat32Array. destruct (payload_left payload) as [a|a t|b];
      [| destruct (t =? 0) |]; constructor. }
  intros left. apply bind_inRange.
  { destruct (truthy (payload_right payload)); [|apply ret_inRange].
    unfold toFloat32Array. destruct (payload_right payload) as [a|a t|b];
      [| destruct (t =? 0) |]; constructor. }
  intros right. cbv zeta.
  destruct (_ <? 1); [apply throw_inRange|apply runStages_inRange].
Qed.

(** With more than 100 frames the notification of frame 0 carries 20. *)
Lemma frameProgress_first (numFrames : Z) :
  100 < numFrames -> frameProgress numFrames 0 = [note 20 "Running STFT"].
Proof.
  intros H. unfold frameProgress. change (and32 0 31 =? 0) with true. cbn [orb].
  unfold note. do 2 f_equal.
  assert (Hr : Math_round (20 + IZR (0 + 1) / IZR numFrames * 50) = 20).
  { unfold Math_round. apply Zfloor_eq.
    assert (H100 : (100 < IZR numFrames)%R) by (apply IZR_lt; exact H).
    assert (Hpos : (0 < / IZR numFrames)%R) by (apply Rinv_0_lt_compat; lra).
    assert (Hlt : (/ IZR numFrames < / 100)%R) by (apply Rinv_lt_contravar; lra).
    change (IZR (0 + 1)) with 1%R. unfold Rdiv. lra. }
  rewrite Hr. reflexivity.
Qed.

(** The percents of a run of more than 100 frames begin 2, 10, 20, 21, 20. *)
Lemma progress_falls_back (payload : Payload) (left right : list R) :
  channel (payload_left payload) = Some left ->
  rightChannel payload left = Some right ->
  1 <= run_numSamples payload left right ->
  withinLimits payload left right ->
  100 < frameCount (run_numSamples payload left right) (run_fftSize payload)
          (run_hopSize payload) ->
  exists rest,
    map percent (fst (runPrecompute payload)) = ([2; 10; 20; 21; 20] ++ rest)%list.
Proof.
  intros Hl Hr Hn [Hf [_ Ha]] Hframes.
  destruct (runPrecompute_returns payload left right Hl Hr Hn Hf Ha) as [b [H _]].
  rewrite H. cbn [fst]. unfold stagesLog.
  rewrite (range_cons 0) by lia. cbn [flat_map].
  rewrite (frameProgress_first _ Hframes).
  cbn [app map percent note]. eexists. reflexivity.
Qed.

(** C3 at a run of 101 frames: the percents posted are 2, 10, 20, 21 and
    then 20, so the sequence is not non-decreasing. *)
Theorem progress_decreases_at_101_frames :
  (exists rest,
      map percent (fst (runPrecompute payloadLong)) = ([2; 10; 20; 21; 20] ++ rest)%list) /\
  ~ Sorted Z.le (map percent (fst (runPrecompute payloadLong))).
Proof.
  assert (Hlen : len (alloc 0%R 53248) = 53248) by (apply len_alloc; lia).
  assert (Hn : run_numSamples payloadLong (alloc 0%R 53248) (alloc 0%R 53248) = 53248).
  { unfold run_numSamples. cbn [payload_numSamples payloadLong]. rewrite Hlen.
    reflexivity. }
  assert (H : exists rest,
      map percent (fst (runPrecompute payloadLong)) = ([2; 10; 20; 21; 20] ++ rest)%list).
  { apply (progress_falls_back payloadLong (alloc 0%R 53248) (alloc 0%R 53248)).
    - reflexivity.
    - reflexivity.
    - rewrite Hn. lia.
    - split; [reflexivity|]. split; [rewrite Hn; reflexivity|].
      apply allocatable_frames; [vm_compute; split; [discriminate|reflexivity]|].
      unfold run_numFrames. rewrite Hn, frameCount_eval by (vm_compute; reflexivity).
      vm_compute. split; [discriminate|reflexivity].
    - rewrite Hn. unfold frameCount, Math_floor.
      change (run_fftSize payloadLong) with 2048.
      change (run_hopSize payloadLong) with 512.
      rewrite Zfloor_div by lia. reflexivity. }
  split; [exact H|].
  destruct H as [rest ->]. intros Hs.
  cbn [app] in Hs.
  repeat (apply Sorted_inv in Hs; destruct Hs as [Hs ?]).
  match goal with
  | Hd : HdRel Z.le 21 _ |- _ => apply HdRel_inv in Hd; lia
  end.
Qed.

End PipelineFacts.

(** ** The transform as a recursion, and its inversion *)

Module Fourier.
Import Notions.

(** Equations between complex expressions: the complex atoms are named,
    then each component is an equation of the ring of reals. *)
Ltac cgen :=
  repeat match goal with
  | |- context [fst ?t] =>
      tryif is_var t then fail else (let v := fresh "z" in generalize t; intros v)
  | |- context [snd ?t] =>
      tryif is_var t then fail else (let v := fresh "z" in generalize t; intros v)
  end.

Ltac cring :=
  unfold Cadd, Csub, Cmul, Cscale; cbn [fst snd]; cgen;
  apply pair_equal_spec; split; ring.

Lemma pow2_pos (k : nat) : 0 < 2 ^ Z.of_nat k.
Proof. apply Z.pow_pos_nonneg; lia. Qed.

Lemma pow2_succ (k : nat) : 2 ^ Z.of_nat (S k) = 2 * 2 ^ Z.of_nat k.
Proof. rewrite Nat2Z.inj_succ, Z.pow_succ_r; lia. Qed.

Lemma omega_0 (sign : R) (s : Z) : omega sign s 0 = (1, 0)%R.
Proof.
  unfold omega. replace (2 * PI * 0 / IZR s)%R with 0%R by (unfold Rdiv; ring).
  rewrite cos_0, sin_0. f_equal. ring.
Qed.

Lemma omega_double (sign : R) (h j : Z) :
  0 < h -> omega sign (2 * (2 * h)) (2 * j) = omega sign (2 * h) j.
Proof.
  intros Hh. unfold omega.
  assert (Hr : (0 < IZR h)%R) by (apply IZR_lt; exact Hh).
  replace (2 * PI * IZR (2 * j) / IZR (2 * (2 * h)))%R
    with (2 * PI * IZR j / IZR (2 * h))%R; [reflexivity|].
  rewrite !mult_IZR. field. lra.
Qed.

Lemma omega_succ (sign : R) (s j : Z) :
  (sign * sign = 1)%R ->
  omega sign s (2 * j + 1) = Cmul (omega sign s 1) (omega sign s (2 * j)).
Proof.
  intros Hs. unfold omega, Cmul. cbn [fst snd].
  replace (2 * PI * IZR (2 * j + 1) / IZR s)%R
    with (2 * PI * 1 / IZR s + 2 * PI * IZR (2 * j) / IZR s)%R
    by (rewrite plus_IZR; unfold Rdiv; ring).
  rewrite cos_plus, sin_plus.
  set (c1 := cos (2 * PI * 1 / IZR s)). set (s1 := sin (2 * PI * 1 / IZR s)).
  set (c2 := cos (2 * PI * IZR (2 * j) / IZR s)).
  set (s2 := sin (2 * PI * IZR (2 * j) / IZR s)).
  f_equal.
  - replace (sign * s1 * (sign * s2))%R with ((sign * sign) * (s1 * s2))%R by ring.
    rewrite Hs. ring.
  - ring.
Qed.

Lemma omega_conj (s i : Z) (z : C) :
  Cmul (omega 1 s i) (Cmul z (omega (-1) s i)) = z.
Proof.
  unfold omega, Cmul. cbn [fst snd]. destruct z as [a b]. cbn [fst snd].
  pose proof (sin2_cos2 (2 * PI * IZR i / IZR s)) as H. unfold Rsqr in H.
  set (c := cos (2 * PI * IZR i / IZR s)) in *.
  set (d := sin (2 * PI * IZR i / IZR s)) in *.
  f_equal.
  - transitivity (a * (d * d + c * c))%R; [ring | rewrite H; ring].
  - transitivity (b * (d * d + c * c))%R; [ring | rewrite H; ring].
Qed.

(** The transform only reads [x] on [0, 2^k). *)
Lemma dit_local (sign : R) (k : nat) :
  forall (x y : Z -> C),
    (forall m, 0 <= m < 2 ^ Z.of_nat k -> x m = y m) ->
    forall i, 0 <= i < 2 ^ Z.of_nat k -> dit sign k x i = dit sign k y i.
Proof.
  induction k as [|k IH]; intros x y Hxy i Hi.
  - cbn [dit]. apply Hxy. exact Hi.
  - rewrite pow2_succ in Hxy, Hi. pose proof (pow2_pos k) as Hp.
    cbn [dit]. cbv zeta.
    assert (He : forall j, 0 <= j < 2 ^ Z.of_nat k ->
              dit sign k (fun m => x (2 * m)) j = dit sign k (fun m => y (2 * m)) j).
    { apply IH. intros m Hm. apply Hxy. lia. }
    assert (Ho : forall j, 0 <= j < 2 ^ Z.of_nat k ->
              dit sign k (fun m => x (2 * m + 1)) j
              = dit sign k (fun m => y (2 * m + 1)) j).
    { apply IH. intros m Hm. apply Hxy. lia. }
    destruct (i <? 2 ^ Z.of_nat k) eqn:E.
    + apply Z.ltb_lt in E. rewrite He, Ho by lia. reflexivity.
    + apply Z.ltb_ge in E. rewrite He, Ho by lia. reflexivity.
Qed.

(** The transform commutes with a constant factor. *)
Lemma dit_factor (sign : R) (c : C) (k : nat) :
  forall (x : Z -> C) (i : Z),
    dit sign k (fun m => Cmul c (x m)) i = Cmul c (dit sign k x i).
Proof.
  induction k as [|k IH]; intros x i; [reflexivity|].
  cbn [dit]. cbv zeta.
  destruct (i <? 2 ^ Z.of_nat k);
    rewrite (IH (fun m => x (2 * m))), (IH (fun m => x (2 * m + 1))); cring.
Qed.

(** Decimation in frequency: the even outputs are the transform of the
    sums, the odd outputs the transform of the twisted differences, of the
    two halves of the input. *)
Lemma dit_even_odd (sign : R) (k : nat) :
  (sign * sign = 1)%R ->
  forall (x : Z -> C) (m : Z),
    0 <= m < 2 ^ Z.of_nat k ->
    let h := 2 ^ Z.of_nat k in
    dit sign (S k) x (2 * m) = dit sign k (fun j => Cadd (x j) (x (j + h))) m /\
    dit sign (S k) x (2 * m + 1)
    = dit sign k (fun j => Cmul (omega sign (2 * h) j) (Csub (x j) (x (j + h)))) m.
Proof.
  intros Hs. induction k as [|k IH]; intros x m Hm h.
  - change (2 ^ Z.of_nat 0) with 1 in *. assert (m = 0) by lia. subst m h.
    cbn [dit]. cbv beta zeta. change (2 ^ Z.of_nat 0) with 1.
    change (2 * 0 <? 1) with true. change (2 * 0 + 1 <? 1) with false.
    cbv iota.
    repeat match goal with
           | |- context [x ?e] =>
               let v := eval compute in e in progress change e with v
           | |- context [omega sign ?s ?e] =>
               let v := eval compute in e in progress change e with v
           end.
    rewrite !omega_0. split; cring.
  - subst h. rewrite pow2_succ in *. pose proof (pow2_pos k) as Hp.
    set (h' := 2 ^ Z.of_nat k) in *.
    assert (Hstep : forall y i,
      dit sign (S (S k)) y i
      = if i <? 2 * h'
        then Cadd (dit sign (S k) (fun j => y (2 * j)) i)
                  (Cmul (omega sign (2 * (2 * h')) i)
                        (dit sign (S k) (fun j => y (2 * j + 1)) i))
        else Csub (dit sign (S k) (fun j => y (2 * j)) (i - 2 * h'))
                  (Cmul (omega sign (2 * (2 * h')) (i - 2 * h'))
                        (dit sign (S k) (fun j => y (2 * j + 1)) (i - 2 * h')))).
    { intros y i. change (dit sign (S (S k)) y i) with
        (let h := 2 ^ Z.of_nat (S k) in
         if i <? h
         then Cadd (dit sign (S k) (fun j => y (2 * j)) i)
                   (Cmul (omega sign (2 * h) i) (dit sign (S k) (fun j => y (2 * j + 1)) i))
         else Csub (dit sign (S k) (fun j => y (2 * j)) (i - h))
                   (Cmul (omega sign (2 * h) (i - h))
                         (dit sign (S k) (fun j => y (2 * j + 1)) (i - h)))).
      cbv zeta. rewrite pow2_succ. reflexivity. }
    assert (Hnext : forall y i,
      dit sign (S k) y i
      = if i <? h'
        then Cadd (dit sign k (fun j => y (2 * j)) i)
                  (Cmul (omega sign (2 * h') i) (dit sign k (fun j => y (2 * j + 1)) i))
        else Csub (dit sign k (fun j => y (2 * j)) (i - h'))
                  (Cmul (omega sign (2 * h') (i - h'))
                        (dit sign k (fun j => y (2 * j + 1)) (i - h')))).
    { intros y i. reflexivity. }
    pose (G := fun j => Cadd (x j) (x (j + 2 * h'))).
    pose (G' := fun j => Cmul (omega sign (2 * (2 * h')) j) (Csub (x j) (x (j + 2 * h')))).
    change (dit sign (S k) (fun j => Cadd (x j) (x (j + 2 * h'))) m)
      with (dit sign (S k) G m).
    change (dit sign (S k)
              (fun j => Cmul (omega sign (2 * (2 * h')) j) (Csub (x j) (x (j + 2 * h')))) m)
      with (dit sign (S k) G' m).
    (* the four outputs of the two half-size transforms that meet at a pair *)
    assert (Hcore : forall m', 0 <= m' < h' ->
      dit sign (S k) (fun j => x (2 * j)) (2 * m') = dit sign k (fun j => G (2 * j)) m' /\
      dit sign (S k) (fun j => x (2 * j + 1)) (2 * m')
      = dit sign k (fun j => G (2 * j + 1)) m' /\
      dit sign (S k) (fun j => x (2 * j)) (2 * m' + 1)
      = dit sign k (fun j => G' (2 * j)) m' /\
      Cmul (omega sign (2 * (2 * h')) (2 * m' + 1))
           (dit sign (S k) (fun j => x (2 * j + 1)) (2 * m' + 1))
      = Cmul (omega sign (2 * h') m') (dit sign k (fun j => G' (2 * j + 1)) m')).
    { intros m' Hm'.
      destruct (IH (fun j => x (2 * j)) m' Hm') as [Hee Heo].
      destruct (IH (fun j => x (2 * j + 1)) m' Hm') as [Hoe Hoo].
      cbv zeta in Hee, Heo, Hoe, Hoo. fold h' in Hee, Heo, Hoe, Hoo.
      cbv beta in Hee, Heo, Hoe, Hoo.
      rewrite Hee, Hoe, Heo, Hoo. unfold G, G'.
      repeat split.
      - f_equal. apply functional_extensionality. intros j. do 2 f_equal. lia.
      - f_equal. apply functional_extensionality. intros j. do 2 f_equal. lia.
      - f_equal. apply functional_extensionality. intros j.
        rewrite omega_double by lia. do 3 f_equal. lia.
      - replace (fun j => Cmul (omega sign (2 * (2 * h')) (2 * j + 1))
                            (Csub (x (2 * j + 1)) (x (2 * j + 1 + 2 * h'))))
          with (fun j => Cmul (omega sign (2 * (2 * h')) 1)
                            (Cmul (omega sign (2 * h') j)
                               (Csub (x (2 * j + 1)) (x (2 * (j + h') + 1))))).
        + rewrite dit_factor. rewrite omega_succ by exact Hs.
          rewrite omega_double by lia. cring.
        + apply functional_extensionality. intros j.
          rewrite omega_succ by exact Hs. rewrite omega_double by lia.
          replace (2 * (j + h') + 1) with (2 * j + 1 + 2 * h') by lia. cring. }
    rewrite !Hstep, (Hnext G m), (Hnext G' m).
    destruct (m <? h') eqn:E.
    + apply Z.ltb_lt in E.
      replace (2 * m <? 2 * h') with true by (symmetry; apply Z.ltb_lt; lia).
      replace (2 * m + 1 <? 2 * h') with true by (symmetry; apply Z.ltb_lt; lia).
      destruct (Hcore m) as [H1 [H2 [H3 H4]]]; [lia|].
      rewrite H1, H2, H3, H4. rewrite omega_double by lia. split; reflexivity.
    + apply Z.ltb_ge in E.
      replace (2 * m <? 2 * h') with false by (symmetry; apply Z.ltb_ge; lia).
      replace (2 * m + 1 <? 2 * h') with false by (symmetry; apply Z.ltb_ge; lia).
      replace (2 * m - 2 * h') with (2 * (m - h')) by lia.
      replace (2 * m + 1 - 2 * h') with (2 * (m - h') + 1) by lia.
      destruct (Hcore (m - h')) as [H1 [H2 [H3 H4]]]; [lia|].
      rewrite H1, H2, H3, H4. rewrite omega_double by lia. split; reflexivity.
Qed.

(** The inverse recursion undoes the forward one, up to the factor [2^k]. *)
Lemma dit_inverse (k : nat) :
  forall (x : Z -> C) (j : Z),
    0 <= j < 2 ^ Z.of_nat k ->
    dit 1 k (dit (-1) k x) j = Cscale (IZR (2 ^ Z.of_nat k)) (x j).
Proof.
  induction k as [|k IH]; intros x j Hj.
  - cbn [dit]. change (2 ^ Z.of_nat 0) with 1. destruct (x j). cring.
  - rewrite pow2_succ in *. pose proof (pow2_pos k) as Hp.
    set (h := 2 ^ Z.of_nat k) in *.
    assert (Hsign : (-1 * -1 = 1)%R) by ring.
    change (dit 1 (S k) (dit (-1) (S k) x) j) with
      (if j <? h
       then Cadd (dit 1 k (fun m => dit (-1) (S k) x (2 * m)) j)
                 (Cmul (omega 1 (2 * h) j)
                       (dit 1 k (fun m => dit (-1) (S k) x (2 * m + 1)) j))
       else Csub (dit 1 k (fun m => dit (-1) (S k) x (2 * m)) (j - h))
                 (Cmul (omega 1 (2 * h) (j - h))
                       (dit 1 k (fun m => dit (-1) (S k) x (2 * m + 1)) (j - h)))).
    assert (He : forall i, 0 <= i < h ->
              dit 1 k (fun m => dit (-1) (S k) x (2 * m)) i
              = Cscale (IZR h) (Cadd (x i) (x (i + h)))).
    { intros i Hi.
      rewrite (dit_local 1 k _ (dit (-1) k (fun j => Cadd (x j) (x (j + h))))).
      - apply (IH (fun j => Cadd (x j) (x (j + h)))). exact Hi.
      - intros m Hm. apply (dit_even_odd (-1) k Hsign x m). exact Hm.
      - exact Hi. }
    assert (Ho : forall i, 0 <= i < h ->
              dit 1 k (fun m => dit (-1) (S k) x (2 * m + 1)) i
              = Cscale (IZR h)
                  (Cmul (omega (-1) (2 * h) i) (Csub (x i) (x (i + h))))).
    { intros i Hi.
      rewrite (dit_local 1 k _
                 (dit (-1) k (fun j => Cmul (omega (-1) (2 * h) j)
                                         (Csub (x j) (x (j + h)))))).
      - apply (IH (fun j => Cmul (omega (-1) (2 * h) j) (Csub (x j) (x (j + h))))).
        exact Hi.
      - intros m Hm. apply (dit_even_odd (-1) k Hsign x m). exact Hm.
      - exact Hi. }
    rewrite mult_IZR.
    destruct (j <? h) eqn:E.
    + apply Z.ltb_lt in E. rewrite He, Ho by lia.
      pose proof (omega_conj (2 * h) j (Csub (x j) (x (j + h)))) as Hc.
      replace (Cmul (omega 1 (2 * h) j)
                 (Cscale (IZR h) (Cmul (omega (-1) (2 * h) j) (Csub (x j) (x (j + h))))))
        with (Cscale (IZR h)
                (Cmul (omega 1 (2 * h) j)
                   (Cmul (Csub (x j) (x (j + h))) (omega (-1) (2 * h) j)))) by cring.
      rewrite Hc. destruct (x j), (x (j + h)). cring.
    + apply Z.ltb_ge in E. rewrite He, Ho by lia.
      pose proof (omega_conj (2 * h) (j - h) (Csub (x (j - h)) (x (j - h + h)))) as Hc.
      replace (Cmul (omega 1 (2 * h) (j - h))
                 (Cscale (IZR h)
                    (Cmul (omega (-1) (2 * h) (j - h))
                       (Csub (x (j - h)) (x (j - h + h))))))
        with (Cscale (IZR h)
                (Cmul (omega 1 (2 * h) (j - h))
                   (Cmul (Csub (x (j - h)) (x (j - h + h)))
                      (omega (-1) (2 * h) (j - h))))) by cring.
      rewrite Hc. replace (j - h + h) with j by lia.
      destruct (x j), (x (j - h)). cring.
Qed.

End Fourier.

(** ** The engine computes the recursion *)

Module TransformFacts.
Import FFT JSFacts FFTFacts Fourier Notions.

(** *** Bit reversal *)

Lemma rev_range (k : nat) (i : Z) : 0 <= rev k i < 2 ^ Z.of_nat k.
Proof.
  revert i. induction k as [|k IH]; intros i.
  - cbn. lia.
  - cbn [rev]. rewrite pow2_succ. pose proof (pow2_pos k).
    specialize (IH (i / 2)). pose proof (Z.mod_pos_bound i 2). nia.
Qed.

Lemma rev_high (k : nat) :
  forall r d, 0 <= r < 2 ^ Z.of_nat k -> 0 <= d <= 1 ->
              rev (S k) (d * 2 ^ Z.of_nat k + r) = 2 * rev k r + d.
Proof.
  induction k as [|k IH]; intros r d Hr Hd.
  - change (2 ^ Z.of_nat 0) with 1 in *. assert (r = 0) by lia. subst r.
    cbn [rev]. change (2 ^ Z.of_nat 0) with 1.
    replace (d * 1 + 0) with d by lia.
    rewrite Z.mod_small by lia. lia.
  - rewrite pow2_succ in Hr. pose proof (pow2_pos k) as Hp.
    change (rev (S (S k)) (d * 2 ^ Z.of_nat (S k) + r))
      with ((d * 2 ^ Z.of_nat (S k) + r) mod 2 * 2 ^ Z.of_nat (S k)
            + rev (S k) ((d * 2 ^ Z.of_nat (S k) + r) / 2)).
    rewrite pow2_succ.
    replace (d * (2 * 2 ^ Z.of_nat k) + r) with (r + (d * 2 ^ Z.of_nat k) * 2) by lia.
    rewrite Z.mod_add, Z.div_add by lia.
    replace (r / 2 + d * 2 ^ Z.of_nat k) with (d * 2 ^ Z.of_nat k + r / 2) by lia.
    rewrite IH; [|split; [apply Z.div_pos; lia | apply Z.div_lt_upper_bound; lia]|lia].
    cbn [rev]. lia.
Qed.

Lemma rev_involutive (k : nat) :
  forall i, 0 <= i < 2 ^ Z.of_nat k -> rev k (rev k i) = i.
Proof.
  induction k as [|k IH]; intros i Hi.
  - change (2 ^ Z.of_nat 0) with 1 in Hi. cbn. lia.
  - rewrite pow2_succ in Hi. pose proof (pow2_pos k) as Hp.
    change (rev (S k) i) with (i mod 2 * 2 ^ Z.of_nat k + rev k (i / 2)).
    rewrite rev_high; [|apply rev_range|pose proof (Z.mod_pos_bound i 2); lia].
    rewrite IH by (split; [apply Z.div_pos; lia | apply Z.div_lt_upper_bound; lia]).
    pose proof (Z.div_mod i 2). lia.
Qed.

Lemma rev_0 (k : nat) : rev k 0 = 0.
Proof. induction k as [|k IH]; [reflexivity|]. cbn [rev]. rewrite Zdiv_0_l, IH. reflexivity. Qed.

(** *** The bit operators at a power of two *)

Lemma land_pow2_low (j : Z) (m : nat) :
  0 <= j < 2 ^ Z.of_nat m -> Z.land j (2 ^ Z.of_nat m) = 0.
Proof.
  intros H. apply Z.bits_inj'. intros n Hn.
  rewrite Z.land_spec, Z.bits_0, Z.pow2_bits_eqb by lia.
  destruct (Z.of_nat m =? n) eqn:E; [|apply andb_false_r].
  apply Z.eqb_eq in E. subst n. rewrite andb_true_r.
  apply Z.testbit_false; [lia|]. rewrite Z.div_small by lia. reflexivity.
Qed.

Lemma lxor_pow2_low (j : Z) (m : nat) :
  0 <= j < 2 ^ Z.of_nat m -> Z.lxor j (2 ^ Z.of_nat m) = j + 2 ^ Z.of_nat m.
Proof. intros H. symmetry. apply Z.add_nocarry_lxor. now apply land_pow2_low. Qed.

Lemma land_pow2_high (j : Z) (m : nat) :
  0 <= j < 2 ^ Z.of_nat m ->
  Z.land (j + 2 ^ Z.of_nat m) (2 ^ Z.of_nat m) = 2 ^ Z.of_nat m.
Proof.
  intros H. apply Z.bits_inj'. intros n Hn.
  rewrite Z.land_spec, Z.pow2_bits_eqb by lia.
  destruct (Z.of_nat m =? n) eqn:E; [|apply andb_false_r].
  apply Z.eqb_eq in E. subst n. rewrite andb_true_r.
  apply Z.testbit_true; [lia|].
  replace (j + 2 ^ Z.of_nat m) with (j + 1 * 2 ^ Z.of_nat m) by lia.
  rewrite Z.div_add by lia. rewrite Z.div_small by lia. reflexivity.
Qed.

Lemma lxor_pow2_high (j : Z) (m : nat) :
  0 <= j < 2 ^ Z.of_nat m ->
  Z.lxor (j + 2 ^ Z.of_nat m) (2 ^ Z.of_nat m) = j.
Proof.
  intros H. rewrite <- lxor_pow2_low by exact H.
  rewrite Z.lxor_assoc, Z.lxor_nilpotent. apply Z.lxor_0_r.
Qed.

Lemma pow2_le_mono (a b : nat) : (a <= b)%nat -> 2 ^ Z.of_nat a <= 2 ^ Z.of_nat b.
Proof. intros H. apply Z.pow_le_mono_r; lia. Qed.

Lemma pow2_below_31 (m : nat) : (m <= 30)%nat -> 2 ^ Z.of_nat m < 2 ^ 31.
Proof.
  intros H. pose proof (pow2_le_mono m 30 H) as Hle.
  change (2 ^ Z.of_nat 30) with (2 ^ 30) in Hle. lia.
Qed.

(** Linear arithmetic with division and remainder by constants. *)
Ltac zlia := Z.to_euclidean_division_equations; lia.

(** The carry loop steps the reversed counter: from the reversal of [i] it
    leaves [j] and [bit] with [j ^ bit] the reversal of [i + 1]. *)
Lemma carry_spec (m : nat) :
  forall (i : Z) (fuel : nat),
    0 <= i -> i + 1 < 2 ^ Z.of_nat (S m) -> (m < 30)%nat -> (m < fuel)%nat ->
    exists j bit,
      carryLoop fuel (rev (S m) i) (2 ^ Z.of_nat m) = Some (j, bit) /\
      xor32 j bit = rev (S m) (i + 1).
Proof.
  induction m as [|m IH]; intros i fuel Hi Hlt Hm Hf.
  - change (2 ^ Z.of_nat 1) with 2 in Hlt. assert (i = 0) by lia. subst i.
    destruct fuel as [|fuel]; [lia|]. cbn. eauto.
  - destruct fuel as [|fuel]; [lia|].
    pose proof (pow2_pos (S m)) as Hp.
    assert (H31 : 2 * 2 ^ Z.of_nat (S m) <= 2 ^ 30).
    { rewrite <- pow2_succ. change (2 ^ 30) with (2 ^ Z.of_nat 30).
      apply pow2_le_mono. lia. }
    pose proof (rev_range (S m) (i / 2)) as Hr.
    change (rev (S (S m)) i) with (i mod 2 * 2 ^ Z.of_nat (S m) + rev (S m) (i / 2)).
    change (rev (S (S m)) (i + 1))
      with ((i + 1) mod 2 * 2 ^ Z.of_nat (S m) + rev (S m) ((i + 1) / 2)).
    cbn [carryLoop]. unfold and32, xor32.
    destruct (Z.eq_dec (i mod 2) 0) as [He|Ho].
    + rewrite He. replace ((i + 1) mod 2) with 1 by zlia.
      replace ((i + 1) / 2) with (i / 2) by zlia.
      rewrite !Z.mul_0_l, !Z.add_0_l, !ToInt32_small by lia.
      rewrite land_pow2_low by lia. cbn [Z.eqb].
      eexists. eexists. split; [reflexivity|].
      unfold xor32. rewrite !ToInt32_small by lia.
      rewrite lxor_pow2_low by lia. lia.
    + assert (Hodd : i mod 2 = 1) by zlia. rewrite Hodd.
      replace ((i + 1) mod 2) with 0 by zlia.
      replace ((i + 1) / 2) with (i / 2 + 1) by zlia.
      rewrite Z.mul_1_l.
      replace (2 ^ Z.of_nat (S m) + rev (S m) (i / 2))
        with (rev (S m) (i / 2) + 2 ^ Z.of_nat (S m)) by lia.
      rewrite !ToInt32_small by lia.
      rewrite land_pow2_high, lxor_pow2_high by lia.
      replace (2 ^ Z.of_nat (S m) =? 0) with false by (symmetry; apply Z.eqb_neq; lia).
      rewrite shr32_1 by lia.
      replace (2 ^ Z.of_nat (S m) / 2) with (2 ^ Z.of_nat m)
        by (rewrite pow2_succ; apply Z.div_unique_exact; lia).
      rewrite pow2_succ in Hlt.
      destruct (IH (i / 2) fuel) as [j [bit [Hc Hx]]]; try zlia.
      exists j, bit. split; [exact Hc|]. unfold xor32 in Hx. rewrite Hx. lia.
Qed.

Lemma swap_rd (a : list R) (i j t : Z) :
  0 <= i < len a -> 0 <= j < len a ->
  rd 0%R (swap a i j) t
  = if t =? j then rd 0%R a i else if t =? i then rd 0%R a j else rd 0%R a t.
Proof.
  intros Hi Hj. unfold swap.
  destruct (t =? j) eqn:Ej.
  - apply Z.eqb_eq in Ej. subst t. apply rd_wr_same. now rewrite len_wr.
  - apply Z.eqb_neq in Ej. rewrite rd_wr_other by lia.
    destruct (t =? i) eqn:Ei.
    + apply Z.eqb_eq in Ei. subst t. now apply rd_wr_same.
    + apply Z.eqb_neq in Ei. apply rd_wr_other. lia.
Qed.

(** The rule of a counted loop whose body may not terminate, with an
    invariant that mentions the counter. *)
Lemma for_range_opt_ind {St : Type} (P : Z -> St -> Prop) (body : Z -> St -> option St)
    (lo hi : Z) (s : St) :
  lo <= hi ->
  P lo s ->
  (forall j t, lo <= j < hi -> P j t -> exists t', body j t = Some t' /\ P (j + 1) t') ->
  exists s', for_range_opt lo hi body s = Some s' /\ P hi s'.
Proof.
  unfold for_range_opt. intros Hle H0 Hstep.
  assert (G : forall n i t, lo <= i -> i + Z.of_nat n <= hi -> P i t ->
            exists s', for_count_opt n i body t = Some s' /\ P (i + Z.of_nat n) s').
  { induction n as [|n IH]; intros i t Hi Hn Ht.
    - exists t. replace (i + Z.of_nat 0) with i by lia. split; [reflexivity|exact Ht].
    - cbn [for_count_opt].
      destruct (Hstep i t) as [t' [-> Ht']]; [lia|exact Ht|].
      replace (i + Z.of_nat (S n)) with ((i + 1) + Z.of_nat n) by lia.
      apply IH; [lia|lia|exact Ht']. }
  destruct (G (Z.to_nat (hi - lo)) lo s) as [s' [H1 H2]]; [lia|lia|exact H0|].
  exists s'. split; [exact H1|].
  replace (lo + Z.of_nat (Z.to_nat (hi - lo))) with hi in H2 by lia. exact H2.
Qed.

(** The permutation loop leaves at every index the value that the input
    holds at the reversed index. *)
Lemma bitReversal_spec (m : nat) (a : arrays) :
  (m < 29)%nat -> sized (2 ^ Z.of_nat (S m)) a ->
  exists a',
    bitReversal (2 ^ Z.of_nat (S m)) a = Some a' /\
    sized (2 ^ Z.of_nat (S m)) a' /\
    forall t, 0 <= t < 2 ^ Z.of_nat (S m) -> val a' t = val a (rev (S m) t).
Proof.
  intros Hm Ha. set (n := 2 ^ Z.of_nat (S m)) in *.
  pose proof (pow2_pos m) as Hp.
  assert (H31 : 2 ^ Z.of_nat (S m) < 2 ^ 31) by (apply pow2_below_31; lia).
  fold n in H31.
  assert (Hn : n = 2 * 2 ^ Z.of_nat m) by apply pow2_succ.
  pose (P := fun (i : Z) (s : Z * arrays) =>
    fst s = rev (S m) (i - 1) /\ sized n (snd s) /\
    forall t, 0 <= t < n ->
      (t < i \/ rev (S m) t < i -> val (snd s) t = val a (rev (S m) t)) /\
      (i <= t /\ i <= rev (S m) t -> val (snd s) t = val a t)).
  unfold bitReversal.
  destruct (for_range_opt_ind P (bitReversalStep n) 1 n (0, a)) as [[j a'] [-> HP]].
  - lia.
  - unfold P. cbn [fst snd]. replace (1 - 1) with 0 by lia. rewrite rev_0.
    split; [reflexivity|]. split; [exact Ha|]. intros t Ht. split.
    + intros Hc. assert (Hz : rev (S m) t = 0 \/ t = 0).
      { pose proof (rev_range (S m) t). lia. }
      assert (t = 0).
      { destruct Hz as [Hz|Hz]; [|exact Hz].
        rewrite <- (rev_involutive (S m) t) by exact Ht. rewrite Hz. apply rev_0. }
      subst t. rewrite rev_0. reflexivity.
    + intros _. reflexivity.
  - intros i [j arr] Hi [Hj [Hs Hv]]. cbn [fst snd] in Hj, Hs, Hv.
    unfold bitReversalStep. rewrite shr32_1 by lia.
    replace (n / 2) with (2 ^ Z.of_nat m)
      by (rewrite Hn; apply Z.div_unique_exact; lia).
    subst j.
    destruct (carry_spec m (i - 1) 33) as [j [bit [-> Hx]]]; try lia.
    replace (i - 1 + 1) with i in Hx by lia. rewrite Hx.
    pose proof (rev_range (S m) i) as Hri. fold n in Hri.
    assert (Hinv : rev (S m) (rev (S m) i) = i) by (apply rev_involutive; lia).
    destruct Hs as [Hsr Hsi].
    destruct (i <? rev (S m) i) eqn:E.
    + apply Z.ltb_lt in E. eexists. split; [reflexivity|].
      unfold P. cbn [fst snd].
      replace (i + 1 - 1) with i by lia.
      split; [reflexivity|]. split; [split; cbn [re im]; now rewrite swap_length|].
      intros t Ht. unfold val. cbn [re im].
      rewrite !swap_rd by lia.
      assert (Hrt : rev (S m) (rev (S m) t) = t) by (apply rev_involutive; exact Ht).
      pose proof (rev_range (S m) t) as Hrr. fold n in Hrr.
      destruct (Hv i ltac:(lia)) as [_ Hvi].
      destruct (Hv (rev (S m) i) ltac:(lia)) as [_ Hvr].
      destruct (Hv t Ht) as [Hv1 Hv2].
      unfold val in *.
      destruct (t =? rev (S m) i) eqn:E1.
      * apply Z.eqb_eq in E1. subst t. rewrite Hinv.
        split; [intros _; apply Hvi; lia | intros Hc; lia].
      * apply Z.eqb_neq in E1.
        destruct (t =? i) eqn:E2.
        -- apply Z.eqb_eq in E2. subst t.
           split; [intros _; apply Hvr; rewrite Hinv; lia | intros Hc; lia].
        -- apply Z.eqb_neq in E2.
           assert (rev (S m) t <> i) by (intros Heq; apply E1; rewrite <- Heq; auto).
           split; intros Hc; [apply Hv1|apply Hv2]; lia.
    + apply Z.ltb_ge in E. eexists. split; [reflexivity|].
      unfold P. cbn [fst snd].
      replace (i + 1 - 1) with i by lia.
      split; [reflexivity|]. split; [split; assumption|].
      intros t Ht.
      assert (Hrt : rev (S m) (rev (S m) t) = t) by (apply rev_involutive; exact Ht).
      destruct (Hv t Ht) as [Hv1 Hv2].
      split; intros Hc.
      * destruct (Z.eq_dec t i) as [->|Hne].
        -- destruct (Z.eq_dec (rev (S m) i) i) as [Heq|Hneq].
           ++ rewrite Heq. apply Hv2. lia.
           ++ apply Hv1. lia.
        -- destruct (Z.eq_dec (rev (S m) t) i) as [Heq|Hneq].
           ++ assert (t = rev (S m) i) by (rewrite <- Heq; auto). subst t.
              apply Hv1. lia.
           ++ apply Hv1. lia.
      * apply Hv2. lia.
  - cbn [option_map snd]. destruct HP as [_ [Hs Hv]]. cbn [snd] in Hs, Hv.
    exists a'. split; [reflexivity|]. split; [exact Hs|].
    intros t Ht. apply (Hv t Ht). lia.
Qed.

(** *** Butterfly passes *)

Lemma butterfly_val (t : twiddles) (stride h block i n : Z) (a : arrays) :
  sized n a -> 0 <= block + i -> block + i + h < n -> 0 < h ->
  forall idx,
    val (butterfly t stride h block i a) idx
    = if idx =? block + i
      then Cadd (val a (block + i)) (Cmul (tw t stride i) (val a (block + i + h)))
      else if idx =? block + i + h
      then Csub (val a (block + i)) (Cmul (tw t stride i) (val a (block + i + h)))
      else val a idx.
Proof.
  intros [Hr Hi] H0 Hn Hh idx. unfold butterfly, val, tw, Cadd, Csub, Cmul.
  cbn [re im fst snd].
  destruct (idx =? block + i) eqn:E1.
  - apply Z.eqb_eq in E1. subst idx.
    rewrite !rd_wr_same by (rewrite len_wr; lia).
    rewrite !rd_wr_other by lia. reflexivity.
  - apply Z.eqb_neq in E1. rewrite !(rd_wr_other _ _ (block + i) idx) by lia.
    destruct (idx =? block + i + h) eqn:E2.
    + apply Z.eqb_eq in E2. subst idx. rewrite !rd_wr_same by lia. reflexivity.
    + apply Z.eqb_neq in E2. rewrite !rd_wr_other by lia. reflexivity.
Qed.

(** One block: the butterflies of the inner loop, all at once. *)
Lemma inner_spec (t : twiddles) (stride h block n : Z) (a : arrays) :
  sized n a -> 0 <= block -> block + 2 * h <= n -> 0 < h ->
  let a' := for_range 0 h (butterfly t stride h block) a in
  sized n a' /\
  forall idx,
    val a' idx
    = if (block <=? idx) && (idx <? block + h)
      then Cadd (val a idx) (Cmul (tw t stride (idx - block)) (val a (idx + h)))
      else if (block + h <=? idx) && (idx <? block + 2 * h)
      then Csub (val a (idx - h)) (Cmul (tw t stride (idx - h - block)) (val a idx))
      else val a idx.
Proof.
  intros Ha Hb Hn Hh a'. subst a'.
  pose (P := fun (m : Z) (u : arrays) =>
    sized n u /\
    forall idx,
      val u idx
      = if (block <=? idx) && (idx <? block + m)
        then Cadd (val a idx) (Cmul (tw t stride (idx - block)) (val a (idx + h)))
        else if (block + h <=? idx) && (idx <? block + h + m)
        then Csub (val a (idx - h)) (Cmul (tw t stride (idx - h - block)) (val a idx))
        else val a idx).
  assert (H : P h (for_range 0 h (butterfly t stride h block) a)).
  { apply for_range_ind; [lia| |].
    - split; [exact Ha|]. intros idx.
      replace ((block <=? idx) && (idx <? block + 0)) with false by (symmetry; lia).
      replace ((block + h <=? idx) && (idx <? block + h + 0)) with false
        by (symmetry; lia).
      reflexivity.
    - intros j u Hj [Hu Hv]. split; [now apply butterfly_sized|].
      intros idx. rewrite (butterfly_val t stride h block j n u Hu) by lia.
      rewrite !Hv.
      replace ((block <=? block + j) && (block + j <? block + j)) with false
        by (symmetry; lia).
      replace ((block + h <=? block + j) && (block + j <? block + h + j)) with false
        by (symmetry; lia).
      replace ((block <=? block + j + h) && (block + j + h <? block + j)) with false
        by (symmetry; lia).
      replace ((block + h <=? block + j + h) && (block + j + h <? block + h + j))
        with false by (symmetry; lia).
      destruct (idx =? block + j) eqn:E1.
      + apply Z.eqb_eq in E1. subst idx.
        replace ((block <=? block + j) && (block + j <? block + (j + 1))) with true
          by (symmetry; lia).
        replace (block + j - block) with j by lia. reflexivity.
      + apply Z.eqb_neq in E1.
        destruct (idx =? block + j + h) eqn:E2.
        * apply Z.eqb_eq in E2. subst idx.
          replace ((block <=? block + j + h) && (block + j + h <? block + (j + 1)))
            with false by (symmetry; lia).
          replace ((block + h <=? block + j + h) && (block + j + h <? block + h + (j + 1)))
            with true by (symmetry; lia).
          replace (block + j + h - h) with (block + j) by lia.
          replace (block + j - block) with j by lia. reflexivity.
        * apply Z.eqb_neq in E2.
          replace ((block <=? idx) && (idx <? block + (j + 1)))
            with ((block <=? idx) && (idx <? block + j)) by lia.
          replace ((block + h <=? idx) && (idx <? block + h + (j + 1)))
            with ((block + h <=? idx) && (idx <? block + h + j)) by lia.
          reflexivity. }
  destruct H as [Hs Hv]. split; [exact Hs|]. intros idx. rewrite Hv.
  replace (block + h + h) with (block + 2 * h) by lia. reflexivity.
Qed.

Lemma block_mod (b h idx : Z) :
  0 < h -> b * (2 * h) <= idx < (b + 1) * (2 * h) -> idx mod (2 * h) = idx - b * (2 * h).
Proof.
  intros Hh Hi. replace idx with ((idx - b * (2 * h)) + b * (2 * h)) at 1 by lia.
  rewrite Z.mod_add by lia. apply Z.mod_small. lia.
Qed.

Lemma blockLoop_spec (t : twiddles) (h q n : Z) :
  0 < h -> 2 * h < 2 ^ 31 -> n = q * (2 * h) ->
  forall (fuel : nat) (b : Z) (a : arrays),
    sized n a -> 0 <= b -> q - b <= Z.of_nat fuel ->
    exists a',
      blockLoop fuel t n (2 * h) (b * (2 * h)) a = Some a' /\
      sized n a' /\
      forall idx, 0 <= idx < n ->
        val a' idx = if idx <? b * (2 * h) then val a idx
                     else pass (tw t q) h (val a) idx.
Proof.
  intros Hh H31 Hn. induction fuel as [|fuel IH]; intros b a Ha Hb Hf.
  - cbn [blockLoop].
    replace (b * (2 * h) <? n) with false by (symmetry; apply Z.ltb_ge; nia).
    exists a. split; [reflexivity|]. split; [exact Ha|]. intros idx Hidx.
    replace (idx <? b * (2 * h)) with true by (symmetry; apply Z.ltb_lt; nia).
    reflexivity.
  - cbn [blockLoop]. destruct (b * (2 * h) <? n) eqn:E.
    + apply Z.ltb_lt in E. assert (Hbq : b < q) by nia.
      rewrite shr32_1 by lia.
      replace (2 * h / 2) with h by (apply Z.div_unique_exact; lia).
      replace (n / (2 * h)) with q by (apply Z.div_unique_exact; lia).
      destruct (inner_spec t q h (b * (2 * h)) n a Ha) as [Hs1 Hv1]; [nia|nia|lia|].
      destruct (IH (b + 1) _ Hs1) as [a' [Hl [Hs' Hv']]]; [lia|lia|].
      replace ((b + 1) * (2 * h)) with (b * (2 * h) + 2 * h) in Hl, Hv' by lia.
      exists a'. split; [exact Hl|]. split; [exact Hs'|].
      intros idx Hidx. rewrite (Hv' idx Hidx).
      destruct (idx <? b * (2 * h) + 2 * h) eqn:E1.
      * apply Z.ltb_lt in E1. rewrite Hv1.
        destruct (idx <? b * (2 * h)) eqn:E2.
        -- apply Z.ltb_lt in E2.
           replace ((b * (2 * h) <=? idx) && (idx <? b * (2 * h) + h)) with false
             by (symmetry; lia).
           replace ((b * (2 * h) + h <=? idx) && (idx <? b * (2 * h) + 2 * h)) with false
             by (symmetry; lia).
           reflexivity.
        -- apply Z.ltb_ge in E2. unfold pass.
           rewrite (block_mod b h idx) by lia.
           destruct (idx - b * (2 * h) <? h) eqn:E3.
           ++ apply Z.ltb_lt in E3.
              replace ((b * (2 * h) <=? idx) && (idx <? b * (2 * h) + h)) with true
                by (symmetry; lia).
              reflexivity.
           ++ apply Z.ltb_ge in E3.
              replace ((b * (2 * h) <=? idx) && (idx <? b * (2 * h) + h)) with false
                by (symmetry; lia).
              replace ((b * (2 * h) + h <=? idx) && (idx <? b * (2 * h) + 2 * h))
                with true by (symmetry; lia).
              replace (idx - h - b * (2 * h)) with (idx - b * (2 * h) - h) by lia.
              reflexivity.
      * apply Z.ltb_ge in E1.
        replace (idx <? b * (2 * h)) with false by (symmetry; apply Z.ltb_ge; lia).
        (* a later block: the pass reads the block itself, which is untouched *)
        assert (Hc : exists c, b + 1 <= c /\ c * (2 * h) <= idx < (c + 1) * (2 * h)).
        { exists (idx / (2 * h)).
          pose proof (Z.div_mod idx (2 * h) ltac:(lia)).
          pose proof (Z.mod_pos_bound idx (2 * h) ltac:(lia)).
          assert (b + 1 <= idx / (2 * h)) by (apply Z.div_le_lower_bound; lia).
          nia. }
        destruct Hc as [c [Hc1 Hc2]].
        unfold pass. rewrite (block_mod c h idx) by lia.
        assert (Hout : forall z, (b + 1) * (2 * h) <= z -> val (for_range 0 h
                  (butterfly t q h (b * (2 * h))) a) z = val a z).
        { intros z Hz. rewrite Hv1.
          replace ((b * (2 * h) <=? z) && (z <? b * (2 * h) + h)) with false
            by (symmetry; lia).
          replace ((b * (2 * h) + h <=? z) && (z <? b * (2 * h) + 2 * h)) with false
            by (symmetry; lia).
          reflexivity. }
        destruct (idx - c * (2 * h) <? h) eqn:E3.
        -- apply Z.ltb_lt in E3. rewrite !Hout by nia. reflexivity.
        -- apply Z.ltb_ge in E3. rewrite !Hout by nia. reflexivity.
    + apply Z.ltb_ge in E.
      exists a. split; [reflexivity|]. split; [exact Ha|]. intros idx Hidx.
      replace (idx <? b * (2 * h)) with true by (symmetry; apply Z.ltb_lt; lia).
      reflexivity.
Qed.

(** *** Twiddle factors *)

Lemma pow2_split (a b : nat) : 2 ^ Z.of_nat (a + b) = 2 ^ Z.of_nat a * 2 ^ Z.of_nat b.
Proof. rewrite Nat2Z.inj_add, Z.pow_add_r by lia. reflexivity. Qed.

Lemma twiddle_value (lv d : nat) (inverse : bool) (i : Z) :
  (S lv + d <= 29)%nat -> 0 <= i < 2 ^ Z.of_nat lv ->
  tw (getTwiddles (2 ^ Z.of_nat (S lv + d)) inverse) (2 ^ Z.of_nat d) i
  = omega (if inverse then 1 else -1) (2 * 2 ^ Z.of_nat lv) i.
Proof.
  intros Hk Hi.
  pose proof (pow2_pos lv) as Hl. pose proof (pow2_pos d) as Hd.
  assert (Hn : 2 ^ Z.of_nat (S lv + d) = 2 * 2 ^ Z.of_nat lv * 2 ^ Z.of_nat d)
    by (rewrite pow2_split, pow2_succ; reflexivity).
  assert (H31 : 2 ^ Z.of_nat (S lv + d) < 2 ^ 31) by (apply pow2_below_31; lia).
  unfold tw, getTwiddles, buildTwiddles, omega. cbn [cos_table sin_table].
  rewrite shr32_1 by lia.
  replace (2 ^ Z.of_nat (S lv + d) / 2) with (2 ^ Z.of_nat lv * 2 ^ Z.of_nat d)
    by (apply Z.div_unique_exact; lia).
  rewrite !(rd_tabulate 0%R) by nia.
  assert (Harg : (2 * PI * IZR (i * 2 ^ Z.of_nat d) / IZR (2 ^ Z.of_nat (S lv + d))
                  = 2 * PI * IZR i / IZR (2 * 2 ^ Z.of_nat lv))%R).
  { rewrite Hn, !mult_IZR.
    assert (IZR (2 ^ Z.of_nat lv) <> 0)%R by (apply not_0_IZR; lia).
    assert (IZR (2 ^ Z.of_nat d) <> 0)%R by (apply not_0_IZR; lia).
    field. split; assumption. }
  rewrite Harg. destruct inverse; reflexivity.
Qed.

(** *** The passes build the recursion bottom up *)

Lemma staged_pass (sign : R) (x : Z -> C) (lv d : nat) (W : Z -> C) (a a' : arrays) :
  staged sign x lv (S d) a ->
  (forall i, 0 <= i < 2 ^ Z.of_nat lv -> W i = omega sign (2 * 2 ^ Z.of_nat lv) i) ->
  (forall idx, 0 <= idx < 2 ^ Z.of_nat (S lv + d) ->
               val a' idx = pass W (2 ^ Z.of_nat lv) (val a) idx) ->
  staged sign x (S lv) d a'.
Proof.
  intros Hst HW Hpass b j Hb Hj.
  pose proof (pow2_pos lv) as Hl. pose proof (pow2_pos d) as Hd.
  rewrite pow2_succ in Hj. set (h := 2 ^ Z.of_nat lv) in *.
  assert (Hn : 2 ^ Z.of_nat (S lv + d) = 2 * h * 2 ^ Z.of_nat d)
    by (rewrite pow2_split, pow2_succ; reflexivity).
  rewrite pow2_succ. fold h.
  rewrite Hpass by (rewrite Hn; nia).
  unfold pass. rewrite (block_mod b h) by lia.
  replace (b * (2 * h) + j - b * (2 * h)) with j by lia.
  assert (He : (fun m => x (rev d b + 2 * m * 2 ^ Z.of_nat d))
               = (fun m => x (rev (S d) (2 * b) + m * 2 ^ Z.of_nat (S d)))).
  { apply functional_extensionality. intros m. f_equal.
    cbn [rev]. rewrite pow2_succ.
    replace (2 * b) with (b * 2) by lia. rewrite Z.mod_mul, Z.div_mul by lia. lia. }
  assert (Ho : (fun m => x (rev d b + (2 * m + 1) * 2 ^ Z.of_nat d))
               = (fun m => x (rev (S d) (2 * b + 1) + m * 2 ^ Z.of_nat (S d)))).
  { apply functional_extensionality. intros m. f_equal.
    cbn [rev]. rewrite pow2_succ.
    replace ((2 * b + 1) mod 2) with 1 by zlia.
    replace ((2 * b + 1) / 2) with b by zlia. lia. }
  cbn [dit]. cbv zeta. fold h. cbv beta. rewrite He, Ho.
  assert (Hb2 : 0 <= 2 * b < 2 ^ Z.of_nat (S d)) by (rewrite pow2_succ; lia).
  assert (Hb3 : 0 <= 2 * b + 1 < 2 ^ Z.of_nat (S d)) by (rewrite pow2_succ; lia).
  destruct (j <? h) eqn:E.
  - apply Z.ltb_lt in E.
    rewrite <- (Hst (2 * b) j Hb2) by lia.
    rewrite <- (Hst (2 * b + 1) j Hb3) by lia.
    rewrite HW by lia. fold h.
    replace (2 * b * h + j) with (b * (2 * h) + j) by lia.
    replace ((2 * b + 1) * h + j) with (b * (2 * h) + j + h) by lia.
    reflexivity.
  - apply Z.ltb_ge in E.
    rewrite <- (Hst (2 * b) (j - h) Hb2) by lia.
    rewrite <- (Hst (2 * b + 1) (j - h) Hb3) by lia.
    rewrite HW by lia. fold h.
    replace (2 * b * h + (j - h)) with (b * (2 * h) + j - h) by lia.
    replace ((2 * b + 1) * h + (j - h)) with (b * (2 * h) + j) by lia.
    reflexivity.
Qed.

Lemma stepLoop_spec (sign : R) (x : Z -> C) (k : nat) (inverse : bool) :
  (k <= 29)%nat -> sign = (if inverse then 1 else -1)%R ->
  forall (d lv fuel : nat) (a : arrays),
    (lv + d = k)%nat -> (d < fuel)%nat ->
    sized (2 ^ Z.of_nat k) a -> staged sign x lv d a ->
    exists a',
      stepLoop fuel (getTwiddles (2 ^ Z.of_nat k) inverse) (2 ^ Z.of_nat k)
        (2 ^ Z.of_nat (S lv)) a = Some a' /\
      sized (2 ^ Z.of_nat k) a' /\ staged sign x k 0 a'.
Proof.
  intros Hk Hsign. induction d as [|d IH]; intros lv fuel a Hlv Hf Ha Hst.
  - replace lv with k in * by lia.
    destruct fuel as [|fuel]; [lia|]. cbn [stepLoop].
    pose proof (pow2_pos k) as Hp.
    replace (2 ^ Z.of_nat (S k) <=? 2 ^ Z.of_nat k) with false
      by (symmetry; apply Z.leb_gt; rewrite pow2_succ; lia).
    exists a. auto.
  - destruct fuel as [|fuel]; [lia|]. cbn [stepLoop].
    pose proof (pow2_pos lv) as Hl. pose proof (pow2_pos d) as Hd.
    assert (Hn : 2 ^ Z.of_nat k = 2 ^ Z.of_nat d * (2 * 2 ^ Z.of_nat lv)).
    { replace k with (S lv + d)%nat by lia. rewrite pow2_split, pow2_succ. lia. }
    assert (H30 : 2 ^ Z.of_nat k < 2 ^ 30).
    { pose proof (pow2_le_mono k 29 Hk) as Hle.
      change (2 ^ Z.of_nat 29) with (2 ^ 29) in Hle. lia. }
    rewrite pow2_succ.
    replace (2 * 2 ^ Z.of_nat lv <=? 2 ^ Z.of_nat k) with true
      by (symmetry; apply Z.leb_le; nia).
    destruct (blockLoop_spec (getTwiddles (2 ^ Z.of_nat k) inverse) (2 ^ Z.of_nat lv)
                (2 ^ Z.of_nat d) (2 ^ Z.of_nat k) Hl ltac:(nia) Hn
                (Z.to_nat (2 ^ Z.of_nat k)) 0 a Ha ltac:(lia) ltac:(nia))
      as [a1 [Hb [Ha1 Hv1]]].
    replace (0 * (2 * 2 ^ Z.of_nat lv)) with 0 in Hb, Hv1 by lia.
    rewrite Hb. rewrite shl32_1 by nia.
    replace (2 * (2 * 2 ^ Z.of_nat lv)) with (2 ^ Z.of_nat (S (S lv)))
      by (rewrite !pow2_succ; lia).
    apply (IH (S lv) fuel a1); [lia|lia|exact Ha1|].
    apply (staged_pass sign x lv d
             (tw (getTwiddles (2 ^ Z.of_nat k) inverse) (2 ^ Z.of_nat d)) a a1 Hst).
    + intros i Hi. replace k with (S lv + d)%nat by lia. rewrite Hsign.
      apply twiddle_value; [lia|exact Hi].
    + intros idx Hidx. replace (S lv + d)%nat with k in Hidx by lia.
      rewrite (Hv1 idx Hidx).
      replace (idx <? 0) with false by (symmetry; apply Z.ltb_ge; lia). reflexivity.
Qed.

(** *** The whole transform *)

Lemma isPowerOfTwo_pow2 (k : nat) :
  (1 <= k <= 30)%nat -> isPowerOfTwo (2 ^ Z.of_nat k) = true.
Proof.
  intros Hk. unfold isPowerOfTwo, and32.
  pose proof (pow2_pos k) as Hp.
  assert (H31 : 2 ^ Z.of_nat k < 2 ^ 31) by (apply pow2_below_31; lia).
  assert (H2 : 2 <= 2 ^ Z.of_nat k).
  { pose proof (pow2_le_mono 1 k ltac:(lia)) as Hle.
    change (2 ^ Z.of_nat 1) with 2 in Hle. exact Hle. }
  rewrite !ToInt32_small by lia.
  rewrite Z.land_comm, land_pow2_low by lia.
  replace (1 <? 2 ^ Z.of_nat k) with true by (symmetry; apply Z.ltb_lt; lia).
  reflexivity.
Qed.

Lemma scale_spec (scale : R) (n : Z) (a : arrays) :
  sized n a ->
  let a' := for_range 0 n (scaleStep scale) a in
  sized n a' /\ forall idx, 0 <= idx < n -> val a' idx = Cscale scale (val a idx).
Proof.
  intros Ha a'. subst a'.
  pose (P := fun (m : Z) (u : arrays) =>
    sized n u /\
    forall idx, val u idx = if idx <? m then Cscale scale (val a idx) else val a idx).
  destruct (Z_le_gt_dec 0 n) as [Hn|Hn].
  - assert (H : P n (for_range 0 n (scaleStep scale) a)).
    { apply for_range_ind; [exact Hn| |].
      - split; [exact Ha|]. intros idx.
        destruct (idx <? 0) eqn:E; [|reflexivity].
        apply Z.ltb_lt in E. unfold val, Cscale, rd. cbn [fst snd].
        replace (idx <? 0) with true by (symmetry; apply Z.ltb_lt; lia).
        f_equal; ring.
      - intros j u Hj [[Hur Hui] Hv]. split; [now apply scaleStep_sized|].
        intros idx. unfold scaleStep, val at 1. cbn [re im].
        destruct (Z.eq_dec idx j) as [->|Hne].
        + rewrite !rd_wr_same by lia.
          replace (j <? j + 1) with true by (symmetry; apply Z.ltb_lt; lia).
          specialize (Hv j). replace (j <? j) with false in Hv
            by (symmetry; apply Z.ltb_ge; lia).
          unfold val in Hv. injection Hv as -> ->. unfold Cscale, val. cbn [fst snd].
          f_equal; ring.
        + rewrite !rd_wr_other by lia. fold (val u idx). rewrite Hv.
          replace (idx <? j + 1) with (idx <? j) by lia. reflexivity. }
    destruct H as [Hs Hv]. split; [exact Hs|]. intros idx Hidx. rewrite Hv.
    replace (idx <? n) with true by (symmetry; apply Z.ltb_lt; lia). reflexivity.
  - rewrite for_range_empty by lia. split; [exact Ha|]. intros idx Hidx. lia.
Qed.

(** On arrays of [2^k] cells, [2 <= 2^k < 2^30], [fft] returns and leaves
    the recursive transform of its input, scaled by [1 / size] when
    inverse. *)
Lemma fft_spec (k : nat) (a : arrays) (inverse : bool) :
  (1 <= k <= 29)%nat -> sized (2 ^ Z.of_nat k) a ->
  exists a',
    fft a inverse = (Returns tt, a') /\
    sized (2 ^ Z.of_nat k) a' /\
    forall j, 0 <= j < 2 ^ Z.of_nat k ->
      val a' j = Cscale (if inverse then 1 / IZR (2 ^ Z.of_nat k) else 1)
                   (dit (if inverse then 1 else -1) k (val a) j).
Proof.
  intros Hk Ha. destruct k as [|m]; [lia|].
  set (n := 2 ^ Z.of_nat (S m)) in *. destruct Ha as [Hr Hi].
  unfold fft. rewrite Hr, Hi, Z.eqb_refl. cbn [negb].
  unfold n at 1. rewrite isPowerOfTwo_pow2 by lia. cbn [negb]. fold n.
  destruct (bitReversal_spec m a) as [a1 [Hbr [Hs1 Hv1]]]; [lia|split; assumption|].
  fold n in Hbr, Hs1, Hv1. rewrite Hbr.
  set (sign := (if inverse then 1 else -1)%R).
  destruct (stepLoop_spec sign (val a) (S m) inverse ltac:(lia) eq_refl
              (S m) 0%nat 32 a1 ltac:(lia) ltac:(lia) Hs1) as [a2 [H2 [Hs2 Hst2]]].
  - intros b j Hb Hj. change (2 ^ Z.of_nat 0) with 1 in *.
    assert (j = 0) by lia. subst j. cbn [dit].
    replace (b * 1 + 0) with b by lia. rewrite Hv1 by exact Hb. f_equal. lia.
  - change (2 ^ Z.of_nat 1) with 2 in H2. fold n in H2, Hs2. rewrite H2.
    assert (Hd : forall j, 0 <= j < n -> val a2 j = dit sign (S m) (val a) j).
    { intros j Hj. specialize (Hst2 0 j). change (2 ^ Z.of_nat 0) with 1 in Hst2.
      fold n in Hst2. replace (0 * n + j) with j in Hst2 by lia.
      rewrite Hst2 by lia. f_equal.
      apply functional_extensionality. intros t. cbn [rev]. f_equal. lia. }
    destruct inverse.
    + destruct (scale_spec (1 / IZR n) n a2 Hs2) as [Hs3 Hv3].
      eexists. split; [reflexivity|]. split; [exact Hs3|].
      intros j Hj. rewrite Hv3, Hd by exact Hj. reflexivity.
    + exists a2. split; [reflexivity|]. split; [exact Hs2|].
      intros j Hj. rewrite Hd by exact Hj. unfold Cscale.
      destruct (dit sign (S m) (val a) j). cbn [fst snd]. f_equal; ring.
Qed.

Lemma list_eq_rd (l l' : list R) :
  len l = len l' -> (forall j, 0 <= j < len l -> rd 0%R l j = rd 0%R l' j) -> l = l'.
Proof.
  intros Hl Hv. apply (nth_ext l l' 0%R 0%R); [unfold len in Hl; lia|].
  intros n Hn. specialize (Hv (Z.of_nat n)). unfold rd, len in Hv.
  replace (Z.of_nat n <? 0) with false in Hv by (symmetry; apply Z.ltb_ge; lia).
  rewrite Nat2Z.id in Hv. apply Hv. lia.
Qed.

(** From length 2 on, the forward transform returns, the inverse transform
    applied to its result returns, and the two arrays are then as they were
    before the two calls. *)
Lemma fft_inverts (k : nat) (re0 im0 : list R) :
  (1 <= k <= 29)%nat ->
  len re0 = 2 ^ Z.of_nat k -> len im0 = 2 ^ Z.of_nat k ->
  exists a1,
    fft {| re := re0; im := im0 |} false = (Returns tt, a1) /\
    fft a1 true = (Returns tt, {| re := re0; im := im0 |}).
Proof.
  intros Hk Hr Hi. set (a := {| re := re0; im := im0 |}).
  set (n := 2 ^ Z.of_nat k) in *.
  assert (Ha : sized n a) by (split; assumption).
  destruct (fft_spec k a false Hk Ha) as [a1 [H1 [Hs1 Hv1]]].
  destruct (fft_spec k a1 true Hk Hs1) as [a2 [H2 [Hs2 Hv2]]].
  exists a1. split; [exact H1|]. rewrite H2. f_equal.
  pose proof (pow2_pos k) as Hp. fold n in Hp, Hv1, Hv2.
  assert (Hval : forall j, 0 <= j < n -> val a2 j = val a j).
  { intros j Hj. rewrite Hv2 by exact Hj.
    rewrite (dit_local 1 k (val a1) (dit (-1) k (val a))).
    - rewrite dit_inverse by exact Hj. fold n.
      assert (Hn0 : IZR n <> 0%R) by (apply not_0_IZR; lia).
      unfold Cscale. destruct (val a j) as [u v]. cbn [fst snd]. f_equal; field; exact Hn0.
    - intros t Ht. rewrite Hv1 by exact Ht. unfold Cscale.
      destruct (dit (-1) k (val a) t). cbn [fst snd]. f_equal; ring.
    - exact Hj. }
  destruct Hs2 as [Hr2 Hi2]. destruct a2 as [re2 im2]. cbn [re im] in *.
  unfold a. f_equal.
  - apply list_eq_rd; [lia|]. intros j Hj. specialize (Hval j ltac:(lia)).
    unfold val, a in Hval. cbn [re im] in Hval. injection Hval as Hre _. exact Hre.
  - apply list_eq_rd; [lia|]. intros j Hj. specialize (Hval j ltac:(lia)).
    unfold val, a in Hval. cbn [re im] in Hval. injection Hval as _ Him. exact Him.
Qed.

(** Arrays of one cell are not transformed: the engine takes a length of 1
    for no power of two, and the call ends with the error. *)
Lemma fft_one_cell (re0 im0 : list R) (inverse : bool) :
  len re0 = 1 -> len im0 = 1 ->
  fft {| re := re0; im := im0 |} inverse
  = (Throws "FFT length must be a power of two.", {| re := re0; im := im0 |}).
Proof.
  intros Hr Hi. unfold fft. cbn [re im]. rewrite Hr, Hi. reflexivity.
Qed.

(** With a step that is not positive the block loop never ends. *)
Lemma blockLoop_stuck (t : twiddles) (size step : Z) (fuel : nat) :
  step <= 0 ->
  forall (block : Z) (a : arrays),
    block < size -> blockLoop fuel t size step block a = None.
Proof.
  intros Hstep. induction fuel as [|fuel IH]; intros block a Hb; cbn [blockLoop];
    replace (block <? size) with true by (symmetry; apply Z.ltb_lt; lia).
  - reflexivity.
  - apply IH. lia.
Qed.

(** On arrays of 2^30 cells the pass loop reaches the step 2^30, which the
    32-bit shift turns into -2^31: the block loop of that step never ends. *)
Lemma stepLoop_wraps (t : twiddles) (size : Z) :
  size = 2 ^ 30 ->
  forall (fuel : nat) (k : Z) (a : arrays),
    1 <= k <= 30 -> Z.of_nat fuel + k = 33 -> sized size a ->
    stepLoop fuel t size (2 ^ k) a = None.
Proof.
  intros Hs. induction fuel as [|fuel IH]; intros k a Hk Hf Ha; [lia|].
  assert (Hle : 2 ^ k <= size) by (rewrite Hs; apply Z.pow_le_mono_r; lia).
  assert (Hpos : 0 < 2 ^ k) by (apply Z.pow_pos_nonneg; lia).
  cbn [stepLoop]. replace (2 ^ k <=? size) with true by (symmetry; apply Z.leb_le; lia).
  destruct (blockLoop_terminates t size (2 ^ k) size Hpos (Z.to_nat size) 0 a)
    as [a1 [-> Ha1]]; [lia|exact Ha|].
  destruct (Z.eq_dec k 30) as [->|Hne].
  - change (shl32 (2 ^ 30) 1) with (- 2 ^ 31).
    destruct fuel as [|fuel]; [lia|]. cbn [stepLoop].
    replace (- 2 ^ 31 <=? size) with true by (symmetry; apply Z.leb_le; lia).
    rewrite blockLoop_stuck by lia. reflexivity.
  - assert (2 ^ k <= 2 ^ 29) by (apply Z.pow_le_mono_r; lia).
    rewrite shl32_1 by lia.
    replace (2 * 2 ^ k) with (2 ^ (k + 1)) by (rewrite Z.pow_add_r; lia).
    apply IH; [lia|lia|exact Ha1].
Qed.

(** C5, as the claim states it, fails at both ends of the powers of two.
    Arrays of one cell, 1 being 2^0, are not transformed: both calls end
    with the error.  On arrays of 2^30 cells the call does not return. *)
Lemma fft_round_trip_fails :
  (forall (x y : R) (inverse : bool),
     fft {| re := [x]; im := [y] |} inverse
     = (Throws "FFT length must be a power of two.", {| re := [x]; im := [y] |})) /\
  (forall inverse : bool,
     sized (2 ^ 30) {| re := alloc 0%R (2 ^ 30); im := alloc 0%R (2 ^ 30) |} /\
     fst (fft {| re := alloc 0%R (2 ^ 30); im := alloc 0%R (2 ^ 30) |} inverse)
     = Diverges).
Proof.
  split.
  - intros x y inverse. apply fft_one_cell; reflexivity.
  - intros inverse.
    set (a := {| re := alloc 0%R (2 ^ 30); im := alloc 0%R (2 ^ 30) |}).
    assert (Ha : sized (2 ^ 30) a)
      by (split; cbn [re im a]; apply PipelineFacts.len_alloc; lia).
    split; [exact Ha|]. destruct Ha as [Hr Hi].
    unfold fft. rewrite Hr, Hi. change (negb (2 ^ 30 =? 2 ^ 30)) with false.
    change (negb (isPowerOfTwo (2 ^ 30))) with false. cbv iota.
    destruct (bitReversal_terminates (2 ^ 30) a) as [a1 [-> Ha1]];
      [lia | split; assumption |].
    generalize (getTwiddles (2 ^ 30) inverse). intros t.
    pose proof (stepLoop_wraps t (2 ^ 30) eq_refl 32 1 a1 ltac:(lia) ltac:(lia) Ha1) as H.
    change (2 ^ 1) with 2 in H. rewrite H. reflexivity.
Qed.

(** C5, amended.  For every length [n = 2^k] from 2 to 2^29 and all real
    and imaginary arrays of that length, the forward transform followed by
    the inverse transform returns both times and leaves the two arrays as
    they were before the two calls (over ideal arithmetic).  At length 1,
    which the engine rejects, both calls end with the error and leave the
    arrays untouched. *)
Theorem fft_round_trip (k : nat) (re0 im0 : list R) :
  (k <= 29)%nat ->
  len re0 = 2 ^ Z.of_nat k -> len im0 = 2 ^ Z.of_nat k ->
  let a0 := {| re := re0; im := im0 |} in
  snd (fft (snd (fft a0 false)) true) = a0 /\
  ((1 <= k)%nat ->
   exists a1, fft a0 false = (Returns tt, a1) /\ fft a1 true = (Returns tt, a0)).
Proof.
  intros Hk Hr Hi a0. subst a0. destruct k as [|k].
  - split; [|lia]. change (2 ^ Z.of_nat 0) with 1 in Hr, Hi.
    rewrite (fft_one_cell re0 im0 false Hr Hi). cbn [snd].
    rewrite (fft_one_cell re0 im0 true Hr Hi). reflexivity.
  - destruct (fft_inverts (S k) re0 im0 ltac:(lia) Hr Hi) as [a1 [H1 H2]].
    split.
    + rewrite H1. cbn [snd]. rewrite H2. reflexivity.
    + intros _. exists a1. split; assumption.
Qed.

Lemma fft_round_trip_witness :
  let a0 := {| re := [1; 2; 3; 4]%R; im := [0; 0; 0; 0]%R |} in
  snd (fft (snd (fft a0 false)) true) = a0 /\
  exists a1, fft a0 false = (Returns tt, a1) /\ fft a1 true = (Returns tt, a0).
Proof.
  destruct (fft_round_trip 2 [1; 2; 3; 4]%R [0; 0; 0; 0]%R) as [Hsame Hruns].
  - lia.
  - reflexivity.
  - reflexivity.
  - split; [exact Hsame|]. apply Hruns. lia.
Defined.

End TransformFacts.

(** ** The recursion is the discrete Fourier transform *)

Module DftFacts.
Import FFT Notions Reference JSFacts FFTFacts Fourier TransformFacts.

Lemma Csum_ext (n : nat) (f g : Z -> C) :
  (forall m, 0 <= m < Z.of_nat n -> f m = g m) -> Csum n f = Csum n g.
Proof.
  induction n as [|n IH]; intros H; [reflexivity|].
  cbn [Csum]. rewrite IH by (intros m Hm; apply H; lia).
  rewrite (H (Z.of_nat n)) by lia. reflexivity.
Qed.

Lemma Csum_factor (c : C) (n : nat) (f : Z -> C) :
  Csum n (fun m => Cmul c (f m)) = Cmul c (Csum n f).
Proof.
  induction n as [|n IH]; cbn [Csum].
  - unfold Cmul. cbn [fst snd]. f_equal; ring.
  - rewrite IH. cring.
Qed.

Lemma Csum_even_odd (n : nat) (f : Z -> C) :
  Csum (2 * n) f
  = Cadd (Csum n (fun m => f (2 * m))) (Csum n (fun m => f (2 * m + 1))).
Proof.
  induction n as [|n IH].
  - cbn. unfold Cadd. cbn [fst snd]. f_equal; ring.
  - replace (2 * S n)%nat with (S (S (2 * n))) by lia.
    cbn [Csum]. rewrite IH.
    replace (Z.of_nat (2 * n)) with (2 * Z.of_nat n) by lia.
    replace (Z.of_nat (S (2 * n))) with (2 * Z.of_nat n + 1) by lia.
    cring.
Qed.

Lemma omega_half (sign : R) (s i : Z) :
  0 < s -> omega sign (2 * s) (2 * i) = omega sign s i.
Proof.
  intros Hs. unfold omega.
  assert (Hr : (0 < IZR s)%R) by (apply IZR_lt; exact Hs).
  replace (2 * PI * IZR (2 * i) / IZR (2 * s))%R with (2 * PI * IZR i / IZR s)%R;
    [reflexivity|].
  rewrite !mult_IZR. field. lra.
Qed.

Lemma omega_add (sign : R) (s a b : Z) :
  (sign * sign = 1)%R ->
  omega sign s (a + b) = Cmul (omega sign s a) (omega sign s b).
Proof.
  intros Hs. unfold omega, Cmul. cbn [fst snd].
  replace (2 * PI * IZR (a + b) / IZR s)%R
    with (2 * PI * IZR a / IZR s + 2 * PI * IZR b / IZR s)%R
    by (rewrite plus_IZR; unfold Rdiv; ring).
  rewrite cos_plus, sin_plus.
  set (c1 := cos (2 * PI * IZR a / IZR s)). set (s1 := sin (2 * PI * IZR a / IZR s)).
  set (c2 := cos (2 * PI * IZR b / IZR s)). set (s2 := sin (2 * PI * IZR b / IZR s)).
  f_equal.
  - replace (sign * s1 * (sign * s2))%R with ((sign * sign) * (s1 * s2))%R by ring.
    rewrite Hs. ring.
  - ring.
Qed.

(** A whole number of turns changes nothing. *)
Lemma omega_turns (sign : R) (s i : Z) (t : nat) :
  0 < s -> omega sign s (i + s * Z.of_nat t) = omega sign s i.
Proof.
  intros Hs. unfold omega.
  assert (Hr : (0 < IZR s)%R) by (apply IZR_lt; exact Hs).
  replace (2 * PI * IZR (i + s * Z.of_nat t) / IZR s)%R
    with (2 * PI * IZR i / IZR s + 2 * INR t * PI)%R.
  - rewrite cos_period, sin_period. reflexivity.
  - rewrite plus_IZR, mult_IZR, <- INR_IZR_INZ. field. lra.
Qed.

Lemma omega_half_turn (sign : R) (h j : Z) :
  0 < h -> omega sign (2 * h) (j + h) = Cscale (-1) (omega sign (2 * h) j).
Proof.
  intros Hh. unfold omega, Cscale. cbn [fst snd].
  assert (Hr : (0 < IZR h)%R) by (apply IZR_lt; exact Hh).
  replace (2 * PI * IZR (j + h) / IZR (2 * h))%R
    with (2 * PI * IZR j / IZR (2 * h) + PI)%R
    by (rewrite plus_IZR, mult_IZR; field; lra).
  rewrite neg_cos, neg_sin. f_equal; ring.
Qed.

Lemma dft_split (sign : R) (h : Z) (x : Z -> C) (j : Z) :
  (sign * sign = 1)%R -> 0 < h ->
  dft sign (2 * h) x j
  = Cadd (dft sign h (fun m => x (2 * m)) j)
         (Cmul (omega sign (2 * h) j) (dft sign h (fun m => x (2 * m + 1)) j)).
Proof.
  intros Hs Hh. unfold dft.
  replace (Z.to_nat (2 * h)) with (2 * Z.to_nat h)%nat by lia.
  rewrite Csum_even_odd. f_equal.
  - apply Csum_ext. intros m _.
    replace (j * (2 * m)) with (2 * (j * m)) by ring.
    now rewrite omega_half.
  - rewrite <- Csum_factor. apply Csum_ext. intros m _.
    replace (j * (2 * m + 1)) with (j + 2 * (j * m)) by ring.
    rewrite omega_add by exact Hs. rewrite omega_half by exact Hh. cring.
Qed.

Lemma dft_shift (sign : R) (h : Z) (x : Z -> C) (j : Z) :
  0 < h -> dft sign h x (j + h) = dft sign h x j.
Proof.
  intros Hh. unfold dft. apply Csum_ext. intros m Hm.
  replace ((j + h) * m) with (j * m + h * Z.of_nat (Z.to_nat m)) by lia.
  now rewrite omega_turns.
Qed.

(** The recursion by decimation in time computes the discrete Fourier
    transform. *)
Lemma dit_dft (sign : R) (k : nat) :
  (sign * sign = 1)%R ->
  forall (x : Z -> C) (j : Z),
    0 <= j < 2 ^ Z.of_nat k -> dit sign k x j = dft sign (2 ^ Z.of_nat k) x j.
Proof.
  intros Hs. induction k as [|k IH]; intros x j Hj.
  - change (2 ^ Z.of_nat 0) with 1 in *. assert (j = 0) by lia. subst j.
    cbn [dit]. unfold dft. change (Z.to_nat 1) with 1%nat. cbn [Csum].
    change (0 * Z.of_nat 0) with 0. rewrite omega_0. change (Z.of_nat 0) with 0.
    destruct (x 0) as [u v]. unfold Cadd, Cmul. cbn [fst snd]. f_equal; ring.
  - rewrite pow2_succ in *. pose proof (pow2_pos k) as Hp.
    set (h := 2 ^ Z.of_nat k) in *.
    cbn [dit]. cbv zeta. fold h.
    destruct (j <? h) eqn:E.
    + apply Z.ltb_lt in E. rewrite !IH by lia. fold h.
      now rewrite dft_split.
    + apply Z.ltb_ge in E. rewrite !IH by lia. fold h.
      rewrite (dft_split sign h x j Hs Hp).
      pose proof (dft_shift sign h (fun m => x (2 * m)) (j - h) Hp) as He.
      pose proof (dft_shift sign h (fun m => x (2 * m + 1)) (j - h) Hp) as Ho.
      pose proof (omega_half_turn sign h (j - h) Hp) as Hw.
      replace (j - h + h) with j in He, Ho, Hw by lia.
      rewrite He, Ho, Hw. cring.
Qed.

End DftFacts.

(** ** The transform engine: what [fft] computes and rejects *)

Module EngineFacts.
Import FFT Notions Reference JSFacts FFTFacts Fourier TransformFacts DftFacts PipelineFacts.

(** X1. On two arrays of the length [n = 2^k], [2 <= n < 2^30], [fft]
    returns and leaves in the arrays the discrete Fourier transform of what
    they held: cell [j] is the sum over [m] of input [m] times
    [exp (-+ 2 pi i j m / n)], with the minus sign for the forward transform
    and, for the inverse one, the plus sign and the factor [1 / n]. *)
Theorem fft_computes_dft (k : nat) (a : arrays) (inverse : bool) :
  (1 <= k <= 29)%nat -> sized (2 ^ Z.of_nat k) a ->
  exists a',
    fft a inverse = (Returns tt, a') /\
    sized (2 ^ Z.of_nat k) a' /\
    forall j, 0 <= j < 2 ^ Z.of_nat k ->
      val a' j = Cscale (if inverse then 1 / IZR (2 ^ Z.of_nat k) else 1)
                   (dft (if inverse then 1 else -1) (2 ^ Z.of_nat k) (val a) j).
Proof.
  intros Hk Ha. destruct (fft_spec k a inverse Hk Ha) as [a' [H [Hs Hv]]].
  exists a'. split; [exact H|]. split; [exact Hs|].
  intros j Hj. rewrite (Hv j Hj). f_equal.
  apply dit_dft; [|exact Hj]. destruct inverse; ring.
Qed.

Lemma fft_computes_dft_witness :
  exists a',
    fft {| re := [1; 2]%R; im := [0; 0]%R |} false = (Returns tt, a') /\
    sized (2 ^ Z.of_nat 1) a' /\
    forall j, 0 <= j < 2 ^ Z.of_nat 1 ->
      val a' j = Cscale 1
                   (dft (-1) (2 ^ Z.of_nat 1) (val {| re := [1; 2]%R; im := [0; 0]%R |}) j).
Proof.
  apply (fft_computes_dft 1 {| re := [1; 2]%R; im := [0; 0]%R |} false).
  - lia.
  - split; reflexivity.
Defined.

Lemma isPowerOfTwo_spec (n : Z) :
  n < 2 ^ 32 -> (isPowerOfTwo n = true <-> powerOfTwo n).
Proof.
  intros Hn. unfold isPowerOfTwo, powerOfTwo. split.
  - intros H. apply andb_prop in H. destruct H as [H1 H2].
    apply Z.ltb_lt in H1. apply Z.eqb_eq in H2.
    apply and32_pred_pow2; [lia|exact H2].
  - intros [k [Hk ->]].
    assert (Hk31 : k <= 31).
    { destruct (Z_le_gt_dec k 31) as [Hle|Hgt]; [exact Hle|exfalso].
      assert (2 ^ 32 <= 2 ^ k) by (apply Z.pow_le_mono_r; lia). lia. }
    destruct (Z.eq_dec k 31) as [->|Hne]; [reflexivity|].
    replace k with (Z.of_nat (Z.to_nat k)) by lia.
    apply isPowerOfTwo_pow2. lia.
Qed.

(** X2. On two arrays of one length below 2^32, [fft] ends with the error
    [FFT length must be a power of two.], the arrays untouched, exactly when
    the length is not a power of two from 2 on; an empty array and an array
    of one cell are among the rejected. *)
Theorem fft_power_of_two_guard (a : arrays) (inverse : bool) :
  len (im a) = len (re a) -> len (re a) < 2 ^ 32 ->
  (fft a inverse = (Throws "FFT length must be a power of two.", a)
   <-> ~ powerOfTwo (len (re a))).
Proof.
  intros Hi Hn. pose proof (isPowerOfTwo_spec (len (re a)) Hn) as Hp.
  unfold fft. rewrite Hi, Z.eqb_refl. cbn [negb].
  destruct (isPowerOfTwo (len (re a))) eqn:E; cbn [negb].
  - split.
    + intros H. exfalso.
      destruct (bitReversal (len (re a)) a) as [a1|]; [|discriminate].
      destruct (stepLoop 32 _ _ 2 a1) as [a2|]; [|discriminate].
      destruct inverse; discriminate.
    + intros H. exfalso. apply H. apply Hp. reflexivity.
  - split; [|reflexivity].
    intros _ H. apply Hp in H. discriminate.
Qed.

Lemma fft_power_of_two_guard_witness :
  fft {| re := [1; 2; 3]%R; im := [0; 0; 0]%R |} false
  = (Throws "FFT length must be a power of two.",
     {| re := [1; 2; 3]%R; im := [0; 0; 0]%R |})
  <-> ~ powerOfTwo (len (re {| re := [1; 2; 3]%R; im := [0; 0; 0]%R |})).
Proof.
  apply (fft_power_of_two_guard {| re := [1; 2; 3]%R; im := [0; 0; 0]%R |} false).
  - reflexivity.
  - reflexivity.
Defined.

(** X3. The twiddle tables of a size below 2^31 have [size >> 1] entries,
    each entry (cosine, sine) lies on the unit circle, and the table of the
    inverse transform is the conjugate of the table of the forward one: the
    same cosines, the opposite sines. *)
Theorem twiddles_conjugate (size i : Z) :
  0 <= size < 2 ^ 31 -> 0 <= i < size / 2 ->
  let f := getTwiddles size false in
  let b := getTwiddles size true in
  len (cos_table f) = size / 2 /\ len (sin_table f) = size / 2 /\
  len (cos_table b) = size / 2 /\ len (sin_table b) = size / 2 /\
  (rd 0 (cos_table f) i * rd 0 (cos_table f) i
   + rd 0 (sin_table f) i * rd 0 (sin_table f) i = 1)%R /\
  rd 0%R (cos_table b) i = rd 0%R (cos_table f) i /\
  rd 0%R (sin_table b) i = (- rd 0 (sin_table f) i)%R.
Proof.
  intros Hs Hi f b. subst f b. unfold getTwiddles, buildTwiddles.
  cbn [cos_table sin_table]. rewrite shr32_1 by lia.
  assert (H0 : 0 <= size / 2) by (apply Z.div_pos; lia).
  rewrite !len_tabulate by exact H0.
  rewrite !(rd_tabulate 0%R) by exact Hi.
  repeat split; try reflexivity.
  - pose proof (sin2_cos2 (2 * PI * IZR i / IZR size)) as H. unfold Rsqr in H.
    lra.
  - ring.
Qed.

Lemma twiddles_conjugate_witness :
  let f := getTwiddles 8 false in
  let b := getTwiddles 8 true in
  len (cos_table f) = 8 / 2 /\ len (sin_table f) = 8 / 2 /\
  len (cos_table b) = 8 / 2 /\ len (sin_table b) = 8 / 2 /\
  (rd 0 (cos_table f) 1 * rd 0 (cos_table f) 1
   + rd 0 (sin_table f) 1 * rd 0 (sin_table f) 1 = 1)%R /\
  rd 0%R (cos_table b) 1 = rd 0%R (cos_table f) 1 /\
  rd 0%R (sin_table b) 1 = (- rd 0 (sin_table f) 1)%R.
Proof.
  apply (twiddles_conjugate 8 1).
  - lia.
  - change (8 / 2) with 4. lia.
Defined.

End EngineFacts.

(** ** The stages of the worker *)

Module StageFacts.
Import Worker Notions Reference JSFacts OnsetFacts PipelineFacts.

(** X4. The Hann window of a size from 2 on has that many cells, every
    cell lies between 0 and 1, the two end cells are 0, and the window reads
    the same from both ends. *)
Theorem createHannWindow_shape (size i : Z) :
  2 <= size -> 0 <= i < size ->
  let window := createHannWindow size in
  len window = size /\
  (0 <= rd 0%R window i <= 1)%R /\
  rd 0%R window 0 = 0%R /\ rd 0%R window (size - 1) = 0%R /\
  rd 0%R window (size - 1 - i) = rd 0%R window i.
Proof.
  intros Hs Hi window. subst window. unfold createHannWindow.
  rewrite len_tabulate by lia. rewrite !(rd_tabulate 0%R) by lia.
  assert (Hd : (0 < IZR (size - 1))%R) by (apply IZR_lt; lia).
  split; [reflexivity|]. split; [|split; [|split]].
  - pose proof (COS_bound (2 * PI * IZR i / IZR (size - 1))). lra.
  - replace (2 * PI * 0 / IZR (size - 1))%R with 0%R by (unfold Rdiv; ring).
    rewrite cos_0. ring.
  - replace (2 * PI * IZR (size - 1) / IZR (size - 1))%R with (2 * PI)%R by (field; lra).
    rewrite cos_2PI. ring.
  - f_equal. f_equal.
    replace (2 * PI * IZR (size - 1 - i) / IZR (size - 1))%R
      with (- (2 * PI * IZR i / IZR (size - 1)) + 2 * INR 1 * PI)%R.
    + rewrite cos_period, cos_neg. reflexivity.
    + rewrite !minus_IZR. simpl INR. field. rewrite minus_IZR in Hd. simpl in Hd. lra.
Qed.

Lemma createHannWindow_shape_witness :
  let window := createHannWindow 4 in
  len window = 4 /\
  (0 <= rd 0%R window 1 <= 1)%R /\
  rd 0%R window 0 = 0%R /\ rd 0%R window (4 - 1) = 0%R /\
  rd 0%R window (4 - 1 - 1) = rd 0%R window 1.
Proof. apply (createHannWindow_shape 4 1); lia. Defined.

Lemma Rabs_bound (x a : R) : (Rabs x <= a)%R -> (- a <= x <= a)%R.
Proof. unfold Rabs. destruct (Rcase_abs x); lra. Qed.

(** The sum of the squares of the cells [lo .. hi - 1] of an array whose
    cells are at most [A] in absolute value. *)
Lemma sumSquares_bound (f : Z -> R) (A : R) (lo hi : Z) :
  lo <= hi -> (0 <= A)%R ->
  (forall i, lo <= i < hi -> (Rabs (f i) <= A)%R) ->
  let s := for_range lo hi (fun i s => let value := f i in (s + value * value)%R) 0%R in
  (0 <= s <= IZR (hi - lo) * (A * A))%R.
Proof.
  intros Hle HA Hb s. subst s.
  apply (for_range_ind (fun j s => (0 <= s <= IZR (j - lo) * (A * A))%R)); [exact Hle| |].
  - replace (lo - lo) with 0 by lia. lra.
  - intros j t Hj [H0 H1]. cbv zeta.
    pose proof (Hb j Hj) as Hv. apply Rabs_bound in Hv.
    replace (j + 1 - lo) with ((j - lo) + 1) by lia. rewrite plus_IZR.
    assert (Hsq : (0 <= f j * f j <= A * A)%R) by nra.
    lra.
Qed.

Lemma sqrt_mean_bound (s A : R) (n : Z) :
  1 <= n -> (0 <= A)%R -> (0 <= s <= IZR n * (A * A))%R ->
  (0 <= sqrt (s / IZR n) <= A)%R.
Proof.
  intros Hn HA [H0 H1].
  assert (Hr : (1 <= IZR n)%R) by (apply IZR_le; exact Hn).
  split; [apply sqrt_pos|].
  rewrite <- (sqrt_square A) by exact HA.
  apply sqrt_le_1_alt.
  apply Rmult_le_reg_r with (IZR n); [lra|].
  unfold Rdiv. rewrite Rmult_assoc, Rinv_l by lra. lra.
Qed.

(** X5. The RMS envelope has one cell per frame; no cell is negative, no
    cell exceeds a bound on the absolute value of the samples, and the cell
    of a frame that starts at or after the end of the samples is 0. *)
Theorem computeRmsEnvelope_bounds (samples : list R) (numFrames hopSize frame : Z) (A : R) :
  0 < hopSize -> 0 <= frame < numFrames -> (0 <= A)%R ->
  (forall i, 0 <= i < len samples -> (Rabs (rd 0%R samples i) <= A)%R) ->
  let rms := computeRmsEnvelope samples numFrames hopSize in
  len rms = numFrames /\
  (0 <= rd 0%R rms frame <= A)%R /\
  (len samples <= frame * hopSize -> rd 0%R rms frame = 0%R).
Proof.
  intros Hh Hf HA Hb rms. subst rms. unfold computeRmsEnvelope.
  rewrite len_tabulate by lia. rewrite (rd_tabulate 0%R) by lia.
  split; [reflexivity|].
  destruct (len samples <=? frame * hopSize) eqn:E.
  - split; [lra|reflexivity].
  - apply Z.leb_gt in E. split; [|lia].
    set (start := frame * hopSize) in *.
    set (stop := Z.min (len samples) (start + hopSize)).
    assert (H0 : 0 <= start) by (unfold start; nia).
    rewrite Z.max_r by lia.
    apply sqrt_mean_bound; [lia|exact HA|].
    apply (sumSquares_bound (fun i => rd 0%R samples i) A start stop); [lia|exact HA|].
    intros i Hi. apply Hb. lia.
Qed.

Lemma computeRmsEnvelope_bounds_witness :
  let rms := computeRmsEnvelope [1; -1; 1]%R 2 2 in
  len rms = 2 /\
  (0 <= rd 0%R rms 1 <= 1)%R /\
  (len [1; -1; 1]%R <= 1 * 2 -> rd 0%R rms 1 = 0%R).
Proof.
  apply (computeRmsEnvelope_bounds [1; -1; 1]%R 2 2 1 1).
  - lia.
  - lia.
  - lra.
  - intros i Hi. change (len [1; -1; 1]%R) with 3 in Hi.
    assert (Hc : i = 0 \/ i = 1 \/ i = 2) by lia.
    destruct Hc as [-> | [-> | ->]].
    + change (rd 0%R [1; -1; 1]%R 0) with 1%R. unfold Rabs. destruct (Rcase_abs 1); lra.
    + change (rd 0%R [1; -1; 1]%R 1) with (-1)%R. unfold Rabs.
      destruct (Rcase_abs (-1)); lra.
    + change (rd 0%R [1; -1; 1]%R 2) with 1%R. unfold Rabs. destruct (Rcase_abs 1); lra.
Defined.

Lemma same_cells {A : Type} (d : A) (l l' : list A) :
  len l = len l' -> (forall j, 0 <= j < len l -> rd d l j = rd d l' j) -> l = l'.
Proof.
  intros Hl Hv. apply (nth_ext l l' d d); [unfold len in Hl; lia|].
  intros n Hn. specialize (Hv (Z.of_nat n)). unfold rd, len in Hv.
  replace (Z.of_nat n <? 0) with false in Hv by (symmetry; apply Z.ltb_ge; lia).
  rewrite Nat2Z.id in Hv. apply Hv. lia.
Qed.

Lemma fillWindowedSignal_cells (target samples : list R) (start fftSize : Z)
    (window : list R) :
  0 <= fftSize <= len target ->
  forall i,
    rd 0%R (fillWindowedSignal target samples start fftSize window) i
    = if (0 <=? i) && (i <? fftSize)
      then (if start + i <? len samples
            then (rd 0%R samples (start + i) * rd 0%R window i)%R else 0%R)
      else rd 0%R target i.
Proof.
  intros Hn. unfold fillWindowedSignal.
  apply (for_range_ind (fun j t =>
    len t = len target /\
    forall i, rd 0%R t i
              = if (0 <=? i) && (i <? j)
                then (if start + i <? len samples
                      then (rd 0%R samples (start + i) * rd 0%R window i)%R else 0%R)
                else rd 0%R target i)); [lia| |].
  - split; [reflexivity|]. intros i.
    destruct (0 <=? i) eqn:Ea; destruct (i <? 0) eqn:Eb; cbn [andb]; try reflexivity.
    apply Z.leb_le in Ea. apply Z.ltb_lt in Eb. lia.
  - intros j t Hj [Hl Hc]. split; [now rewrite len_wr|]. intros i.
    destruct (Z.eq_dec j i) as [->|Hne].
    + rewrite rd_wr_same by lia.
      replace (0 <=? i) with true by (symmetry; apply Z.leb_le; lia).
      replace (i <? i + 1) with true by (symmetry; apply Z.ltb_lt; lia).
      reflexivity.
    + rewrite rd_wr_other by exact Hne. rewrite Hc.
      replace (i <? j + 1) with (i <? j); [reflexivity|].
      destruct (i <? j) eqn:Ea; symmetry;
        [apply Z.ltb_lt in Ea; apply Z.ltb_lt | apply Z.ltb_ge in Ea; apply Z.ltb_ge]; lia.
Qed.

(** X6. [fillWindowedSignal] overwrites the whole frame buffer: cell [i]
    becomes the sample [start + i] times the window cell [i], or 0 when the
    frame reaches past the last sample, and nothing of what the buffer held
    before remains. *)
Theorem fillWindowedSignal_overwrites (target samples : list R) (start fftSize : Z)
    (window : list R) :
  0 <= start -> len target = fftSize -> len window = fftSize ->
  let frame := fillWindowedSignal target samples start fftSize window in
  len frame = fftSize /\
  (forall i, 0 <= i < fftSize ->
     rd 0%R frame i
     = if start + i <? len samples
       then (rd 0%R samples (start + i) * rd 0%R window i)%R else 0%R) /\
  (forall other, len other = fftSize ->
     fillWindowedSignal other samples start fftSize window = frame).
Proof.
  intros Hs Ht Hw frame. subst frame.
  pose proof (len_nonneg target) as H0.
  assert (Hcell : forall t, len t = fftSize -> forall i, 0 <= i < fftSize ->
            rd 0%R (fillWindowedSignal t samples start fftSize window) i
            = if start + i <? len samples
              then (rd 0%R samples (start + i) * rd 0%R window i)%R else 0%R).
  { intros t Hlt i Hi. rewrite fillWindowedSignal_cells by lia.
    replace (0 <=? i) with true by (symmetry; apply Z.leb_le; lia).
    replace (i <? fftSize) with true by (symmetry; apply Z.ltb_lt; lia).
    reflexivity. }
  split; [rewrite fillWindowedSignal_length; exact Ht|].
  split; [apply Hcell; exact Ht|].
  intros other Ho. apply (same_cells 0%R).
  - rewrite !fillWindowedSignal_length. lia.
  - intros j Hj. rewrite fillWindowedSignal_length in Hj.
    rewrite !Hcell by lia. reflexivity.
Qed.

Lemma fillWindowedSignal_overwrites_witness :
  let frame := fillWindowedSignal [9; 9]%R [1; 2; 3]%R 2 2 [1; 1]%R in
  len frame = 2 /\
  (forall i, 0 <= i < 2 ->
     rd 0%R frame i
     = if 2 + i <? len [1; 2; 3]%R
       then (rd 0%R [1; 2; 3] (2 + i) * rd 0%R [1; 1] i)%R else 0%R) /\
  (forall other, len other = 2 ->
     fillWindowedSignal other [1; 2; 3]%R 2 2 [1; 1]%R = frame).
Proof.
  apply (fillWindowedSignal_overwrites [9; 9]%R [1; 2; 3]%R 2 2 [1; 1]%R).
  - lia.
  - reflexivity.
  - reflexivity.
Defined.

Lemma Math_hypot_nonneg (x y : R) : (0 <= Math_hypot x y)%R.
Proof. unfold Math_hypot. apply sqrt_pos. Qed.

(** X7. [fillMagnitudes] stores the magnitude [hypot (re[i], im[i])] of
    every bin in [out] (over ideal arithmetic: the store into the
    [Float32Array] rounds), and the peak it returns, which is not stored and
    so not rounded, is at least the magnitude of every bin, is never
    negative, and is 0 or the magnitude of one of the bins. *)
Theorem fillMagnitudes_peak (re im out : list R) :
  len out <= len re -> len out <= len im ->
  let r := fillMagnitudes re im out in
  let magnitude := fun i => Math_hypot (rd 0%R re i) (rd 0%R im i) in
  len (fst r) = len out /\
  (forall i, 0 <= i < len out ->
     rd 0%R (fst r) i = magnitude i /\ (0 <= magnitude i <= snd r)%R) /\
  (0 <= snd r)%R /\
  (snd r = 0%R \/ exists j, 0 <= j < len out /\ snd r = magnitude j).
Proof.
  intros _ _ r magnitude. subst r. unfold fillMagnitudes.
  pose proof (len_nonneg out) as H0.
  apply (for_range_ind (fun j (s : list R * R) =>
    len (fst s) = len out /\
    (forall i, 0 <= i < j ->
       rd 0%R (fst s) i = magnitude i /\ (0 <= magnitude i <= snd s)%R) /\
    (0 <= snd s)%R /\
    (snd s = 0%R \/ exists k, 0 <= k < j /\ snd s = magnitude k)));
    [lia| |].
  - cbn [fst snd]. split; [reflexivity|]. split; [intros i Hi; lia|].
    split; [lra|]. left. reflexivity.
  - intros j [o p] Hj [Hl [Hc [Hp Ha]]]. cbn [fst snd] in *.
    fold (magnitude j).
    pose proof (Math_hypot_nonneg (rd 0%R re j) (rd 0%R im j)) as Hm.
    fold (magnitude j) in Hm. set (m := magnitude j) in *.
    assert (Hcell : forall i, 0 <= i < j -> rd 0%R (wr o j m) i = rd 0%R o i).
    { intros i Hi. apply rd_wr_other. lia. }
    destruct (Rgt_dec m p) as [Hgt|Hle]; cbn [fst snd].
    + split; [now rewrite len_wr|]. split; [|split; [lra|]].
      * intros i Hi. destruct (Z.eq_dec i j) as [->|Hne].
        -- rewrite rd_wr_same by lia. fold m. split; [reflexivity|lra].
        -- rewrite Hcell by lia. destruct (Hc i ltac:(lia)) as [He Hb].
           split; [exact He|lra].
      * right. exists j. split; [lia|]. reflexivity.
    + split; [now rewrite len_wr|]. split; [|split; [lra|]].
      * intros i Hi. destruct (Z.eq_dec i j) as [->|Hne].
        -- rewrite rd_wr_same by lia. fold m. split; [reflexivity|lra].
        -- rewrite Hcell by lia. apply Hc. lia.
      * destruct Ha as [Hz|[k [Hk Hv]]]; [left; exact Hz|].
        right. exists k. split; [lia|]. exact Hv.
Qed.

Lemma fillMagnitudes_peak_witness :
  let r := fillMagnitudes [3; 0]%R [4; 1]%R [0; 0]%R in
  let magnitude := fun i => Math_hypot (rd 0%R [3; 0]%R i) (rd 0%R [4; 1]%R i) in
  len (fst r) = len [0; 0]%R /\
  (forall i, 0 <= i < len [0; 0]%R ->
     rd 0%R (fst r) i = magnitude i /\ (0 <= magnitude i <= snd r)%R) /\
  (0 <= snd r)%R /\
  (snd r = 0%R \/ exists j, 0 <= j < len [0; 0]%R /\ snd r = magnitude j).
Proof.
  apply (fillMagnitudes_peak [3; 0]%R [4; 1]%R [0; 0]%R).
  - unfold len. simpl. lia.
  - unfold len. simpl. lia.
Defined.

Lemma topFrequency_bounds (sampleRate : R) : (20 <= topFrequency sampleRate <= 20000)%R.
Proof.
  unfold topFrequency, Rmax, Rmin.
  repeat (destruct (Rle_dec _ _); try lra).
Qed.

(** X8. The band edges are contiguous and cover 20 Hz to the top
    frequency: there is one band per index, band 0 starts at 20 Hz, the last
    band ends at the top frequency (the Nyquist frequency kept between 20 Hz
    and 20 kHz), every band has its low edge at or below its high edge, and
    the high edge of a band is the low edge of the next. *)
Theorem computeBandFrequencies_contiguous (numBands : Z) (sampleRate : R) (i : Z) :
  1 <= numBands -> 0 <= i < numBands ->
  let bands := computeBandFrequencies numBands sampleRate in
  len bands = numBands /\
  low (rd noBand bands 0) = 20%R /\
  high (rd noBand bands (numBands - 1)) = topFrequency sampleRate /\
  (20 <= low (rd noBand bands i) <= high (rd noBand bands i))%R /\
  (high (rd noBand bands i) <= topFrequency sampleRate)%R /\
  (i + 1 < numBands -> low (rd noBand bands (i + 1)) = high (rd noBand bands i)).
Proof.
  intros Hn Hi bands. subst bands. unfold computeBandFrequencies.
  fold (topFrequency sampleRate). pose proof (topFrequency_bounds sampleRate) as Ht.
  set (top := topFrequency sampleRate) in *.
  rewrite len_tabulate by lia.
  assert (HN : (1 <= IZR numBands)%R) by (apply IZR_le; exact Hn).
  assert (Hb : (1 <= top / 20)%R) by lra.
  assert (Hi0 : (0 <= IZR i)%R) by (apply IZR_le; lia).
  assert (Hi1 : (IZR (i + 1) <= IZR numBands)%R) by (apply IZR_le; lia).
  assert (Hii : (IZR i <= IZR (i + 1))%R) by (apply IZR_le; lia).
  assert (Hinv : (0 < / IZR numBands)%R) by (apply Rinv_0_lt_compat; lra).
  assert (He0 : (0 <= IZR i / IZR numBands)%R) by (unfold Rdiv; nra).
  assert (He1 : (IZR i / IZR numBands <= IZR (i + 1) / IZR numBands)%R)
    by (unfold Rdiv; nra).
  assert (He2 : (IZR (i + 1) / IZR numBands <= 1)%R).
  { apply Rmult_le_reg_r with (IZR numBands); [lra|].
    unfold Rdiv. rewrite Rmult_assoc, Rinv_l by lra. lra. }
  assert (Hp0 : Rpower (top / 20) 0 = 1%R) by (apply Rpower_O; lra).
  assert (Hp1 : Rpower (top / 20) 1 = (top / 20)%R) by (apply Rpower_1; lra).
  pose proof (Rle_Rpower (top / 20) 0 (IZR i / IZR numBands) Hb He0) as Ha.
  pose proof (Rle_Rpower (top / 20) _ _ Hb He1) as Hm.
  pose proof (Rle_Rpower (top / 20) _ 1 Hb He2) as Hz.
  rewrite Hp0 in Ha. rewrite Hp1 in Hz.
  split; [reflexivity|]. unfold Math_pow.
  split; [|split; [|split; [|split]]].
  - rewrite (rd_tabulate noBand) by lia. cbn [low].
    replace (IZR 0 / IZR numBands)%R with 0%R by (unfold Rdiv; ring).
    rewrite Hp0. ring.
  - rewrite (rd_tabulate noBand) by lia. cbn [high].
    replace (numBands - 1 + 1) with numBands by lia.
    replace (IZR numBands / IZR numBands)%R with 1%R by (field; lra).
    rewrite Hp1. field.
  - rewrite (rd_tabulate noBand) by lia. cbn [low high]. lra.
  - rewrite (rd_tabulate noBand) by lia. cbn [high]. lra.
  - intros Hnext. rewrite !(rd_tabulate noBand) by lia. reflexivity.
Qed.

Lemma computeBandFrequencies_contiguous_witness :
  let bands := computeBandFrequencies 40 44100 in
  len bands = 40 /\
  low (rd noBand bands 0) = 20%R /\
  high (rd noBand bands (40 - 1)) = topFrequency 44100 /\
  (20 <= low (rd noBand bands 3) <= high (rd noBand bands 3))%R /\
  (high (rd noBand bands 3) <= topFrequency 44100)%R /\
  (3 + 1 < 40 -> low (rd noBand bands (3 + 1)) = high (rd noBand bands 3)).
Proof. apply (computeBandFrequencies_contiguous 40 44100 3); lia. Defined.

(** X9. The bin ranges that a run derives for its bands (sample rate
    above 0, transform size from 2 to below 2^31) are ranges of valid bins
    with at least one bin, [0 <= lowBin <= highBin <= numBins - 1], and they
    ascend with the band: neither end of a range lies below the same end of
    the range before. *)
Theorem bandBins_ascending (numBands : Z) (sampleRate : R) (fftSize i : Z) :
  1 <= numBands -> (0 < sampleRate)%R -> 2 <= fftSize < 2 ^ 31 -> 0 <= i < numBands ->
  let ranges := bandBins numBands sampleRate fftSize in
  len ranges = numBands /\
  0 <= lowBin (rd noRange ranges i) /\
  lowBin (rd noRange ranges i) <= highBin (rd noRange ranges i) /\
  highBin (rd noRange ranges i) <= fftSize / 2 - 1 /\
  (i + 1 < numBands ->
   lowBin (rd noRange ranges i) <= lowBin (rd noRange ranges (i + 1)) /\
   highBin (rd noRange ranges i) <= highBin (rd noRange ranges (i + 1))).
Proof.
  intros Hn Hsr Hf Hi ranges. subst ranges. rewrite BandFacts.bandBins_eq.
  assert (Hlen : len (range 0 numBands) = numBands) by (rewrite range_length; lia).
  split; [unfold len in *; now rewrite length_map|].
  rewrite (rd_map 0 noRange), rd_range by lia.
  assert (Hbins : 1 <= fftSize / 2) by (apply Z.div_le_lower_bound; lia).
  unfold bandBin. cbn [lowBin highBin]. rewrite shr32_1 by lia.
  fold (topFrequency sampleRate). pose proof (topFrequency_bounds sampleRate) as Ht.
  set (top := topFrequency sampleRate) in *.
  replace (0 + i) with i by lia.
  split; [unfold clampInt; lia|]. split; [unfold clampInt; lia|].
  split; [unfold clampInt; lia|].
  intros Hnext. rewrite (rd_map 0 noRange), rd_range by lia.
  cbn [lowBin highBin]. replace (0 + (i + 1)) with (i + 1) by lia.
  assert (HF : (0 < IZR fftSize)%R) by (apply IZR_lt; lia).
  assert (Hbw : (0 < sampleRate / IZR fftSize)%R)
    by (apply Rdiv_lt_0_compat; assumption).
  set (bw := (sampleRate / IZR fftSize)%R) in *.
  assert (HN : (1 <= IZR numBands)%R) by (apply IZR_le; exact Hn).
  assert (Hinv : (0 < / IZR numBands)%R) by (apply Rinv_0_lt_compat; lra).
  assert (Hb : (1 <= top / 20)%R) by lra.
  assert (Hmono : forall a b : Z, a <= b ->
            (20 * Math_pow (top / 20) (IZR a / IZR numBands) / bw
             <= 20 * Math_pow (top / 20) (IZR b / IZR numBands) / bw)%R).
  { intros a b Hab. unfold Math_pow.
    assert (Hab' : (IZR a <= IZR b)%R) by (apply IZR_le; exact Hab).
    assert (He : (IZR a / IZR numBands <= IZR b / IZR numBands)%R)
      by (unfold Rdiv; nra).
    pose proof (Rle_Rpower (top / 20) _ _ Hb He) as Hp.
    apply Rmult_le_compat_r; [left; apply Rinv_0_lt_compat; exact Hbw|]. lra. }
  pose proof (Zfloor_le _ _ (Hmono i (i + 1) ltac:(lia))) as H1.
  pose proof (Zfloor_le _ _ (Hmono (i + 1) (i + 1 + 1) ltac:(lia))) as H2.
  unfold Math_floor, clampInt. lia.
Qed.

Lemma bandBins_ascending_witness :
  let ranges := bandBins 40 44100 2048 in
  len ranges = 40 /\
  0 <= lowBin (rd noRange ranges 3) /\
  lowBin (rd noRange ranges 3) <= highBin (rd noRange ranges 3) /\
  highBin (rd noRange ranges 3) <= 2048 / 2 - 1 /\
  (3 + 1 < 40 ->
   lowBin (rd noRange ranges 3) <= lowBin (rd noRange ranges (3 + 1)) /\
   highBin (rd noRange ranges 3) <= highBin (rd noRange ranges (3 + 1))).
Proof. apply (bandBins_ascending 40 44100 2048 3); try lia. lra. Defined.

Lemma ToUint8_range (z : Z) : 0 <= ToUint8 z <= 255.
Proof.
  unfold ToUint8. pose proof (Z.mod_pos_bound z (2 ^ 8) ltac:(lia)) as H.
  change (2 ^ 8) with 256 in *. lia.
Qed.

(** A loop that stores one byte per index into the cells from [offset] on
    changes those cells only. *)
Lemma row_written (value : Z -> list Z -> Z) (offset count : Z) (a : list Z) :
  0 <= offset -> 0 <= count -> offset + count <= len a ->
  (forall j t, 0 <= value j t <= 255) ->
  let a' := for_range 0 count (fun j t => wr t (offset + j) (value j t)) a in
  len a' = len a /\
  (forall k, ~ offset <= k < offset + count -> rd 0 a' k = rd 0 a k) /\
  (forall k, offset <= k < offset + count -> 0 <= rd 0 a' k <= 255).
Proof.
  intros Ho Hc Hfit Hv a'. subst a'.
  apply (for_range_ind (fun j t =>
    len t = len a /\
    (forall k, ~ offset <= k < offset + j -> rd 0 t k = rd 0 a k) /\
    (forall k, offset <= k < offset + j -> 0 <= rd 0 t k <= 255))); [lia| |].
  - split; [reflexivity|]. split; [reflexivity|]. intros k Hk. lia.
  - intros j t Hj [Hl [Hout Hin]]. split; [now rewrite len_wr|]. split.
    + intros k Hk. rewrite rd_wr_other by lia. apply Hout. lia.
    + intros k Hk. destruct (Z.eq_dec (offset + j) k) as [<-|Hne].
      * rewrite rd_wr_same by lia. apply Hv.
      * rewrite rd_wr_other by exact Hne. apply Hin. lia.
Qed.

(** X10. [writeBandFrame] writes the row of its frame and nothing else:
    the array keeps its length, every cell outside the cells
    [frameIndex * numBands .. frameIndex * numBands + numBands - 1] is as it
    was, and every cell of the row holds a byte, 0 to 255. *)
Theorem writeBandFrame_row (destination : list Z) (frameIndex : Z) (magnitudes : list R)
    (peak : R) (bandRanges : list binRange) :
  0 <= frameIndex ->
  (frameIndex + 1) * len bandRanges <= len destination ->
  let offset := frameIndex * len bandRanges in
  let written := writeBandFrame destination frameIndex magnitudes peak bandRanges in
  len written = len destination /\
  (forall k, ~ offset <= k < offset + len bandRanges ->
             rd 0 written k = rd 0 destination k) /\
  (forall k, offset <= k < offset + len bandRanges -> 0 <= rd 0 written k <= 255).
Proof.
  intros Hf Hfit offset written. subst written. unfold writeBandFrame. fold offset.
  pose proof (len_nonneg bandRanges) as Hb.
  assert (Ho : 0 <= offset) by (unfold offset; nia).
  assert (Hend : offset + len bandRanges <= len destination) by (unfold offset; nia).
  destruct (Rleb peak EPSILON).
  - destruct (fill_spec 0 destination 0 offset (offset + len bandRanges)) as [Hl Hc];
      [lia|lia|].
    split; [exact Hl|]. split.
    + intros k Hk. rewrite Hc.
      destruct (offset <=? k) eqn:Ea; destruct (k <? offset + len bandRanges) eqn:Eb;
        cbn [andb]; try reflexivity.
      apply Z.leb_le in Ea. apply Z.ltb_lt in Eb. lia.
    + intros k Hk. rewrite Hc.
      replace (offset <=? k) with true by (symmetry; apply Z.leb_le; lia).
      replace (k <? offset + len bandRanges) with true by (symmetry; apply Z.ltb_lt; lia).
      cbn [andb]. lia.
  - unfold bandStep.
    apply (row_written
             (fun bandIndex (_ : list Z) =>
                ToUint8 (clampInt (Math_round
                  (sqrt (Rmin 1
                     (for_range (lowBin (rd {| lowBin := 0; highBin := 0 |} bandRanges bandIndex))
                        (highBin (rd {| lowBin := 0; highBin := 0 |} bandRanges bandIndex) + 1)
                        (fun bin sum => (sum + rd 0%R magnitudes bin)%R) 0%R
                      / IZR (highBin (rd {| lowBin := 0; highBin := 0 |} bandRanges bandIndex)
                             - lowBin (rd {| lowBin := 0; highBin := 0 |} bandRanges bandIndex)
                             + 1) / peak)) * 255)) 0 255))
             offset (len bandRanges) destination Ho Hb Hend).
    intros j t. apply ToUint8_range.
Qed.

Lemma writeBandFrame_row_witness :
  let offset := 1 * len [noRange; noRange] in
  let written := writeBandFrame [7; 7; 7; 7; 7; 7] 1 [1; 1]%R 1%R [noRange; noRange] in
  len written = len [7; 7; 7; 7; 7; 7] /\
  (forall k, ~ offset <= k < offset + len [noRange; noRange] ->
             rd 0 written k = rd 0 [7; 7; 7; 7; 7; 7] k) /\
  (forall k, offset <= k < offset + len [noRange; noRange] -> 0 <= rd 0 written k <= 255).
Proof.
  apply (writeBandFrame_row [7; 7; 7; 7; 7; 7] 1 [1; 1]%R 1%R [noRange; noRange]).
  - lia.
  - unfold len. simpl. lia.
Defined.

Lemma rd_opt_wr_other {A : Type} (a : list A) (i k : Z) (v : A) :
  i <> k -> rd_opt (wr a i v) k = rd_opt a k.
Proof.
  intros Hne. destruct (Z_lt_ge_dec k 0) as [Hk|Hk].
  - unfold rd_opt. replace (k <? 0) with true by (symmetry; apply Z.ltb_lt; lia).
    reflexivity.
  - destruct (Z_lt_ge_dec k (len a)) as [Hin|Hout].
    + destruct a as [|d a']; [unfold len in Hin; simpl in Hin; lia|].
      rewrite (rd_opt_in d) by (rewrite len_wr; lia).
      rewrite (rd_opt_in d) by lia. now rewrite rd_wr_other.
    + rewrite !rd_opt_out; [reflexivity|lia|rewrite len_wr; lia].
Qed.

(** X11. [writeSpectrogramFrame] writes the row of its frame in the tile of
    its frame and nothing else: the other tiles are as they were, the tile
    keeps its length, its cells outside the row are as they were and the
    cells of the row hold bytes.  When the tile of the frame is missing,
    nothing is written at all. *)
Theorem writeSpectrogramFrame_row (tiles : list (list Z)) (frameIndex : Z)
    (magnitudes : list R) (peak : R) (numBins tileSize : Z) :
  0 <= frameIndex -> 0 < tileSize -> 0 <= numBins ->
  let rowOffset := frameIndex mod tileSize * numBins in
  let written := writeSpectrogramFrame tiles frameIndex magnitudes peak numBins tileSize in
  len written = len tiles /\
  (forall k, k <> frameIndex / tileSize -> rd_opt written k = rd_opt tiles k) /\
  match rd_opt tiles (frameIndex / tileSize) with
  | None => written = tiles
  | Some tile =>
      rowOffset + numBins <= len tile ->
      exists tile',
        rd_opt written (frameIndex / tileSize) = Some tile' /\
        len tile' = len tile /\
        (forall k, ~ rowOffset <= k < rowOffset + numBins -> rd 0 tile' k = rd 0 tile k) /\
        (forall k, rowOffset <= k < rowOffset + numBins -> 0 <= rd 0 tile' k <= 255)
  end.
Proof.
  intros Hf Hts Hnb rowOffset written. subst written.
  unfold writeSpectrogramFrame, Math_floor.
  rewrite Zfloor_div by exact Hts. rewrite Z.rem_mod_nonneg by lia. fold rowOffset.
  pose proof (Z.mod_pos_bound frameIndex tileSize Hts) as Hm.
  assert (Hr : 0 <= rowOffset) by (unfold rowOffset; nia).
  destruct (rd_opt tiles (frameIndex / tileSize)) as [tile|] eqn:Htile.
  - pose proof (rd_opt_Some_range _ _ _ Htile) as Hidx.
    assert (Hgen : forall tile',
      len (wr tiles (frameIndex / tileSize) tile') = len tiles /\
      (forall k, k <> frameIndex / tileSize ->
         rd_opt (wr tiles (frameIndex / tileSize) tile') k = rd_opt tiles k) /\
      rd_opt (wr tiles (frameIndex / tileSize) tile') (frameIndex / tileSize) = Some tile').
    { intros tile'. split; [apply len_wr|]. split.
      - intros k Hk. apply rd_opt_wr_other. lia.
      - apply rd_opt_wr_same. exact Hidx. }
    destruct (Rleb peak EPSILON).
    + destruct (Hgen (fill tile 0 rowOffset (rowOffset + numBins))) as [Hl [Ho Hs]].
      split; [exact Hl|]. split; [exact Ho|]. intros Hfit.
      destruct (fill_spec 0 tile 0 rowOffset (rowOffset + numBins)) as [Hlt Hc];
        [lia|lia|].
      eexists. split; [exact Hs|]. split; [exact Hlt|]. split.
      * intros k Hk. rewrite Hc.
        destruct (rowOffset <=? k) eqn:Ea; destruct (k <? rowOffset + numBins) eqn:Eb;
          cbn [andb]; try reflexivity.
        apply Z.leb_le in Ea. apply Z.ltb_lt in Eb. lia.
      * intros k Hk. rewrite Hc.
        replace (rowOffset <=? k) with true by (symmetry; apply Z.leb_le; lia).
        replace (k <? rowOffset + numBins) with true by (symmetry; apply Z.ltb_lt; lia).
        cbn [andb]. lia.
    + destruct (Hgen (for_range 0 numBins (cellStep rowOffset magnitudes peak) tile))
        as [Hl [Ho Hs]].
      split; [exact Hl|]. split; [exact Ho|]. intros Hfit.
      eexists. split; [exact Hs|]. unfold cellStep.
      apply (row_written
               (fun bin (_ : list Z) =>
                  ToUint8 (clampInt (Math_round
                    ((20 * Math_log10 (Rmax (rd 0%R magnitudes bin / peak) EPSILON)
                      - SPECTROGRAM_MIN_DB) / - SPECTROGRAM_MIN_DB * 255)) 0 255))
               rowOffset numBins tile Hr Hnb Hfit).
      intros j t. apply ToUint8_range.
  - split; [reflexivity|]. split; reflexivity.
Qed.

Lemma writeSpectrogramFrame_row_witness :
  let rowOffset := 1 mod 1000 * 2 in
  let written := writeSpectrogramFrame [[9; 9; 9; 9]] 1 [1; 1]%R 1%R 2 1000 in
  len written = len [[9; 9; 9; 9]] /\
  (forall k, k <> 1 / 1000 -> rd_opt written k = rd_opt [[9; 9; 9; 9]] k) /\
  match rd_opt [[9; 9; 9; 9]] (1 / 1000) with
  | None => written = [[9; 9; 9; 9]]
  | Some tile =>
      rowOffset + 2 <= len tile ->
      exists tile',
        rd_opt written (1 / 1000) = Some tile' /\
        len tile' = len tile /\
        (forall k, ~ rowOffset <= k < rowOffset + 2 -> rd 0 tile' k = rd 0 tile k) /\
        (forall k, rowOffset <= k < rowOffset + 2 -> 0 <= rd 0 tile' k <= 255)
  end.
Proof.
  apply (writeSpectrogramFrame_row [[9; 9; 9; 9]] 1 [1; 1]%R 1%R 2 1000); lia.
Defined.

(** X12. The tiles that [createSpectrogramTiles] allocates hold one row of
    [numBins] cells for every frame: frame [f] has its row in tile
    [f / tileSize] from cell [(f mod tileSize) * numBins] on, and all cells
    are 0 to begin with. *)
Theorem createSpectrogramTiles_layout (numFrames numBins tileSize frame : Z) :
  0 < tileSize -> 0 <= numBins -> 0 <= frame < numFrames ->
  exists tile,
    rd_opt (createSpectrogramTiles numFrames numBins tileSize) (frame / tileSize)
    = Some tile /\
    (frame mod tileSize) * numBins + numBins <= len tile /\
    len tile = Z.min tileSize (numFrames - frame / tileSize * tileSize) * numBins /\
    forall k, rd 0 tile k = 0.
Proof.
  intros Ht Hb Hf.
  destruct (createSpectrogramTiles_row numFrames numBins tileSize frame Ht Hb Hf)
    as [tile [Htile Hrow]].
  exists tile. split; [exact Htile|]. split; [lia|].
  pose proof (rd_opt_Some_range _ _ _ Htile) as Hidx.
  unfold createSpectrogramTiles in Htile, Hidx.
  set (tileCount := Z.max 1 (Math_ceil (IZR numFrames / IZR tileSize))) in *.
  rewrite len_tabulate in Hidx by lia.
  rewrite (rd_opt_in (alloc 0 0)) in Htile by (rewrite len_tabulate; lia).
  rewrite rd_tabulate in Htile by lia. injection Htile as <-.
  pose proof (Z.div_mod frame tileSize ltac:(lia)) as Hdm.
  pose proof (Z.mod_pos_bound frame tileSize Ht) as Hm.
  split; [apply len_alloc; nia|].
  intros k. unfold rd, alloc. destruct (k <? 0); [reflexivity|].
  destruct (nth_in_or_default (Z.to_nat k)
              (repeat 0 (Z.to_nat (Z.min tileSize (numFrames - frame / tileSize * tileSize)
                                   * numBins))) 0) as [Hin|Hd]; [|exact Hd].
  apply repeat_spec in Hin. exact Hin.
Qed.

Lemma createSpectrogramTiles_layout_witness :
  exists tile,
    rd_opt (createSpectrogramTiles 2500 1024 1000) (2100 / 1000) = Some tile /\
    (2100 mod 1000) * 1024 + 1024 <= len tile /\
    len tile = Z.min 1000 (2500 - 2100 / 1000 * 1000) * 1024 /\
    forall k, rd 0 tile k = 0.
Proof. apply (createSpectrogramTiles_layout 2500 1024 1000 2100); lia. Defined.

(** Bucket [k] of a scale exists exactly when it starts before the end of
    the samples. *)
Lemma ceil_bucket (n scale k : Z) :
  0 < scale -> (k < Math_ceil (IZR n / IZR scale) <-> k * scale < n).
Proof.
  intros Hs. unfold Math_ceil.
  assert (HS : (0 < IZR scale)%R) by (apply IZR_lt; exact Hs).
  pose proof (Zceil_bound (IZR n / IZR scale)) as [Hlo Hhi].
  assert (Hx : (IZR n / IZR scale * IZR scale = IZR n)%R) by (field; lra).
  split.
  - intros Hk. apply lt_IZR. rewrite mult_IZR.
    assert (Hk' : (IZR k <= IZR (Zceil (IZR n / IZR scale)) - 1)%R).
    { rewrite <- minus_IZR. apply IZR_le. lia. }
    assert (Hlt : (IZR k < IZR n / IZR scale)%R) by lra.
    rewrite <- Hx. apply Rmult_lt_compat_r; assumption.
  - intros Hk. apply lt_IZR. apply IZR_lt in Hk. rewrite mult_IZR in Hk.
    apply Rlt_le_trans with (IZR n / IZR scale)%R; [|exact Hhi].
    apply Rmult_lt_reg_r with (IZR scale); [exact HS|]. lra.
Qed.

Lemma bucket_loop (samples : list R) (start stop : Z) :
  start <= stop ->
  bucketSeen samples start stop (for_range start stop (bucketStep samples) (None, None)).
Proof.
  intros Hle. apply (for_range_ind (bucketSeen samples start)); [exact Hle| |].
  - unfold bucketSeen. rewrite Z.leb_refl. reflexivity.
  - intros j [mn mx] Hj H. unfold bucketSeen in *.
    replace (j + 1 <=? start) with false by (symmetry; apply Z.leb_gt; lia).
    destruct (j <=? start) eqn:E.
    + apply Z.leb_le in E. assert (j = start) by lia. subst j.
      injection H as -> ->. cbn [bucketStep].
      exists (rd 0%R samples start), (rd 0%R samples start).
      split; [reflexivity|]. split; [|split].
      * intros i Hi. assert (i = start) by lia. subst i. lra.
      * exists start. split; [lia|reflexivity].
      * exists start. split; [lia|reflexivity].
    + apply Z.leb_gt in E.
      destruct H as [m [M [Hs [Hb [[i1 [Hi1 H1]] [i2 [Hi2 H2]]]]]]].
      injection Hs as -> ->. cbn [bucketStep].
      destruct (Rlt_dec (rd 0%R samples j) m) as [Hlt|Hge];
        destruct (Rgt_dec (rd 0%R samples j) M) as [Hgt|Hng].
      * exfalso. specialize (Hb i1 Hi1). lra.
      * exists (rd 0%R samples j), M. split; [reflexivity|]. split; [|split].
        -- intros i Hi. destruct (Z.eq_dec i j) as [->|Hne]; [lra|].
           specialize (Hb i ltac:(lia)). lra.
        -- exists j. split; [lia|reflexivity].
        -- exists i2. split; [lia|exact H2].
      * exists m, (rd 0%R samples j). split; [reflexivity|]. split; [|split].
        -- intros i Hi. destruct (Z.eq_dec i j) as [->|Hne]; [lra|].
           specialize (Hb i ltac:(lia)). lra.
        -- exists i1. split; [lia|exact H1].
        -- exists j. split; [lia|reflexivity].
      * exists m, M. split; [reflexivity|]. split; [|split].
        -- intros i Hi. destruct (Z.eq_dec i j) as [->|Hne]; [lra|].
           specialize (Hb i ltac:(lia)). lra.
        -- exists i1. split; [lia|exact H1].
        -- exists i2. split; [lia|exact H2].
Qed.

Lemma lod_loop (samples : list R) (scale : Z) :
  0 < scale ->
  let chunkCount := Math_ceil (IZR (len samples) / IZR scale) in
  let lod := for_range 0 chunkCount (lodStep samples scale) (alloc 0%R (chunkCount * 2)) in
  len lod = 2 * chunkCount /\
  forall k, 0 <= k < chunkCount -> bucketEnvelope samples scale lod k.
Proof.
  intros Hs chunkCount lod. subst lod.
  pose proof (len_nonneg samples) as Hn.
  assert (Hc0 : 0 <= chunkCount).
  { destruct (Z_lt_ge_dec chunkCount 0) as [Hneg|Hok]; [exfalso|lia].
    assert (Hk : -1 < chunkCount -> -1 * scale < len samples)
      by (apply ceil_bucket; exact Hs).
    assert (Hk' : ~ -1 < chunkCount) by lia.
    assert (H0 : 0 < Math_ceil (IZR (len samples) / IZR scale) <-> 0 * scale < len samples)
      by (apply ceil_bucket; exact Hs).
    assert (Hm1 : -1 < Math_ceil (IZR (len samples) / IZR scale)
                  <-> -1 * scale < len samples) by (apply ceil_bucket; exact Hs).
    fold chunkCount in Hm1. apply Hk'. apply Hm1. lia. }
  apply (for_range_ind (fun j lod =>
    len lod = 2 * chunkCount /\
    forall k, 0 <= k < j -> bucketEnvelope samples scale lod k)); [exact Hc0| |].
  - split; [rewrite len_alloc; lia|]. intros k Hk. lia.
  - intros j lod Hj [Hl Hb]. unfold lodStep.
    assert (Hstart : j * scale < len samples) by (apply ceil_bucket; [exact Hs|lia]).
    set (start := j * scale) in *.
    set (stop := Z.min (len samples) (start + scale)).
    assert (H0 : 0 <= start) by (unfold start; nia).
    pose proof (bucket_loop samples start stop ltac:(unfold stop; lia)) as Hseen.
    unfold bucketSeen in Hseen.
    replace (stop <=? start) with false in Hseen
      by (symmetry; apply Z.leb_gt; unfold stop; lia).
    destruct Hseen as [mn [mx [-> [Hbound [Hmin Hmax]]]]]. cbn [finiteOr0].
    split; [now rewrite !len_wr|].
    intros k Hk. destruct (Z.eq_dec k j) as [->|Hne].
    + unfold bucketEnvelope. fold start. fold stop.
      rewrite (rd_wr_same 0%R) by (rewrite len_wr; lia).
      rewrite (rd_wr_other 0%R) by lia.
      rewrite (rd_wr_same 0%R) by lia.
      split; [exact Hbound|]. split; [exact Hmin|exact Hmax].
    + specialize (Hb k ltac:(lia)). unfold bucketEnvelope in *.
      rewrite !(rd_wr_other 0%R) by lia. exact Hb.
Qed.

(** X13. Each level of detail that [computeWaveformLODs] builds is the
    min/max envelope of the samples: for a scale above 0 it has two cells for
    each bucket of [scale] samples (the last bucket may be shorter), and the
    two cells of a bucket hold the least and the greatest sample of the
    bucket. *)
Theorem computeWaveformLODs_envelope (samples : list R) (scales : list Z)
    (p scale k : Z) :
  rd_opt scales p = Some scale -> 0 < scale ->
  0 <= k -> k * scale < len samples ->
  let lods := computeWaveformLODs samples scales in
  let lod := rd [] lods p in
  len lods = len scales /\
  len lod = 2 * Math_ceil (IZR (len samples) / IZR scale) /\
  2 * k + 1 < len lod /\
  bucketEnvelope samples scale lod k.
Proof.
  intros Hp Hs Hk Hin lods lod. subst lod lods. unfold computeWaveformLODs.
  pose proof (rd_opt_Some_range _ _ _ Hp) as Hidx.
  rewrite (rd_opt_in 0) in Hp by exact Hidx. injection Hp as Hp.
  split; [unfold len; now rewrite length_map|].
  rewrite (rd_map 0 []) by exact Hidx. rewrite Hp.
  destruct (lod_loop samples scale Hs) as [Hl Hb]. cbv zeta in Hl, Hb.
  assert (Hkc : k < Math_ceil (IZR (len samples) / IZR scale))
    by (apply ceil_bucket; assumption).
  split; [exact Hl|]. split; [lia|]. apply Hb. lia.
Qed.

Lemma computeWaveformLODs_envelope_witness :
  let lods := computeWaveformLODs [3; 1; 2]%R [2] in
  let lod := rd [] lods 0 in
  len lods = len [2] /\
  len lod = 2 * Math_ceil (IZR (len [3; 1; 2]%R) / IZR 2) /\
  2 * 1 + 1 < len lod /\
  bucketEnvelope [3; 1; 2]%R 2 lod 1.
Proof.
  apply (computeWaveformLODs_envelope [3; 1; 2]%R [2] 0 2 1).
  - reflexivity.
  - lia.
  - lia.
  - unfold len. simpl. lia.
Defined.

(** *** The running median *)

Lemma window_loop (f : Z -> R) (lo hi : Z) :
  lo <= hi ->
  for_range lo hi (fun j window => (window ++ [f j])%list) [] = map f (range lo hi).
Proof.
  intros Hle.
  apply (for_range_ind (fun j (w : list R) => w = map f (range lo j))); [exact Hle| |].
  - now rewrite range_nil by lia.
  - intros j w Hj ->. unfold range.
    replace (Z.to_nat (j + 1 - lo)) with (Z.to_nat (j - lo) + 1)%nat by lia.
    rewrite seq_app, !map_app. cbn [seq map]. do 3 f_equal. lia.
Qed.

Lemma insertSorted_filter (P : R -> bool) (x : R) (l : list R) :
  List.length (filter P (insertSorted x l)) = List.length (filter P (x :: l)).
Proof.
  induction l as [|y t IH]; [reflexivity|].
  cbn [insertSorted]. destruct (Rle_dec x y); [reflexivity|].
  cbn [filter] in *. destruct (P y); destruct (P x); cbn [List.length] in *; lia.
Qed.

Lemma sortNumeric_filter (P : R -> bool) (l : list R) :
  List.length (filter P (sortNumeric l)) = List.length (filter P l).
Proof.
  induction l as [|x t IH]; [reflexivity|].
  cbn [sortNumeric fold_right]. fold (sortNumeric t).
  rewrite insertSorted_filter. cbn [filter]. destruct (P x); cbn [List.length]; lia.
Qed.

Lemma sortNumeric_length (l : list R) : List.length (sortNumeric l) = List.length l.
Proof.
  pose proof (sortNumeric_filter (fun _ => true) l) as H.
  rewrite !filter_true in H. exact H.
Qed.

Lemma insertSorted_in (x y : R) (l : list R) :
  In y (insertSorted x l) <-> y = x \/ In y l.
Proof.
  induction l as [|z t IH]; cbn [insertSorted In]; [intuition|].
  destruct (Rle_dec x z); cbn [In]; [intuition|]. rewrite IH. intuition.
Qed.

Lemma sortNumeric_in (y : R) (l : list R) : In y (sortNumeric l) <-> In y l.
Proof.
  induction l as [|x t IH]; [reflexivity|].
  cbn [sortNumeric fold_right]. fold (sortNumeric t).
  rewrite insertSorted_in, IH. cbn [In]. intuition.
Qed.

Lemma insertSorted_sorted (x : R) (l : list R) :
  StronglySorted Rle l -> StronglySorted Rle (insertSorted x l).
Proof.
  induction l as [|y t IH]; intros Hs; cbn [insertSorted].
  - constructor; constructor.
  - inversion Hs as [|? ? Ht Hy]; subst.
    destruct (Rle_dec x y) as [Hle|Hgt].
    + constructor; [exact Hs|]. constructor; [exact Hle|].
      rewrite Forall_forall in *. intros z Hz. specialize (Hy z Hz). lra.
    + constructor; [apply IH; exact Ht|].
      rewrite Forall_forall in *. intros z Hz.
      apply insertSorted_in in Hz. destruct Hz as [->|Hz]; [lra|auto].
Qed.

Lemma sortNumeric_sorted (l : list R) : StronglySorted Rle (sortNumeric l).
Proof.
  induction l as [|x t IH]; [constructor|].
  cbn [sortNumeric fold_right]. fold (sortNumeric t).
  apply insertSorted_sorted. exact IH.
Qed.

Lemma filter_none {A : Type} (P : A -> bool) (l : list A) :
  (forall y, In y l -> P y = false) -> filter P l = [].
Proof.
  induction l as [|y u IH]; intros HP; [reflexivity|].
  cbn [filter]. rewrite HP by (left; reflexivity).
  apply IH. intros z Hz. apply HP. right. exact Hz.
Qed.

(** In an ascending list, fewer than [n + 1] cells are below the cell of
    index [n], and the cells above it all come after it. *)
Lemma sorted_below (l : list R) (n : nat) (d : R) :
  StronglySorted Rle l -> (n < List.length l)%nat ->
  (List.length (filter (fun x => Rltb x (nth n l d)) l) <= n)%nat /\
  (List.length (filter (fun x => Rltb (nth n l d) x) l) <= List.length l - S n)%nat.
Proof.
  intros Hs. revert n. induction Hs as [|x t Ht IH Hx]; intros n Hn; [simpl in Hn; lia|].
  destruct n as [|n]; cbn [nth filter List.length].
  - replace (Rltb x x) with false
      by (symmetry; unfold Rltb; destruct (Rlt_dec x x); [lra|reflexivity]).
    rewrite (filter_none (fun y => Rltb y x) t).
    + cbn [List.length]. split; [lia|].
      pose proof (filter_length_le (fun y => Rltb x y) t). lia.
    + intros y Hy. rewrite Forall_forall in Hx. specialize (Hx y Hy).
      unfold Rltb. destruct (Rlt_dec y x); [lra|reflexivity].
  - cbn [List.length] in Hn.
    destruct (IH n ltac:(lia)) as [Hb Ha].
    assert (Hle : (x <= nth n t d)%R).
    { rewrite Forall_forall in Hx. apply Hx. apply nth_In. lia. }
    replace (Rltb (nth n t d) x) with false
      by (symmetry; unfold Rltb; destruct (Rlt_dec (nth n t d) x); [lra|reflexivity]).
    destruct (Rltb x (nth n t d)); cbn [List.length]; split; lia.
Qed.

(** The running median is a median of its window. *)
Lemma computeRunningMedian_spec (values : list R) (radius i : Z) :
  0 <= radius -> 0 <= i < len values ->
  let medians := computeRunningMedian values radius in
  let lo := Z.max 0 (i - radius) in
  let hi := Z.min (len values - 1) (i + radius) in
  let m := rd 0%R medians i in
  len medians = len values /\
  (exists j, lo <= j <= hi /\ m = rd 0%R values j) /\
  2 * countBelow m (windowOf values lo hi) <= len (windowOf values lo hi) /\
  2 * countAbove m (windowOf values lo hi) < len (windowOf values lo hi).
Proof.
  intros Hr Hi medians lo hi m. subst m medians.
  unfold computeRunningMedian. rewrite len_tabulate by lia.
  rewrite (rd_tabulate 0%R) by exact Hi. fold lo. fold hi. cbv zeta.
  rewrite window_loop by (unfold lo, hi; lia). fold (windowOf values lo hi).
  set (w := windowOf values lo hi).
  assert (Hlen : len w = hi + 1 - lo).
  { unfold w, windowOf, len. rewrite length_map.
    pose proof (range_length lo (hi + 1) ltac:(unfold lo, hi; lia)) as H.
    unfold len in H. exact H. }
  assert (Hpos : 1 <= len w) by (rewrite Hlen; unfold lo, hi; lia).
  set (sorted := sortNumeric w).
  assert (Hsl : len sorted = len w)
    by (unfold sorted, len; now rewrite sortNumeric_length).
  unfold Math_floor.
  replace (IZR (len sorted) / 2)%R with (IZR (len sorted) / IZR 2)%R by reflexivity.
  rewrite Zfloor_div by lia. rewrite Hsl.
  assert (Hidx : 0 <= len w / 2 < len w)
    by (split; [apply Z.div_pos; lia | apply Z.div_lt_upper_bound; lia]).
  rewrite (rd_opt_in 0%R) by lia.
  split; [reflexivity|].
  assert (Hnth : rd 0%R sorted (len w / 2) = nth (Z.to_nat (len w / 2)) sorted 0%R).
  { unfold rd. replace (len w / 2 <? 0) with false by (symmetry; apply Z.ltb_ge; lia).
    reflexivity. }
  split; [|].
  - assert (Hin : In (rd 0%R sorted (len w / 2)) w).
    { apply sortNumeric_in. fold sorted. rewrite Hnth. apply nth_In.
      unfold len in *. lia. }
    unfold w, windowOf in Hin. apply in_map_iff in Hin.
    destruct Hin as [j [Hj Hjr]]. apply in_range in Hjr.
    exists j. split; [lia|]. symmetry. exact Hj.
  - destruct (sorted_below sorted (Z.to_nat (len w / 2)) 0%R (sortNumeric_sorted w))
      as [Hb Ha]; [unfold len in *; lia|].
    rewrite <- Hnth in Hb, Ha. unfold sorted in Hb at 2. unfold sorted in Ha at 2.
    rewrite sortNumeric_filter in Hb, Ha.
    unfold countBelow, countAbove, len in *.
    pose proof (Z.div_mod (Z.of_nat (List.length w)) 2 ltac:(lia)) as Hdm.
    pose proof (Z.mod_pos_bound (Z.of_nat (List.length w)) 2 ltac:(lia)) as Hm.
    split; lia.
Qed.

(** X14. The running median has one cell per value, and cell [i] is a
    median of the window of the values at most [radius] places from [i]: it
    is one of the values of the window, at most half of the values of the
    window are below it, and fewer than half are above it. *)
Theorem computeRunningMedian_median (values : list R) (radius i : Z) :
  0 <= radius -> 0 <= i < len values ->
  let medians := computeRunningMedian values radius in
  let lo := Z.max 0 (i - radius) in
  let hi := Z.min (len values - 1) (i + radius) in
  let m := rd 0%R medians i in
  len medians = len values /\
  (exists j, lo <= j <= hi /\ m = rd 0%R values j) /\
  2 * countBelow m (windowOf values lo hi) <= len (windowOf values lo hi) /\
  2 * countAbove m (windowOf values lo hi) < len (windowOf values lo hi).
Proof. exact (computeRunningMedian_spec values radius i). Qed.

Lemma computeRunningMedian_median_witness :
  let medians := computeRunningMedian [5; 1; 3]%R 1 in
  let lo := Z.max 0 (1 - 1) in
  let hi := Z.min (len [5; 1; 3]%R - 1) (1 + 1) in
  let m := rd 0%R medians 1 in
  len medians = len [5; 1; 3]%R /\
  (exists j, lo <= j <= hi /\ m = rd 0%R [5; 1; 3]%R j) /\
  2 * countBelow m (windowOf [5; 1; 3]%R lo hi) <= len (windowOf [5; 1; 3]%R lo hi) /\
  2 * countAbove m (windowOf [5; 1; 3]%R lo hi) < len (windowOf [5; 1; 3]%R lo hi).
Proof.
  apply (computeRunningMedian_median [5; 1; 3]%R 1 1).
  - lia.
  - unfold len. simpl. lia.
Defined.

(** *** Onsets *)

(** X15. For a flux array with its medians, [detectOnsets] reports exactly
    the frames from 1 on whose flux is above four times the median (or
    4e-6, whichever is larger), is at least the flux of the frame before,
    and is at least the flux of the frame after, or at least 0 when there is
    no frame after. *)
Theorem detectOnsets_exact (flux medians : list R) (x : Z) :
  len medians = len flux -> len flux <= 2 ^ 32 ->
  (In x (detectOnsets flux medians) <->
   1 <= x < len flux /\
   (4 * Rmax (rd 0 medians x) 1e-6 < rd 0 flux x)%R /\
   (rd 0 flux (x - 1) <= rd 0 flux x)%R /\
   (x + 1 < len flux -> (rd 0 flux (x + 1) <= rd 0 flux x)%R) /\
   (x + 1 = len flux -> (0 <= rd 0 flux x)%R)).
Proof.
  intros Hm Hn. rewrite detectOnsets_raw by exact Hn.
  destruct (rawOnsets_spec flux medians) as [_ Hin]. rewrite Hin.
  unfold exceedsThreshold, localPeak, threshold.
  split.
  - intros [Hx [Ht [Hp Hq]]].
    rewrite (rd_opt_in 0%R) in Ht by lia.
    rewrite (rd_opt_in 0%R) in Hp by lia.
    split; [exact Hx|]. split; [exact Ht|]. split; [exact Hp|]. split.
    + intros Hnext. rewrite (rd_opt_in 0%R) in Hq by lia. exact Hq.
    + intros Hlast. rewrite rd_opt_out in Hq by lia. exact Hq.
  - intros [Hx [Ht [Hp [Hq Hl]]]].
    rewrite (rd_opt_in 0%R) by lia. rewrite (rd_opt_in 0%R) by lia.
    split; [exact Hx|]. split; [exact Ht|]. split; [exact Hp|].
    destruct (Z_lt_ge_dec (x + 1) (len flux)) as [Hnext|Hlast].
    + rewrite (rd_opt_in 0%R) by lia. apply Hq. exact Hnext.
    + rewrite rd_opt_out by lia. apply Hl. lia.
Qed.

Lemma detectOnsets_exact_witness :
  In 2 (detectOnsets [0; 0; 1]%R [0; 0; 0]%R) <->
  1 <= 2 < len [0; 0; 1]%R /\
  (4 * Rmax (rd 0 [0; 0; 0] 2) 1e-6 < rd 0 [0; 0; 1] 2)%R /\
  (rd 0 [0; 0; 1] (2 - 1) <= rd 0 [0; 0; 1] 2)%R /\
  (2 + 1 < len [0; 0; 1]%R -> (rd 0 [0; 0; 1] (2 + 1) <= rd 0 [0; 0; 1] 2)%R) /\
  (2 + 1 = len [0; 0; 1]%R -> (0 <= rd 0 [0; 0; 1] 2)%R).
Proof.
  apply (detectOnsets_exact [0; 0; 1]%R [0; 0; 0]%R 2).
  - reflexivity.
  - unfold len. simpl. lia.
Defined.

(** *** Phase correlation *)

(** X16. The phase correlation has one cell per frame, every cell lies
    between -1 and 1, and the cell of a frame that starts at or after the end
    of the samples is 0. *)
Theorem computePhaseCorrelation_range (left right : list R) (numFrames hopSize frame : Z) :
  len left <= len right -> 0 <= frame < numFrames ->
  let correlation := computePhaseCorrelation left right numFrames hopSize in
  len correlation = numFrames /\
  (-1 <= rd 0 correlation frame <= 1)%R /\
  (len left <= frame * hopSize -> rd 0%R correlation frame = 0%R).
Proof.
  intros _ Hf correlation. subst correlation. unfold computePhaseCorrelation.
  rewrite len_tabulate by lia. rewrite (rd_tabulate 0%R) by exact Hf.
  split; [reflexivity|].
  destruct (len left <=? frame * hopSize) eqn:E.
  - split; [lra|reflexivity].
  - apply Z.leb_gt in E. split; [|lia].
    destruct (for_range _ _ _ _) as [[sp sl] sr].
    destruct (Rleb (sqrt (sl * sr)) EPSILON); [lra|].
    unfold Rmax, Rmin.
    repeat (destruct (Rle_dec _ _); try lra).
Qed.

Lemma computePhaseCorrelation_range_witness :
  let correlation := computePhaseCorrelation [1; 2]%R [2; 1]%R 2 1 in
  len correlation = 2 /\
  (-1 <= rd 0 correlation 1 <= 1)%R /\
  (len [1; 2]%R <= 1 * 1 -> rd 0%R correlation 1 = 0%R).
Proof.
  apply (computePhaseCorrelation_range [1; 2]%R [2; 1]%R 2 1 1).
  - unfold len. simpl. lia.
  - lia.
Defined.

Lemma rd_opp (a : list R) (i : Z) : rd 0%R (map Ropp a) i = (- rd 0 a i)%R.
Proof.
  destruct (Z_lt_ge_dec i 0) as [Hneg|Hpos].
  - unfold rd. replace (i <? 0) with true by (symmetry; apply Z.ltb_lt; lia). ring.
  - destruct (Z_lt_ge_dec i (len a)) as [Hin|Hout].
    + now rewrite (rd_map 0%R 0%R) by lia.
    + unfold rd, len in *. replace (i <? 0) with false by (symmetry; apply Z.ltb_ge; lia).
      rewrite !nth_overflow by (rewrite ?length_map; lia). ring.
Qed.

(** Two loops over the same indices whose bodies keep a relation between
    their states end in related states. *)
Lemma for_range_rel {S T : Type} (Rel : S -> T -> Prop)
    (body1 : Z -> S -> S) (body2 : Z -> T -> T) (lo hi : Z) (s : S) (t : T) :
  Rel s t ->
  (forall j s t, lo <= j < hi -> Rel s t -> Rel (body1 j s) (body2 j t)) ->
  Rel (for_range lo hi body1 s) (for_range lo hi body2 t).
Proof.
  unfold for_range. intros H0 Hstep.
  assert (G : forall n i s t, lo <= i -> i + Z.of_nat n <= Z.max lo hi -> Rel s t ->
            Rel (for_count n i body1 s) (for_count n i body2 t)).
  { induction n as [|n IH]; intros i s' t' Hi Hn Hr; [exact Hr|].
    cbn [for_count]. apply IH; [lia|lia|]. apply Hstep; [lia|exact Hr]. }
  apply G; [lia|lia|exact H0].
Qed.

Lemma energy_nonneg (samples : list R) (lo hi : Z) : (0 <= energy samples lo hi)%R.
Proof.
  unfold energy. apply (for_range_preserves (fun s => (0 <= s)%R)); [lra|].
  intros j t Ht. nra.
Qed.

Lemma correlation_sums (left right : list R) (sign : R) (lo hi : Z) :
  (sign * sign = 1)%R ->
  (forall i, rd 0%R right i = (sign * rd 0%R left i)%R) ->
  for_range lo hi
    (fun i (s : R * R * R) =>
       let '(sp, sl, sr) := s in
       let l := rd 0%R left i in
       let r := rd 0%R right i in
       (sp + l * r, sl + l * l, sr + r * r)%R)
    (0, 0, 0)%R
  = (sign * energy left lo hi, energy left lo hi, energy left lo hi)%R.
Proof.
  intros Hs Hr. unfold energy.
  apply (for_range_rel (fun (s : R * R * R) (e : R) => s = (sign * e, e, e)%R)).
  - apply pair_equal_spec. split; [apply pair_equal_spec; split|]; ring.
  - intros j s e _ ->. cbv zeta. rewrite Hr.
    set (v := rd 0%R left j).
    apply pair_equal_spec. split; [apply pair_equal_spec; split|]; try ring.
    transitivity (e + (sign * sign) * (v * v))%R; [ring|rewrite Hs; ring].
Qed.

Lemma correlation_value (sign e : R) :
  (sign = 1 \/ sign = -1)%R -> (0 <= e)%R ->
  (if Rleb (sqrt (e * e)) EPSILON then 0
   else Rmax (-1) (Rmin 1 (sign * e / sqrt (e * e))))%R
  = (if Rleb e EPSILON then 0 else sign)%R.
Proof.
  intros Hs He. rewrite sqrt_square by exact He.
  unfold Rleb. destruct (Rle_dec e EPSILON) as [Hle|Hgt]; [reflexivity|].
  assert (Hpos : (0 < e)%R) by (unfold EPSILON in Hgt; lra).
  replace (sign * e / e)%R with sign by (field; lra).
  unfold Rmax, Rmin. destruct Hs as [-> | ->];
    repeat (destruct (Rle_dec _ _); try lra).
Qed.

(** X17. When the two channels are the same, the correlation of a frame is
    1, or 0 when the energy of the frame is at most [EPSILON]; when the right
    channel is the left channel with the sign turned, it is -1, or 0 for
    such a frame. *)
Theorem computePhaseCorrelation_mono (left : list R) (numFrames hopSize frame : Z) :
  0 <= frame < numFrames -> frame * hopSize < len left ->
  let e := energy left (frame * hopSize) (Z.min (len left) (frame * hopSize + hopSize)) in
  rd 0%R (computePhaseCorrelation left left numFrames hopSize) frame
  = (if Rleb e EPSILON then 0 else 1)%R /\
  rd 0%R (computePhaseCorrelation left (map Ropp left) numFrames hopSize) frame
  = (if Rleb e EPSILON then 0 else -1)%R.
Proof.
  intros Hf Hin e. unfold computePhaseCorrelation.
  rewrite !(rd_tabulate 0%R) by exact Hf.
  replace (len left <=? frame * hopSize) with false by (symmetry; apply Z.leb_gt; lia).
  pose proof (energy_nonneg left (frame * hopSize)
                (Z.min (len left) (frame * hopSize + hopSize))) as He. fold e in He.
  split.
  - rewrite (correlation_sums left left 1) by (try ring; intros i; ring). fold e.
    apply (correlation_value 1 e); [left; reflexivity|exact He].
  - rewrite (correlation_sums left (map Ropp left) (-1))
      by (try ring; intros i; rewrite rd_opp; ring). fold e.
    apply (correlation_value (-1) e); [right; reflexivity|exact He].
Qed.

Lemma computePhaseCorrelation_mono_witness :
  let e := energy [1; 2]%R (0 * 2) (Z.min (len [1; 2]%R) (0 * 2 + 2)) in
  rd 0%R (computePhaseCorrelation [1; 2]%R [1; 2]%R 1 2) 0
  = (if Rleb e EPSILON then 0 else 1)%R /\
  rd 0%R (computePhaseCorrelation [1; 2]%R (map Ropp [1; 2]%R) 1 2) 0
  = (if Rleb e EPSILON then 0 else -1)%R.
Proof.
  apply (computePhaseCorrelation_mono [1; 2]%R 1 2 0).
  - lia.
  - unfold len. simpl. lia.
Defined.

(** The correlation of a channel with itself is 0 or 1 in every frame. *)
Lemma correlation_same (samples : list R) (numFrames hopSize frame : Z) :
  0 <= frame < numFrames ->
  rd 0%R (computePhaseCorrelation samples samples numFrames hopSize) frame = 0%R \/
  rd 0%R (computePhaseCorrelation samples samples numFrames hopSize) frame = 1%R.
Proof.
  intros Hf. unfold computePhaseCorrelation. rewrite (rd_tabulate 0%R) by exact Hf.
  destruct (len samples <=? frame * hopSize); [left; reflexivity|].
  rewrite (correlation_sums samples samples 1) by (try ring; intros i; ring).
  rewrite (correlation_value 1) by (try (left; reflexivity); apply energy_nonneg).
  destruct (Rleb _ EPSILON); [left|right]; reflexivity.
Qed.

End StageFacts.

(** ** Runs and fault rules *)

Module FaultFacts.
Import Worker Notions Reference JSFacts OnsetFacts PipelineFacts StageFacts.

Lemma apart_snoc (l : list (Z * Z)) (r : Z * Z) :
  StronglySorted apart l -> Forall (fun x => apart x r) l ->
  StronglySorted apart (l ++ [r]).
Proof.
  induction l as [|x t IH]; intros Hs Hb; simpl.
  - constructor; constructor.
  - inversion Hs; subst. inversion Hb; subst. constructor; auto.
    apply Forall_app. split; auto.
Qed.

(** Two runs that are maximal on the left and hold up to the same index
    start at the same index. *)
Lemma run_start_unique (p : Z -> bool) (a b j : Z) :
  0 <= a <= j -> 0 <= b <= j ->
  (forall i, a <= i <= j -> p i = true) -> (forall i, b <= i <= j -> p i = true) ->
  (a = 0 \/ p (a - 1) = false) -> (b = 0 \/ p (b - 1) = false) ->
  a = b.
Proof.
  intros Ha Hb Hpa Hpb Hla Hlb.
  destruct (Z.lt_trichotomy a b) as [Hlt|[Heq|Hgt]]; [exfalso|exact Heq|exfalso].
  - destruct Hlb as [Hz|Hf]; [lia|]. rewrite Hpa in Hf by lia. discriminate.
  - destruct Hla as [Hz|Hf]; [lia|]. rewrite Hpb in Hf by lia. discriminate.
Qed.

Lemma collectStep_seen (values : list R) (predicate : R -> Z -> bool) (minLength j : Z)
    (s : list (Z * Z) * Z) :
  0 <= j ->
  let p := fun i => predicate (rd 0%R values i) i in
  runsSeen p minLength j s ->
  runsSeen p minLength (j + 1) (collectStep values predicate minLength j s).
Proof.
  intros Hj p. destruct s as [runs start]. unfold runsSeen, collectStep.
  intros [Hst [Hrun [Hgap [Hin Hsorted]]]].
  fold (p j). destruct (p j) eqn:Epj.
  - (* the predicate holds at [j] *)
    assert (Hsame : forall a b,
      (maximalRun p (j + 1) a b /\ b + 1 < j + 1) <-> (maximalRun p j a b /\ b + 1 < j)).
    { intros a b. unfold maximalRun. split.
      - intros [[Hab [Hb [Hp [Hl Hr]]]] Hc].
        assert (Hbj : b + 1 <> j).
        { intros Heq. destruct Hr as [Hr|Hr]; [lia|]. rewrite Heq in Hr. congruence. }
        repeat split; try lia; try assumption.
        destruct Hr as [Hr|Hr]; [lia|right; exact Hr].
      - intros [[Hab [Hb [Hp [Hl Hr]]]] Hc].
        repeat split; try lia; try assumption.
        destruct Hr as [Hr|Hr]; [lia|right; exact Hr]. }
    destruct (start <? 0) eqn:Es.
    + apply Z.ltb_lt in Es. assert (start = -1) by lia. subst start.
      split; [right; lia|]. split; [|split; [intros; lia|split]].
      * intros _. split.
        -- intros i Hi. assert (i = j) by lia. subst i. exact Epj.
        -- destruct (Z.eq_dec j 0) as [->|Hne]; [left; reflexivity|].
           right. apply Hgap; [reflexivity|lia].
      * intros a b. rewrite Hin, Hsame. reflexivity.
      * exact Hsorted.
    + apply Z.ltb_ge in Es. destruct (Hrun Es) as [Hp Hl].
      split; [right; lia|]. split; [|split; [intros; lia|split]].
      * intros _. split; [|exact Hl].
        intros i Hi. destruct (Z.eq_dec i j) as [->|Hne]; [exact Epj|].
        apply Hp. lia.
      * intros a b. rewrite Hin, Hsame. reflexivity.
      * exact Hsorted.
  - (* the predicate fails at [j] *)
    destruct (0 <=? start) eqn:Es.
    + apply Z.leb_le in Es. destruct (Hrun Es) as [Hp Hl].
      assert (Hnew : maximalRun p (j + 1) start (j - 1) /\ j - 1 + 1 < j + 1).
      { split; [|lia]. unfold maximalRun. split; [lia|]. split; [lia|].
        split; [intros i Hi; apply Hp; lia|]. split; [exact Hl|].
        right. replace (j - 1 + 1) with j by lia. exact Epj. }
      assert (Hsplit : forall a b,
        (maximalRun p (j + 1) a b /\ b + 1 < j + 1)
        <-> (maximalRun p j a b /\ b + 1 < j) \/ (a, b) = (start, j - 1)).
      { intros a b. split.
        - intros [Hm Hc]. destruct (Z.eq_dec (b + 1) j) as [Hbj|Hbj].
          + right. assert (b = j - 1) by lia. subst b.
            destruct Hm as [Hab [Hb [Hpa [Hla Hr]]]].
            f_equal. apply (run_start_unique p a start (j - 1)); try lia; try assumption.
            intros i Hi. apply Hp. lia.
          + left. destruct Hm as [Hab [Hb [Hpa [Hla Hr]]]].
            unfold maximalRun. repeat split; try lia; try assumption.
            destruct Hr as [Hr|Hr]; [lia|right; exact Hr].
        - intros [[Hm Hc]|Heq].
          + destruct Hm as [Hab [Hb [Hpa [Hla Hr]]]].
            unfold maximalRun. repeat split; try lia; try assumption.
            destruct Hr as [Hr|Hr]; [lia|right; exact Hr].
          + injection Heq as -> ->. exact Hnew. }
      split; [left; reflexivity|]. split; [intros; lia|].
      split; [intros _ _; replace (j + 1 - 1) with j by lia; exact Epj|].
      destruct (minLength <=? j - start) eqn:Em.
      * apply Z.leb_le in Em. split.
        -- intros a b. rewrite in_app_iff, Hin, Hsplit. cbn [In]. split.
           ++ intros [[Hm Hlen]|[Heq|[]]].
              ** split; [left; exact Hm|exact Hlen].
              ** injection Heq as <- <-. split; [right; reflexivity|lia].
           ++ intros [[Hm|Heq] Hlen].
              ** left. split; assumption.
              ** right. left. symmetry. exact Heq.
        -- apply apart_snoc; [exact Hsorted|].
           apply Forall_forall. intros [a b] Hab. apply Hin in Hab.
           destruct Hab as [[[Hab [Hb [Hpa [Hla Hr]]]] Hc] _].
           unfold apart. cbn [fst snd].
           destruct (Z_lt_ge_dec (b + 1) start) as [Hlt|Hge]; [exact Hlt|exfalso].
           destruct Hr as [Hr|Hr]; [lia|]. rewrite Hp in Hr by lia. discriminate.
      * apply Z.leb_gt in Em. split; [|exact Hsorted].
        intros a b. rewrite Hin, Hsplit. split.
        -- intros [Hm Hlen]. split; [left; exact Hm|exact Hlen].
        -- intros [[Hm|Heq] Hlen]; [split; assumption|].
           injection Heq as -> ->. lia.
    + apply Z.leb_gt in Es. assert (start = -1) by lia. subst start.
      assert (Hsame : forall a b,
        (maximalRun p (j + 1) a b /\ b + 1 < j + 1) <-> (maximalRun p j a b /\ b + 1 < j)).
      { intros a b. unfold maximalRun. split.
        - intros [[Hab [Hb [Hp [Hl Hr]]]] Hc].
          assert (Hbj : b + 1 <> j).
          { intros Heq. assert (Hpb : p b = true) by (apply Hp; lia).
            assert (b = j - 1) by lia. subst b.
            rewrite Hgap in Hpb by lia. discriminate. }
          repeat split; try lia; try assumption.
          destruct Hr as [Hr|Hr]; [lia|right; exact Hr].
        - intros [[Hab [Hb [Hp [Hl Hr]]]] Hc].
          repeat split; try lia; try assumption.
          destruct Hr as [Hr|Hr]; [lia|right; exact Hr]. }
      split; [left; reflexivity|]. split; [intros; lia|].
      split; [intros _ _; replace (j + 1 - 1) with j by lia; exact Epj|].
      split; [|exact Hsorted].
      intros a b. rewrite Hin, Hsame. reflexivity.
Qed.

Lemma collectRuns_spec (values : list R) (predicate : R -> Z -> bool) (minLength : Z) :
  let p := fun i => predicate (rd 0%R values i) i in
  let runs := collectRuns values predicate minLength in
  (forall s e, In (s, e) runs <-> maximalRun p (len values) s e /\ minLength <= e - s + 1) /\
  StronglySorted apart runs.
Proof.
  intros p runs. subst runs. unfold collectRuns.
  pose proof (len_nonneg values) as Hn.
  assert (H : runsSeen p minLength (len values)
                (for_range 0 (len values) (collectStep values predicate minLength)
                   ([], -1))).
  { apply (for_range_ind (runsSeen p minLength)); [exact Hn| |].
    - unfold runsSeen. split; [left; reflexivity|]. split; [intros; lia|].
      split; [intros; lia|]. split; [|constructor].
      intros a b. cbn [In]. split; [intros []|].
      intros [[[Hab [Hb _]] Hc] _]. lia.
    - intros j t Hj Ht. apply collectStep_seen; [lia|exact Ht]. }
  destruct (for_range 0 (len values) _ _) as [runs start].
  unfold runsSeen in H. destruct H as [Hst [Hrun [Hgap [Hin Hsorted]]]].
  set (n := len values) in *.
  assert (Hclosed : forall a b,
    maximalRun p n a b /\ b + 1 < n <-> maximalRun p n a b /\ b <> n - 1).
  { intros a b. unfold maximalRun. split; intros [Hm Hc]; (split; [exact Hm|]); lia. }
  destruct ((0 <=? start) && (minLength <=? n - start)) eqn:E.
  - apply andb_prop in E. destruct E as [Es Em].
    apply Z.leb_le in Es, Em. destruct (Hrun Es) as [Hp Hl].
    assert (Hlast : maximalRun p n start (n - 1)).
    { unfold maximalRun. split; [lia|]. split; [lia|].
      split; [intros i Hi; apply Hp; lia|]. split; [exact Hl|left; reflexivity]. }
    split.
    + intros a b. rewrite in_app_iff, Hin. cbn [In]. split.
      * intros [[[Hm Hc] Hlen]|[Heq|[]]]; [split; assumption|].
        injection Heq as <- <-. split; [exact Hlast|lia].
      * intros [Hm Hlen]. destruct (Z.eq_dec b (n - 1)) as [->|Hne].
        -- right. left. f_equal.
           destruct Hm as [Hab [Hb [Hpa [Hla _]]]].
           apply (run_start_unique p start a (n - 1)); try lia; try assumption.
           intros i Hi. apply Hp. lia.
        -- left. split; [|exact Hlen]. split; [exact Hm|].
           destruct Hm as [Hab [Hb _]]. lia.
    + apply apart_snoc; [exact Hsorted|].
      apply Forall_forall. intros [a b] Hab. apply Hin in Hab.
      destruct Hab as [[[Hab [Hb [Hpa [Hla Hr]]]] Hc] _].
      unfold apart. cbn [fst snd].
      destruct (Z_lt_ge_dec (b + 1) start) as [Hlt|Hge]; [exact Hlt|exfalso].
      destruct Hr as [Hr|Hr]; [lia|]. rewrite Hp in Hr by lia. discriminate.
  - split; [|exact Hsorted].
    intros a b. rewrite Hin. split.
    + intros [[Hm Hc] Hlen]. split; assumption.
    + intros [Hm Hlen]. split; [|exact Hlen]. split; [exact Hm|].
      destruct (Z.eq_dec b (n - 1)) as [->|Hne]; [exfalso|destruct Hm as [? [? _]]; lia].
      destruct Hm as [Hab [Hb [Hpa [Hla _]]]].
      assert (Hpn : p (n - 1) = true) by (apply Hpa; lia).
      destruct Hst as [Hneg|Hpos].
      * rewrite Hgap in Hpn by lia. discriminate.
      * destruct (Hrun ltac:(lia)) as [Hp Hl].
        assert (start = a).
        { apply (run_start_unique p start a (n - 1)); try lia; try assumption.
          intros i Hi. apply Hp. lia. }
        subst a. apply andb_false_iff in E.
        destruct E as [E|E]; [apply Z.leb_gt in E|apply Z.leb_gt in E]; lia.
Qed.

(** X18. [collectRuns] returns exactly the maximal runs of indices at
    which the predicate holds that are at least [minLength] long, each as
    the pair of its first and last index, in ascending order and with at
    least one index between two runs. *)
Theorem collectRuns_exact (values : list R) (predicate : R -> Z -> bool) (minLength : Z) :
  let p := fun i => predicate (rd 0%R values i) i in
  let runs := collectRuns values predicate minLength in
  (forall s e, In (s, e) runs <-> maximalRun p (len values) s e /\ minLength <= e - s + 1) /\
  StronglySorted apart runs.
Proof. exact (collectRuns_spec values predicate minLength). Qed.

(** *** Clipping *)

Lemma detectClippingFaults_collect (faults : list fault) (left right : list R)
    (sampleRate : R) (hopSize : Z) :
  detectClippingFaults faults left right sampleRate hopSize
  = (faults
     ++ map (fun run => clippingFault (fst run) (snd run) hopSize)
            (collectRuns left (fun _ i => clipped left right i) 2))%list.
Proof.
  unfold detectClippingFaults, collectRuns.
  set (f := fun run : Z * Z => clippingFault (fst run) (snd run) hopSize).
  pose proof (for_range_rel
                (fun (s : list fault * Z) (t : list (Z * Z) * Z) =>
                   fst s = (faults ++ map f (fst t))%list /\ snd s = snd t)
                (clippingStep left right hopSize)
                (collectStep left (fun _ i => clipped left right i) 2)
                0 (len left) (faults, -1) ([], -1)) as H.
  cbv beta in H.
  assert (H0 : fst (faults, -1) = (faults ++ map f (fst (@nil (Z * Z), -1)))%list /\
               snd (faults, -1) = snd (@nil (Z * Z), -1)).
  { cbn [fst snd map]. split; [now rewrite app_nil_r|reflexivity]. }
  specialize (H H0). clear H0.
  assert (Hstep : forall j (s : list fault * Z) (t : list (Z * Z) * Z),
            0 <= j < len left ->
            fst s = (faults ++ map f (fst t))%list /\ snd s = snd t ->
            fst (clippingStep left right hopSize j s)
            = (faults
               ++ map f (fst (collectStep left (fun _ i => clipped left right i) 2 j t)))%list
            /\ snd (clippingStep left right hopSize j s)
               = snd (collectStep left (fun _ i => clipped left right i) 2 j t)).
  { intros j [fs rs] [runs st] _ [Hf Hs]. cbn [fst snd] in Hf, Hs. subst fs rs.
    unfold clippingStep, collectStep. fold (clipped left right j).
    destruct (clipped left right j); [cbn [fst snd]; split; reflexivity|].
    destruct (0 <=? st); [|cbn [fst snd]; split; reflexivity].
    destruct (2 <=? j - st); cbn [fst snd]; split; try reflexivity.
    rewrite map_app, app_assoc. reflexivity. }
  specialize (H Hstep). clear Hstep.
  destruct (for_range 0 (len left) (clippingStep left right hopSize) (faults, -1))
    as [fs rs].
  destruct (for_range 0 (len left) _ ([], -1)) as [runs st].
  cbn [fst snd] in H. destruct H as [-> ->].
  destruct (0 <=? st); cbn [andb]; [|reflexivity].
  destruct (2 <=? len left - st); [|reflexivity].
  rewrite map_app, app_assoc. reflexivity.
Qed.

(** X19. [detectClippingFaults] keeps the faults it is given and adds, in
    order, one CRIT fault for each maximal run of at least two samples that
    reach 0.99 in absolute value in either channel: its own loop finds the
    runs that [collectRuns] finds, and the fault of the run [s .. e] spans
    the frames [floor (s / hopSize)] to [floor (e / hopSize)]. *)
Theorem detectClippingFaults_runs (faults : list fault) (left right : list R)
    (sampleRate : R) (hopSize : Z) :
  let added :=
    map (fun run => clippingFault (fst run) (snd run) hopSize)
        (collectRuns left (fun _ i => clipped left right i) 2) in
  detectClippingFaults faults left right sampleRate hopSize = (faults ++ added)%list /\
  forall f, In f added <->
            exists s e, maximalRun (clipped left right) (len left) s e /\
                        2 <= e - s + 1 /\ f = clippingFault s e hopSize.
Proof.
  intros added. subst added. split; [apply detectClippingFaults_collect|].
  destruct (collectRuns_spec left (fun _ i => clipped left right i) 2) as [Hin _].
  cbv zeta in Hin. intros f. rewrite in_map_iff. split.
  - intros [[s e] [Hf Hr]]. apply Hin in Hr. destruct Hr as [Hm Hl].
    exists s, e. cbn [fst snd] in Hf. auto.
  - intros [s [e [Hm [Hl ->]]]]. exists (s, e). split; [reflexivity|].
    apply Hin. split; assumption.
Qed.

(** *** Dynamic range *)

Lemma Rabs_nonneg (x : R) : (0 <= Rabs x)%R.
Proof. apply Rabs_pos. Qed.

(** The peak of the loop of [detectDynamicRangeFault] is the largest
    absolute value among the samples of the two channels. *)
Lemma dynamic_peak (left right : list R) (n : Z) :
  0 <= n ->
  let s :=
    for_range 0 n
      (fun i (s : R * R) =>
         let '(peak, sumSquares) := s in
         let l := rd 0%R left i in
         let r := rd 0%R right i in
         (Rmax peak (Rmax (Rabs l) (Rabs r)), sumSquares + 0.5 * (l * l + r * r))%R)
      (0, 0)%R in
  peakOf left right n (fst s).
Proof.
  intros Hn s. subst s. unfold peakOf.
  apply (for_range_ind (fun j (s : R * R) =>
    (forall i, 0 <= i < j ->
       (Rabs (rd 0%R left i) <= fst s)%R /\ (Rabs (rd 0%R right i) <= fst s)%R) /\
    (fst s = 0%R \/
     exists i, 0 <= i < j /\
               (fst s = Rabs (rd 0%R left i) \/ fst s = Rabs (rd 0%R right i)))));
    [exact Hn| |].
  - cbn [fst snd]. split; [intros i Hi; lia|]. left. reflexivity.
  - intros j [peak sum] Hj [Hb Ha]. cbn [fst snd] in *.
    set (l := rd 0%R left j). set (r := rd 0%R right j).
    pose proof (Rabs_nonneg l) as Hl0. pose proof (Rabs_nonneg r) as Hr0.
    assert (Hp0 : (0 <= peak)%R).
    { destruct Ha as [->|[i [_ [-> | ->]]]]; [lra|apply Rabs_nonneg|apply Rabs_nonneg]. }
    split.
    + intros i Hi. destruct (Z.eq_dec i j) as [->|Hne].
      * fold l r. unfold Rmax. repeat (destruct (Rle_dec _ _)); lra.
      * destruct (Hb i ltac:(lia)) as [H1 H2].
        pose proof (Rmax_l peak (Rmax (Rabs l) (Rabs r))). lra.
    + destruct (Rle_dec peak (Rmax (Rabs l) (Rabs r))) as [Hle|Hgt].
      * rewrite (Rmax_right peak _ Hle).
        right. exists j. split; [lia|]. fold l r.
        destruct (Rle_dec (Rabs l) (Rabs r)) as [Hlr|Hlr].
        -- right. apply Rmax_right. exact Hlr.
        -- left. apply Rmax_left. lra.
      * rewrite (Rmax_left peak (Rmax (Rabs l) (Rabs r))) by lra.
        destruct Ha as [Hz|[i [Hi Hv]]]; [left; exact Hz|].
        right. exists i. split; [lia|exact Hv].
Qed.

(** The sum of the loop is half the energy of the two channels. *)
Lemma dynamic_sum (left right : list R) (n : Z) :
  snd (for_range 0 n
         (fun i (s : R * R) =>
            let '(peak, sumSquares) := s in
            let l := rd 0%R left i in
            let r := rd 0%R right i in
            (Rmax peak (Rmax (Rabs l) (Rabs r)), sumSquares + 0.5 * (l * l + r * r))%R)
         (0, 0)%R)
  = (0.5 * (energy left 0 n + energy right 0 n))%R.
Proof.
  unfold energy.
  set (both := for_range 0 n
                 (fun i (p : R * R) =>
                    (fst p + rd 0%R left i * rd 0%R left i,
                     snd p + rd 0%R right i * rd 0%R right i)%R) (0, 0)%R).
  assert (HL : fst both
               = for_range 0 n (fun i s => (s + rd 0%R left i * rd 0%R left i)%R) 0%R).
  { apply (for_range_rel (fun (p : R * R) (t : R) => fst p = t)); [reflexivity|].
    intros j p t _ <-. reflexivity. }
  assert (HR : snd both
               = for_range 0 n (fun i s => (s + rd 0%R right i * rd 0%R right i)%R) 0%R).
  { apply (for_range_rel (fun (p : R * R) (t : R) => snd p = t)); [reflexivity|].
    intros j p t _ <-. reflexivity. }
  rewrite <- HL, <- HR.
  apply (for_range_rel (fun (s p : R * R) => snd s = (0.5 * (fst p + snd p))%R)).
  - cbn [fst snd]. lra.
  - intros j [peak sum] [eL eR] _ H. cbn [fst snd] in *. rewrite H. ring.
Qed.

(** What [detectDynamicRangeFault] adds, and the crest factor of silence. *)
Lemma detectDynamicRangeFault_spec (faults : list fault) (left right : list R)
    (numSamples numFrames : Z) :
  0 <= numSamples ->
  exists peak,
    peakOf left right numSamples peak /\
    detectDynamicRangeFault faults left right numSamples numFrames
    = (faults ++ [{| type := dynamic_range; severity := INFO; frameStart := 0;
                     frameEnd := Z.max 0 (numFrames - 1);
                     crestFactorDb := Some (crestOf left right numSamples peak) |}])%list.
Proof.
  intros Hn. unfold detectDynamicRangeFault, crestOf, rmsOf.
  pose proof (dynamic_peak left right numSamples Hn) as Hp. cbv zeta in Hp.
  pose proof (dynamic_sum left right numSamples) as Hs.
  destruct (for_range 0 numSamples _ (0, 0)%R) as [peak sum]. cbn [fst snd] in Hp, Hs.
  exists peak. split; [exact Hp|]. rewrite Hs. reflexivity.
Qed.

Lemma crestOf_silence (left right : list R) (n : Z) (peak : R) :
  peakOf left right n peak ->
  (forall i, 0 <= i < n -> rd 0%R left i = 0%R /\ rd 0%R right i = 0%R) ->
  crestOf left right n peak = 0%R.
Proof.
  intros [_ Ha] Hz. unfold crestOf.
  assert (Hp : peak = 0%R).
  { destruct Ha as [H|[i [Hi [-> | ->]]]]; [exact H| |];
      destruct (Hz i Hi) as [Hl Hr]; rewrite ?Hl, ?Hr; apply Rabs_R0. }
  rewrite Hp. replace (Rleb 0 EPSILON) with true; [reflexivity|].
  symmetry. apply Rleb_true. unfold EPSILON. lra.
Qed.

(** X20. [detectDynamicRangeFault] always adds exactly one fault, an INFO
    fault over the whole track that carries the crest factor.  The crest
    factor is 0 when no sample of either channel exceeds [EPSILON] in
    absolute value, and otherwise (over ideal arithmetic)
    [20 * log10 (peak / max (rms, EPSILON))], where the peak is the largest
    absolute value among the samples of the two channels and the rms is the
    root of the mean, over the samples, of half the sum of the two squares. *)
Theorem detectDynamicRangeFault_crest (faults : list fault) (left right : list R)
    (numSamples numFrames : Z) :
  0 <= numSamples -> numSamples <= len left -> numSamples <= len right ->
  exists peak crest,
    detectDynamicRangeFault faults left right numSamples numFrames
    = (faults ++ [{| type := dynamic_range; severity := INFO; frameStart := 0;
                     frameEnd := Z.max 0 (numFrames - 1);
                     crestFactorDb := Some crest |}])%list /\
    peakOf left right numSamples peak /\
    ((peak <= EPSILON)%R -> crest = 0%R) /\
    ((EPSILON < peak)%R ->
     crest = (20 * Math_log10 (peak / Rmax (rmsOf left right numSamples) EPSILON))%R).
Proof.
  intros Hn _ _.
  destruct (detectDynamicRangeFault_spec faults left right numSamples numFrames Hn)
    as [peak [Hp ->]].
  exists peak, (crestOf left right numSamples peak).
  split; [reflexivity|]. split; [exact Hp|]. unfold crestOf. split.
  - intros Hle. apply Rleb_true in Hle. now rewrite Hle.
  - intros Hgt. apply Rleb_false in Hgt. now rewrite Hgt.
Qed.

Lemma detectDynamicRangeFault_crest_witness :
  exists peak crest,
    detectDynamicRangeFault [] [1; 0]%R [0; -0.5]%R 2 1
    = ([] ++ [{| type := dynamic_range; severity := INFO; frameStart := 0;
                 frameEnd := Z.max 0 (1 - 1);
                 crestFactorDb := Some crest |}])%list /\
    peakOf [1; 0]%R [0; -0.5]%R 2 peak /\
    ((peak <= EPSILON)%R -> crest = 0%R) /\
    ((EPSILON < peak)%R ->
     crest = (20 * Math_log10 (peak / Rmax (rmsOf [1; 0]%R [0; -0.5]%R 2) EPSILON))%R).
Proof.
  apply (detectDynamicRangeFault_crest [] [1; 0]%R [0; -0.5]%R 2 1).
  - lia.
  - unfold len. simpl. lia.
  - unfold len. simpl. lia.
Defined.

(** *** The fault list *)

Lemma runFaults_wellFormed (t : faultType) (values : list R)
    (predicate : R -> Z -> bool) (minLength : Z) :
  t <> dynamic_range ->
  Forall (fun f => wellFormed f /\ type f = t)
    (runFaults t (severityOf t) (collectRuns values predicate minLength)).
Proof.
  intros Ht. destruct (collectRuns_spec values predicate minLength) as [Hin _].
  cbv zeta in Hin. unfold runFaults. apply Forall_forall. intros f Hf.
  apply in_map_iff in Hf. destruct Hf as [[a b] [<- Hr]].
  apply Hin in Hr. destruct Hr as [[Hab _] _].
  unfold wellFormed. cbn [frameStart frameEnd severity type crestFactorDb fst snd].
  split; [|reflexivity]. split; [lia|]. split; [reflexivity|].
  split; [intros H; contradiction|intros H; contradiction].
Qed.

Lemma clipping_wellFormed (left right : list R) (hopSize : Z) :
  0 < hopSize ->
  Forall (fun f => wellFormed f /\ type f = clipping)
    (map (fun run => clippingFault (fst run) (snd run) hopSize)
         (collectRuns left (fun _ i => clipped left right i) 2)).
Proof.
  intros Hh. destruct (collectRuns_spec left (fun _ i => clipped left right i) 2)
    as [Hin _].
  cbv zeta in Hin. apply Forall_forall. intros f Hf.
  apply in_map_iff in Hf. destruct Hf as [[a b] [<- Hr]].
  apply Hin in Hr. destruct Hr as [[Hab _] _].
  unfold wellFormed, clippingFault, Math_floor.
  cbn [frameStart frameEnd severity type crestFactorDb fst snd].
  rewrite !Zfloor_div by exact Hh.
  split; [|reflexivity]. split.
  - split; [apply Z.div_pos; lia|apply Z.div_le_mono; lia].
  - split; [reflexivity|]. split; [intros H; contradiction|intros H; discriminate].
Qed.

Lemma Forall_weaken_wf (t : faultType) (l : list fault) :
  t <> dynamic_range ->
  Forall (fun f => wellFormed f /\ type f = t) l ->
  Forall wellFormed l /\ Forall (fun f => type f <> dynamic_range) l.
Proof.
  intros Ht H. split; eapply Forall_impl; try exact H; cbv beta.
  - intros f [Hw _]. exact Hw.
  - intros f [_ ->]. exact Ht.
Qed.

(** X21. Every fault that [detectFaults] reports spans frames in order
    from frame 0 on and has the severity of its rule: CRIT for clipping, WARN
    for silence, spectral anomaly and phase inversion, INFO for the others.
    The list is never empty: it holds exactly one dynamic-range fault, which
    is the only fault with a crest factor. *)
Theorem detectFaults_wellFormed (left right : list R) (numSamples numFrames : Z)
    (sampleRate : R) (hopSize : Z)
    (rmsLeft rmsRight spectralFlux fluxMedians phaseCorrelation : list R) :
  0 < hopSize -> 0 <= numSamples -> numSamples <= len left -> numSamples <= len right ->
  let faults :=
    detectFaults left right numSamples numFrames sampleRate hopSize rmsLeft rmsRight
      spectralFlux fluxMedians phaseCorrelation in
  Forall wellFormed faults /\
  exists before crest after,
    faults
    = (before
       ++ [{| type := dynamic_range; severity := INFO; frameStart := 0;
              frameEnd := Z.max 0 (numFrames - 1); crestFactorDb := Some crest |}]
       ++ after)%list /\
    Forall (fun f => type f <> dynamic_range) (before ++ after).
Proof.
  intros Hh Hn Hl Hr faults. subst faults. unfold detectFaults. cbv zeta.
  rewrite detectClippingFaults_collect. cbn [app].
  set (clip := map _ (collectRuns left _ 2)).
  destruct (Forall_weaken_wf clipping clip ltac:(discriminate)
              (clipping_wellFormed left right hopSize Hh)) as [Hc1 Hc2].
  unfold detectSilenceFaults.
  set (sil := runFaults silence WARN _).
  destruct (Forall_weaken_wf silence sil ltac:(discriminate)
              (runFaults_wellFormed silence _ _ _ ltac:(discriminate))) as [Hs1 Hs2].
  set (pre2 := (clip ++ sil)%list).
  assert (Hp2 : Forall wellFormed pre2 /\ Forall (fun f => type f <> dynamic_range) pre2).
  { unfold pre2. split; apply Forall_app; split; assumption. }
  assert (Hdc : exists dc,
    detectDcOffsetFault pre2 left right numFrames = (pre2 ++ dc)%list /\
    Forall wellFormed dc /\ Forall (fun f => type f <> dynamic_range) dc).
  { unfold detectDcOffsetFault. destruct (Rltb 0.01 _).
    - eexists. split; [reflexivity|]. split.
      + apply Forall_cons; [|apply Forall_nil].
        unfold wellFormed. cbn [frameStart frameEnd severity type crestFactorDb severityOf].
        split; [lia|]. split; [reflexivity|].
        split; [intros H; contradiction|intros H; discriminate].
      + apply Forall_cons; [|apply Forall_nil]. cbn [type]. discriminate.
    - exists []. split; [now rewrite app_nil_r|]. split; constructor. }
  destruct Hdc as [dc [-> [Hd1 Hd2]]].
  unfold detectSpectralAnomalies.
  set (spec := runFaults spectral_anomaly WARN _).
  destruct (Forall_weaken_wf spectral_anomaly spec ltac:(discriminate)
              (runFaults_wellFormed spectral_anomaly _ _ _ ltac:(discriminate)))
    as [Hsp1 Hsp2].
  unfold detectPhaseInversionFaults.
  set (ph := runFaults phase_inversion WARN _).
  destruct (Forall_weaken_wf phase_inversion ph ltac:(discriminate)
              (runFaults_wellFormed phase_inversion _ _ _ ltac:(discriminate)))
    as [Hph1 Hph2].
  set (before := ((((pre2 ++ dc) ++ spec) ++ ph))%list).
  assert (Hb : Forall wellFormed before /\
               Forall (fun f => type f <> dynamic_range) before).
  { unfold before. destruct Hp2 as [Hp21 Hp22].
    split; repeat (apply Forall_app; split); assumption. }
  destruct (detectDynamicRangeFault_spec before left right numSamples numFrames Hn)
    as [peak [_ ->]].
  unfold detectMonoSegmentFaults.
  set (mono := runFaults mono_segment INFO _).
  destruct (Forall_weaken_wf mono_segment mono ltac:(discriminate)
              (runFaults_wellFormed mono_segment _ _ _ ltac:(discriminate)))
    as [Hm1 Hm2].
  destruct Hb as [Hb1 Hb2].
  split.
  - repeat (apply Forall_app; split); try assumption.
    apply Forall_cons; [|apply Forall_nil].
    unfold wellFormed. cbn [frameStart frameEnd severity type crestFactorDb severityOf].
    split; [lia|]. split; [reflexivity|].
    split; [intros _; reflexivity|intros _; discriminate].
  - exists before, (crestOf left right numSamples peak), mono.
    split; [now rewrite <- app_assoc|]. apply Forall_app. split; assumption.
Qed.

Lemma detectFaults_wellFormed_witness :
  let faults :=
    detectFaults [1; 1; 0.5]%R [-1; 1; 0]%R 3 2 44100 2 [1; 0.5]%R [1; 0]%R
      [0; 0.25]%R [0.25; 0.25]%R [0; 0]%R in
  Forall wellFormed faults /\
  exists before crest after,
    faults
    = (before
       ++ [{| type := dynamic_range; severity := INFO; frameStart := 0;
              frameEnd := Z.max 0 (2 - 1); crestFactorDb := Some crest |}]
       ++ after)%list /\
    Forall (fun f => type f <> dynamic_range) (before ++ after).
Proof.
  apply (detectFaults_wellFormed [1; 1; 0.5]%R [-1; 1; 0]%R 3 2 44100 2
           [1; 0.5]%R [1; 0]%R [0; 0.25]%R [0.25; 0.25]%R [0; 0]%R).
  - lia.
  - lia.
  - unfold len. simpl. lia.
  - unfold len. simpl. lia.
Defined.

Lemma no_runs (values : list R) (predicate : R -> Z -> bool) (minLength : Z) :
  (forall i, 0 <= i < len values -> predicate (rd 0%R values i) i = false) ->
  collectRuns values predicate minLength = [].
Proof.
  intros Hp. destruct (collectRuns_spec values predicate minLength) as [Hin _].
  cbv zeta in Hin.
  destruct (collectRuns values predicate minLength) as [|[a e] t]; [reflexivity|exfalso].
  destruct (Hin a e) as [Hm _]. destruct (Hm (or_introl eq_refl)) as [[Hae [He [Hpa _]]] _].
  specialize (Hpa a ltac:(lia)). rewrite Hp in Hpa by lia. discriminate.
Qed.

Lemma runFaults_type (t : faultType) (s : faultSeverity) (runs : list (Z * Z)) :
  Forall (fun f => type f = t) (runFaults t s runs).
Proof.
  unfold runFaults. apply Forall_forall. intros f Hf. apply in_map_iff in Hf.
  destruct Hf as [r [<- _]]. reflexivity.
Qed.

Lemma Forall_type_not (t u : faultType) (l : list fault) :
  t <> u -> Forall (fun f => type f = t) l -> Forall (fun f => type f <> u) l.
Proof.
  intros Hne H. eapply Forall_impl; [|exact H]. cbv beta. intros f ->. exact Hne.
Qed.

(** Without a run of frames whose correlation is below -0.5, no fault of
    the list is a phase inversion. *)
Lemma detectFaults_no_phase (left right : list R) (numSamples numFrames : Z)
    (sampleRate : R) (hopSize : Z)
    (rmsLeft rmsRight spectralFlux fluxMedians phaseCorrelation : list R) :
  collectRuns phaseCorrelation (fun value _ => Rltb value (-0.5))
    (Z.max 1 (Math_ceil (0.2 * sampleRate / IZR hopSize))) = [] ->
  Forall (fun f => type f <> phase_inversion)
    (detectFaults left right numSamples numFrames sampleRate hopSize rmsLeft rmsRight
       spectralFlux fluxMedians phaseCorrelation).
Proof.
  intros Hnone. unfold detectFaults. cbv zeta.
  rewrite detectClippingFaults_collect. cbn [app].
  unfold detectMonoSegmentFaults, detectDynamicRangeFault, detectPhaseInversionFaults.
  rewrite Hnone. cbn [runFaults map]. rewrite app_nil_r.
  destruct (for_range 0 numSamples _ (0, 0)%R) as [peak sum].
  unfold detectSpectralAnomalies, detectDcOffsetFault, detectSilenceFaults.
  repeat (apply Forall_app; split);
    try (apply (Forall_type_not mono_segment); [discriminate|apply runFaults_type]);
    try (apply (Forall_type_not spectral_anomaly); [discriminate|apply runFaults_type]).
  - destruct (Rltb 0.01 _).
    + repeat (apply Forall_app; split).
      * apply Forall_forall. intros f Hf. apply in_map_iff in Hf.
        destruct Hf as [r [<- _]]. cbn. discriminate.
      * apply (Forall_type_not silence); [discriminate|apply runFaults_type].
      * apply Forall_cons; [cbn; discriminate|apply Forall_nil].
    + repeat (apply Forall_app; split).
      * apply Forall_forall. intros f Hf. apply in_map_iff in Hf.
        destruct Hf as [r [<- _]]. cbn. discriminate.
      * apply (Forall_type_not silence); [discriminate|apply runFaults_type].
  - apply Forall_cons; [cbn; discriminate|apply Forall_nil].
Qed.

End FaultFacts.

(** ** Whole runs of the worker *)

Module RunFacts.
Import FFT Worker Notions Reference JSFacts FFTFacts OnsetFacts PipelineFacts StageFacts.
Import EngineFacts FaultFacts.

(** X22. [sanitizePowerOfTwo] keeps a value that is a power of two from 2
    on and replaces every other value (below 2^32) by the fallback: a value
    that is no number or no integer, an integer below 2, and an integer that
    is no power of two. *)
Theorem sanitizePowerOfTwo_exact (value : jsnumber) (fallback : Z) :
  below32 value ->
  (forall z, value = Integer z -> powerOfTwo z ->
             sanitizePowerOfTwo value fallback = z) /\
  ((forall z, value = Integer z -> ~ powerOfTwo z) ->
   sanitizePowerOfTwo value fallback = fallback).
Proof.
  intros Hb.
  assert (Hs : sanitizePowerOfTwo value fallback
               = match value with
                 | Integer z => if isPowerOfTwo z then z else fallback
                 | _ => fallback
                 end).
  { unfold sanitizePowerOfTwo, isPowerOfTwo. destruct value as [| |z]; try reflexivity.
    destruct (z <? 2) eqn:E.
    - apply Z.ltb_lt in E.
      destruct (1 <? z) eqn:E1; [|reflexivity].
      apply Z.ltb_lt in E1. lia.
    - apply Z.ltb_ge in E.
      replace (1 <? z) with true by (symmetry; apply Z.ltb_lt; lia).
      cbn [andb]. destruct (and32 z (z - 1) =? 0); reflexivity. }
  rewrite Hs. split.
  - intros z -> Hp. apply (isPowerOfTwo_spec z (Hb z eq_refl)) in Hp. now rewrite Hp.
  - intros Hn. destruct value as [| |z]; try reflexivity.
    destruct (isPowerOfTwo z) eqn:E; [exfalso|reflexivity].
    apply (Hn z eq_refl). apply (isPowerOfTwo_spec z (Hb z eq_refl)). exact E.
Qed.

Lemma sanitizePowerOfTwo_exact_witness :
  (forall z, Integer 4096 = Integer z -> powerOfTwo z ->
             sanitizePowerOfTwo (Integer 4096) 2048 = z) /\
  ((forall z, Integer 4096 = Integer z -> ~ powerOfTwo z) ->
   sanitizePowerOfTwo (Integer 4096) 2048 = 2048).
Proof.
  apply (sanitizePowerOfTwo_exact (Integer 4096) 2048).
  intros z H. injection H as <-. reflexivity.
Defined.

Lemma toFloat32Array_rejects (value : jsvalue) (name : string) :
  channel value = None -> exists text, toFloat32Array value name = throw text.
Proof.
  destruct value as [a|a t|b]; cbn; try discriminate.
  - destruct (t =? 0); [discriminate|]. intros _. eexists. reflexivity.
  - intros _. eexists. reflexivity.
Qed.

(** With 2^32 bands or more the run ends in the allocation of the band
    edges, before the first notification. *)
Lemma runStages_too_many_bands (sampleRate : R)
    (fftSize hopSize numBands numSamples : Z) (left right : list R) :
  2 ^ 32 <= numBands ->
  runStages sampleRate fftSize hopSize numBands numSamples left right
  = throw "Invalid array length".
Proof.
  intros H. unfold runStages. cbv zeta.
  destruct (newArray_cases numBands) as [[G _]|E]; [lia|]. rewrite E. reflexivity.
Qed.

(** X23. How the worker answers a request.  A left channel that is no
    [Float32Array] (or buffer of floats), a right channel that is given but
    is none either, channels with no sample in common, or 2^32 bands and
    more are answered by one error message and nothing else.  Every other
    request whose sizes are within the limits of the language (a transform
    size below 2^30, fewer than 2^30 samples, fewer than 2^32 tiles, band
    arrays of fewer than 2^53 bytes) is answered by the progress
    notifications of all the stages, in order, followed by one result
    message. *)
Theorem onmessage_outcome (payload : Payload) :
  match channel (payload_left payload) with
  | None => exists text, onmessage payload = [errorMessage text]
  | Some samplesLeft =>
      match rightChannel payload samplesLeft with
      | None => exists text, onmessage payload = [errorMessage text]
      | Some samplesRight =>
          if run_numSamples payload samplesLeft samplesRight <? 1
          then onmessage payload = [errorMessage "Audio payload has no samples."]
          else if 2 ^ 32 <=? run_numBands payload
          then exists text, onmessage payload = [errorMessage text]
          else
            withinLimits payload samplesLeft samplesRight ->
            exists b,
              onmessage payload
              = (map (fun p => progressMessage (percent p) (stage p))
                     (stagesLog (numFrames b))
                 ++ [resultMessage b])%list /\
              numSamples b = run_numSamples payload samplesLeft samplesRight /\
              numFrames b = run_numFrames payload samplesLeft samplesRight
      end
  end.
Proof.
  unfold onmessage.
  destruct (channel (payload_left payload)) as [left|] eqn:Hl.
  - destruct (rightChannel payload left) as [right|] eqn:Hr.
    + destruct (run_numSamples payload left right <? 1) eqn:E.
      * rewrite (runPrecompute_channels payload left right Hl Hr), E. reflexivity.
      * apply Z.ltb_ge in E. destruct (2 ^ 32 <=? run_numBands payload) eqn:Eb.
        -- apply Z.leb_le in Eb.
           rewrite (runPrecompute_channels payload left right Hl Hr).
           replace (run_numSamples payload left right <? 1) with false
             by (symmetry; apply Z.ltb_ge; lia).
           rewrite runStages_too_many_bands by exact Eb.
           eexists. reflexivity.
        -- intros [Hf [_ Ha]].
           destruct (runPrecompute_returns payload left right Hl Hr E Hf Ha)
             as [b [H [Hs [_ Hn]]]].
           rewrite H. exists b. unfold run_numFrames. rewrite Hn. auto.
    + unfold rightChannel in Hr.
      destruct (truthy (payload_right payload)) eqn:Ht; [|discriminate].
      destruct (toFloat32Array_rejects _ "right" Hr) as [text Hthrow].
      unfold runPrecompute.
      rewrite (toFloat32Array_channel _ _ _ Hl), bind_ret_l, Ht, Hthrow.
      exists text. reflexivity.
  - destruct (toFloat32Array_rejects _ "left" Hl) as [text Hthrow].
    unfold runPrecompute. rewrite Hthrow. exists text. reflexivity.
Qed.

Lemma onmessage_outcome_witness :
  exists b,
    onmessage payloadMono
    = (map (fun p => progressMessage (percent p) (stage p)) (stagesLog (numFrames b))
       ++ [resultMessage b])%list /\
    numSamples b = run_numSamples payloadMono [0; 1; 0; -1]%R [0; 1; 0; -1]%R /\
    numFrames b = run_numFrames payloadMono [0; 1; 0; -1]%R [0; 1; 0; -1]%R.
Proof.
  assert (Hf : withinLimits payloadMono [0; 1; 0; -1]%R [0; 1; 0; -1]%R)
    by (split; [vm_compute; reflexivity|split; [vm_compute; reflexivity|small_run]]).
  exact (onmessage_outcome payloadMono Hf).
Defined.

(** X24. Whatever the request is and however the run ends, every progress
    notification that the worker posts carries a whole percent from 0 to
    100. *)
Theorem onmessage_percent_range (payload : Payload) :
  Forall (fun m => match m with
                   | progressMessage percent _ => 0 <= percent <= 100
                   | _ => True
                   end)
         (onmessage payload).
Proof.
  unfold onmessage. pose proof (progress_percent_in_range payload) as H.
  destruct (runPrecompute payload) as [log completion]. cbn [fst] in H.
  apply Forall_app. split.
  - apply Forall_forall. intros m Hm. apply in_map_iff in Hm.
    destruct Hm as [p [<- Hp]]. rewrite Forall_forall in H. exact (H p Hp).
  - destruct completion; repeat constructor.
Qed.

(** *** The frame loop, frame by frame *)

Lemma callFft_ret (re im : list R) (inverse : bool) (log : list progress)
    (r : list R * list R) :
  callFft re im inverse = (log, Returns r) ->
  log = [] /\
  FFT.fft {| FFT.re := re; FFT.im := im |} inverse
  = (Returns tt, {| FFT.re := fst r; FFT.im := snd r |}).
Proof.
  unfold callFft. destruct (FFT.fft _ inverse) as [[[]|e|] a] eqn:E; try discriminate.
  intros H. injection H as <- <-. cbn [fst snd]. split; [reflexivity|].
  destruct a. reflexivity.
Qed.

(** What one iteration of the frame loop leaves in the arrays. *)
Lemma frameStep_inv (left right : list R) (fftSize hopSize numFrames numBins : Z)
    (hannWindow : list R) (bandBinRanges : list binRange) (frame : Z) (s s' : stft)
    (log : list progress) :
  frameStep left right fftSize hopSize numFrames numBins hannWindow bandBinRanges frame s
  = (log, Returns s') ->
  exists l r,
    callFft (fillWindowedSignal (st_reLeft s) left (frame * hopSize) fftSize hannWindow)
            (fill (st_imLeft s) 0%R 0 (len (st_imLeft s))) false = ([], Returns l) /\
    callFft (fillWindowedSignal (st_reRight s) right (frame * hopSize) fftSize hannWindow)
            (fill (st_imRight s) 0%R 0 (len (st_imRight s))) false = ([], Returns r) /\
    let mL := fillMagnitudes (fst l) (snd l) (st_magnitudesLeft s) in
    let mR := fillMagnitudes (fst r) (snd r) (st_magnitudesRight s) in
    let fl := for_range 0 numBins
                (fluxStep frame (fst mL) (fst mR) (st_prevMixedMagnitudes s))
                (st_currMixedMagnitudes s, 0%R) in
    s' = {|
      st_bandsLeft := writeBandFrame (st_bandsLeft s) frame (fst mL) (snd mL) bandBinRanges;
      st_bandsRight :=
        writeBandFrame (st_bandsRight s) frame (fst mR) (snd mR) bandBinRanges;
      st_spectralFlux := wr (st_spectralFlux s) frame (snd fl / IZR numBins)%R;
      st_spectrogramTilesLeft :=
        writeSpectrogramFrame (st_spectrogramTilesLeft s) frame (fst mL) (snd mL)
          numBins TILE_SIZE;
      st_spectrogramTilesRight :=
        writeSpectrogramFrame (st_spectrogramTilesRight s) frame (fst mR) (snd mR)
          numBins TILE_SIZE;
      st_reLeft := fst l;
      st_imLeft := snd l;
      st_reRight := fst r;
      st_imRight := snd r;
      st_magnitudesLeft := fst mL;
      st_magnitudesRight := fst mR;
      st_prevMixedMagnitudes := fst fl;
      st_currMixedMagnitudes := st_prevMixedMagnitudes s
    |}.
Proof.
  unfold frameStep. intros H.
  destruct (callFft (fillWindowedSignal (st_reLeft s) left (frame * hopSize) fftSize
                       hannWindow)
                    (fill (st_imLeft s) 0%R 0 (len (st_imLeft s))) false)
    as [logL [l|e|]] eqn:EL; try discriminate.
  destruct (callFft_ret _ _ _ _ _ EL) as [-> _].
  change (@nil progress, Returns l) with (ret l) in H.
  rewrite bind_ret_l in H. destruct l as [reL imL].
  destruct (fillMagnitudes reL imL (st_magnitudesLeft s)) as [magL peakL] eqn:EmL.
  destruct (callFft (fillWindowedSignal (st_reRight s) right (frame * hopSize) fftSize
                       hannWindow)
                    (fill (st_imRight s) 0%R 0 (len (st_imRight s))) false)
    as [logR [r|e|]] eqn:ER; try discriminate.
  destruct (callFft_ret _ _ _ _ _ ER) as [-> _].
  change (@nil progress, Returns r) with (ret r) in H.
  rewrite bind_ret_l in H. destruct r as [reR imR].
  destruct (fillMagnitudes reR imR (st_magnitudesRight s)) as [magR peakR] eqn:EmR.
  destruct (for_range 0 numBins _ _) as [curr flux] eqn:Efl.
  exists (reL, imL), (reR, imR). split; [reflexivity|]. split; [reflexivity|].
  cbn [fst snd]. rewrite EmL, EmR. cbn [fst snd]. rewrite Efl. cbn [fst snd].
  destruct ((and32 frame 31 =? 0) || (frame =? numFrames - 1)).
  - rewrite bind_post in H. cbn [fst snd ret] in H. injection H as _ <-. reflexivity.
  - injection H as _ <-. reflexivity.
Qed.

(** The bundle of a run that returns, in terms of the arrays that the frame
    loop leaves. *)
Lemma runStages_bundle (sampleRate : R) (fftSize hopSize numBands numSamples : Z)
    (left right : list R) (log : list progress) (b : Bundle) :
  runStages sampleRate fftSize hopSize numBands numSamples left right = (log, Returns b) ->
  let numFrames := frameCount numSamples fftSize hopSize in
  let numBins := shr32 fftSize 1 in
  let bandFrequencies := computeBandFrequencies numBands sampleRate in
  let bandBinRanges := computeBandBinRanges bandFrequencies sampleRate fftSize numBins in
  let s0 := {|
    st_bandsLeft := alloc 0 (numFrames * numBands);
    st_bandsRight := alloc 0 (numFrames * numBands);
    st_spectralFlux := alloc 0%R numFrames;
    st_spectrogramTilesLeft := createSpectrogramTiles numFrames numBins TILE_SIZE;
    st_spectrogramTilesRight := createSpectrogramTiles numFrames numBins TILE_SIZE;
    st_reLeft := alloc 0%R fftSize;
    st_imLeft := alloc 0%R fftSize;
    st_reRight := alloc 0%R fftSize;
    st_imRight := alloc 0%R fftSize;
    st_magnitudesLeft := alloc 0%R numBins;
    st_magnitudesRight := alloc 0%R numBins;
    st_prevMixedMagnitudes := alloc 0%R numBins;
    st_currMixedMagnitudes := alloc 0%R numBins
  |} in
  exists s llog,
    for_range_M 0 numFrames
      (frameStep left right fftSize hopSize numFrames numBins (createHannWindow fftSize)
         bandBinRanges) s0 = (llog, Returns s) /\
    b = {|
      Worker.sampleRate := sampleRate;
      Worker.numSamples := numSamples;
      Worker.numFrames := numFrames;
      duration := (IZR numSamples / sampleRate)%R;
      Worker.fftSize := fftSize;
      Worker.hopSize := hopSize;
      Worker.numBands := numBands;
      waveformLODs := {| lods_left := computeWaveformLODs left WAVEFORM_SCALES;
                         lods_right := computeWaveformLODs right WAVEFORM_SCALES;
                         scales := WAVEFORM_SCALES |};
      rmsLeft := computeRmsEnvelope left numFrames hopSize;
      rmsRight := computeRmsEnvelope right numFrames hopSize;
      bandsLeft := st_bandsLeft s;
      bandsRight := st_bandsRight s;
      spectralFlux := st_spectralFlux s;
      onsets := detectOnsets (st_spectralFlux s)
                  (computeRunningMedian (st_spectralFlux s) 10);
      phaseCorrelation := computePhaseCorrelation left right numFrames hopSize;
      spectrogramTilesLeft := st_spectrogramTilesLeft s;
      spectrogramTilesRight := st_spectrogramTilesRight s;
      tileSize := TILE_SIZE;
      faults :=
        detectFaults left right numSamples numFrames sampleRate hopSize
          (computeRmsEnvelope left numFrames hopSize)
          (computeRmsEnvelope right numFrames hopSize)
          (st_spectralFlux s) (computeRunningMedian (st_spectralFlux s) 10)
          (computePhaseCorrelation left right numFrames hopSize);
      Worker.bandFrequencies := bandFrequencies
    |}.
Proof.
  unfold runStages. cbv zeta. fold (frameCount numSamples fftSize hopSize).
  set (numFrames := frameCount numSamples fftSize hopSize).
  intros H.
  allocated H G1 (newArray numBands).
  repeat (rewrite bind_post in H; cbv beta in H).
  allocated H G2 (newTypedArray (numFrames * numBands)).
  allocated H G3 (newArray (Z.max 1 (Math_ceil (IZR numFrames / IZR TILE_SIZE)))).
  allocated H G4 (newTypedArray (Z.min TILE_SIZE numFrames * shr32 fftSize 1)).
  repeat (rewrite bind_post in H; cbv beta in H).
  match type of H with
  | context [for_range_M 0 numFrames ?body ?s0] =>
      destruct (for_range_M 0 numFrames body s0) as [llog [s|e|]] eqn:Hloop
  end.
  - unfold bind at 1 in H.
    repeat (rewrite bind_post in H; cbv beta in H). cbn [fst snd ret] in H.
    injection H as _ <-. exists s, llog. split; reflexivity.
  - cbn in H. discriminate.
  - cbn in H. discriminate.
Qed.


Lemma writeBandFrame_length (destination : list Z) (frameIndex : Z) (magnitudes : list R)
    (peak : R) (bandRanges : list binRange) :
  len (writeBandFrame destination frameIndex magnitudes peak bandRanges) = len destination.
Proof.
  unfold writeBandFrame. destruct (Rleb peak EPSILON); [apply fill_length|].
  apply (for_range_preserves (fun t => len t = len destination)); [reflexivity|].
  intros j t Ht. unfold bandStep. now rewrite len_wr.
Qed.

Lemma writeSpectrogramFrame_length (tiles : list (list Z)) (frameIndex : Z)
    (magnitudes : list R) (peak : R) (numBins tileSize : Z) :
  len (writeSpectrogramFrame tiles frameIndex magnitudes peak numBins tileSize) = len tiles.
Proof.
  unfold writeSpectrogramFrame. destruct (rd_opt tiles _); [|reflexivity].
  destruct (Rleb peak EPSILON); apply len_wr.
Qed.

Lemma frameCount_pos (numSamples fftSize hopSize : Z) :
  1 <= frameCount numSamples fftSize hopSize.
Proof. unfold frameCount. lia. Qed.

(** The lengths of the arrays of a run that returns. *)
Lemma runStages_shape (sampleRate : R) (fftSize hopSize numBands numSamples : Z)
    (left right : list R) (log : list progress) (b : Bundle) :
  0 <= numBands ->
  runStages sampleRate fftSize hopSize numBands numSamples left right = (log, Returns b) ->
  let n := frameCount numSamples fftSize hopSize in
  len (bandsLeft b) = n * numBands /\ len (bandsRight b) = n * numBands /\
  len (spectralFlux b) = n /\
  len (spectrogramTilesLeft b) = Z.max 1 (Math_ceil (IZR n / IZR TILE_SIZE)) /\
  len (spectrogramTilesRight b) = Z.max 1 (Math_ceil (IZR n / IZR TILE_SIZE)).
Proof.
  intros Hnb H n. pose proof (frameCount_pos numSamples fftSize hopSize) as Hn.
  fold n in Hn.
  destruct (runStages_bundle _ _ _ _ _ _ _ _ _ H) as [s [llog [Hloop ->]]].
  cbv zeta in Hloop. fold n in Hloop. cbn [bandsLeft bandsRight spectralFlux
    spectrogramTilesLeft spectrogramTilesRight].
  refine (for_range_M_inv
            (fun t => len (st_bandsLeft t) = n * numBands /\
                      len (st_bandsRight t) = n * numBands /\
                      len (st_spectralFlux t) = n /\
                      len (st_spectrogramTilesLeft t)
                      = Z.max 1 (Math_ceil (IZR n / IZR TILE_SIZE)) /\
                      len (st_spectrogramTilesRight t)
                      = Z.max 1 (Math_ceil (IZR n / IZR TILE_SIZE)))
            _ 0 n _ s llog Hloop _ _).
  - cbn [st_bandsLeft st_bandsRight st_spectralFlux st_spectrogramTilesLeft
         st_spectrogramTilesRight].
    rewrite !len_alloc by nia. unfold createSpectrogramTiles.
    rewrite len_tabulate by lia. tauto.
  - intros j t l t' [H1 [H2 [H3 [H4 H5]]]] Hstep.
    destruct (frameStep_inv _ _ _ _ _ _ _ _ _ _ _ _ Hstep) as [x [y [_ [_ Ht']]]].
    cbv zeta in Ht'. subst t'.
    cbn [st_bandsLeft st_bandsRight st_spectralFlux st_spectrogramTilesLeft
         st_spectrogramTilesRight].
    rewrite !writeBandFrame_length, len_wr, !writeSpectrogramFrame_length. tauto.
Qed.

(** X25. The bundle of a run that returns has the shape that its readers
    index it by: at least one sample and one frame, the frame count
    [max (1, floor ((numSamples - fftSize) / hopSize) + 1)], one cell per
    frame in the two RMS envelopes, the spectral flux and the phase
    correlation, [numBands] bytes per frame in the two band arrays, one pair
    of edges per band, four levels of detail per channel and tiles of 1000
    frames. *)
Theorem bundle_shape (payload : Payload) (log : list progress) (b : Bundle) :
  runPrecompute payload = (log, Returns b) ->
  1 <= numSamples b /\ 1 <= numFrames b /\ 1 <= numBands b /\ 1 <= hopSize b /\
  numFrames b = frameCount (numSamples b) (fftSize b) (hopSize b) /\
  fftSize b = run_fftSize payload /\ hopSize b = run_hopSize payload /\
  numBands b = run_numBands payload /\
  len (rmsLeft b) = numFrames b /\ len (rmsRight b) = numFrames b /\
  len (spectralFlux b) = numFrames b /\ len (phaseCorrelation b) = numFrames b /\
  len (bandsLeft b) = numFrames b * numBands b /\
  len (bandsRight b) = numFrames b * numBands b /\
  len (bandFrequencies b) = numBands b /\
  len (lods_left (waveformLODs b)) = 4 /\ len (lods_right (waveformLODs b)) = 4 /\
  scales (waveformLODs b) = [64; 256; 1024; 4096] /\
  tileSize b = 1000 /\
  len (spectrogramTilesLeft b) = Z.max 1 (Math_ceil (IZR (numFrames b) / 1000)) /\
  len (spectrogramTilesRight b) = Z.max 1 (Math_ceil (IZR (numFrames b) / 1000)).
Proof.
  intros H.
  destruct (runPrecompute_inv payload log b H) as [left [right [_ [_ [Hn Hs]]]]].
  assert (Hnb : 1 <= run_numBands payload) by (unfold run_numBands; lia).
  assert (Hh : 1 <= run_hopSize payload) by (unfold run_hopSize; lia).
  assert (Hnb0 : 0 <= run_numBands payload) by lia.
  destruct (runStages_shape _ _ _ _ _ _ _ _ _ Hnb0 Hs) as [H1 [H2 [H3 [H4 H5]]]].
  destruct (runStages_bundle _ _ _ _ _ _ _ _ _ Hs) as [s [llog [_ Hb]]].
  cbv zeta in H1, H2, H3, H4, H5.
  pose proof (frameCount_pos (run_numSamples payload left right) (run_fftSize payload)
                (run_hopSize payload)) as Hf.
  clear H Hs. subst b.
  cbn [Worker.numSamples Worker.numFrames Worker.numBands Worker.hopSize Worker.fftSize
       rmsLeft rmsRight spectralFlux phaseCorrelation bandsLeft bandsRight
       Worker.bandFrequencies waveformLODs lods_left lods_right scales tileSize
       spectrogramTilesLeft spectrogramTilesRight] in *.
  unfold computeRmsEnvelope, computePhaseCorrelation, computeBandFrequencies,
    computeWaveformLODs.
  rewrite !len_tabulate by lia.
  change (IZR TILE_SIZE) with 1000%R in H4, H5.
  repeat split; try assumption; try lia; try reflexivity.
Qed.

Lemma bundle_shape_witness :
  exists log b,
    runPrecompute payloadMono = (log, Returns b) /\
    1 <= numSamples b /\ 1 <= numFrames b /\ 1 <= numBands b /\ 1 <= hopSize b /\
    numFrames b = frameCount (numSamples b) (fftSize b) (hopSize b) /\
    fftSize b = run_fftSize payloadMono /\ hopSize b = run_hopSize payloadMono /\
    numBands b = run_numBands payloadMono /\
    len (rmsLeft b) = numFrames b /\ len (rmsRight b) = numFrames b /\
    len (spectralFlux b) = numFrames b /\ len (phaseCorrelation b) = numFrames b /\
    len (bandsLeft b) = numFrames b * numBands b /\
    len (bandsRight b) = numFrames b * numBands b /\
    len (bandFrequencies b) = numBands b /\
    len (lods_left (waveformLODs b)) = 4 /\ len (lods_right (waveformLODs b)) = 4 /\
    scales (waveformLODs b) = [64; 256; 1024; 4096] /\
    tileSize b = 1000 /\
    len (spectrogramTilesLeft b) = Z.max 1 (Math_ceil (IZR (numFrames b) / 1000)) /\
    len (spectrogramTilesRight b) = Z.max 1 (Math_ceil (IZR (numFrames b) / 1000)).
Proof.
  assert (Hn : 1 <= run_numSamples payloadMono [0; 1; 0; -1]%R [0; 1; 0; -1]%R)
    by (vm_compute; discriminate).
  assert (Hf : run_fftSize payloadMono < 2 ^ 30) by (vm_compute; reflexivity).
  destruct (runPrecompute_returns payloadMono _ _ eq_refl eq_refl Hn Hf
              payloadMono_allocatable) as [b [H _]].
  eexists. exists b. split; [exact H|].
  exact (bundle_shape payloadMono _ b H).
Defined.

(** *** Spectral flux *)

Lemma flux_loop (frame : Z) (magnitudesLeft magnitudesRight prev curr : list R)
    (numBins : Z) :
  let fl := for_range 0 numBins (fluxStep frame magnitudesLeft magnitudesRight prev)
              (curr, 0%R) in
  (0 <= snd fl)%R /\ (frame <= 0 -> snd fl = 0%R).
Proof.
  cbv zeta.
  apply (for_range_preserves (fun s : list R * R =>
           (0 <= snd s)%R /\ (frame <= 0 -> snd s = 0%R))).
  - cbn [snd]. split; [lra|reflexivity].
  - intros j [c f] [Hf Hz]. cbn [snd] in *. unfold fluxStep.
    destruct (0 <? frame) eqn:E.
    + apply Z.ltb_lt in E.
      destruct (Rltb 0 _) eqn:Ed; cbn [snd].
      * apply Rltb_true in Ed. split; [lra|lia].
      * split; [exact Hf|lia].
    + cbn [snd]. split; [exact Hf|exact Hz].
Qed.

Lemma numBins_pos (fftSize : Z) :
  fftSize < 2 ^ 31 -> isPowerOfTwo fftSize = true -> 1 <= shr32 fftSize 1.
Proof.
  intros Hlt Hp. unfold isPowerOfTwo in Hp. apply andb_prop in Hp.
  destruct Hp as [Hp _]. apply Z.ltb_lt in Hp.
  rewrite shr32_1 by lia. apply Z.div_le_lower_bound; lia.
Qed.

(** X26. In the bundle of a run that returns (transform size below 2^30),
    no cell of the spectral flux is negative, and the flux of frame 0, which
    has no frame before it, is 0. *)
Theorem spectralFlux_nonneg (payload : Payload) (log : list progress) (b : Bundle) :
  runPrecompute payload = (log, Returns b) -> run_fftSize payload < 2 ^ 30 ->
  rd 0%R (spectralFlux b) 0 = 0%R /\
  forall frame, (0 <= rd 0 (spectralFlux b) frame)%R.
Proof.
  intros H Hf.
  destruct (runPrecompute_inv payload log b H) as [left [right [_ [_ [_ Hs]]]]].
  destruct (runStages_bundle _ _ _ _ _ _ _ _ _ Hs) as [s [llog [Hloop ->]]].
  cbv zeta in Hloop. cbn [spectralFlux].
  pose proof (numBins_pos (run_fftSize payload) ltac:(lia)
                (sanitize_accepted (payload_fftSize payload))) as Hbins.
  fold (run_fftSize payload) in Hbins.
  set (numBins := shr32 (run_fftSize payload) 1) in *.
  assert (HB : (0 < IZR numBins)%R) by (apply IZR_lt; lia).
  refine (for_range_M_inv
            (fun t => rd 0%R (st_spectralFlux t) 0 = 0%R /\
                      forall frame, (0 <= rd 0 (st_spectralFlux t) frame)%R)
            _ 0 _ _ s llog Hloop _ _).
  - cbn [st_spectralFlux].
    assert (Hz : forall k n, rd 0%R (alloc 0%R n) k = 0%R).
    { intros k n. unfold rd, alloc. destruct (k <? 0); [reflexivity|].
      destruct (nth_in_or_default (Z.to_nat k) (repeat 0%R (Z.to_nat n)) 0%R)
        as [Hin|Hd]; [|exact Hd].
      apply repeat_spec in Hin. exact Hin. }
    split; [apply Hz|]. intros frame. rewrite Hz. lra.
  - intros j t l t' [H0 Hall] Hstep.
    destruct (frameStep_inv _ _ _ _ _ _ _ _ _ _ _ _ Hstep) as [x [y [_ [_ Ht']]]].
    cbv zeta in Ht'. subst t'. cbn [st_spectralFlux].
    match goal with
    | |- context [wr _ j (snd ?fl / _)%R] =>
        pose proof (flux_loop j
                      (fst (fillMagnitudes (fst x) (snd x) (st_magnitudesLeft t)))
                      (fst (fillMagnitudes (fst y) (snd y) (st_magnitudesRight t)))
                      (st_prevMixedMagnitudes t) (st_currMixedMagnitudes t) numBins)
          as [Hpos Hzero];
        set (v := (snd fl / IZR numBins)%R) in *
    end.
    cbv zeta in Hpos, Hzero.
    assert (Hv : (0 <= v)%R).
    { unfold v. apply Rmult_le_pos; [exact Hpos|].
      left. apply Rinv_0_lt_compat. exact HB. }
    assert (Hcell : forall k, (0 <= rd 0 (wr (st_spectralFlux t) j v) k)%R).
    { intros k. destruct (Z.eq_dec j k) as [->|Hne].
      - destruct (Z_lt_ge_dec k 0) as [Hneg|Hge].
        + unfold wr. replace (k <? 0) with true by (symmetry; apply Z.ltb_lt; lia).
          apply Hall.
        + destruct (Z_lt_ge_dec k (len (st_spectralFlux t))) as [Hin|Hout].
          * rewrite rd_wr_same by lia. exact Hv.
          * unfold rd. replace (k <? 0) with false by (symmetry; apply Z.ltb_ge; lia).
            rewrite nth_overflow; [lra|].
            rewrite wr_length. unfold len in Hout. lia.
      - rewrite rd_wr_other by exact Hne. apply Hall. }
    split; [|exact Hcell].
    destruct (Z.eq_dec j 0) as [->|Hne].
    + destruct (Z_lt_ge_dec 0 (len (st_spectralFlux t))) as [Hin|Hout].
      * rewrite rd_wr_same by lia. unfold v. rewrite Hzero by lia. field. lra.
      * unfold rd. cbn [Z.ltb Z.compare]. rewrite nth_overflow; [reflexivity|].
        rewrite wr_length. unfold len in Hout. lia.
    + rewrite rd_wr_other by exact Hne. exact H0.
Qed.

Lemma spectralFlux_nonneg_witness :
  exists log b,
    runPrecompute payloadMono = (log, Returns b) /\
    rd 0%R (spectralFlux b) 0 = 0%R /\
    forall frame, (0 <= rd 0 (spectralFlux b) frame)%R.
Proof.
  assert (Hn : 1 <= run_numSamples payloadMono [0; 1; 0; -1]%R [0; 1; 0; -1]%R)
    by (vm_compute; discriminate).
  assert (Hf : run_fftSize payloadMono < 2 ^ 30) by (vm_compute; reflexivity).
  destruct (runPrecompute_returns payloadMono _ _ eq_refl eq_refl Hn Hf
              payloadMono_allocatable) as [b [H _]].
  eexists. exists b. split; [exact H|].
  exact (spectralFlux_nonneg payloadMono _ b H Hf).
Defined.

(** *** Two equal channels *)

(** X27. When the two channels of a request hold the same samples (the
    right channel a copy of the left one, or left out), the bundle of the run
    is the same on both sides: the levels of detail, the RMS envelopes, the
    band arrays and the spectrogram tiles of the left and of the right are
    equal; the phase correlation is 0 or 1 in every frame, and no
    phase-inversion fault is reported. *)
Theorem equal_channels_bundle (payload : Payload) (samples : list R)
    (log : list progress) (b : Bundle) :
  runPrecompute payload = (log, Returns b) ->
  channel (payload_left payload) = Some samples ->
  rightChannel payload samples = Some samples ->
  lods_left (waveformLODs b) = lods_right (waveformLODs b) /\
  rmsLeft b = rmsRight b /\ bandsLeft b = bandsRight b /\
  spectrogramTilesLeft b = spectrogramTilesRight b /\
  (forall frame, 0 <= frame < numFrames b ->
     rd 0%R (phaseCorrelation b) frame = 0%R \/ rd 0%R (phaseCorrelation b) frame = 1%R) /\
  Forall (fun f => type f <> phase_inversion) (faults b).
Proof.
  intros H Hl Hr.
  destruct (runPrecompute_inv payload log b H) as [left [right [Hl' [Hr' [_ Hs]]]]].
  rewrite Hl in Hl'. injection Hl' as <-. rewrite Hr in Hr'. injection Hr' as <-.
  set (n := run_numSamples payload samples samples) in *.
  set (c := cut samples n) in *.
  destruct (runStages_bundle _ _ _ _ _ _ _ _ _ Hs) as [s [llog [Hloop ->]]].
  cbv zeta in Hloop.
  cbn [waveformLODs lods_left lods_right rmsLeft rmsRight bandsLeft bandsRight
       spectrogramTilesLeft spectrogramTilesRight phaseCorrelation faults
       Worker.numFrames].
  assert (Hsym : st_bandsLeft s = st_bandsRight s /\
                 st_spectrogramTilesLeft s = st_spectrogramTilesRight s /\
                 st_reLeft s = st_reRight s /\ st_imLeft s = st_imRight s /\
                 st_magnitudesLeft s = st_magnitudesRight s).
  { refine (for_range_M_inv
              (fun t => st_bandsLeft t = st_bandsRight t /\
                        st_spectrogramTilesLeft t = st_spectrogramTilesRight t /\
                        st_reLeft t = st_reRight t /\ st_imLeft t = st_imRight t /\
                        st_magnitudesLeft t = st_magnitudesRight t)
              _ 0 _ _ s llog Hloop _ _).
    - cbn. tauto.
    - intros j t l t' [H1 [H2 [H3 [H4 H5]]]] Hstep.
      destruct (frameStep_inv _ _ _ _ _ _ _ _ _ _ _ _ Hstep) as [x [y [Hx [Hy Ht']]]].
      cbv zeta in Ht'. rewrite <- H3, <- H4 in Hy. rewrite Hx in Hy.
      injection Hy as <-. subst t'. cbn. rewrite <- H1, <- H2, <- H5. tauto. }
  destruct Hsym as [Hb [Ht _]].
  split; [reflexivity|]. split; [reflexivity|]. split; [exact Hb|]. split; [exact Ht|].
  set (numFrames := frameCount n (run_fftSize payload) (run_hopSize payload)).
  split; [intros frame Hf; apply correlation_same; exact Hf|].
  apply detectFaults_no_phase. apply no_runs.
  intros i Hi. pose proof (frameCount_pos n (run_fftSize payload)
                             (run_hopSize payload)) as Hn. fold numFrames in Hn.
  unfold computePhaseCorrelation in Hi. rewrite len_tabulate in Hi by lia.
  destruct (correlation_same c numFrames (run_hopSize payload) i Hi) as [-> | ->];
    unfold Rltb; destruct (Rlt_dec _ _); try reflexivity; lra.
Qed.

Lemma equal_channels_bundle_witness :
  exists log b,
    runPrecompute payloadMono = (log, Returns b) /\
    lods_left (waveformLODs b) = lods_right (waveformLODs b) /\
    rmsLeft b = rmsRight b /\ bandsLeft b = bandsRight b /\
    spectrogramTilesLeft b = spectrogramTilesRight b /\
    (forall frame, 0 <= frame < numFrames b ->
       rd 0%R (phaseCorrelation b) frame = 0%R \/
       rd 0%R (phaseCorrelation b) frame = 1%R) /\
    Forall (fun f => type f <> phase_inversion) (faults b).
Proof.
  assert (Hn : 1 <= run_numSamples payloadMono [0; 1; 0; -1]%R [0; 1; 0; -1]%R)
    by (vm_compute; discriminate).
  assert (Hf : run_fftSize payloadMono < 2 ^ 30) by (vm_compute; reflexivity).
  destruct (runPrecompute_returns payloadMono _ _ eq_refl eq_refl Hn Hf
              payloadMono_allocatable) as [b [H _]].
  eexists. exists b. split; [exact H|].
  exact (equal_channels_bundle payloadMono [0; 1; 0; -1]%R _ b H eq_refl eq_refl).
Defined.

(** *** Frames and samples *)

(** X29. The frames of a bundle are laid over the samples.  When the
    samples fill at least one transform window, every frame is a whole
    window of samples and no further whole window fits:
    [(numFrames - 1) * hopSize + fftSize <= numSamples
     < numFrames * hopSize + fftSize];
    with fewer samples than one window there is the single frame 0, padded
    with zeros. *)
Theorem frames_cover_samples (payload : Payload) (log : list progress) (b : Bundle) :
  runPrecompute payload = (log, Returns b) ->
  (fftSize b <= numSamples b ->
   (numFrames b - 1) * hopSize b + fftSize b <= numSamples b /\
   numSamples b < numFrames b * hopSize b + fftSize b) /\
  (numSamples b < fftSize b -> numFrames b = 1).
Proof.
  intros H.
  destruct (runPrecompute_inv payload log b H) as [left [right [_ [_ [Hn Hs]]]]].
  destruct (runStages_bundle _ _ _ _ _ _ _ _ _ Hs) as [s [llog [_ ->]]].
  cbn [Worker.numSamples Worker.numFrames Worker.hopSize Worker.fftSize].
  assert (Hh : 1 <= run_hopSize payload) by (unfold run_hopSize; lia).
  set (n := run_numSamples payload left right) in *.
  set (f := run_fftSize payload). set (h := run_hopSize payload) in *.
  unfold frameCount, Math_floor. rewrite Zfloor_div by lia.
  pose proof (Z.div_mod (n - f) h ltac:(lia)) as Hdm.
  pose proof (Z.mod_pos_bound (n - f) h ltac:(lia)) as Hm.
  split.
  - intros Hfit.
    assert (Hq : 0 <= (n - f) / h) by (apply Z.div_pos; lia).
    rewrite Z.max_r by lia. nia.
  - intros Hshort.
    assert (Hq : (n - f) / h < 0) by (apply Z.div_lt_upper_bound; lia).
    lia.
Qed.

Lemma frames_cover_samples_witness :
  exists log b,
    runPrecompute payloadMono = (log, Returns b) /\
    (fftSize b <= numSamples b ->
     (numFrames b - 1) * hopSize b + fftSize b <= numSamples b /\
     numSamples b < numFrames b * hopSize b + fftSize b) /\
    (numSamples b < fftSize b -> numFrames b = 1).
Proof.
  assert (Hn : 1 <= run_numSamples payloadMono [0; 1; 0; -1]%R [0; 1; 0; -1]%R)
    by (vm_compute; discriminate).
  assert (Hf : run_fftSize payloadMono < 2 ^ 30) by (vm_compute; reflexivity).
  destruct (runPrecompute_returns payloadMono _ _ eq_refl eq_refl Hn Hf
              payloadMono_allocatable) as [b [H _]].
  eexists. exists b. split; [exact H|].
  exact (frames_cover_samples payloadMono _ b H).
Defined.

(** *** The order of the progress notifications *)

Lemma sorted_app (l1 l2 : list Z) :
  StronglySorted Z.le l1 -> StronglySorted Z.le l2 ->
  (forall x y, In x l1 -> In y l2 -> x <= y) ->
  StronglySorted Z.le (l1 ++ l2).
Proof.
  intros H1 H2 H. induction H1 as [|x t Ht IH Hx]; [exact H2|].
  cbn [app]. constructor.
  - apply IH. intros a c Ha Hc. apply H; [right; exact Ha|exact Hc].
  - apply Forall_app. split; [exact Hx|].
    apply Forall_forall. intros y Hy. apply H; [left; reflexivity|exact Hy].
Qed.

Lemma Math_round_le (x y : R) : (x <= y)%R -> Math_round x <= Math_round y.
Proof. intros H. unfold Math_round. apply Zfloor_le. lra. Qed.

Lemma framePercent_mono (numFrames a c : Z) :
  1 <= numFrames -> a <= c -> framePercent numFrames a <= framePercent numFrames c.
Proof.
  intros Hn Hac. unfold framePercent.
  assert (HN : (1 <= IZR numFrames)%R) by (apply IZR_le; exact Hn).
  assert (Hinv : (0 < / IZR numFrames)%R) by (apply Rinv_0_lt_compat; lra).
  assert (Ha : (IZR (a + 1) <= IZR (c + 1))%R) by (apply IZR_le; lia).
  assert (Hle : (20 + IZR (a + 1) / IZR numFrames * 50
                 <= 20 + IZR (c + 1) / IZR numFrames * 50)%R) by (unfold Rdiv; nra).
  pose proof (Math_round_le _ _ Hle). lia.
Qed.

Lemma framePercent_bounds (numFrames frame : Z) :
  1 <= numFrames -> 0 <= frame < numFrames -> 20 <= framePercent numFrames frame <= 70.
Proof.
  intros Hn Hf. unfold framePercent.
  assert (HN : (1 <= IZR numFrames)%R) by (apply IZR_le; exact Hn).
  assert (Hinv : (0 < / IZR numFrames)%R) by (apply Rinv_0_lt_compat; lra).
  assert (H0 : (0 <= IZR (frame + 1))%R) by (apply IZR_le; lia).
  assert (H1 : (IZR (frame + 1) <= IZR numFrames)%R) by (apply IZR_le; lia).
  assert (Hq0 : (0 <= IZR (frame + 1) / IZR numFrames)%R) by (unfold Rdiv; nra).
  assert (Hq1 : (IZR (frame + 1) / IZR numFrames <= 1)%R).
  { apply Rmult_le_reg_r with (IZR numFrames); [lra|].
    unfold Rdiv. rewrite Rmult_assoc, Rinv_l by lra. lra. }
  pose proof (Math_round_le 20 (20 + IZR (frame + 1) / IZR numFrames * 50) ltac:(lra))
    as Hlo.
  pose proof (Math_round_le (20 + IZR (frame + 1) / IZR numFrames * 50) 70 ltac:(lra))
    as Hhi.
  rewrite Math_round_IZR in Hlo, Hhi. lia.
Qed.

Lemma framePercent_first (numFrames : Z) :
  1 <= numFrames <= 100 -> 21 <= framePercent numFrames 0.
Proof.
  intros Hn. unfold framePercent, Math_round.
  assert (HN : (1 <= IZR numFrames <= 100)%R) by (split; apply IZR_le; lia).
  assert (Hq : (/ 100 <= / IZR numFrames)%R) by (apply Rinv_le_contravar; lra).
  assert (Hx : (IZR 21 <= 20 + IZR (0 + 1) / IZR numFrames * 50 + / 2)%R).
  { change (IZR (0 + 1)) with 1%R. unfold Rdiv. lra. }
  pose proof (Zfloor_lub 21 _ Hx). lia.
Qed.

Lemma frameProgress_percent (numFrames frame : Z) :
  map percent (frameProgress numFrames frame) = [] \/
  map percent (frameProgress numFrames frame) = [framePercent numFrames frame].
Proof.
  unfold frameProgress. destruct (_ || _); [right|left]; reflexivity.
Qed.

Lemma frames_sorted (numFrames : Z) (k : nat) :
  1 <= numFrames ->
  forall lo,
    StronglySorted Z.le
      (map percent (flat_map (frameProgress numFrames) (range lo (lo + Z.of_nat k)))) /\
    Forall (fun p => exists j, lo <= j < lo + Z.of_nat k /\ p = framePercent numFrames j)
      (map percent (flat_map (frameProgress numFrames) (range lo (lo + Z.of_nat k)))).
Proof.
  intros Hn. induction k as [|k IH]; intros lo.
  - rewrite range_nil by lia. cbn. split; constructor.
  - rewrite range_cons by lia. cbn [flat_map]. rewrite map_app.
    replace (lo + Z.of_nat (S k)) with ((lo + 1) + Z.of_nat k) by lia.
    destruct (IH (lo + 1)) as [Hs Hb].
    assert (Hb' : Forall (fun p => exists j, lo <= j < lo + 1 + Z.of_nat k /\
                                             p = framePercent numFrames j)
                    (map percent (flat_map (frameProgress numFrames)
                                    (range (lo + 1) (lo + 1 + Z.of_nat k))))).
    { eapply Forall_impl; [|exact Hb]. cbv beta. intros p [j [Hj ->]].
      exists j. split; [lia|reflexivity]. }
    destruct (frameProgress_percent numFrames lo) as [-> | ->]; cbn [app].
    + split; [exact Hs|exact Hb'].
    + split.
      * constructor; [exact Hs|].
        eapply Forall_impl; [|exact Hb]. cbv beta. intros p [j [Hj ->]].
        apply framePercent_mono; lia.
      * constructor; [|exact Hb']. exists lo. split; [lia|reflexivity].
Qed.

(** X30. The percents of a run that returns (transform size below 2^30)
    are 2, 10, 20 and 21, then the percents of the frame loop, each between
    20 and 70 and none below the one before, then 75, 80, 85, 95 and 100.
    With at most 100 frames the whole sequence never decreases. *)
Theorem progress_order (payload : Payload) (log : list progress) (b : Bundle) :
  runPrecompute payload = (log, Returns b) -> run_fftSize payload < 2 ^ 30 ->
  exists frames,
    map percent log = ([2; 10; 20; 21] ++ frames ++ [75; 80; 85; 95; 100])%list /\
    Forall (fun p => 20 <= p <= 70) frames /\
    StronglySorted Z.le (frames ++ [75; 80; 85; 95; 100]) /\
    (numFrames b <= 100 -> StronglySorted Z.le (map percent log)).
Proof.
  intros H Hf.
  destruct (runPrecompute_inv payload log b H) as [left [right [Hl [Hr [Hn _]]]]].
  pose proof (runPrecompute_allocated payload left right log b Hl Hr H) as Ha.
  destruct (runPrecompute_returns payload left right Hl Hr Hn Hf Ha)
    as [b' [H' [_ [_ Hnf]]]].
  rewrite H in H'. injection H' as -> <-.
  set (n := numFrames b) in *.
  assert (Hn1 : 1 <= n) by (rewrite Hnf; apply frameCount_pos).
  destruct (frames_sorted n (Z.to_nat n) Hn1 0) as [Hs Hb].
  replace (0 + Z.of_nat (Z.to_nat n)) with n in Hs, Hb by lia.
  set (frames := map percent (flat_map (frameProgress n) (range 0 n))) in *.
  exists frames.
  assert (Hrange : Forall (fun p => 20 <= p <= 70) frames).
  { eapply Forall_impl; [|exact Hb]. cbv beta. intros p [j [Hj ->]].
    apply framePercent_bounds; lia. }
  assert (Htail : StronglySorted Z.le [75; 80; 85; 95; 100])
    by (repeat constructor; lia).
  assert (Hrest : StronglySorted Z.le (frames ++ [75; 80; 85; 95; 100])).
  { apply sorted_app; [exact Hs|exact Htail|].
    intros x y Hx Hy. rewrite Forall_forall in Hrange. specialize (Hrange x Hx).
    cbn [In] in Hy. lia. }
  rewrite <- Hnf. fold n.
  assert (Hlog : map percent (stagesLog n)
                 = ([2; 10; 20; 21] ++ frames ++ [75; 80; 85; 95; 100])%list).
  { unfold stagesLog. rewrite !map_app. reflexivity. }
  split; [exact Hlog|]. split; [exact Hrange|]. split; [exact Hrest|].
  intros H100. rewrite Hlog. cbn [app].
  assert (Hfirst : Forall (fun p => 21 <= p) (frames ++ [75; 80; 85; 95; 100])).
  { apply Forall_app. split; [|repeat constructor; lia].
    eapply Forall_impl; [|exact Hb]. cbv beta. intros p [j [Hj ->]].
    pose proof (framePercent_first n ltac:(lia)).
    pose proof (framePercent_mono n 0 j Hn1 ltac:(lia)). lia. }
  assert (Hge : forall c, c <= 21 ->
            Forall (fun p => c <= p) (frames ++ [75; 80; 85; 95; 100])).
  { intros c Hc. eapply Forall_impl; [|exact Hfirst]. cbv beta. intros p Hp. lia. }
  apply SSorted_cons;
    [apply SSorted_cons;
       [apply SSorted_cons; [apply SSorted_cons; [exact Hrest|apply Hge; lia]|]|]|].
  - constructor; [lia|apply Hge; lia].
  - constructor; [lia|]. constructor; [lia|apply Hge; lia].
  - constructor; [lia|]. constructor; [lia|]. constructor; [lia|apply Hge; lia].
Qed.

Lemma progress_order_witness :
  exists log b frames,
    runPrecompute payloadMono = (log, Returns b) /\
    map percent log = ([2; 10; 20; 21] ++ frames ++ [75; 80; 85; 95; 100])%list /\
    Forall (fun p => 20 <= p <= 70) frames /\
    StronglySorted Z.le (frames ++ [75; 80; 85; 95; 100]) /\
    (numFrames b <= 100 -> StronglySorted Z.le (map percent log)).
Proof.
  assert (Hn : 1 <= run_numSamples payloadMono [0; 1; 0; -1]%R [0; 1; 0; -1]%R)
    by (vm_compute; discriminate).
  assert (Hf : run_fftSize payloadMono < 2 ^ 30) by (vm_compute; reflexivity).
  destruct (runPrecompute_returns payloadMono _ _ eq_refl eq_refl Hn Hf
              payloadMono_allocatable) as [b [H _]].
  destruct (progress_order payloadMono _ b H Hf) as [frames Hp].
  eexists. exists b, frames. split; [exact H|exact Hp].
Defined.

End RunFacts.

(** ** A run over silence *)

Module SilentRun.
Import FFT Worker Notions Reference JSFacts FFTFacts OnsetFacts PipelineFacts.
Import Fourier TransformFacts DftFacts EngineFacts StageFacts FaultFacts RunFacts.

Lemma Forall_upd {A : Type} (P : A -> Prop) (a : list A) (n : nat) (v : A) :
  Forall P a -> P v -> Forall P (upd a n v).
Proof.
  intros Ha Hv. revert n. induction Ha as [|x t Hx Ht IH]; intros [|n]; cbn [upd];
    constructor; auto.
Qed.

Lemma Forall_wr {A : Type} (P : A -> Prop) (a : list A) (i : Z) (v : A) :
  Forall P a -> P v -> Forall P (wr a i v).
Proof. intros Ha Hv. unfold wr. destruct (i <? 0); [exact Ha|now apply Forall_upd]. Qed.

Lemma Forall_fill {A : Type} (P : A -> Prop) (a : list A) (v : A) (start stop : Z) :
  Forall P a -> P v -> Forall P (fill a v start stop).
Proof.
  intros Ha Hv. unfold fill. apply (for_range_preserves (Forall P)); [exact Ha|].
  intros j t Ht. now apply Forall_wr.
Qed.

Lemma Forall_alloc {A : Type} (P : A -> Prop) (v : A) (n : Z) : P v -> Forall P (alloc v n).
Proof.
  intros Hv. unfold alloc. apply Forall_forall. intros x Hx.
  apply repeat_spec in Hx. now subst x.
Qed.

Lemma Forall_rd {A : Type} (P : A -> Prop) (d : A) (a : list A) (i : Z) :
  Forall P a -> P d -> P (rd d a i).
Proof.
  intros Ha Hd. unfold rd. destruct (i <? 0); [exact Hd|].
  destruct (nth_in_or_default (Z.to_nat i) a d) as [Hin | ->]; [|exact Hd].
  rewrite Forall_forall in Ha. now apply Ha.
Qed.

Lemma cells_Forall {A : Type} (P : A -> Prop) (d : A) (a : list A) :
  (forall i, 0 <= i < len a -> P (rd d a i)) -> Forall P a.
Proof.
  intros H. apply Forall_forall. intros x Hx.
  destruct (In_nth a x d Hx) as [n [Hn <-]].
  specialize (H (Z.of_nat n)). unfold rd, len in H.
  replace (Z.of_nat n <? 0) with false in H by (symmetry; apply Z.ltb_ge; lia).
  rewrite Nat2Z.id in H. apply H. lia.
Qed.

Lemma Forall_tabulate {A : Type} (P : A -> Prop) (n : Z) (f : Z -> A) :
  (forall i, 0 <= i < n -> P (f i)) -> Forall P (tabulate n f).
Proof.
  intros H. unfold tabulate. apply Forall_forall. intros x Hx.
  apply in_map_iff in Hx. destruct Hx as [i [<- Hi]]. apply in_range in Hi. now apply H.
Qed.

Lemma zero_cell (a : list R) (i : Z) : allZeroR a -> rd 0%R a i = 0%R.
Proof. intros Ha. now apply (Forall_rd (fun x => x = 0%R)). Qed.

Lemma Forall_take {A : Type} (P : A -> Prop) (a : list A) (n : nat) :
  Forall P a -> Forall P (firstn n a).
Proof.
  intros Ha. revert n. induction Ha as [|x t Hx Ht IH]; intros [|n]; cbn [firstn];
    constructor; auto.
Qed.

Lemma allZero_slice0 (a : list R) (n : Z) : allZeroR a -> allZeroR (slice0 a n).
Proof. unfold allZeroR, slice0. apply Forall_take. Qed.

Lemma allZero_cut (a : list R) (n : Z) : allZeroR a -> allZeroR (cut a n).
Proof. intros H. unfold cut. destruct (negb _); [now apply allZero_slice0|exact H]. Qed.

Lemma fill_whole (a : list R) : allZeroR (fill a 0%R 0 (len a)).
Proof.
  pose proof (len_nonneg a) as H0.
  destruct (fill_spec 0%R a 0%R 0 (len a)) as [Hl Hc]; [lia|lia|].
  apply (cells_Forall _ 0%R). intros i Hi. rewrite Hl in Hi. rewrite Hc.
  replace (0 <=? i) with true by (symmetry; apply Z.leb_le; lia).
  replace (i <? len a) with true by (symmetry; apply Z.ltb_lt; lia).
  reflexivity.
Qed.

(** *** The stages on silence *)

Lemma fillWindowedSignal_zero (target samples : list R) (start fftSize : Z)
    (window : list R) :
  allZeroR samples -> len target = fftSize ->
  allZeroR (fillWindowedSignal target samples start fftSize window).
Proof.
  intros Hs Ht. pose proof (len_nonneg target) as H0.
  apply (cells_Forall _ 0%R). intros i Hi. rewrite fillWindowedSignal_length in Hi.
  rewrite fillWindowedSignal_cells by lia.
  replace (0 <=? i) with true by (symmetry; apply Z.leb_le; lia).
  replace (i <? fftSize) with true by (symmetry; apply Z.ltb_lt; lia).
  cbn [andb]. destruct (start + i <? len samples); [|reflexivity].
  rewrite (zero_cell samples) by exact Hs. ring.
Qed.

Lemma dit_zero (sign : R) (k : nat) :
  forall (x : Z -> C) (j : Z), (forall m, x m = (0, 0)%R) -> dit sign k x j = (0, 0)%R.
Proof.
  induction k as [|k IH]; intros x j Hx; [apply Hx|].
  cbn [dit]. cbv zeta.
  rewrite !(IH (fun m => x (2 * m))) by (intros m; apply Hx).
  rewrite !(IH (fun m => x (2 * m + 1))) by (intros m; apply Hx).
  destruct (j <? 2 ^ Z.of_nat k); unfold Cadd, Csub, Cmul; cbn [fst snd];
    apply pair_equal_spec; split; ring.
Qed.

Lemma power_exponent (n : Z) :
  n < 2 ^ 30 -> isPowerOfTwo n = true -> exists k, (1 <= k <= 29)%nat /\ n = 2 ^ Z.of_nat k.
Proof.
  intros Hn Hp. apply isPowerOfTwo_spec in Hp; [|lia].
  destruct Hp as [k [Hk ->]]. exists (Z.to_nat k).
  replace (Z.of_nat (Z.to_nat k)) with k by lia. split; [|reflexivity].
  destruct (Z_le_gt_dec k 29) as [Hle|Hgt]; [lia|exfalso].
  assert (2 ^ 30 <= 2 ^ k) by (apply Z.pow_le_mono_r; lia). lia.
Qed.

Lemma callFft_zero (re im : list R) (n : Z) (log : list progress) (r : list R * list R) :
  n < 2 ^ 30 -> isPowerOfTwo n = true ->
  len re = n -> len im = n -> allZeroR re -> allZeroR im ->
  callFft re im false = (log, Returns r) ->
  len (fst r) = n /\ len (snd r) = n /\ allZeroR (fst r) /\ allZeroR (snd r).
Proof.
  intros Hn Hp Hr Hi Zr Zi H.
  destruct (callFft_ret _ _ _ _ _ H) as [_ Hfft].
  destruct (power_exponent n Hn Hp) as [k [Hk ->]].
  destruct (fft_spec k {| FFT.re := re; FFT.im := im |} false Hk) as [a' [Ha' [Hs Hv]]];
    [split; assumption|].
  rewrite Ha' in Hfft. injection Hfft as ->.
  destruct Hs as [Hs1 Hs2]. cbn [FFT.re FFT.im] in Hs1, Hs2.
  split; [exact Hs1|]. split; [exact Hs2|].
  assert (Hcell : forall j, 0 <= j < 2 ^ Z.of_nat k ->
            rd 0%R (fst r) j = 0%R /\ rd 0%R (snd r) j = 0%R).
  { intros j Hj. specialize (Hv j Hj). unfold val in Hv. cbn [FFT.re FFT.im] in Hv.
    rewrite (dit_local (-1) k _ (fun _ => (0, 0)%R)) in Hv.
    - rewrite dit_zero in Hv by reflexivity. unfold Cscale in Hv. cbn [fst snd] in Hv.
      injection Hv as H1 H2. split; lra.
    - intros m Hm. now rewrite !zero_cell.
    - exact Hj. }
  split; apply (cells_Forall _ 0%R); intros j Hj; apply Hcell; lia.
Qed.

Lemma fillMagnitudes_zero (re im out : list R) :
  allZeroR re -> allZeroR im -> allZeroR out ->
  allZeroR (fst (fillMagnitudes re im out)) /\ snd (fillMagnitudes re im out) = 0%R.
Proof.
  intros Zr Zi Zo. unfold fillMagnitudes.
  apply (for_range_preserves (fun s : list R * R => allZeroR (fst s) /\ snd s = 0%R)).
  - cbn [fst snd]. split; [exact Zo|reflexivity].
  - intros j [o p] [Ho Hp]. cbn [fst snd] in *. subst p.
    rewrite !zero_cell by assumption.
    assert (Hm : Math_hypot 0 0 = 0%R).
    { unfold Math_hypot. replace (0 * 0 + 0 * 0)%R with 0%R by ring. apply sqrt_0. }
    rewrite Hm. destruct (Rgt_dec 0 0) as [Hgt|_]; [lra|]. cbn [fst snd].
    split; [|reflexivity]. now apply Forall_wr.
Qed.

Lemma zero_peak_silent : Rleb 0 EPSILON = true.
Proof. apply Rleb_true. unfold EPSILON. lra. Qed.

Lemma writeBandFrame_zero (destination : list Z) (frameIndex : Z) (magnitudes : list R)
    (bandRanges : list binRange) :
  allZeroZ destination ->
  allZeroZ (writeBandFrame destination frameIndex magnitudes 0%R bandRanges).
Proof.
  intros H. unfold writeBandFrame. rewrite zero_peak_silent. now apply Forall_fill.
Qed.

Lemma writeSpectrogramFrame_zero (tiles : list (list Z)) (frameIndex : Z)
    (magnitudes : list R) (numBins tileSize : Z) :
  Forall allZeroZ tiles ->
  Forall allZeroZ (writeSpectrogramFrame tiles frameIndex magnitudes 0%R numBins tileSize).
Proof.
  intros H. unfold writeSpectrogramFrame.
  destruct (rd_opt tiles _) as [tile|] eqn:E; [|exact H].
  rewrite zero_peak_silent. apply Forall_wr; [exact H|].
  apply Forall_fill; [|reflexivity].
  rewrite Forall_forall in H. apply H.
  unfold rd_opt in E. destruct (_ <? 0); [discriminate|].
  eapply nth_error_In. exact E.
Qed.

Lemma flux_zero (frame : Z) (magnitudesLeft magnitudesRight prev curr : list R)
    (numBins : Z) :
  allZeroR magnitudesLeft -> allZeroR magnitudesRight -> allZeroR prev -> allZeroR curr ->
  let fl := for_range 0 numBins (fluxStep frame magnitudesLeft magnitudesRight prev)
              (curr, 0%R) in
  allZeroR (fst fl) /\ snd fl = 0%R.
Proof.
  intros Zl Zr Zp Zc. cbv zeta.
  apply (for_range_preserves (fun s : list R * R => allZeroR (fst s) /\ snd s = 0%R)).
  - cbn [fst snd]. split; [exact Zc|reflexivity].
  - intros j [c f] [Hc Hf]. cbn [fst snd] in *. subst f. unfold fluxStep.
    rewrite !zero_cell by assumption.
    replace (0.5 * (0 + 0))%R with 0%R by ring.
    replace (0 - 0)%R with 0%R by ring.
    assert (Hn : Rltb 0 0 = false).
    { unfold Rltb. destruct (Rlt_dec 0 0); [lra|reflexivity]. }
    rewrite Hn. destruct (0 <? frame); cbn [fst snd];
      (split; [now apply Forall_wr|reflexivity]).
Qed.

Lemma frameStep_silent (left right : list R) (fftSize hopSize numFrames numBins : Z)
    (hannWindow : list R) (bandBinRanges : list binRange) (frame : Z) (s s' : stft)
    (log : list progress) :
  fftSize < 2 ^ 30 -> isPowerOfTwo fftSize = true ->
  allZeroR left -> allZeroR right ->
  silentState fftSize s ->
  frameStep left right fftSize hopSize numFrames numBins hannWindow bandBinRanges frame s
  = (log, Returns s') ->
  silentState fftSize s'.
Proof.
  intros Hn Hp Zl Zr [[H1 [H2 [H3 H4]]] [Zbl [Zbr [Zf [Ztl [Ztr [Zml [Zmr [Zpv Zcu]]]]]]]]] H.
  destruct (frameStep_inv _ _ _ _ _ _ _ _ _ _ _ _ H) as [x [y [Hx [Hy Hs']]]].
  cbv zeta in Hs'.
  assert (Zx : len (fst x) = fftSize /\ len (snd x) = fftSize /\
               allZeroR (fst x) /\ allZeroR (snd x)).
  { refine (callFft_zero _ _ fftSize _ _ Hn Hp _ _ _ _ Hx).
    - now rewrite fillWindowedSignal_length.
    - now rewrite fill_length.
    - now apply fillWindowedSignal_zero.
    - apply fill_whole. }
  assert (Zy : len (fst y) = fftSize /\ len (snd y) = fftSize /\
               allZeroR (fst y) /\ allZeroR (snd y)).
  { refine (callFft_zero _ _ fftSize _ _ Hn Hp _ _ _ _ Hy).
    - now rewrite fillWindowedSignal_length.
    - now rewrite fill_length.
    - now apply fillWindowedSignal_zero.
    - apply fill_whole. }
  destruct Zx as [Lx1 [Lx2 [Zx1 Zx2]]]. destruct Zy as [Ly1 [Ly2 [Zy1 Zy2]]].
  destruct (fillMagnitudes_zero (fst x) (snd x) (st_magnitudesLeft s) Zx1 Zx2 Zml)
    as [ZmL PL].
  destruct (fillMagnitudes_zero (fst y) (snd y) (st_magnitudesRight s) Zy1 Zy2 Zmr)
    as [ZmR PR].
  rewrite PL, PR in Hs'.
  destruct (flux_zero frame _ _ _ _ numBins ZmL ZmR Zpv Zcu) as [Zfl Ffl].
  cbv zeta in Zfl, Ffl. rewrite Ffl in Hs'. subst s'.
  unfold silentState, scratch.
  cbn [st_bandsLeft st_bandsRight st_spectralFlux st_spectrogramTilesLeft
       st_spectrogramTilesRight st_reLeft st_imLeft st_reRight st_imRight
       st_magnitudesLeft st_magnitudesRight st_prevMixedMagnitudes
       st_currMixedMagnitudes].
  split; [tauto|].
  split; [now apply writeBandFrame_zero|]. split; [now apply writeBandFrame_zero|].
  split; [apply Forall_wr; [exact Zf|unfold Rdiv; ring]|].
  split; [now apply writeSpectrogramFrame_zero|].
  split; [now apply writeSpectrogramFrame_zero|].
  tauto.
Qed.

Lemma rms_zero (samples : list R) (numFrames hopSize : Z) :
  allZeroR samples -> allZeroR (computeRmsEnvelope samples numFrames hopSize).
Proof.
  intros Hs. unfold computeRmsEnvelope. apply Forall_tabulate. intros frame _.
  cbv zeta. destruct (len samples <=? frame * hopSize); [reflexivity|].
  match goal with
  | |- context [for_range ?lo ?hi ?body 0%R] =>
      assert (H : for_range lo hi body 0%R = 0%R)
  end.
  { apply (for_range_preserves (fun s => s = 0%R)); [reflexivity|].
    intros j t ->. rewrite zero_cell by exact Hs. ring. }
  rewrite H. replace (0 / _)%R with 0%R by (unfold Rdiv; ring). apply sqrt_0.
Qed.

Lemma correlation_zero (left right : list R) (numFrames hopSize : Z) :
  allZeroR left -> allZeroR right ->
  allZeroR (computePhaseCorrelation left right numFrames hopSize).
Proof.
  intros Hl Hr. unfold computePhaseCorrelation. apply Forall_tabulate. intros frame _.
  cbv zeta. destruct (len left <=? frame * hopSize); [reflexivity|].
  match goal with
  | |- context [for_range ?lo ?hi ?body (0, 0, 0)%R] =>
      assert (H : for_range lo hi body (0, 0, 0)%R = (0, 0, 0)%R)
  end.
  { apply (for_range_preserves (fun s : R * R * R => s = (0, 0, 0)%R)); [reflexivity|].
    intros j t ->. rewrite !zero_cell by assumption.
    apply pair_equal_spec. split; [apply pair_equal_spec; split|]; ring. }
  rewrite H. replace (0 * 0)%R with 0%R by ring. rewrite sqrt_0, zero_peak_silent.
  reflexivity.
Qed.

Lemma onsets_zero (flux : list R) :
  allZeroR flux -> detectOnsets flux (computeRunningMedian flux 10) = [].
Proof.
  intros Hf. unfold detectOnsets. fold (rawOnsets flux (computeRunningMedian flux 10)).
  destruct (rawOnsets_spec flux (computeRunningMedian flux 10)) as [_ Hin].
  destruct (rawOnsets flux (computeRunningMedian flux 10)) as [|x t]; [reflexivity|].
  exfalso. destruct (Hin x) as [Hx _].
  destruct (Hx (or_introl eq_refl)) as [Hr [He _]].
  unfold exceedsThreshold, threshold in He.
  pose proof (len_nonneg flux) as H0.
  rewrite (rd_opt_in 0%R) in He
    by (unfold computeRunningMedian; rewrite len_tabulate; lia).
  rewrite (zero_cell flux) in He by exact Hf.
  unfold Rmax in He. destruct (Rle_dec _ _); lra.
Qed.

(** X28. A run over silence (every sample of both channels is 0, transform
    size below 2^30) that returns leaves zeros everywhere: the band arrays,
    the spectrogram tiles, the spectral flux, the RMS envelopes and the phase
    correlation hold only zeros, no onset is reported, and the dynamic-range
    fault carries the crest factor 0. *)
Theorem silent_run (payload : Payload) (samplesLeft samplesRight : list R)
    (log : list progress) (b : Bundle) :
  runPrecompute payload = (log, Returns b) ->
  channel (payload_left payload) = Some samplesLeft ->
  rightChannel payload samplesLeft = Some samplesRight ->
  allZeroR samplesLeft -> allZeroR samplesRight ->
  run_fftSize payload < 2 ^ 30 ->
  allZeroZ (bandsLeft b) /\ allZeroZ (bandsRight b) /\
  Forall allZeroZ (spectrogramTilesLeft b) /\ Forall allZeroZ (spectrogramTilesRight b) /\
  allZeroR (spectralFlux b) /\ onsets b = [] /\
  allZeroR (rmsLeft b) /\ allZeroR (rmsRight b) /\ allZeroR (phaseCorrelation b) /\
  In {| type := dynamic_range; severity := INFO; frameStart := 0;
        frameEnd := Z.max 0 (numFrames b - 1); crestFactorDb := Some 0%R |}
     (faults b).
Proof.
  intros H Hl Hr Zl Zr Hf.
  destruct (runPrecompute_inv payload log b H) as [left [right [Hl' [Hr' [Hn Hs]]]]].
  rewrite Hl in Hl'. injection Hl' as <-. rewrite Hr in Hr'. injection Hr' as <-.
  set (n := run_numSamples payload samplesLeft samplesRight) in *.
  pose proof (allZero_cut samplesLeft n Zl) as Zcl.
  pose proof (allZero_cut samplesRight n Zr) as Zcr.
  set (cl := cut samplesLeft n) in *. set (cr := cut samplesRight n) in *.
  destruct (runStages_bundle _ _ _ _ _ _ _ _ _ Hs) as [s [llog [Hloop ->]]].
  cbv zeta in Hloop.
  pose proof (sanitize_accepted (payload_fftSize payload)) as Hp.
  fold (run_fftSize payload) in Hp.
  assert (H0 : 0 <= run_fftSize payload).
  { unfold isPowerOfTwo in Hp. apply andb_prop in Hp. destruct Hp as [Hp _].
    apply Z.ltb_lt in Hp. lia. }
  assert (Hsil : silentState (run_fftSize payload) s).
  { refine (for_range_M_inv (silentState (run_fftSize payload)) _ 0 _ _ s llog Hloop _ _).
    - unfold silentState, scratch. cbn. rewrite !len_alloc by lia.
      split; [tauto|].
      repeat split; try (apply Forall_alloc; reflexivity).
      + unfold createSpectrogramTiles. apply Forall_tabulate. intros i _.
        apply Forall_alloc. reflexivity.
      + unfold createSpectrogramTiles. apply Forall_tabulate. intros i _.
        apply Forall_alloc. reflexivity.
    - intros j t l t' Ht Hstep.
      exact (frameStep_silent _ _ _ _ _ _ _ _ _ _ _ _ Hf Hp Zcl Zcr Ht Hstep). }
  destruct Hsil as [_ [Zbl [Zbr [Zfl [Ztl [Ztr _]]]]]].
  cbn [bandsLeft bandsRight spectrogramTilesLeft spectrogramTilesRight spectralFlux
       onsets rmsLeft rmsRight phaseCorrelation faults Worker.numFrames].
  split; [exact Zbl|]. split; [exact Zbr|]. split; [exact Ztl|]. split; [exact Ztr|].
  split; [exact Zfl|]. split; [now apply onsets_zero|].
  split; [now apply rms_zero|]. split; [now apply rms_zero|].
  split; [now apply correlation_zero|].
  unfold detectFaults. cbv zeta. unfold detectMonoSegmentFaults.
  apply in_or_app. left.
  match goal with
  | |- In _ (detectDynamicRangeFault ?F cl cr n ?nf) =>
      destruct (detectDynamicRangeFault_spec F cl cr n nf ltac:(lia)) as [peak [Hpk ->]]
  end.
  rewrite (crestOf_silence cl cr n peak Hpk) by (intros i _; split; now apply zero_cell).
  apply in_or_app. right. left. reflexivity.
Qed.

Lemma silent_run_witness :
  exists log b,
    runPrecompute payload1000 = (log, Returns b) /\
    allZeroZ (bandsLeft b) /\ allZeroZ (bandsRight b) /\
    Forall allZeroZ (spectrogramTilesLeft b) /\ Forall allZeroZ (spectrogramTilesRight b) /\
    allZeroR (spectralFlux b) /\ onsets b = [] /\
    allZeroR (rmsLeft b) /\ allZeroR (rmsRight b) /\ allZeroR (phaseCorrelation b) /\
    In {| type := dynamic_range; severity := INFO; frameStart := 0;
          frameEnd := Z.max 0 (numFrames b - 1); crestFactorDb := Some 0%R |}
       (faults b).
Proof.
  assert (Hn : 1 <= run_numSamples payload1000 [0%R] [0%R]) by (vm_compute; discriminate).
  assert (Hf : run_fftSize payload1000 < 2 ^ 30) by (vm_compute; reflexivity).
  destruct (runPrecompute_returns payload1000 [0%R] [0%R] eq_refl eq_refl Hn Hf
              payload1000_allocatable)
    as [b [H _]].
  eexists. exists b. split; [exact H|].
  apply (silent_run payload1000 [0%R] [0%R] _ b H eq_refl eq_refl).
  - repeat constructor.
  - repeat constructor.
  - exact Hf.
Defined.

End SilentRun.

(* ------------------------------------------------------------------ *)
(** * Runs over a pulse train *)
(* ------------------------------------------------------------------ *)

(** A run over [payloadPulses n pulse]: frames of four samples, one band,
    each frame all 1 or all 0.  The run is followed with [n] kept as a
    variable, so that it also covers runs of more than 2^32 frames.  With
    two pulses the arrays that such a run grows by [push] stay short,
    whatever [n] is: two onsets, and one fault for each of the few runs of
    samples or of frames that the fault rules find. *)

Module PulseRun.
Import JS FFT Worker Notions Reference JSFacts FFTFacts OnsetFacts PipelineFacts.
Import Fourier TransformFacts DftFacts EngineFacts StageFacts FaultFacts RunFacts SilentRun.

(** *** The signal *)







(** *** The transform of the two kinds of frame *)




(** *** Magnitudes and flux of a frame *)


Lemma pulseMagnitude_nonneg (bin : Z) : (0 <= pulseMagnitude bin)%R.
Proof. apply Math_hypot_nonneg. Qed.

Lemma magnitudeOf_nonneg (pulse : Z -> bool) (f bin : Z) :
  (0 <= magnitudeOf pulse f bin)%R.
Proof.
  unfold magnitudeOf. destruct (pulse f); [apply pulseMagnitude_nonneg|lra].
Qed.







(** *** The run over a pulse train *)





(** *** The flux of a pulse *)






(** *** Two pulses *)










End PulseRun.
